(** * A shallow embedding of the benchmark programs

    Two programs of the repository are embedded here:

    - the toy-language front end of [src/ast/c/ast.c] and
      [src/ast-wasm/c/wasm_ast.c] (tokenizer, recursive-descent parser and
      the two JSON serializers), in module [Ast], with the text buffer of
      the second file in module [Json];
    - the sorting benchmark of [src/sort/c/sort.c]: its three sorting
      routines in module [Sort], and the program around them (the readers
      of the data and of the configuration, [run_benchmark] and [main]) in
      module [Bench].

    C [int] values are modelled by [Z].  The offsets into the source text
    and into the token array, which the front end keeps between [0] and the
    length of its input, are modelled by [nat]; the text is taken to be
    shorter than [INT_MAX] characters, so that neither they nor the line and
    column counters overflow.  In the sorting routines the indices stay
    within one step of the bounds of an array of at most [MAX_DATA_SIZE]
    cells and are computed in [Z] as they are; the one product that can leave
    the range of [int], [exp *= 10] in [radix_sort], stops the run with
    [Sort.SignedOverflow] when it does.  [malloc] and [realloc] are assumed
    to succeed, so the manual capacity doubling of the token and statement
    arrays does not appear: those arrays are lists that grow at the end.
    The text of a separator or operator token lies in an array that is dead
    when the token is stored; what is read there later is the parameter
    [dead_text] of the front end, and every statement about the front end
    holds for all its values. *)

From Stdlib Require Import String Ascii ZArith List Lia Bool Permutation Sorted.
From Stdlib Require Import DecimalString DecimalPos DecimalZ.
From stdpp Require Import list sorting.

Module Ast.

Local Open Scope string_scope.
Local Open Scope Z_scope.

(** ** Tokens *)

Inductive TokenType : Set :=
| TOKEN_EOF
| TOKEN_VAR | TOKEN_IF | TOKEN_ELSE | TOKEN_WHILE
| TOKEN_LPAREN | TOKEN_RPAREN | TOKEN_LBRACE | TOKEN_RBRACE | TOKEN_SEMICOLON
| TOKEN_PLUS | TOKEN_MINUS | TOKEN_MULTIPLY | TOKEN_DIVIDE
| TOKEN_GREATER | TOKEN_LESS | TOKEN_EQUAL
| TOKEN_NUMBER | TOKEN_STRING
| TOKEN_IDENTIFIER.

(** The integer value of the C enumerator, as printed by ["%d"]. *)
Definition TokenType_ordinal (t : TokenType) : Z :=
  match t with
  | TOKEN_EOF => 0
  | TOKEN_VAR => 1 | TOKEN_IF => 2 | TOKEN_ELSE => 3 | TOKEN_WHILE => 4
  | TOKEN_LPAREN => 5 | TOKEN_RPAREN => 6 | TOKEN_LBRACE => 7
  | TOKEN_RBRACE => 8 | TOKEN_SEMICOLON => 9
  | TOKEN_PLUS => 10 | TOKEN_MINUS => 11 | TOKEN_MULTIPLY => 12
  | TOKEN_DIVIDE => 13
  | TOKEN_GREATER => 14 | TOKEN_LESS => 15 | TOKEN_EQUAL => 16
  | TOKEN_NUMBER => 17 | TOKEN_STRING => 18
  | TOKEN_IDENTIFIER => 19
  end.

Definition TokenType_eqb (a b : TokenType) : bool :=
  TokenType_ordinal a =? TokenType_ordinal b.

Record Token : Set := mkToken {
  type : TokenType;
  value : string;
  line : Z;
  column : Z
}.

Inductive TokenizeState : Set :=
| STATE_SEARCHING | STATE_STRING | STATE_NUMBER | STATE_IDENTIFIER.

(** ** Fatal exits

    Every failure of the front end is a call of [exit(1)] after a message on
    the error stream.  The last two constructors are not exits of the
    program.  [OutOfFuel] is the answer of a bounded loop or recursion of this
    embedding whose bound was too small; the theorems below show that
    [tokenize] never returns it.  [Undefined] stands for a read outside the
    initialised part of the token array, which the C code does not check; it
    can only arise from a token array that does not end with an end-of-input
    token, and [tokenize] always appends one. *)

Inductive failure : Set :=
| UnexpectedCharacter (c : ascii)
| UnexpectedSymbol (message : string) (at_line at_column : Z)
| UnexpectedEndOfInput
| OutOfFuel
| Undefined.

Inductive result (A : Type) : Type :=
| Ok (a : A)
| Exit (e : failure).
Arguments Ok {A} a.
Arguments Exit {A} e.

Definition bind {A B : Type} (r : result A) (k : A -> result B) : result B :=
  match r with
  | Ok a => k a
  | Exit e => Exit e
  end.

Notation "'let*' x ':=' r 'in' k" := (bind r (fun x => k))
  (at level 10, x name, r at level 100, k at level 200).
Notation "'let*' ' p ':=' r 'in' k" := (bind r (fun p => k))
  (at level 10, p pattern, r at level 100, k at level 200).

(** ** Character classes *)

Definition dquote : ascii := "034".
Definition newline : ascii := "010".
Definition tab : ascii := "009".

Definition is_digit (c : ascii) : bool :=
  (("0" <=? c) && (c <=? "9"))%char.

Definition is_alpha (c : ascii) : bool :=
  ((("a" <=? c) && (c <=? "z")) || (("A" <=? c) && (c <=? "Z"))
   || Ascii.eqb c "_")%char.

Definition is_whitespace (c : ascii) : bool :=
  Ascii.eqb c " " || Ascii.eqb c newline || Ascii.eqb c tab.

(** [input[k]] for a C string: past the last character sits the
    terminating zero. *)
Definition char_at (input : string) (k : nat) : ascii :=
  match String.get k input with
  | Some c => c
  | None => zero
  end.

(** [while (input[input_len]) input_len++]. *)
Fixpoint c_strlen (input : string) : nat :=
  match input with
  | EmptyString => 0
  | String c rest => if Ascii.eqb c zero then 0%nat else S (c_strlen rest)
  end.

(** [get_location_from_index]: the line and column of an offset, counted
    from the start of the text. *)
Fixpoint location_loop (n : nat) (k : nat) (input : string) (lc : Z * Z) : Z * Z :=
  match n with
  | O => lc
  | S n' =>
      let lc' := if Ascii.eqb (char_at input k) newline
                 then (fst lc + 1, 1)
                 else (fst lc, snd lc + 1) in
      location_loop n' (S k) input lc'
  end.

Definition get_location_from_index (index : nat) (input : string) : Z * Z :=
  location_loop index 0 input (1, 1).

(** ** Token array *)

Definition add_token (arr : list Token) (ty : TokenType) (v : string)
    (l c : Z) : list Token :=
  (arr ++ [mkToken ty v l c])%list.

Definition get_keyword_type (str : string) : TokenType :=
  if String.eqb str "var" then TOKEN_VAR
  else if String.eqb str "if" then TOKEN_IF
  else if String.eqb str "else" then TOKEN_ELSE
  else if String.eqb str "while" then TOKEN_WHILE
  else TOKEN_IDENTIFIER.

(** ** The tokenizer

    The local variables of [tokenize] that live across iterations of its
    scanning loop. *)

Record Scanner : Set := mkScanner {
  state : TokenizeState;
  state_start : nat;
  state_start_line : Z;
  state_start_column : Z;
  current_line : Z;
  current_column : Z;
  i : nat;
  tokens : list Token
}.

Definition scanner_init : Scanner :=
  mkScanner STATE_SEARCHING 0 1 1 1 1 0 nil.

Definition separator_type (c : ascii) : option TokenType :=
  if Ascii.eqb c "(" then Some TOKEN_LPAREN
  else if Ascii.eqb c ")" then Some TOKEN_RPAREN
  else if Ascii.eqb c ";" then Some TOKEN_SEMICOLON
  else if Ascii.eqb c "{" then Some TOKEN_LBRACE
  else if Ascii.eqb c "}" then Some TOKEN_RBRACE
  else None.

Definition operator_type (c : ascii) : option TokenType :=
  if Ascii.eqb c "+" then Some TOKEN_PLUS
  else if Ascii.eqb c "-" then Some TOKEN_MINUS
  else if Ascii.eqb c "*" then Some TOKEN_MULTIPLY
  else if Ascii.eqb c "/" then Some TOKEN_DIVIDE
  else if Ascii.eqb c ">" then Some TOKEN_GREATER
  else if Ascii.eqb c "<" then Some TOKEN_LESS
  else if Ascii.eqb c "=" then Some TOKEN_EQUAL
  else None.

(** The position update at the end of the [STATE_SEARCHING] case, followed
    by [i++]. *)
Definition advance (c : ascii) (s : Scanner) (st : TokenizeState)
    (start_line start_column : Z) (toks : list Token) : Scanner :=
  let '(l, col) := if Ascii.eqb c newline
                   then (current_line s + 1, 1)
                   else (current_line s, current_column s + 1) in
  mkScanner st (i s) start_line start_column l col (S (i s)) toks.

(** One iteration of the [while (i < input_len)] loop.  [no_dynamic_next]
    is declared inside the loop body and starts every iteration at [0].

    For a separator or an operator the text handed to [add_token] is the
    array [str], local to the branch: [add_token] stores its address, and
    the array is dead when the branch is left.  What is found behind that
    pointer afterwards is not what the branch wrote there, and nothing in the
    program determines it: it is the parameter [dead_text], by the index of
    the character.  The program reads such a text in one place,
    [parse_statement], which copies the text of the token after [var] before
    it checks the type of that token; the copy is dropped when the check
    fails. *)
Definition tokenize_step (dead_text : nat -> string) (input : string)
    (s : Scanner) : result Scanner :=
  let c := char_at input (i s) in
  let no_dynamic_next := false in
  match state s with
  | STATE_SEARCHING =>
      (* state_start = i is part of [advance] *)
      if Ascii.eqb c dquote then
        if no_dynamic_next then Exit (UnexpectedCharacter c)
        else Ok (advance c s STATE_STRING
                   (current_line s) (current_column s) (tokens s))
      else match separator_type c with
      | Some ty =>
          Ok (advance c s STATE_SEARCHING
                (state_start_line s) (state_start_column s)
                (add_token (tokens s) ty (dead_text (i s))
                   (current_line s) (current_column s)))
      | None =>
      match operator_type c with
      | Some ty =>
          Ok (advance c s STATE_SEARCHING
                (state_start_line s) (state_start_column s)
                (add_token (tokens s) ty (dead_text (i s))
                   (current_line s) (current_column s)))
      | None =>
      if is_digit c then
        if no_dynamic_next then Exit (UnexpectedCharacter c)
        else Ok (advance c s STATE_NUMBER
                   (current_line s) (current_column s) (tokens s))
      else if is_alpha c then
        if no_dynamic_next then Exit (UnexpectedCharacter c)
        else Ok (advance c s STATE_IDENTIFIER
                   (current_line s) (current_column s) (tokens s))
      else if is_whitespace c then
        Ok (advance c s STATE_SEARCHING
              (state_start_line s) (state_start_column s) (tokens s))
      else Exit (UnexpectedCharacter c)
      end
      end
  | STATE_IDENTIFIER =>
      if negb (is_alpha c) then
        let len := (i s - state_start s)%nat in
        let token_value := substring (state_start s) len input in
        let ty := get_keyword_type token_value in
        Ok (mkScanner STATE_SEARCHING (state_start s)
              (state_start_line s) (state_start_column s)
              (current_line s) (current_column s) (i s)
              (add_token (tokens s) ty token_value
                 (state_start_line s) (state_start_column s)))
      else
        Ok (mkScanner STATE_IDENTIFIER (state_start s)
              (state_start_line s) (state_start_column s)
              (current_line s) (current_column s) (S (i s)) (tokens s))
  | STATE_STRING =>
      if Ascii.eqb c dquote then
        let len := (i s - state_start s)%nat in
        let token_value := substring (state_start s) len input in
        Ok (mkScanner STATE_SEARCHING (state_start s)
              (state_start_line s) (state_start_column s)
              (current_line s) (current_column s) (S (i s))
              (add_token (tokens s) TOKEN_STRING token_value
                 (state_start_line s) (state_start_column s)))
      else
        Ok (mkScanner STATE_STRING (state_start s)
              (state_start_line s) (state_start_column s)
              (current_line s) (current_column s) (S (i s)) (tokens s))
  | STATE_NUMBER =>
      if negb (is_digit c) then
        let len := (i s - state_start s)%nat in
        let token_value := substring (state_start s) len input in
        Ok (mkScanner STATE_SEARCHING (state_start s)
              (state_start_line s) (state_start_column s)
              (current_line s) (current_column s) (i s)
              (add_token (tokens s) TOKEN_NUMBER token_value
                 (state_start_line s) (state_start_column s)))
      else
        Ok (mkScanner STATE_NUMBER (state_start s)
              (state_start_line s) (state_start_column s)
              (current_line s) (current_column s) (S (i s)) (tokens s))
  end.

(** The scanning loop, bounded by [fuel] iterations. *)
Fixpoint tokenize_loop (dead_text : nat -> string) (fuel : nat)
    (input : string) (input_len : nat) (s : Scanner) : result Scanner :=
  if (i s <? input_len)%nat then
    match fuel with
    | O => Exit OutOfFuel
    | S fuel' =>
        let* s' := tokenize_step dead_text input s in
        tokenize_loop dead_text fuel' input input_len s'
    end
  else Ok s.

(** An iteration either moves [i] forward or leaves it and returns to
    [STATE_SEARCHING], so twice the length of the text (and one more) bounds
    the number of iterations; see [tokenize_loop_enough]. *)
Definition tokenize (dead_text : nat -> string) (input : string)
    : result (list Token) :=
  let input_len := c_strlen input in
  let* s :=
    tokenize_loop dead_text (2 * input_len + 1) input input_len
      scanner_init in
  Ok (add_token (tokens s) TOKEN_EOF "EOF" (current_line s) (current_column s)).

(** ** Syntax trees

    [ASTNode] is the tagged union of the C code, one constructor per
    [NodeType] tag, with the fields of the matching member of the union.
    A field of type [ASTNode*] is an [option ASTNode], [None] being the null
    pointer; so is the [char*] operator of an expression, which the parser
    leaves null on a terminal expression.  A [StatementList] is the list of
    its [count] first cells. *)

Local Unset Elimination Schemes.

Inductive ASTNode : Set :=
| NODE_PROGRAM (block : option ASTNode)
| NODE_STATEMENT_BLOCK (statements : list (option ASTNode))
| NODE_VARIABLE_STATEMENT (identifier : string)
| NODE_IF_STATEMENT (condition block else_block : option ASTNode)
| NODE_WHILE_STATEMENT (condition block : option ASTNode)
| NODE_ASSIGNMENT_STATEMENT (identifier : string) (value : option ASTNode)
| NODE_CONDITION (left : option ASTNode) (operator : string)
    (right : option ASTNode)
| NODE_EXPRESSION (left_token : Token) (operator : option string)
    (right : option ASTNode).

Local Set Elimination Schemes.

Definition NodeType_ordinal (n : ASTNode) : Z :=
  match n with
  | NODE_PROGRAM _ => 0
  | NODE_STATEMENT_BLOCK _ => 1
  | NODE_VARIABLE_STATEMENT _ => 2
  | NODE_IF_STATEMENT _ _ _ => 3
  | NODE_WHILE_STATEMENT _ _ => 4
  | NODE_ASSIGNMENT_STATEMENT _ _ => 5
  | NODE_CONDITION _ _ _ => 6
  | NODE_EXPRESSION _ _ _ => 7
  end.

(** ** The parser *)

(** [current_token] is a pointer into [tokens] in the C code; the tokens are
    not modified while parsing, so the record holds the token it points to. *)
Record Parser : Set := mkParser {
  parser_tokens : list Token;
  token_count : nat;
  current_token_index : nat;
  current_token : Token
}.

Definition parser_error {A : Type} (parser : Parser) (message : string)
    : result A :=
  Exit (UnexpectedSymbol message
          (line (current_token parser)) (column (current_token parser))).

Definition next_token (parser : Parser) : result Parser :=
  let index := S (current_token_index parser) in
  if (token_count parser <=? index)%nat then Exit UnexpectedEndOfInput
  else match nth_error (parser_tokens parser) index with
       | Some t => Ok (mkParser (parser_tokens parser) (token_count parser)
                         index t)
       | None => Exit Undefined
       end.

Definition accept (parser : Parser) (token_type : TokenType)
    : result (bool * Parser) :=
  if TokenType_eqb (type (current_token parser)) token_type then
    let* parser' := next_token parser in Ok (true, parser')
  else Ok (false, parser).

Definition peek (parser : Parser) (token_type : TokenType) : bool :=
  TokenType_eqb (type (current_token parser)) token_type.

Definition expect (parser : Parser) (token_type : TokenType) : result Parser :=
  let* '(accepted, parser') := accept parser token_type in
  if accepted then Ok parser' else parser_error parser' "expect".

(** [r || accept(parser, token_type)], with the short circuit of C. *)
Definition or_accept (r : result (bool * Parser)) (token_type : TokenType)
    : result (bool * Parser) :=
  let* '(accepted, parser) := r in
  if accepted then Ok (true, parser) else accept parser token_type.

(** The chains [if (accept(..)) { operator = ".."; } else if (accept(..)) ..]
    of [parse_expression] and [parse_condition]: the operator text of the first
    token type of [ops] that is accepted, if any. *)
Fixpoint accept_operator (ops : list (TokenType * string)) (parser : Parser)
    : result (option string * Parser) :=
  match ops with
  | nil => Ok (None, parser)
  | (token_type, text) :: ops' =>
      let* '(accepted, parser') := accept parser token_type in
      if accepted then Ok (Some text, parser')
      else accept_operator ops' parser'
  end.

Definition expression_operators : list (TokenType * string) :=
  [(TOKEN_PLUS, "+"); (TOKEN_MINUS, "-"); (TOKEN_MULTIPLY, "*");
   (TOKEN_DIVIDE, "/")].

Definition condition_operators : list (TokenType * string) :=
  [(TOKEN_GREATER, ">"); (TOKEN_LESS, "<"); (TOKEN_EQUAL, "=")].

(** The recursive functions of the parser take a bound [fuel] on the depth
    of their calls. *)
Fixpoint parse_expression (fuel : nat) (parser : Parser)
    : result (ASTNode * Parser) :=
  match fuel with
  | O => Exit OutOfFuel
  | S fuel' =>
      let left_token := current_token parser in
      let* '(accepted, parser) :=
        or_accept (or_accept (accept parser TOKEN_NUMBER) TOKEN_STRING)
          TOKEN_IDENTIFIER in
      if accepted then
        let* '(op, parser) := accept_operator expression_operators parser in
        match op with
        | Some text =>
            let* '(right_node, parser) := parse_expression fuel' parser in
            Ok (NODE_EXPRESSION left_token (Some text) (Some right_node), parser)
        | None => Ok (NODE_EXPRESSION left_token None None, parser)
        end
      else parser_error parser "expression"
  end.

Definition parse_condition (fuel : nat) (parser : Parser)
    : result (ASTNode * Parser) :=
  let* '(left_node, parser) := parse_expression fuel parser in
  let* '(op, parser) := accept_operator condition_operators parser in
  match op with
  | Some text =>
      let* '(right_node, parser) := parse_expression fuel parser in
      Ok (NODE_CONDITION (Some left_node) text (Some right_node), parser)
  | None => parser_error parser "condition"
  end.

Definition statement_block (r : result (list (option ASTNode) * Parser))
    : result (ASTNode * Parser) :=
  let* '(statements, parser) := r in
  Ok (NODE_STATEMENT_BLOCK statements, parser).

(** [parse_statement], and the [do .. while (accept(parser, TOKEN_SEMICOLON))]
    loop of [parse_statement_block] as [statement_loop].  After [var] the
    text of the current token is copied ([strdup]) before [expect] checks
    that the token is an identifier: when a separator or an operator follows
    [var], the text copied is a dead one, and [expect] exits. *)
Fixpoint parse_statement (fuel : nat) (parser : Parser)
    : result (ASTNode * Parser) :=
  match fuel with
  | O => Exit OutOfFuel
  | S fuel' =>
      let parse_statement_block p := statement_block (statement_loop fuel' nil p) in
      let* '(accepted, parser) := accept parser TOKEN_VAR in
      if accepted then
        let identifier := value (current_token parser) in
        let* parser := expect parser TOKEN_IDENTIFIER in
        Ok (NODE_VARIABLE_STATEMENT identifier, parser)
      else
      let* '(accepted, parser) := accept parser TOKEN_IF in
      if accepted then
        let* parser := expect parser TOKEN_LPAREN in
        let* '(condition_node, parser) := parse_condition fuel' parser in
        let* parser := expect parser TOKEN_RPAREN in
        let* parser := expect parser TOKEN_LBRACE in
        let* '(block_node, parser) := parse_statement_block parser in
        let* parser := expect parser TOKEN_RBRACE in
        let* '(accepted, parser) := accept parser TOKEN_ELSE in
        let* '(else_block_node, parser) :=
          if accepted then
            let* parser := expect parser TOKEN_LBRACE in
            let* '(else_block_node, parser) := parse_statement_block parser in
            let* parser := expect parser TOKEN_RBRACE in
            Ok (Some else_block_node, parser)
          else Ok (None, parser) in
        Ok (NODE_IF_STATEMENT (Some condition_node) (Some block_node)
              else_block_node, parser)
      else
      let* '(accepted, parser) := accept parser TOKEN_WHILE in
      if accepted then
        let* parser := expect parser TOKEN_LPAREN in
        let* '(condition_node, parser) := parse_condition fuel' parser in
        let* parser := expect parser TOKEN_RPAREN in
        let* parser := expect parser TOKEN_LBRACE in
        let* '(block_node, parser) := parse_statement_block parser in
        let* parser := expect parser TOKEN_RBRACE in
        Ok (NODE_WHILE_STATEMENT (Some condition_node) (Some block_node), parser)
      else if peek parser TOKEN_IDENTIFIER then
        let identifier := value (current_token parser) in
        let* '(_, parser) := accept parser TOKEN_IDENTIFIER in
        let* parser := expect parser TOKEN_EQUAL in
        let* '(expression_node, parser) := parse_expression fuel' parser in
        Ok (NODE_ASSIGNMENT_STATEMENT identifier (Some expression_node), parser)
      else parser_error parser "statement"
  end
with statement_loop (fuel : nat) (statements : list (option ASTNode))
    (parser : Parser) : result (list (option ASTNode) * Parser) :=
  match fuel with
  | O => Exit OutOfFuel
  | S fuel' =>
      let* '(statement, parser) := parse_statement fuel' parser in
      let statements := (statements ++ [Some statement])%list in
      let* '(accepted, parser) := accept parser TOKEN_SEMICOLON in
      if accepted then statement_loop fuel' statements parser
      else Ok (statements, parser)
  end.

Definition parse_statement_block (fuel : nat) (parser : Parser)
    : result (ASTNode * Parser) :=
  statement_block (statement_loop fuel nil parser).

Definition parse_program (fuel : nat) (parser : Parser) : result ASTNode :=
  let* '(block, parser) := parse_statement_block fuel parser in
  if negb (TokenType_eqb (type (current_token parser)) TOKEN_EOF)
  then parser_error parser "program"
  else Ok (NODE_PROGRAM (Some block)).

(** Between two nested calls of the recursive functions at least one token
    is consumed, except from [statement_loop] to its first statement, so twice
    the number of tokens (and two more) bounds the depth. *)
Definition parse_fuel (token_array : list Token) : nat :=
  (2 * List.length token_array + 2)%nat.

Definition parse (token_array : list Token) : result ASTNode :=
  match token_array with
  | nil => Exit Undefined
  | first :: _ =>
      parse_program (parse_fuel token_array)
        (mkParser token_array (List.length token_array) 0 first)
  end.

(** [tokenize] followed by [parse], as both [parse_file] and [generateAst]
    call them. *)
Definition parse_source (dead_text : nat -> string) (input : string)
    : result ASTNode :=
  let* token_array := tokenize dead_text input in
  parse token_array.

(** What the parser accepts as the left token of an expression, and the
    text it stores for an operator token. *)
Definition is_operand (t : Token) : bool :=
  match type t with
  | TOKEN_NUMBER | TOKEN_STRING | TOKEN_IDENTIFIER => true
  | _ => false
  end.

Fixpoint operator_text (ops : list (TokenType * string)) (t : Token)
    : option string :=
  match ops with
  | nil => None
  | (token_type, text) :: ops' =>
      if TokenType_eqb (type t) token_type then Some text
      else operator_text ops' t
  end.

(** ** The serializers

    Both serializers are modelled by the text they produce: the characters
    written to the [FILE*], or appended to [json_result]. *)

Definition nl : string := String newline "".

(** [s] between double quotes. *)
Definition quoted (s : string) : string :=
  String dquote (s ++ String dquote "").

(** ["%d"]. *)
Definition print_int (n : Z) : string := NilZero.string_of_int (Z.to_int n).

Definition backslash : ascii := "092".

(** *** Streaming form, [ast.c] *)

Fixpoint write_json_chars (str : string) : string :=
  match str with
  | EmptyString => ""
  | String c rest =>
      (if Ascii.eqb c dquote then String backslash (String dquote "")
       else if Ascii.eqb c backslash then String backslash (String backslash "")
       else if Ascii.eqb c newline then String backslash "n"
       else if Ascii.eqb c tab then String backslash "t"
       else String c "")
      ++ write_json_chars rest
  end.

Definition write_json_string (str : string) (indent : nat) : string :=
  String dquote (write_json_chars str ++ String dquote "").

Fixpoint write_indent (indent : nat) : string :=
  match indent with
  | O => ""
  | S n => "  " ++ write_indent n
  end.

Definition write_token_to_json (token : Token) (indent : nat) : string :=
  "{" ++ nl ++
  write_indent (indent + 1)%nat ++
  quoted "type" ++ ": " ++ print_int (TokenType_ordinal (type token)) ++ "," ++ nl ++
  write_indent (indent + 1)%nat ++
  quoted "value" ++ ": " ++
  write_json_string (value token) (indent + 1)%nat ++
  "," ++ nl ++
  write_indent (indent + 1)%nat ++
  quoted "line" ++ ": " ++ print_int (line token) ++ "," ++ nl ++
  write_indent (indent + 1)%nat ++
  quoted "column" ++ ": " ++ print_int (column token) ++ nl ++
  write_indent indent ++
  "}".

(** [write_ast_to_json] on a node that is not null; the loop of
    [write_statement_list_to_json] is the inner [fix]. *)
Fixpoint write_node (node : ASTNode) (indent : nat) : string :=
  let write_ast_to_json (child : option ASTNode) (indent : nat) :=
    match child with
    | None => "null"
    | Some n => write_node n indent
    end in
  let write_statement_list_to_json :=
    fix loop (list : list (option ASTNode)) (indent : nat) : string :=
      match list with
      | nil => ""
      | statement :: rest =>
          write_indent (indent + 1)%nat ++
          write_ast_to_json statement (indent + 1)%nat ++
          (match rest with nil => "" | _ => "," end) ++
          nl ++
          loop rest indent
      end in
  "{" ++ nl ++
  write_indent (indent + 1)%nat ++
  quoted "type" ++ ": " ++ print_int (NodeType_ordinal node) ++
  match node with
  | NODE_PROGRAM block =>
      "," ++ nl ++
      write_indent (indent + 1)%nat ++
      quoted "data" ++ ": {" ++ nl ++
      write_indent (indent + 2)%nat ++
      quoted "block" ++ ": " ++
      write_ast_to_json block (indent + 2)%nat ++
      nl ++
      write_indent (indent + 1)%nat ++
      "}"
  | NODE_STATEMENT_BLOCK statements =>
      "," ++ nl ++
      write_indent (indent + 1)%nat ++
      quoted "data" ++ ": {" ++ nl ++
      write_indent (indent + 2)%nat ++
      quoted "statements" ++ ": " ++
      ("[" ++ nl ++
       write_statement_list_to_json statements (indent + 2)%nat ++
       write_indent (indent + 2)%nat ++
       "]") ++
      nl ++
      write_indent (indent + 1)%nat ++
      "}"
  | NODE_VARIABLE_STATEMENT identifier =>
      "," ++ nl ++
      write_indent (indent + 1)%nat ++
      quoted "data" ++ ": {" ++ nl ++
      write_indent (indent + 2)%nat ++
      quoted "identifier" ++ ": " ++
      write_json_string identifier (indent + 2)%nat ++
      nl ++
      write_indent (indent + 1)%nat ++
      "}"
  | NODE_IF_STATEMENT condition block else_block =>
      "," ++ nl ++
      write_indent (indent + 1)%nat ++
      quoted "data" ++ ": {" ++ nl ++
      write_indent (indent + 2)%nat ++
      quoted "condition" ++ ": " ++
      write_ast_to_json condition (indent + 2)%nat ++
      "," ++ nl ++
      write_indent (indent + 2)%nat ++
      quoted "block" ++ ": " ++
      write_ast_to_json block (indent + 2)%nat ++
      "," ++ nl ++
      write_indent (indent + 2)%nat ++
      quoted "elseBlock" ++ ": " ++
      write_ast_to_json else_block (indent + 2)%nat ++
      nl ++
      write_indent (indent + 1)%nat ++
      "}"
  | NODE_WHILE_STATEMENT condition block =>
      "," ++ nl ++
      write_indent (indent + 1)%nat ++
      quoted "data" ++ ": {" ++ nl ++
      write_indent (indent + 2)%nat ++
      quoted "condition" ++ ": " ++
      write_ast_to_json condition (indent + 2)%nat ++
      "," ++ nl ++
      write_indent (indent + 2)%nat ++
      quoted "block" ++ ": " ++
      write_ast_to_json block (indent + 2)%nat ++
      nl ++
      write_indent (indent + 1)%nat ++
      "}"
  | NODE_ASSIGNMENT_STATEMENT identifier value =>
      "," ++ nl ++
      write_indent (indent + 1)%nat ++
      quoted "data" ++ ": {" ++ nl ++
      write_indent (indent + 2)%nat ++
      quoted "identifier" ++ ": " ++
      write_json_string identifier (indent + 2)%nat ++
      "," ++ nl ++
      write_indent (indent + 2)%nat ++
      quoted "value" ++ ": " ++
      write_ast_to_json value (indent + 2)%nat ++
      nl ++
      write_indent (indent + 1)%nat ++
      "}"
  | NODE_CONDITION left_node operator right_node =>
      "," ++ nl ++
      write_indent (indent + 1)%nat ++
      quoted "data" ++ ": {" ++ nl ++
      write_indent (indent + 2)%nat ++
      quoted "left" ++ ": " ++
      write_ast_to_json left_node (indent + 2)%nat ++
      "," ++ nl ++
      write_indent (indent + 2)%nat ++
      quoted "operator" ++ ": " ++
      write_json_string operator (indent + 2)%nat ++
      "," ++ nl ++
      write_indent (indent + 2)%nat ++
      quoted "right" ++ ": " ++
      write_ast_to_json right_node (indent + 2)%nat ++
      nl ++
      write_indent (indent + 1)%nat ++
      "}"
  | NODE_EXPRESSION left_token operator right_node =>
      "," ++ nl ++
      write_indent (indent + 1)%nat ++
      quoted "data" ++ ": {" ++ nl ++
      write_indent (indent + 2)%nat ++
      quoted "leftToken" ++ ": " ++
      write_token_to_json left_token (indent + 2)%nat ++
      "," ++ nl ++
      write_indent (indent + 2)%nat ++
      quoted "operator" ++ ": " ++
      (match operator with
       | Some text => write_json_string text (indent + 2)%nat
       | None => "null"
       end) ++
      "," ++ nl ++
      write_indent (indent + 2)%nat ++
      quoted "right" ++ ": " ++
      write_ast_to_json right_node (indent + 2)%nat ++
      nl ++
      write_indent (indent + 1)%nat ++
      "}"
  end ++
  nl ++
  write_indent indent ++
  "}".

Definition write_ast_to_json (node : option ASTNode) (indent : nat) : string :=
  match node with
  | None => "null"
  | Some n => write_node n indent
  end.

(** *** Buffered form, [wasm_ast.c] *)

Definition hex_digit (n : nat) : ascii :=
  char_at "0123456789abcdef" n.

(** [sprintf(temp, "\u%04x", c)] for a byte [c]. *)
Definition unicode_escape (c : ascii) : string :=
  let n := nat_of_ascii c in
  String backslash
    ("u00" ++ String (hex_digit (n / 16)%nat)
                (String (hex_digit (n mod 16)%nat) "")).

Definition carriage_return : ascii := "013".
Definition backspace : ascii := "008".
Definition form_feed : ascii := "012".

Fixpoint json_escaped_chars (str : string) : string :=
  match str with
  | EmptyString => ""
  | String c rest =>
      (if Ascii.eqb c dquote then String backslash (String dquote "")
       else if Ascii.eqb c backslash then String backslash (String backslash "")
       else if Ascii.eqb c newline then String backslash "n"
       else if Ascii.eqb c tab then String backslash "t"
       else if Ascii.eqb c carriage_return then String backslash "r"
       else if Ascii.eqb c backspace then String backslash "b"
       else if Ascii.eqb c form_feed then String backslash "f"
       else if (nat_of_ascii c <? 32)%nat then unicode_escape c
       else String c "")
      ++ json_escaped_chars rest
  end.

Definition json_append_escaped_string (str : string) : string :=
  String dquote (json_escaped_chars str ++ String dquote "").

Definition json_append_int (value : Z) : string := print_int value.

Definition serialize_token (token : Token) : string :=
  "{" ++ nl ++ "    " ++ quoted "type" ++ ": " ++
  json_append_int (TokenType_ordinal (type token)) ++
  "," ++ nl ++ "    " ++ quoted "value" ++ ": " ++
  json_append_escaped_string (value token) ++
  "," ++ nl ++ "    " ++ quoted "line" ++ ": " ++
  json_append_int (line token) ++
  "," ++ nl ++ "    " ++ quoted "column" ++ ": " ++
  json_append_int (column token) ++
  nl ++ "  }".

(** [serialize_ast] on a node that is not null; the loop of
    [serialize_statement_list] is the inner [fix]. *)
Fixpoint serialize_node (node : ASTNode) : string :=
  let serialize_ast (child : option ASTNode) :=
    match child with
    | None => "null"
    | Some n => serialize_node n
    end in
  let serialize_statement_list :=
    fix loop (list : list (option ASTNode)) : string :=
      match list with
      | nil => ""
      | statement :: rest =>
          "    " ++
          serialize_ast statement ++
          (match rest with nil => "" | _ => "," end) ++
          nl ++
          loop rest
      end in
  "{" ++ nl ++ "  " ++ quoted "type" ++ ": " ++
  json_append_int (NodeType_ordinal node) ++
  "," ++ nl ++ "  " ++ quoted "data" ++ ": " ++
  match node with
  | NODE_PROGRAM block =>
      "{" ++ nl ++ "    " ++ quoted "block" ++ ": " ++
      serialize_ast block ++
      nl ++ "  }"
  | NODE_STATEMENT_BLOCK statements =>
      "{" ++ nl ++ "    " ++ quoted "statements" ++ ": " ++
      ("[" ++ nl ++ serialize_statement_list statements ++ "  ]") ++
      nl ++ "  }"
  | NODE_VARIABLE_STATEMENT identifier =>
      "{" ++ nl ++ "    " ++ quoted "identifier" ++ ": " ++
      json_append_escaped_string identifier ++
      nl ++ "  }"
  | NODE_IF_STATEMENT condition block else_block =>
      "{" ++ nl ++ "    " ++ quoted "condition" ++ ": " ++
      serialize_ast condition ++
      "," ++ nl ++ "    " ++ quoted "block" ++ ": " ++
      serialize_ast block ++
      "," ++ nl ++ "    " ++ quoted "elseBlock" ++ ": " ++
      serialize_ast else_block ++
      nl ++ "  }"
  | NODE_WHILE_STATEMENT condition block =>
      "{" ++ nl ++ "    " ++ quoted "condition" ++ ": " ++
      serialize_ast condition ++
      "," ++ nl ++ "    " ++ quoted "block" ++ ": " ++
      serialize_ast block ++
      nl ++ "  }"
  | NODE_ASSIGNMENT_STATEMENT identifier value =>
      "{" ++ nl ++ "    " ++ quoted "identifier" ++ ": " ++
      json_append_escaped_string identifier ++
      "," ++ nl ++ "    " ++ quoted "value" ++ ": " ++
      serialize_ast value ++
      nl ++ "  }"
  | NODE_CONDITION left_node operator right_node =>
      "{" ++ nl ++ "    " ++ quoted "left" ++ ": " ++
      serialize_ast left_node ++
      "," ++ nl ++ "    " ++ quoted "operator" ++ ": " ++
      json_append_escaped_string operator ++
      "," ++ nl ++ "    " ++ quoted "right" ++ ": " ++
      serialize_ast right_node ++
      nl ++ "  }"
  | NODE_EXPRESSION left_token operator right_node =>
      "{" ++ nl ++ "    " ++ quoted "leftToken" ++ ": " ++
      serialize_token left_token ++
      "," ++ nl ++ "    " ++ quoted "operator" ++ ": " ++
      (match operator with
       | Some text => json_append_escaped_string text
       | None => "null"
       end) ++
      "," ++ nl ++ "    " ++ quoted "right" ++ ": " ++
      serialize_ast right_node ++
      nl ++ "  }"
  end ++
  nl ++ "}".

Definition serialize_ast (node : option ASTNode) : string :=
  match node with
  | None => "null"
  | Some n => serialize_node n
  end.

(** [generateAst]: the buffer is reset, then filled by [serialize_ast]; the
    final [json_append("\0")] appends the empty string. *)
Definition generateAst (dead_text : nat -> string) (input : string)
    : result string :=
  let* ast := parse_source dead_text input in
  Ok (serialize_ast (Some ast)).

(** The text [parse_file] writes to its output file. *)
Definition parse_file (dead_text : nat -> string) (file_contents : string)
    : result string :=
  let* ast := parse_source dead_text file_contents in
  Ok (write_ast_to_json (Some ast) 0 ++ nl).

(** The nodes directly below a node. *)
Definition present (child : option ASTNode) : list ASTNode :=
  match child with
  | Some n => [n]
  | None => nil
  end.

Definition children (node : ASTNode) : list ASTNode :=
  match node with
  | NODE_PROGRAM block => present block
  | NODE_STATEMENT_BLOCK statements => List.concat (List.map present statements)
  | NODE_VARIABLE_STATEMENT _ => nil
  | NODE_IF_STATEMENT condition block else_block =>
      (present condition ++ present block ++ present else_block)%list
  | NODE_WHILE_STATEMENT condition block =>
      (present condition ++ present block)%list
  | NODE_ASSIGNMENT_STATEMENT _ value => present value
  | NODE_CONDITION left_node _ right_node =>
      (present left_node ++ present right_node)%list
  | NODE_EXPRESSION _ _ right_node => present right_node
  end.

(** [node_in n t]: [n] is a node of the tree [t]. *)
Inductive node_in (n : ASTNode) : ASTNode -> Prop :=
| node_in_root : node_in n n
| node_in_child t c : In c (children t) -> node_in n c -> node_in n t.

(** [contains part text]: [part] occurs in [text]; [ends_with tail text]:
    [text] ends with [tail]. *)
Definition contains (part text : string) : Prop :=
  exists before after, text = before ++ part ++ after.

Definition ends_with (tail text : string) : Prop :=
  exists before, text = before ++ tail.

(** Spaces, tabs, line feeds and carriage returns removed. *)
Fixpoint strip_whitespace (text : string) : string :=
  match text with
  | EmptyString => ""
  | String c rest =>
      if Ascii.eqb c " " || Ascii.eqb c tab || Ascii.eqb c newline
         || Ascii.eqb c carriage_return
      then strip_whitespace rest
      else String c (strip_whitespace rest)
  end.

(** Characters that both serializers write the same way: everything from
    the space upwards, and of the control characters the line feed and the
    tab. *)
Definition plain_char (c : ascii) : bool :=
  (32 <=? nat_of_ascii c)%nat || Ascii.eqb c newline || Ascii.eqb c tab.

Fixpoint plain_string (s : string) : bool :=
  match s with
  | EmptyString => true
  | String c rest => plain_char c && plain_string rest
  end.

(** Every string of the tree is plain. *)
Fixpoint plain_node (node : ASTNode) : Prop :=
  let plain_child (child : option ASTNode) :=
    match child with
    | Some n => plain_node n
    | None => True
    end in
  match node with
  | NODE_PROGRAM block => plain_child block
  | NODE_STATEMENT_BLOCK statements =>
      (fix all (list : list (option ASTNode)) : Prop :=
         match list with
         | nil => True
         | statement :: rest => plain_child statement /\ all rest
         end) statements
  | NODE_VARIABLE_STATEMENT identifier => plain_string identifier = true
  | NODE_IF_STATEMENT condition block else_block =>
      plain_child condition /\ plain_child block /\ plain_child else_block
  | NODE_WHILE_STATEMENT condition block =>
      plain_child condition /\ plain_child block
  | NODE_ASSIGNMENT_STATEMENT identifier value =>
      plain_string identifier = true /\ plain_child value
  | NODE_CONDITION left_node operator right_node =>
      plain_child left_node /\ plain_string operator = true /\
      plain_child right_node
  | NODE_EXPRESSION left_token operator right_node =>
      plain_string (value left_token) = true /\
      match operator with
      | Some text => plain_string text = true
      | None => True
      end /\
      plain_child right_node
  end.

(** The end of the text of a node: the closing brace of its [data] object
    and its own. *)
Definition write_closing (indent : nat) : string :=
  nl ++ write_indent (indent + 1)%nat ++ "}" ++ nl ++ write_indent indent ++ "}".

Definition serialize_closing : string := nl ++ "  }" ++ nl ++ "}".

(** *** Runs of the scanning loop *)

(** [steps input n s s']: from [s] the loop performs some iterations, each
    under its guard [i < n] and none of them fatal, and arrives at [s']. *)
Inductive steps (dead_text : nat -> string) (input : string) (n : nat)
    : Scanner -> Scanner -> Prop :=
| steps_refl s : steps dead_text input n s s
| steps_cons s s' s'' :
    (i s < n)%nat ->
    tokenize_step dead_text input s = Ok s' ->
    steps dead_text input n s' s'' ->
    steps dead_text input n s s''.

(** The characters for which [STATE_SEARCHING] has no rule. *)
Definition no_rule (c : ascii) : Prop :=
  Ascii.eqb c dquote = false /\ separator_type c = None /\
  operator_type c = None /\ is_digit c = false /\ is_alpha c = false /\
  is_whitespace c = false.

(** What bounds the remaining iterations. *)
Definition measure (n : nat) (s : Scanner) : nat :=
  (2 * (n - i s) +
   match state s with STATE_SEARCHING => 0 | _ => 1 end)%nat.

Definition is_eof (t : Token) : bool := TokenType_eqb (type t) TOKEN_EOF.

(** No character of the text is the double quote. *)
Fixpoint quote_free (s : string) : bool :=
  match s with
  | EmptyString => true
  | String c rest => negb (Ascii.eqb c dquote) && quote_free rest
  end.

(** ** Sample inputs and auxiliary notions of the statements below *)

Definition not_eof (t : Token) : Prop := type t <> TOKEN_EOF.

Definition quoted_sample : string :=
  " " ++ String dquote ("ab" ++ String dquote ";").

Definition quoted_sample_scanner : Scanner :=
  mkScanner STATE_SEARCHING 0 1 1 1 2 1 nil.

(** The parser standing at index [k] of [toks], on the token [t]. *)
Definition parser_at (toks : list Token) (k : nat) (t : Token) : Parser :=
  mkParser toks (List.length toks) k t.

(** A text for the dead arrays. *)
Definition sample_dead_text (k : nat) : string := "?".

(** The tokens of [1+2*3], and those of [if(x)] from the [x] on. *)
Definition tokens_1_plus_2_times_3 : list Token :=
  [mkToken TOKEN_NUMBER "1" 1 1; mkToken TOKEN_PLUS (sample_dead_text 1) 1 2;
   mkToken TOKEN_NUMBER "2" 1 3;
   mkToken TOKEN_MULTIPLY (sample_dead_text 3) 1 4;
   mkToken TOKEN_NUMBER "3" 1 5; mkToken TOKEN_EOF "EOF" 1 6].

Definition tokens_x_rparen : list Token :=
  [mkToken TOKEN_IDENTIFIER "x" 1 3;
   mkToken TOKEN_RPAREN (sample_dead_text 3) 1 4;
   mkToken TOKEN_EOF "EOF" 1 5].

(** The assignment of a string made of a single carriage return. *)
Definition carriage_return_source : string :=
  "x=" ++ String dquote (String carriage_return (String dquote nl)).

Definition carriage_return_token : Token :=
  mkToken TOKEN_STRING (String dquote (String carriage_return "")) 1 3.

Definition carriage_return_tree : ASTNode :=
  NODE_PROGRAM (Some (NODE_STATEMENT_BLOCK
    [Some (NODE_ASSIGNMENT_STATEMENT "x"
       (Some (NODE_EXPRESSION carriage_return_token None None)))])).

(** ** Notions of the statements on the scanning loop *)

(** The recorded place of a token, and the order of places in a text. *)
Definition position (t : Token) : Z * Z := (line t, column t).

Definition before (a b : Z * Z) : Prop :=
  fst a < fst b \/ (fst a = fst b /\ snd a < snd b).

(** What the scanning loop keeps true of its counters and of the tokens it
    has added. *)
Definition places_in_order (s : Scanner) : Prop :=
  1 <= current_line s /\ 1 <= current_column s /\
  Forall (fun t => 1 <= line t /\ 1 <= column t) (tokens s) /\
  StronglySorted (fun t u => before (position t) (position u)) (tokens s) /\
  match state s with
  | STATE_SEARCHING =>
      Forall (fun t => before (position t) (current_line s, current_column s))
        (tokens s)
  | _ =>
      before (state_start_line s, state_start_column s)
        (current_line s, current_column s) /\
      1 <= state_start_line s /\ 1 <= state_start_column s /\
      Forall (fun t => before (position t)
                         (state_start_line s, state_start_column s))
        (tokens s)
  end.

Fixpoint all_chars (p : ascii -> bool) (s : string) : bool :=
  match s with
  | EmptyString => true
  | String c rest => p c && all_chars p rest
  end.

(** The text a token of each type can have.  Nothing is asked of the text
    of a separator or of an operator, which is dead. *)
Definition token_text_ok (t : Token) : bool :=
  match type t with
  | TOKEN_EOF => String.eqb (value t) "EOF"
  | TOKEN_VAR => String.eqb (value t) "var"
  | TOKEN_IF => String.eqb (value t) "if"
  | TOKEN_ELSE => String.eqb (value t) "else"
  | TOKEN_WHILE => String.eqb (value t) "while"
  | TOKEN_LPAREN | TOKEN_RPAREN | TOKEN_LBRACE | TOKEN_RBRACE
  | TOKEN_SEMICOLON => true
  | TOKEN_PLUS | TOKEN_MINUS | TOKEN_MULTIPLY | TOKEN_DIVIDE
  | TOKEN_GREATER | TOKEN_LESS | TOKEN_EQUAL => true
  | TOKEN_NUMBER =>
      negb (String.eqb (value t) "") && all_chars is_digit (value t)
  | TOKEN_STRING =>
      match value t with
      | String c body => Ascii.eqb c dquote && quote_free body
      | EmptyString => false
      end
  | TOKEN_IDENTIFIER =>
      negb (String.eqb (value t) "") && all_chars is_alpha (value t) &&
      TokenType_eqb (get_keyword_type (value t)) TOKEN_IDENTIFIER
  end.

(** The text from [state_start] to [i], which a token under way is made
    of. *)
Definition pending (input : string) (s : Scanner) : string :=
  substring (state_start s) (i s - state_start s) input.

Definition lexical (input : string) (s : Scanner) : Prop :=
  (state_start s <= i s)%nat /\
  Forall (fun t => token_text_ok t = true) (tokens s) /\
  match state s with
  | STATE_SEARCHING => True
  | STATE_NUMBER =>
      pending input s <> "" /\ all_chars is_digit (pending input s) = true
  | STATE_IDENTIFIER =>
      pending input s <> "" /\ all_chars is_alpha (pending input s) = true
  | STATE_STRING =>
      exists body, pending input s = String dquote body /\
                   quote_free body = true
  end.

(** The last character of a text; the terminating zero when there is
    none. *)
Definition last_char (text : string) : ascii :=
  char_at text (String.length text - 1).

(** What the scanning loop keeps true of [i] and of the character before
    it, on a text of [n] characters. *)
Definition within (input : string) (n : nat) (s : Scanner) : Prop :=
  (state_start s <= i s)%nat /\ (i s <= n)%nat /\
  match state s with
  | STATE_IDENTIFIER =>
      (0 < i s)%nat /\ is_alpha (char_at input (i s - 1)) = true
  | STATE_NUMBER =>
      (0 < i s)%nat /\ is_digit (char_at input (i s - 1)) = true
  | _ => True
  end.

(** The tokens of the text [pre] followed by one blank, from the scanner
    [s] the loop has reached at the end of [pre]: the blank closes a number
    or an identifier under way, and is then passed over in
    [STATE_SEARCHING]; inside a string it is passed over without a move of
    the column. *)
Definition closed_by_blank (pre : string) (s : Scanner) : list Token :=
  let text := substring (state_start s) (i s - state_start s) pre in
  match state s with
  | STATE_SEARCHING =>
      add_token (tokens s) TOKEN_EOF "EOF"
        (current_line s) (current_column s + 1)
  | STATE_STRING =>
      add_token (tokens s) TOKEN_EOF "EOF" (current_line s) (current_column s)
  | STATE_NUMBER =>
      add_token
        (add_token (tokens s) TOKEN_NUMBER text
           (state_start_line s) (state_start_column s))
        TOKEN_EOF "EOF" (current_line s) (current_column s + 1)
  | STATE_IDENTIFIER =>
      add_token
        (add_token (tokens s) (get_keyword_type text) text
           (state_start_line s) (state_start_column s))
        TOKEN_EOF "EOF" (current_line s) (current_column s + 1)
  end.

(** The scan of a text of blanks. *)
Definition blank_scan (input : string) (s : Scanner) : Prop :=
  state s = STATE_SEARCHING /\ tokens s = nil /\
  (current_line s, current_column s) = get_location_from_index (i s) input.

(** ** Notions of the statements on the parser *)

(** What the parser keeps of a token: its type, and its text when it is
    an operand. *)
Definition kind (t : Token) : TokenType * string :=
  (type t, if is_operand t then value t else "").

Definition bare (token_type : TokenType) : TokenType * string :=
  (token_type, "").

(** The token type the parser turned into the operator [text]. *)
Fixpoint operator_token (ops : list (TokenType * string)) (text : string)
    : TokenType :=
  match ops with
  | nil => TOKEN_EOF
  | (token_type, x) :: ops' =>
      if String.eqb text x then token_type else operator_token ops' text
  end.

(** A tree read back as the kinds of the tokens it was made from. *)
Fixpoint unparse (node : ASTNode) : list (TokenType * string) :=
  let child (c : option ASTNode) :=
    match c with
    | Some n => unparse n
    | None => nil
    end in
  match node with
  | NODE_PROGRAM block => child block
  | NODE_STATEMENT_BLOCK statements =>
      (fix join (items : list (option ASTNode)) : list (TokenType * string) :=
         match items with
         | nil => nil
         | statement :: rest =>
             child statement ++
             match rest with
             | nil => nil
             | _ => bare TOKEN_SEMICOLON :: join rest
             end
         end) statements
  | NODE_VARIABLE_STATEMENT identifier =>
      [bare TOKEN_VAR; (TOKEN_IDENTIFIER, identifier)]
  | NODE_IF_STATEMENT condition block else_block =>
      bare TOKEN_IF :: bare TOKEN_LPAREN :: child condition ++
      bare TOKEN_RPAREN :: bare TOKEN_LBRACE :: child block ++
      bare TOKEN_RBRACE ::
      match else_block with
      | Some n =>
          bare TOKEN_ELSE :: bare TOKEN_LBRACE :: unparse n ++
          [bare TOKEN_RBRACE]
      | None => nil
      end
  | NODE_WHILE_STATEMENT condition block =>
      bare TOKEN_WHILE :: bare TOKEN_LPAREN :: child condition ++
      bare TOKEN_RPAREN :: bare TOKEN_LBRACE :: child block ++
      [bare TOKEN_RBRACE]
  | NODE_ASSIGNMENT_STATEMENT identifier value =>
      (TOKEN_IDENTIFIER, identifier) :: bare TOKEN_EQUAL :: child value
  | NODE_CONDITION left_node operator right_node =>
      child left_node ++
      bare (operator_token condition_operators operator) :: child right_node
  | NODE_EXPRESSION left_token operator right_node =>
      kind left_token ::
      match operator with
      | Some text =>
          bare (operator_token expression_operators text) :: child right_node
      | None => nil
      end
  end%list.

Definition unparse_child (c : option ASTNode) : list (TokenType * string) :=
  match c with
  | Some n => unparse n
  | None => nil
  end.

Fixpoint unparse_statements (items : list (option ASTNode))
    : list (TokenType * string) :=
  match items with
  | nil => nil
  | statement :: rest =>
      (unparse_child statement ++
       match rest with
       | nil => nil
       | _ => bare TOKEN_SEMICOLON :: unparse_statements rest
       end)%list
  end.

(** The shapes of the trees the parser builds. *)
Fixpoint is_expression (node : ASTNode) : bool :=
  match node with
  | NODE_EXPRESSION left_token None None => is_operand left_token
  | NODE_EXPRESSION left_token (Some text) (Some right_node) =>
      is_operand left_token &&
      existsb (String.eqb text) (List.map snd expression_operators) &&
      is_expression right_node
  | _ => false
  end.

Definition is_condition (node : ASTNode) : bool :=
  match node with
  | NODE_CONDITION (Some left_node) text (Some right_node) =>
      is_expression left_node &&
      existsb (String.eqb text) (List.map snd condition_operators) &&
      is_expression right_node
  | _ => false
  end.

Fixpoint is_statement (node : ASTNode) : bool :=
  let is_block (b : ASTNode) : bool :=
    match b with
    | NODE_STATEMENT_BLOCK (first :: rest) =>
        (fix all (items : list (option ASTNode)) : bool :=
           match items with
           | nil => true
           | Some statement :: rest => is_statement statement && all rest
           | None :: _ => false
           end) (first :: rest)
    | _ => false
    end in
  match node with
  | NODE_VARIABLE_STATEMENT _ => true
  | NODE_IF_STATEMENT (Some condition) (Some block) else_block =>
      is_condition condition && is_block block &&
      match else_block with
      | Some b => is_block b
      | None => true
      end
  | NODE_WHILE_STATEMENT (Some condition) (Some block) =>
      is_condition condition && is_block block
  | NODE_ASSIGNMENT_STATEMENT _ (Some value) => is_expression value
  | _ => false
  end.

Fixpoint are_statements (items : list (option ASTNode)) : bool :=
  match items with
  | nil => true
  | Some statement :: rest => is_statement statement && are_statements rest
  | None :: _ => false
  end.

Definition is_block (node : ASTNode) : bool :=
  match node with
  | NODE_STATEMENT_BLOCK (first :: rest) => are_statements (first :: rest)
  | _ => false
  end.

Definition is_program (node : ASTNode) : bool :=
  match node with
  | NODE_PROGRAM (Some block) => is_block block
  | _ => false
  end.

(** Every string of the statements is plain. *)
Fixpoint plain_statements (items : list (option ASTNode)) : Prop :=
  match items with
  | nil => True
  | statement :: rest =>
      match statement with
      | Some n => plain_node n
      | None => True
      end /\ plain_statements rest
  end.

Definition plain_tokens (toks : list Token) : Prop :=
  List.Forall
    (fun t => is_operand t = true -> plain_string (value t) = true) toks.

(** The parser [p] stands at index [k] of [toks]. *)
Definition stands_at (toks : list Token) (k : nat) (p : Parser) : Prop :=
  exists t, p = parser_at toks k t /\ nth_error toks k = Some t.

(** The kinds of the first [k] tokens. *)
Definition kinds (toks : list Token) (k : nat) : list (TokenType * string) :=
  List.map kind (firstn k toks).

(** What a run of a parsing function may end with: a result that is
    [good], the exit of [parser_error], or the exhaustion of a bound that was
    [short]; no other exit. *)
Definition outcome {A : Type} (short : Prop) (good : A -> Prop)
    (r : result A) : Prop :=
  match r with
  | Ok a => good a
  | Exit (UnexpectedSymbol _ _ _) => True
  | Exit OutOfFuel => short
  | Exit _ => False
  end.

(** ** JSON string literals *)

Definition is_hex (c : ascii) : bool :=
  (is_digit c || (("a" <=? c) && (c <=? "f")) ||
   (("A" <=? c) && (c <=? "F")))%char.

(** The letters that may follow a backslash, [u] apart. *)
Definition is_escape_letter (c : ascii) : bool :=
  Ascii.eqb c dquote || Ascii.eqb c backslash || Ascii.eqb c "/" ||
  Ascii.eqb c "b" || Ascii.eqb c "f" || Ascii.eqb c "n" ||
  Ascii.eqb c "r" || Ascii.eqb c "t".

(** What may follow the opening quote of a string literal of JSON, up to
    the end of the text: characters from the space upwards other than the
    quote and the backslash, two-character escapes and [\uXXXX] escapes,
    then the closing quote and nothing after it. *)
Fixpoint json_string_rest (text : string) : bool :=
  match text with
  | EmptyString => false
  | String c rest =>
      if Ascii.eqb c dquote then String.eqb rest ""
      else if Ascii.eqb c backslash then
        match rest with
        | String e rest' =>
            if is_escape_letter e then json_string_rest rest'
            else if Ascii.eqb e "u" then
              match rest' with
              | String h1 (String h2 (String h3 (String h4 rest''))) =>
                  is_hex h1 && is_hex h2 && is_hex h3 && is_hex h4 &&
                  json_string_rest rest''
              | _ => false
              end
            else false
        | EmptyString => false
        end
      else if (nat_of_ascii c <? 32)%nat then false
      else json_string_rest rest
  end.

Definition json_string_literal (text : string) : bool :=
  match text with
  | String c rest => Ascii.eqb c dquote && json_string_rest rest
  | EmptyString => false
  end.

(** The value of a hexadecimal digit. *)
Definition hex_value (c : ascii) : nat :=
  if is_digit c then nat_of_ascii c - 48
  else if ("a" <=? c)%char then nat_of_ascii c - 87
  else nat_of_ascii c - 55.

(** The characters an escaped text stands for. *)
Fixpoint json_unescape (text : string) : string :=
  match text with
  | EmptyString => ""
  | String c rest =>
      if Ascii.eqb c backslash then
        match rest with
        | String e rest' =>
            if Ascii.eqb e "n" then String newline (json_unescape rest')
            else if Ascii.eqb e "t" then String tab (json_unescape rest')
            else if Ascii.eqb e "r" then
              String carriage_return (json_unescape rest')
            else if Ascii.eqb e "b" then String backspace (json_unescape rest')
            else if Ascii.eqb e "f" then String form_feed (json_unescape rest')
            else if Ascii.eqb e "u" then
              match rest' with
              | String h1 (String h2 (String h3 (String h4 rest''))) =>
                  String
                    (ascii_of_nat (16 * hex_value h3 + hex_value h4))
                    (json_unescape rest'')
              | _ => ""
              end
            else String e (json_unescape rest')
        | EmptyString => ""
        end
      else String c (json_unescape rest)
  end.

(** ** JSON texts

    The grammar of JSON: a text is an element, which is a value between
    white space; the members of an object and the elements of an array are
    separated by commas.  Of the numbers the grammar below has the integers
    as ["%d"] prints them, which is all that the serializers write. *)

Definition json_space (c : ascii) : bool :=
  Ascii.eqb c " " || Ascii.eqb c tab || Ascii.eqb c newline
  || Ascii.eqb c carriage_return.

Definition json_blank (ws : string) : Prop := all_chars json_space ws = true.

Inductive json_value : string -> Prop :=
| json_null : json_value "null"
| json_true : json_value "true"
| json_false : json_value "false"
| json_integer n : json_value (print_int n)
| json_string text : json_string_literal text = true -> json_value text
| json_array_empty ws : json_blank ws -> json_value ("[" ++ ws ++ "]")
| json_array elements :
    json_elements elements -> json_value ("[" ++ elements ++ "]")
| json_object_empty ws : json_blank ws -> json_value ("{" ++ ws ++ "}")
| json_object members :
    json_members members -> json_value ("{" ++ members ++ "}")
with json_element : string -> Prop :=
| json_element_intro ws1 v ws2 :
    json_blank ws1 -> json_value v -> json_blank ws2 ->
    json_element (ws1 ++ v ++ ws2)
with json_elements : string -> Prop :=
| json_elements_last e : json_element e -> json_elements e
| json_elements_cons e rest :
    json_element e -> json_elements rest -> json_elements (e ++ "," ++ rest)
with json_member : string -> Prop :=
| json_member_intro ws1 key ws2 e :
    json_blank ws1 -> json_string_literal key = true -> json_blank ws2 ->
    json_element e -> json_member (ws1 ++ key ++ ws2 ++ ":" ++ e)
with json_members : string -> Prop :=
| json_members_last m : json_member m -> json_members m
| json_members_cons m rest :
    json_member m -> json_members rest -> json_members (m ++ "," ++ rest).

Definition json_text (text : string) : Prop := json_element text.

(** The members of an object as the serializers lay them out: each name
    after the white space [wa ++ wb], a colon and a blank before the value,
    a comma after all values but the last, and [closing] at the end. *)
Fixpoint fields_text (fields : list (string * string)) (wa wb : string)
    (closing : string) : string :=
  match fields with
  | [] => closing
  | [(name, v)] => wa ++ wb ++ quoted name ++ ": " ++ v ++ closing
  | (name, v) :: rest =>
      wa ++ wb ++ quoted name ++ ": " ++ v ++ "," ++
      fields_text rest wa wb closing
  end.

(** The elements of an array as the serializers lay them out. *)
Fixpoint items_text (items : list string) (wa : string) (closing : string)
    : string :=
  match items with
  | [] => closing
  | [v] => wa ++ v ++ closing
  | v :: rest => wa ++ v ++ "," ++ nl ++ items_text rest wa closing
  end.

(** ** A sample program *)

Definition sample_program : string :=
  "if(a<1){b=2;var c}else{while(d>e){f=g+h}}".

(** The tree the parser makes of it. *)
Definition sample_program_tree : ASTNode :=
  Eval vm_compute in
    match parse_source sample_dead_text sample_program with
    | Ok tree => tree
    | Exit _ => NODE_PROGRAM None
    end.

End Ast.

(** * The sorting benchmark, [src/sort/c/sort.c] *)

Module Sort.

Local Open Scope Z_scope.

Definition MAX_DATA_SIZE : Z := 100000.
Definition INT_MAX : Z := 2147483647.
Definition INT_MIN : Z := -2147483648.

(** A 32-bit [int] after an arithmetic operation: the result modulo [2^32],
    taken in the signed range. *)
Definition wrap (z : Z) : Z := (z + 2 ^ 31) mod 2 ^ 32 - 2 ^ 31.

(** ** Runs and their faults

    A sorting routine works on the memory behind an [int*]: the list holds
    the cells of that memory, of which the routine is told to use the first
    [size].  An access outside the list, a division by zero, a product that
    leaves the range of [int] or a read of a cell of a local array that was
    never written is a [fault]; so is [OutOfFuel], the answer of a bounded
    loop or recursion of this embedding whose bound was too small. *)

Inductive fault : Set :=
| OutOfBounds
| DivisionByZero
| DivisionOverflow
| SignedOverflow
| Uninitialised
| OutOfFuel.

Inductive run (A : Type) : Type :=
| Ret (a : A)
| Stop (f : fault).
Arguments Ret {A} a.
Arguments Stop {A} f.

Definition bind {A B : Type} (r : run A) (k : A -> run B) : run B :=
  match r with
  | Ret a => k a
  | Stop f => Stop f
  end.

Notation "'let*' x ':=' r 'in' k" := (bind r (fun x => k))
  (at level 10, x name, r at level 100, k at level 200).
Notation "'let*' ' p ':=' r 'in' k" := (bind r (fun p => k))
  (at level 10, p pattern, r at level 100, k at level 200).

(** [a[i]] and [a[i] = v]. *)
Definition array_get {A : Type} (a : list A) (i : Z) : run A :=
  if i <? 0 then Stop OutOfBounds
  else match a !! Z.to_nat i with
       | Some x => Ret x
       | None => Stop OutOfBounds
       end.

Definition array_set {A : Type} (a : list A) (i : Z) (v : A) : run (list A) :=
  if (0 <=? i) && (i <? Z.of_nat (length a))
  then Ret (<[Z.to_nat i := v]> a)
  else Stop OutOfBounds.

(** [a / b] on [int]. *)
Definition int_div (a b : Z) : run Z :=
  if b =? 0 then Stop DivisionByZero
  else if (a =? INT_MIN) && (b =? -1) then Stop DivisionOverflow
  else Ret (Z.quot a b).

(** [a * b] on [int]: a product outside the range of [int] is undefined. *)
Definition int_mul (a b : Z) : run Z :=
  if (INT_MIN <=? a * b) && (a * b <=? INT_MAX) then Ret (a * b)
  else Stop SignedOverflow.

(** [for (i = lo; i < hi; i++) body], for a body that changes neither [i]
    nor the bounds: [count] iterations from [i]. *)
Fixpoint for_range {T : Type} (count : nat) (i : Z)
    (body : Z -> T -> run T) (s : T) : run T :=
  match count with
  | O => Ret s
  | S count' => let* s' := body i s in for_range count' (i + 1) body s'
  end.

Definition for_up {T : Type} (lo hi : Z) (body : Z -> T -> run T) (s : T)
    : run T :=
  for_range (Z.to_nat (hi - lo)) lo body s.

(** [for (i = hi; i >= 0; i--) body]. *)
Fixpoint for_down_range {T : Type} (count : nat) (i : Z)
    (body : Z -> T -> run T) (s : T) : run T :=
  match count with
  | O => Ret s
  | S count' => let* s' := body i s in for_down_range count' (i - 1) body s'
  end.

Definition for_down {T : Type} (hi : Z) (body : Z -> T -> run T) (s : T)
    : run T :=
  for_down_range (Z.to_nat (hi + 1)) hi body s.

(** ** [copy_array] *)

(** The body of the loop [for (i = 0; i < size; i++) dest[i] = src[i]]. *)
Definition copy_array_body (src : list Z) (i : Z) (dest : list Z)
    : run (list Z) :=
  let* x := array_get src i in array_set dest i x.

Definition copy_array (dest src : list Z) (size : Z) : run (list Z) :=
  for_up 0 size (copy_array_body src) dest.

(** ** [check_results]

    The loop returns [0] at the first mismatch; [ok] records that none was
    met, and no cell is read after one. *)

Definition check_results (data expected_data : list Z) (size : Z) : run bool :=
  for_up 0 size
    (fun i (ok : bool) =>
       if ok then
         let* a := array_get data i in
         let* b := array_get expected_data i in
         Ret (a =? b)
       else Ret false)
    true.

(** ** Bubble sort *)

(** The body of the loop [for (j = 0; j < size - i - 1; j++)]. *)
Definition bubble_inner_body (j : Z) (data : list Z) : run (list Z) :=
  let* a := array_get data j in
  let* b := array_get data (j + 1) in
  if a >? b then
    let temp := a in
    let* data := array_set data j b in
    array_set data (j + 1) temp
  else Ret data.

Definition bubble_sort (data : list Z) (size : Z) : run (list Z) :=
  for_up 0 size
    (fun i data => for_up 0 (size - i - 1) bubble_inner_body data)
    data.

(** ** Radix sort *)

(** [(x / exp) % 10]. *)
Definition digit_of (x exp : Z) : run Z :=
  let* q := int_div x exp in Ret (Z.rem q 10).

(** Store count of occurrences: the body of the first loop. *)
Definition count_body (arr : list Z) (exp : Z) (i : Z) (count : list Z)
    : run (list Z) :=
  let* x := array_get arr i in
  let* d := digit_of x exp in
  let* c := array_get count d in
  array_set count d (c + 1).

(** Change [count[i]] to actual position: the body of the second loop. *)
Definition prefix_body (i : Z) (count : list Z) : run (list Z) :=
  let* c := array_get count i in
  let* c' := array_get count (i - 1) in
  array_set count i (c + c').

(** Build output array: the body of the third loop, which runs from the
    last cell down. *)
Definition build_body (arr : list Z) (exp : Z) (i : Z)
    (st : list (option Z) * list Z) : run (list (option Z) * list Z) :=
  let '(output, count) := st in
  let* x := array_get arr i in
  let* d := digit_of x exp in
  let* c := array_get count d in
  let* output := array_set output (c - 1) (Some x) in
  let* d := digit_of x exp in
  let* c := array_get count d in
  let* count := array_set count d (c - 1) in
  Ret (output, count).

(** Copy output array to [arr]: the body of the fourth loop.  [output] is
    a local array without initialiser; its cells are [None] until written. *)
Definition copy_body (output : list (option Z)) (i : Z) (arr : list Z)
    : run (list Z) :=
  let* cell := array_get output i in
  match cell with
  | Some v => array_set arr i v
  | None => Stop Uninitialised
  end.

Definition counting_sort_for_radix (arr : list Z) (size exp : Z)
    : run (list Z) :=
  let output : list (option Z) := replicate (Z.to_nat MAX_DATA_SIZE) None in
  let count : list Z := replicate 10 0 in
  let* count := for_up 0 size (count_body arr exp) count in
  let* count := for_up 1 10 prefix_body count in
  let* '(output, count) :=
    for_down (size - 1) (build_body arr exp) (output, count) in
  for_up 0 size (copy_body output) arr.

(** The loop [for (exp = 1; max / exp > 0; exp *= 10)], from the value
    [exp].  The weights run through the powers of ten; after the pass of
    weight [10^9], which is made when [max] is [10^9] or more, the product
    [exp *= 10] leaves the range of [int] and the run stops there.  The loop
    makes ten passes at most, so [radix_sort] can give it a bound of 64
    iterations. *)
Fixpoint radix_loop (fuel : nat) (data : list Z) (size max exp : Z)
    : run (list Z) :=
  match fuel with
  | O => Stop OutOfFuel
  | S fuel' =>
      let* q := int_div max exp in
      if q >? 0 then
        let* data := counting_sort_for_radix data size exp in
        let* exp := int_mul exp 10 in
        radix_loop fuel' data size max exp
      else Ret data
  end.

(** Find maximum number: the body of the first loop of [radix_sort]. *)
Definition max_body (data : list Z) (i : Z) (max : Z) : run Z :=
  let* x := array_get data i in
  if x >? max then Ret x else Ret max.

Definition radix_sort (data : list Z) (size : Z) : run (list Z) :=
  let* max := array_get data 0 in
  let* max := for_up 1 size (max_body data) max in
  radix_loop 64 data size max 1.

(** ** Quick sort *)

(** The body of the loop [for (j = low; j <= high - 1; j++)]. *)
Definition partition_body (pivot : Z) (j : Z) (st : list Z * Z)
    : run (list Z * Z) :=
  let '(arr, i) := st in
  let* x := array_get arr j in
  if x <=? pivot then
    let i := i + 1 in
    let* temp := array_get arr i in
    let* y := array_get arr j in
    let* arr := array_set arr i y in
    let* arr := array_set arr j temp in
    Ret (arr, i)
  else Ret (arr, i).

Definition partition (arr : list Z) (low high : Z) : run (list Z * Z) :=
  let* pivot := array_get arr high in
  let i := low - 1 in
  let* '(arr, i) := for_up low high (partition_body pivot) (arr, i) in
  let* temp := array_get arr (i + 1) in
  let* y := array_get arr high in
  let* arr := array_set arr (i + 1) y in
  let* arr := array_set arr high temp in
  Ret (arr, i + 1).

(** [fuel] bounds the depth of the recursion. *)
Fixpoint quick_sort_recursive (fuel : nat) (arr : list Z) (low high : Z)
    : run (list Z) :=
  if low <? high then
    match fuel with
    | O => Stop OutOfFuel
    | S fuel' =>
        let* '(arr, pi) := partition arr low high in
        let* arr := quick_sort_recursive fuel' arr low (pi - 1) in
        quick_sort_recursive fuel' arr (pi + 1) high
    end
  else Ret arr.

(** Each level of the recursion puts one more element in its final place,
    so the depth is at most [size]. *)
Definition quick_sort (data : list Z) (size : Z) : run (list Z) :=
  quick_sort_recursive (Z.to_nat size) data 0 (size - 1).

(** ** Notions of the statements below *)

(** One pass of the inner loop over [n] adjacent pairs, on the list it
    starts at. *)
Fixpoint bubble_pass (n : nat) (l : list Z) : list Z :=
  match n, l with
  | S n', a :: b :: l' =>
      if a >? b then b :: bubble_pass n' (a :: l')
      else a :: bubble_pass n' (b :: l')
  | _, _ => l
  end.

Definition digit (exp x : Z) : Z := Z.rem (Z.quot x exp) 10.

(** The elements of [l] whose digit is [d], in the order of [l]. *)
Definition bucket (exp : Z) (l : list Z) (d : nat) : list Z :=
  filter (fun x => digit exp x = Z.of_nat d) l.

(** The buckets of the digits below [d], one after the other. *)
Definition below (exp : Z) (l : list Z) (d : nat) : list Z :=
  concat (bucket exp l <$> seq 0 d).

Definition bucket_sort (exp : Z) (l : list Z) : list Z := below exp l 10.

(** The output array while it is filled from the end of [arr]: for each
    digit, the cells still free for the elements of [f], which are yet to be
    placed, then the elements of [s], which are placed. *)
Definition slot (exp : Z) (f s : list Z) (d : nat) : list (option Z) :=
  replicate (length (bucket exp f d)) None ++ (Some <$> bucket exp s d).

Definition layout (exp : Z) (f s : list Z) : list (option Z) :=
  concat (slot exp f s <$> seq 0 10).

Definition mod_le (m : Z) : relation Z := fun x y => x mod m <= y mod m.

Definition in_int_range (x : Z) : Prop := 0 <= x <= INT_MAX.

End Sort.

(** * The text buffer of [src/ast-wasm/c/wasm_ast.c] *)

Module Json.
Import Sort.
Local Open Scope Z_scope.

(** The three globals of the buffer.  [json_result] holds the characters
    of the block before its terminating zero; the block itself has
    [json_capacity] bytes, none when the pointer is null. *)
Record JsonBuffer : Set := mkJsonBuffer {
  json_result : string;
  json_capacity : Z;
  json_length : Z
}.

(** [while (json_length + len >= json_capacity) json_capacity *= 2], the
    product reduced to 32 bits. *)
Fixpoint grow (fuel : nat) (needed capacity : Z) : run Z :=
  if needed >=? capacity then
    match fuel with
    | O => Stop OutOfFuel
    | S fuel' => grow fuel' needed (wrap (capacity * 2))
    end
  else Ret capacity.

(** [json_append], for a text [str] without zero in it.  [strcpy] writes
    the characters of [str] and a terminating zero from the offset
    [json_length] on; a write past the [json_capacity] bytes of the block is
    [OutOfBounds]. *)
Definition json_append (str : string) (b : JsonBuffer) : run JsonBuffer :=
  let len := Z.of_nat (String.length str) in
  let* capacity :=
    if json_length b + len >=? json_capacity b then
      grow 64 (json_length b + len)
        (if json_capacity b =? 0 then 4096 else wrap (json_capacity b * 2))
    else Ret (json_capacity b) in
  if json_length b + len + 1 <=? capacity then
    Ret (mkJsonBuffer (json_result b ++ str) capacity (json_length b + len))
  else Stop OutOfBounds.

(** The buffer as [generateAst] resets it. *)
Definition json_reset : JsonBuffer := mkJsonBuffer "" 0 0.

(** The text and its terminating zero lie within the block. *)
Definition json_fits (b : JsonBuffer) : Prop :=
  json_length b = Z.of_nat (String.length (json_result b)) /\
  ((json_capacity b = 0 /\ json_length b = 0) \/
   json_length b < json_capacity b).

End Json.

(** * The benchmark driver of [src/sort/c/sort.c] *)

Module Bench.
Import Sort.
Local Open Scope Z_scope.

(** ** The globals

    The three arrays have [MAX_DATA_SIZE] cells each in the program; here
    they are lists, and an access outside a list is a fault. *)
Record Globals : Set := mkGlobals {
  original_data : list Z;
  work_data : list Z;
  expected_data : list Z;
  data_size : Z;
  iterations : Z
}.

Definition MAX_LINE_SIZE : nat := 1024.

(** ** Reading a file line by line

    An open [FILE*] is the text that is still to be read.  [fgets] takes at
    most [size - 1] characters of it, up to and including the first line
    feed, and answers [NULL] when nothing is left. *)
Fixpoint read_line (count : nat) (file : string) : string * string :=
  match count, file with
  | S count', String c rest =>
      if Ascii.eqb c Ast.newline then (String c "", rest)
      else let (line, rest') := read_line count' rest in
           (String c line, rest')
  | _, _ => (EmptyString, file)
  end.

Definition fgets (size : nat) (file : string) : option (string * string) :=
  match file with
  | EmptyString => None
  | _ => Some (read_line (size - 1) file)
  end.

(** ** [parse_data_json] *)

(** [c >= '0' && c <= '9'] and [c - '0']. *)
Definition is_digit_char (c : ascii) : bool :=
  (("0" <=? c) && (c <=? "9"))%char.

Definition digit_value (c : ascii) : Z := Z.of_nat (nat_of_ascii c) - 48.

(** The loop that reads a number: while [ptr] points at a digit,
    [num = num * 10 + digit] and [ptr++], the sum reduced to 32 bits.  [ptr]
    is the offset into [line]. *)
Fixpoint number_loop (fuel : nat) (line : string) (ptr : nat) (num : Z)
    : run (Z * nat) :=
  let c := Ast.char_at line ptr in
  if is_digit_char c then
    match fuel with
    | O => Stop OutOfFuel
    | S fuel' =>
        number_loop fuel' line (S ptr) (wrap (num * 10 + digit_value c))
    end
  else Ret (num, ptr).

(** The loop over the characters of one line, up to its terminating zero.
    The [break] at a closing bracket leaves the loop, and so the line. *)
Fixpoint line_loop (fuel : nat) (line : string) (ptr : nat)
    (in_array : bool) (g : Globals) : run (bool * Globals) :=
  let c := Ast.char_at line ptr in
  if Ascii.eqb c zero then Ret (in_array, g)
  else
    match fuel with
    | O => Stop OutOfFuel
    | S fuel' =>
        if Ascii.eqb c "[" then line_loop fuel' line (S ptr) true g
        else if Ascii.eqb c "]" then Ret (in_array, g)
        else if in_array && is_digit_char c then
          let* '(num, ptr) := number_loop (String.length line) line ptr 0 in
          let* data := array_set (original_data g) (data_size g) num in
          let g := mkGlobals data (work_data g) (expected_data g)
                     (data_size g + 1) (iterations g) in
          let ptr := (ptr - 1)%nat in
          line_loop fuel' line (S ptr) in_array g
        else line_loop fuel' line (S ptr) in_array g
    end.

(** [while (fgets(line, sizeof(line), file)) { char* ptr = line; ... }]. *)
Fixpoint data_loop (fuel : nat) (file : string) (in_array : bool)
    (g : Globals) : run (bool * Globals) :=
  match fgets MAX_LINE_SIZE file with
  | None => Ret (in_array, g)
  | Some (line, rest) =>
      match fuel with
      | O => Stop OutOfFuel
      | S fuel' =>
          let* '(in_array, g) :=
            line_loop (String.length line) line 0 in_array g in
          data_loop fuel' rest in_array g
      end
  end.

(** [parse_data_json]: [file] is the text of the file, [None] when it
    cannot be opened.  The answer is the globals and the value returned. *)
Definition parse_data_json (file : option string) (g : Globals)
    : run (Globals * Z) :=
  match file with
  | None => Ret (g, 0)
  | Some text =>
      let g := mkGlobals (original_data g) (work_data g) (expected_data g)
                 0 (iterations g) in
      let* '(_, g) := data_loop (String.length text) text false g in
      Ret (g, data_size g)
  end.

(** *** The loops as the program calls them *)

Definition scan_line (line : string) (in_array : bool) (g : Globals)
    : run (bool * Globals) :=
  line_loop (String.length line) line 0 in_array g.

Definition read_data (file : string) (in_array : bool) (g : Globals)
    : run (bool * Globals) :=
  data_loop (String.length file) file in_array g.

(** The digits at the head of a text, read as the number loop reads them,
    and the text after them. *)
Fixpoint digits (s : string) (num : Z) : Z * string :=
  match s with
  | String c rest =>
      if is_digit_char c then digits rest (wrap (num * 10 + digit_value c))
      else (num, s)
  | EmptyString => (num, s)
  end.

(** [original_data[data_size++] = num]. *)
Definition store (num : Z) (g : Globals) : run Globals :=
  let* data := array_set (original_data g) (data_size g) num in
  Ret (mkGlobals data (work_data g) (expected_data g)
         (data_size g + 1) (iterations g)).

(** *** Texts *)

(** The characters the reader takes no notice of: all but the digits, the
    two brackets, the line feed and the zero. *)
Definition inert (c : ascii) : bool :=
  negb (is_digit_char c) && negb (Ascii.eqb c "[") && negb (Ascii.eqb c "]")
  && negb (Ascii.eqb c Ast.newline) && negb (Ascii.eqb c zero).

(** The text with a blank in the place of every such character. *)
Fixpoint blank_out (text : string) : string :=
  match text with
  | EmptyString => EmptyString
  | String c rest => String (if inert c then " "%char else c) (blank_out rest)
  end.

Definition no_newline (s : string) : bool :=
  Ast.all_chars (fun c => negb (Ascii.eqb c Ast.newline)) s.

(** A text made of whole lines: it is empty or ends with a line feed. *)
Fixpoint whole_lines (s : string) : bool :=
  match s with
  | EmptyString => true
  | String c EmptyString => Ascii.eqb c Ast.newline
  | String _ rest => whole_lines rest
  end.

(** Every line of the text, its line feed included, has at most
    [MAX_LINE_SIZE - 1] characters; [room] is what is left of the first
    line. *)
Fixpoint lines_fit (room : nat) (s : string) : bool :=
  match s with
  | EmptyString => true
  | String c rest =>
      match room with
      | O => false
      | S room' =>
          if Ascii.eqb c Ast.newline then lines_fit (MAX_LINE_SIZE - 1) rest
          else lines_fit room' rest
      end
  end.

(** A character that may stand between two numbers: no digit, no bracket
    and not the zero. *)
Definition is_blank (c : ascii) : bool :=
  negb (is_digit_char c) && negb (Ascii.eqb c "[") && negb (Ascii.eqb c "]")
  && negb (Ascii.eqb c zero).

(** A character that may stand before the array. *)
Definition is_prelude (c : ascii) : bool :=
  negb (Ascii.eqb c "[") && negb (Ascii.eqb c "]") && negb (Ascii.eqb c zero).

Definition no_digit (c : ascii) : bool := negb (is_digit_char c).

(** The items with [sep] between them. *)
Fixpoint join (sep : string) (items : list string) : string :=
  match items with
  | [] => EmptyString
  | [x] => x
  | x :: rest => (x ++ sep ++ join sep rest)%string
  end.

(** A data file up to the closing bracket of its array: the values in
    decimal, [sep] between them, [pad1] and [pad2] around them. *)
Definition array_text (lead pad1 sep pad2 : string) (values : list Z)
    : string :=
  (lead ++ String "[" (pad1 ++ join sep (map Ast.print_int values) ++ pad2))
  %string.

(** *** Notions used in the proofs *)

(** The text does not start with a digit. *)
Definition starts_clear (s : string) : bool :=
  match s with
  | EmptyString => true
  | String c _ => negb (is_digit_char c)
  end.

(** A character at which the line loop does not stop. *)
Definition is_clean (c : ascii) : bool :=
  negb (Ascii.eqb c "]") && negb (Ascii.eqb c zero).

(** The globals that the loop over the lines leaves. *)
Definition globals_of (r : run (bool * Globals)) : run Globals :=
  let* '(_, g) := r in Ret g.

(** ** [parse_config_json] *)

(** The characters of a C string: those before the first zero. *)
Fixpoint c_string (s : string) : string :=
  match s with
  | EmptyString => EmptyString
  | String c rest =>
      if Ascii.eqb c zero then EmptyString else String c (c_string rest)
  end.

(** [strstr] and [strchr] answer a pointer into the string, which is the
    text from that place on, or [NULL]. *)
Fixpoint strstr (s needle : string) : option string :=
  if String.prefix needle s then Some s
  else match s with
       | EmptyString => None
       | String _ rest => strstr rest needle
       end.

Fixpoint strchr (s : string) (c : ascii) : option string :=
  match s with
  | EmptyString => None
  | String d rest => if Ascii.eqb d c then Some s else strchr rest c
  end.

(** [ptr++] on a pointer that does not point at the terminating zero. *)
Definition next_char (ptr : string) : string :=
  match ptr with
  | EmptyString => EmptyString
  | String _ rest => rest
  end.

(** The loop that skips blanks and tabs. *)
Fixpoint skip_blanks (ptr : string) : string :=
  match ptr with
  | String c rest =>
      if Ascii.eqb c " " || Ascii.eqb c Ast.tab then skip_blanks rest else ptr
  | EmptyString => ptr
  end.

(** [isspace] in the C locale: the blank and the characters 9 to 13. *)
Definition is_space (c : ascii) : bool :=
  Ascii.eqb c " " || ((9 <=? nat_of_ascii c)%nat && (nat_of_ascii c <=? 13)%nat).

Fixpoint skip_spaces (s : string) : string :=
  match s with
  | String c rest => if is_space c then skip_spaces rest else s
  | EmptyString => s
  end.

(** The value of the digits at the head of a text. *)
Fixpoint decimal (s : string) (acc : Z) : Z :=
  match s with
  | String c rest =>
      if is_digit_char c then decimal rest (acc * 10 + digit_value c) else acc
  | EmptyString => acc
  end.

Definition LONG_MAX : Z := 2 ^ 63 - 1.
Definition LONG_MIN : Z := - 2 ^ 63.

(** [strtol(s, NULL, 10)]: blanks, a sign, digits; the value is kept
    within the range of [long]. *)
Definition strtol (s : string) : Z :=
  let s := skip_spaces s in
  let '(negative, s) :=
    match s with
    | String c rest =>
        if Ascii.eqb c "-" then (true, rest)
        else if Ascii.eqb c "+" then (false, rest)
        else (false, s)
    | EmptyString => (false, s)
    end in
  let v := decimal s 0 in
  if negative then Z.max LONG_MIN (- v) else Z.min LONG_MAX v.

(** [atoi(s)] is [(int) strtol(s, NULL, 10)].  C leaves the result open
    when the number does not fit an [int]; this is what the conversion of
    the [long] gives. *)
Definition atoi (s : string) : Z := wrap (strtol s).

(** The key that is looked for, with its quotes. *)
Definition iterations_key : string := Ast.quoted "iterations".

Definition set_iterations (g : Globals) (n : Z) : Globals :=
  mkGlobals (original_data g) (work_data g) (expected_data g)
    (data_size g) n.

(** The loop over the lines; it is left at the first line that holds the
    key and a colon after it. *)
Fixpoint config_loop (fuel : nat) (file : string) (g : Globals)
    : run Globals :=
  match fgets MAX_LINE_SIZE file with
  | None => Ret g
  | Some (line, rest) =>
      match fuel with
      | O => Stop OutOfFuel
      | S fuel' =>
          match strstr (c_string line) iterations_key with
          | Some ptr =>
              match strchr ptr ":" with
              | Some ptr =>
                  let ptr := next_char ptr in
                  let ptr := skip_blanks ptr in
                  Ret (set_iterations g (atoi ptr))
              | None => config_loop fuel' rest g
              end
          | None => config_loop fuel' rest g
          end
      end
  end.

(** [parse_config_json]: [file] is the text of the file, [None] when it
    cannot be opened.  The answer is the globals and the value returned. *)
Definition parse_config_json (file : option string) (g : Globals)
    : run (Globals * Z) :=
  match file with
  | None => Ret (g, 0)
  | Some text =>
      let* g := config_loop (String.length text) text g in
      Ret (g, 1)
  end.

Definition read_config (file : string) (g : Globals) : run Globals :=
  config_loop (String.length file) file g.

(** A text that one call of [fgets] takes whole, and that is a C string. *)
Definition one_line (s : string) : bool :=
  no_newline s
  && Ast.all_chars (fun c => negb (Ascii.eqb c zero)) s
  && (String.length s <=? MAX_LINE_SIZE - 1)%nat.

Definition no_colon (c : ascii) : bool := negb (Ascii.eqb c ":").

Definition blank_or_tab (c : ascii) : bool :=
  Ascii.eqb c " " || Ascii.eqb c Ast.tab.

(** The part of a configuration that sets the number of iterations: the
    key, [mid], a colon, [pad] and the number. *)
Definition config_entry (mid pad : string) (n : Z) : string :=
  (iterations_key ++ mid ++ String ":" (pad ++ Ast.print_int n))%string.

(** ** [run_benchmark] and [main]

    The clock is not part of the program: [time] stands for the [double]
    values that [get_time_ms] answers, [clock k] for the answer of its
    [k]-th call, [minus] for the subtraction of two of them and [later] for
    their comparison by [>]. *)

Section Timing.

Variable time : Type.
Variable clock : nat -> time.
Variable minus : time -> time -> time.
Variable later : time -> time -> bool.

(** The lines that the program prints. *)
Inductive message : Type :=
| CannotOpen (filename : string)
| FailedToParse (filename : string)
| Loaded (data_points iterations : Z)
| Mismatch (index expected got : Z)
| FailedValidation (name : string) (iteration : Z)
| Completed (name : string) (iteration : Z) (duration : time)
| Median (name : string) (median : time).

(** The globals, the number of calls of [get_time_ms] so far, and the
    lines printed so far. *)
Record World : Type := mkWorld {
  globals : Globals;
  calls : nat;
  output : list message
}.

(** [check_results] with the line it prints: [None] when it returns 1,
    the line of the first mismatch when it returns 0. *)
Definition check_results_report (data expected : list Z) (size : Z)
    : run (option message) :=
  for_up 0 size
    (fun i (found : option message) =>
       match found with
       | Some _ => Ret found
       | None =>
           let* a := array_get data i in
           let* b := array_get expected i in
           if a =? b then Ret None else Ret (Some (Mismatch i b a))
       end)
    None.

(** A cell of [iterations_times]; the array is not initialised. *)
Definition read_time (times : list (option time)) (i : Z) : run time :=
  let* cell := array_get times i in
  match cell with
  | Some t => Ret t
  | None => Stop Uninitialised
  end.

(** One iteration of the benchmark loop.  [returned] is set by the
    [return] after a failed validation. *)
Definition benchmark_body (name : string)
    (sort_func : list Z -> Z -> run (list Z)) (i : Z)
    (s : World * list (option time) * bool)
    : run (World * list (option time) * bool) :=
  let '(w, iterations_times, returned) := s in
  if returned then Ret s
  else
    let g := globals w in
    let* work := copy_array (work_data g) (original_data g) (data_size g) in
    let start := clock (calls w) in
    let* work := sort_func work (data_size g) in
    let end_ := clock (S (calls w)) in
    let duration := minus end_ start in
    let g := mkGlobals (original_data g) work (expected_data g)
               (data_size g) (iterations g) in
    let* report := check_results_report work (expected_data g) (data_size g) in
    match report with
    | Some line =>
        Ret (mkWorld g (S (S (calls w)))
               (output w ++ [line; FailedValidation name (i + 1)]),
             iterations_times, true)
    | None =>
        let* iterations_times :=
          array_set iterations_times i (Some duration) in
        Ret (mkWorld g (S (S (calls w)))
               (output w ++ [Completed name (i + 1) duration]),
             iterations_times, false)
    end.

(** The body of the inner loop of the median computation. *)
Definition median_inner_body (j : Z) (times : list (option time))
    : run (list (option time)) :=
  let* a := read_time times j in
  let* b := read_time times (j + 1) in
  if later a b then
    let temp := a in
    let* times := array_set times j (Some b) in
    array_set times (j + 1) (Some temp)
  else Ret times.

Definition run_benchmark (name : string)
    (sort_func : list Z -> Z -> run (list Z)) (w : World) : run World :=
  let iterations_times : list (option time) := replicate 1000 None in
  let n := iterations (globals w) in
  let* '(w, iterations_times, returned) :=
    for_up 0 n (benchmark_body name sort_func) (w, iterations_times, false) in
  if returned then Ret w
  else
    let* iterations_times :=
      for_up 0 (wrap (n - 1))
        (fun i times =>
           for_up 0 (wrap (wrap (n - i) - 1)) median_inner_body times)
        iterations_times in
    let* median := read_time iterations_times (Z.quot n 2) in
    Ret (mkWorld (globals w) (calls w) (output w ++ [Median name median])).

(** The duration that the [i]-th iteration measures when [start] calls
    of the clock came before the benchmark, the durations of the first [m]
    iterations, and the lines these iterations print. *)
Definition nth_duration (start i : nat) : time :=
  minus (clock (S (start + 2 * i))) (clock (start + 2 * i)).

Definition durations (start m : nat) : list time :=
  map (nth_duration start) (seq 0 m).

Definition completed (name : string) (start m : nat) : list message :=
  map (fun i => Completed name (Z.of_nat i + 1) (nth_duration start i))
    (seq 0 m).

(** [main]: the two files are their texts, [None] for a file that cannot
    be opened.  The answer is the world at the end and the exit status. *)
Definition main (data_json config_json : option string) (g : Globals)
    : run (World * Z) :=
  let* '(g, parsed) := parse_data_json data_json g in
  let out :=
    match data_json with
    | None => [CannotOpen "../data.json"]
    | Some _ => []
    end in
  if parsed =? 0 then
    Ret (mkWorld g 0 (out ++ [FailedToParse "data.json"]), 1)
  else
    let* '(g, parsed) := parse_config_json config_json g in
    let out :=
      match config_json with
      | None => out ++ [CannotOpen "../config.json"]
      | Some _ => out
      end in
    if parsed =? 0 then
      Ret (mkWorld g 0 (out ++ [FailedToParse "config.json"]), 1)
    else
      let out := out ++ [Loaded (data_size g) (iterations g)] in
      let* expected :=
        copy_array (expected_data g) (original_data g) (data_size g) in
      let* expected := quick_sort expected (data_size g) in
      let g := mkGlobals (original_data g) (work_data g) expected
                 (data_size g) (iterations g) in
      let* w := run_benchmark "Bubble sort" bubble_sort (mkWorld g 0 out) in
      let* w := run_benchmark "Radix sort" radix_sort w in
      let* w := run_benchmark "Quick sort" quick_sort w in
      Ret (w, 0).

End Timing.

Arguments CannotOpen {time}.
Arguments FailedToParse {time}.
Arguments Loaded {time}.
Arguments Mismatch {time}.
Arguments FailedValidation {time}.
Arguments Completed {time}.
Arguments Median {time}.
Arguments mkWorld {time}.
Arguments globals {time}.
Arguments calls {time}.
Arguments output {time}.

(** The globals when the program starts. *)
Definition initial_globals : Globals :=
  mkGlobals (replicate (Z.to_nat MAX_DATA_SIZE) 0)
    (replicate (Z.to_nat MAX_DATA_SIZE) 0)
    (replicate (Z.to_nat MAX_DATA_SIZE) 0) 0 10.

(** A sorting routine that does its work on the data of the benchmark. *)
Definition sorts_to (sort_func : list Z -> Z -> run (list Z))
    (values sorted : list Z) : Prop :=
  forall rest, sort_func (values ++ rest) (Z.of_nat (length values)) =
               Ret (sorted ++ rest).

(** *** Samples *)

(** Globals with room for five values. *)
Definition sample_globals : Globals :=
  mkGlobals [7; 7; 7; 7; 7] [8; 8; 8; 8; 8] [9; 9; 9; 9; 9] 5 10.

(** A line of 1023 characters that ends with the digit [1]. *)
Definition sample_long_line : string :=
  (Ast.write_indent 511 ++ "1")%string.

End Bench.

(** * Properties of the front end *)

Module AstFacts.
Import Ast.
Local Open Scope string_scope.

(** The text found in the dead arrays is any text at all: every statement
    below holds whatever it is. *)
Section Lexer.

Variable dead_text : nat -> string.

Local Abbreviation tokenize_step := (Ast.tokenize_step dead_text).
Local Abbreviation tokenize_loop := (Ast.tokenize_loop dead_text).
Local Abbreviation tokenize := (Ast.tokenize dead_text).
Local Abbreviation steps := (Ast.steps dead_text).
Local Abbreviation steps_refl := (Ast.steps_refl dead_text).
Local Abbreviation steps_cons := (Ast.steps_cons dead_text).
Local Abbreviation parse_source := (Ast.parse_source dead_text).
Local Abbreviation generateAst := (Ast.generateAst dead_text).
Local Abbreviation parse_file := (Ast.parse_file dead_text).

(** ** The scanning loop *)

Ltac step_cases H :=
  unfold Ast.tokenize_step, advance in H;
  repeat match type of H with
  | context [match state ?s with _ => _ end] => destruct (state s) eqn:?
  | context [if ?b then _ else _] => destruct b eqn:?
  | context [match ?o with Some _ => _ | None => _ end] => destruct o eqn:?
  end;
  try discriminate H;
  try (injection H as H; subst).

Lemma tokenize_step_progress input s s' :
  tokenize_step input s = Ok s' ->
  i s' = S (i s) \/
  (i s' = i s /\ state s <> STATE_SEARCHING /\ state s' = STATE_SEARCHING).
Proof.
  intros H. step_cases H; simpl; auto; right; repeat split; congruence.
Qed.

Lemma tokenize_step_measure input n s s' :
  (i s < n)%nat ->
  tokenize_step input s = Ok s' ->
  (measure n s' < measure n s)%nat.
Proof.
  intros Hlt H. unfold measure.
  destruct (tokenize_step_progress _ _ _ H) as [E | (E & Hs & Hs')].
  - rewrite E. destruct (state s), (state s'); lia.
  - rewrite E, Hs'. destruct (state s); try congruence; lia.
Qed.

Lemma tokenize_step_fails input s e :
  tokenize_step input s = Exit e ->
  state s = STATE_SEARCHING /\
  e = UnexpectedCharacter (char_at input (i s)) /\
  no_rule (char_at input (i s)).
Proof.
  intros H. step_cases H; unfold no_rule; auto 10.
Qed.

Lemma tokenize_loop_fuel input n : forall f1 f2 s,
  (measure n s <= f1)%nat -> (measure n s <= f2)%nat ->
  tokenize_loop f1 input n s = tokenize_loop f2 input n s.
Proof.
  induction f1 as [|f1 IH]; intros f2 s H1 H2.
  - destruct f2; simpl; destruct (Nat.ltb_spec (i s) n); auto.
    unfold measure in H1; lia.
  - destruct f2; simpl; destruct (Nat.ltb_spec (i s) n); auto.
    + unfold measure in H2; lia.
    + destruct (tokenize_step input s) as [s'|e] eqn:E; simpl; auto.
      pose proof (tokenize_step_measure _ _ _ _ H E).
      apply IH; lia.
Qed.

Lemma tokenize_loop_steps input n s s' :
  steps input n s s' ->
  tokenize_loop (measure n s) input n s =
  tokenize_loop (measure n s') input n s'.
Proof.
  induction 1 as [|s s' s'' Hlt E _ IH]; auto.
  pose proof (tokenize_step_measure _ _ _ _ Hlt E) as Hm.
  destruct (measure n s) as [|f] eqn:Ef; [lia|].
  simpl. apply Nat.ltb_lt in Hlt. rewrite Hlt, E. simpl.
  rewrite <- IH. apply tokenize_loop_fuel; lia.
Qed.

Lemma steps_trans input n s1 s2 s3 :
  steps input n s1 s2 -> steps input n s2 s3 -> steps input n s1 s3.
Proof.
  induction 1; auto. intros. eapply steps_cons; eauto.
Qed.

(** With enough fuel the loop runs to its end or to the first fatal
    character, and the fuel is not exhausted. *)
Lemma tokenize_loop_enough input n : forall f s,
  (measure n s <= f)%nat ->
  (exists s', steps input n s s' /\ (n <= i s')%nat /\
              tokenize_loop f input n s = Ok s') \/
  (exists s', steps input n s s' /\ (i s' < n)%nat /\
              state s' = STATE_SEARCHING /\
              no_rule (char_at input (i s')) /\
              tokenize_loop f input n s =
              Exit (UnexpectedCharacter (char_at input (i s')))).
Proof.
  induction f as [|f IH]; intros s Hm.
  - left. exists s. simpl. destruct (Nat.ltb_spec (i s) n).
    + unfold measure in Hm; lia.
    + repeat split; auto. constructor.
  - simpl. destruct (Nat.ltb_spec (i s) n) as [Hlt|Hge].
    + destruct (tokenize_step input s) as [s1|e] eqn:E; simpl.
      * pose proof (tokenize_step_measure _ _ _ _ Hlt E).
        destruct (IH s1) as [(s' & Hs & Hr)|(s' & Hs & Hr)];
          [lia | left | right]; exists s';
          (split; [eapply steps_cons; eauto | exact Hr]).
      * apply tokenize_step_fails in E as (Hst & -> & Hn).
        right. exists s. split; [constructor | auto].
    + left. exists s. repeat split; auto. constructor.
Qed.

Lemma measure_init n : measure n scanner_init = (2 * n)%nat.
Proof. unfold measure; simpl. lia. Qed.

(** *** The token array only grows, and never receives an end-of-input
    token inside the loop *)

Lemma get_keyword_type_not_eof str : get_keyword_type str <> TOKEN_EOF.
Proof.
  unfold get_keyword_type.
  repeat match goal with |- context [if ?b then _ else _] => destruct b end;
    discriminate.
Qed.

Lemma separator_type_not_eof c ty : separator_type c = Some ty -> ty <> TOKEN_EOF.
Proof.
  unfold separator_type.
  repeat match goal with |- context [if ?b then _ else _] => destruct b end;
    intros [= <-]; discriminate.
Qed.

Lemma operator_type_not_eof c ty : operator_type c = Some ty -> ty <> TOKEN_EOF.
Proof.
  unfold operator_type.
  repeat match goal with |- context [if ?b then _ else _] => destruct b end;
    intros [= <-]; discriminate.
Qed.

Lemma tokenize_step_tokens input s s' :
  tokenize_step input s = Ok s' ->
  exists new, tokens s' = (tokens s ++ new)%list /\ Forall not_eof new.
Proof.
  intros H.
  pose proof get_keyword_type_not_eof.
  pose proof separator_type_not_eof.
  pose proof operator_type_not_eof.
  step_cases H; simpl; unfold add_token;
    try (exists nil; rewrite app_nil_r; split; [reflexivity | constructor]);
    (eexists; split; [reflexivity |]);
    repeat constructor; unfold not_eof; simpl; eauto; discriminate.
Qed.

Lemma steps_tokens input n s s' :
  steps input n s s' ->
  exists new, tokens s' = (tokens s ++ new)%list /\ Forall not_eof new.
Proof.
  induction 1 as [s|s s1 s2 _ E _ (new2 & E2 & F2)].
  - exists nil. rewrite app_nil_r. split; [reflexivity | constructor].
  - apply tokenize_step_tokens in E as (new1 & E1 & F1).
    exists (new1 ++ new2)%list. rewrite E2, E1, <- app_assoc.
    split; [reflexivity | apply Forall_app; auto].
Qed.

(** Every successful run of [tokenize] is a run of the loop to its end,
    followed by the end-of-input token. *)
Lemma tokenize_ok input toks :
  tokenize input = Ok toks ->
  exists s, steps input (c_strlen input) scanner_init s /\
            (c_strlen input <= i s)%nat /\
            toks = (tokens s ++
                    [mkToken TOKEN_EOF "EOF" (current_line s) (current_column s)])%list.
Proof.
  unfold Ast.tokenize. intros H.
  destruct (tokenize_loop_enough input (c_strlen input)
              (2 * c_strlen input + 1) scanner_init)
    as [(s & Hs & Hi & Hr)|(s & _ & _ & _ & _ & Hr)];
    [rewrite measure_init; lia | |]; rewrite Hr in H; simpl in H.
  - injection H as <-. exists s. auto.
  - discriminate.
Qed.

(** *** Texts as concatenations *)

Lemma char_at_app pre s k :
  char_at (pre ++ s) (String.length pre + k) = char_at s k.
Proof. unfold char_at. induction pre; simpl; auto. Qed.

Lemma substring_app pre s n :
  substring (String.length pre) n (pre ++ s) = substring 0 n s.
Proof. induction pre; simpl; auto. Qed.

Lemma substring_prefix b s : substring 0 (String.length b) (b ++ s) = b.
Proof.
  induction b; simpl.
  - destruct s; reflexivity.
  - now rewrite IHb.
Qed.

Lemma quote_free_char body : forall j,
  quote_free body = true -> (j < String.length body)%nat ->
  Ascii.eqb (char_at body j) dquote = false.
Proof.
  unfold char_at. induction body as [|c body IH]; simpl; intros j H Hj; [lia|].
  apply andb_prop in H as [Hc Hb].
  destruct j; simpl.
  - now apply negb_true_iff in Hc.
  - apply IH; auto; lia.
Qed.

(** In [STATE_STRING] the characters that are not the double quote are
    passed over one by one, and nothing but [i] changes. *)
Lemma scan_string_body input n : forall k s,
  state s = STATE_STRING ->
  (forall j, (j < k)%nat -> Ascii.eqb (char_at input (i s + j)) dquote = false) ->
  (i s + k <= n)%nat ->
  steps input n s
    (mkScanner STATE_STRING (state_start s) (state_start_line s)
       (state_start_column s) (current_line s) (current_column s)
       (i s + k) (tokens s)).
Proof.
  induction k as [|k IH]; intros s Hst Hq Hn.
  - rewrite Nat.add_0_r. destruct s; simpl in *; subst. constructor.
  - eapply steps_cons with
      (s' := mkScanner STATE_STRING (state_start s) (state_start_line s)
               (state_start_column s) (current_line s) (current_column s)
               (S (i s)) (tokens s)).
    + lia.
    + unfold Ast.tokenize_step. rewrite Hst.
      specialize (Hq 0%nat). rewrite Nat.add_0_r in Hq. rewrite Hq by lia.
      reflexivity.
    + replace (i s + S k)%nat with (S (i s) + k)%nat by lia.
      apply (IH (mkScanner STATE_STRING (state_start s) (state_start_line s)
               (state_start_column s) (current_line s) (current_column s)
               (S (i s)) (tokens s))); simpl; auto; try lia.
      intros j Hj. replace (S (i s + j)) with (i s + S j)%nat by lia.
      apply Hq. lia.
Qed.

(** ** The tokenizer on whole texts *)

(** C1. On the text [var x] the tokenizer returns the keyword and the
    end-of-input token only: the scan ends inside [STATE_IDENTIFIER], the
    pending identifier [x] is never added, and the end-of-input token sits at
    column 4 because the column counter moves only in [STATE_SEARCHING]. *)
Theorem tokenize_var_x :
  tokenize "var x" =
  Ok [mkToken TOKEN_VAR "var" 1 1; mkToken TOKEN_EOF "EOF" 1 4].
Proof. reflexivity. Qed.

(** C2. On the text [ab cd ] the identifier [cd], whose first character
    is at line 1, column 4 of the text (as [get_location_from_index]
    counts it), is recorded at column 3, and after the six characters of the
    line the counter stands at column 5: the characters passed over in
    [STATE_IDENTIFIER] do not advance it. *)
Theorem tokenize_position_drift :
  tokenize "ab cd " =
  Ok [mkToken TOKEN_IDENTIFIER "ab" 1 1; mkToken TOKEN_IDENTIFIER "cd" 1 3;
      mkToken TOKEN_EOF "EOF" 1 5] /\
  get_location_from_index 3 "ab cd " = (1, 4)%Z /\
  get_location_from_index 6 "ab cd " = (1, 7)%Z.
Proof. repeat split. Qed.

(** A run that has reached the end of the text passes through every
    scanner reachable from the same start. *)
Lemma steps_final input n s a b :
  steps input n s a -> steps input n s b -> (n <= i b)%nat ->
  steps input n a b.
Proof.
  induction 1 as [s|s s1 a Hlt E _ IH]; intros Hb Hn; auto.
  inversion Hb; subst; [lia|].
  apply IH; auto. congruence.
Qed.

Lemma char_at_body pre body post j :
  (j < String.length body)%nat ->
  char_at (pre ++ String dquote (body ++ String dquote post))
    (String.length pre + S j) = char_at body j.
Proof.
  rewrite char_at_app. unfold char_at. simpl. revert j.
  induction body as [|c body IH]; simpl; intros j Hj; [lia|].
  destruct j; simpl; auto. apply IH. lia.
Qed.

Lemma char_at_closing pre body post :
  char_at (pre ++ String dquote (body ++ String dquote post))
    (String.length pre + S (String.length body)) = dquote.
Proof.
  rewrite char_at_app. unfold char_at. simpl.
  induction body; simpl; auto.
Qed.

Lemma char_at_opening pre rest :
  char_at (pre ++ String dquote rest) (String.length pre) = dquote.
Proof.
  rewrite <- (Nat.add_0_r (String.length pre)).
  rewrite char_at_app. reflexivity.
Qed.

(** C3. When the scan meets an opening double quote in
    [STATE_SEARCHING] and the next double quote lies before the end of the
    text, the loop adds exactly one [TOKEN_STRING] token whose text is cut
    from the index of the opening quote: the opening quote followed by the
    characters up to, and without, the closing quote.  The loop is back in
    [STATE_SEARCHING] at the character after the closing quote, and the token
    is part of whatever [tokenize] returns. *)
Theorem string_token_includes_opening_quote pre body post s :
  let input := pre ++ String dquote (body ++ String dquote post) in
  steps input (c_strlen input) scanner_init s ->
  state s = STATE_SEARCHING ->
  i s = String.length pre ->
  quote_free body = true ->
  (String.length pre + String.length body + 1 < c_strlen input)%nat ->
  exists s',
    steps input (c_strlen input) s s' /\
    state s' = STATE_SEARCHING /\
    state_start s' = String.length pre /\
    i s' = (String.length pre + String.length body + 2)%nat /\
    tokens s' =
      (tokens s ++ [mkToken TOKEN_STRING (String dquote body)
                      (current_line s) (current_column s)])%list /\
    forall toks, tokenize input = Ok toks ->
      exists rest, toks = (tokens s' ++ rest)%list.
Proof.
  intros input Hreach Hst Hi Hq Hlen.
  set (n := c_strlen input) in *.
  (* the opening quote *)
  set (s1 := mkScanner STATE_STRING (i s) (current_line s) (current_column s)
               (current_line s) (current_column s + 1) (S (i s)) (tokens s)).
  assert (H1 : tokenize_step input s = Ok s1).
  { unfold Ast.tokenize_step, advance. rewrite Hst.
    replace (char_at input (i s)) with dquote
      by (rewrite Hi; symmetry; apply char_at_opening).
    reflexivity. }
  (* the body *)
  set (s2 := mkScanner STATE_STRING (i s) (current_line s) (current_column s)
               (current_line s) (current_column s + 1)
               (S (i s) + String.length body) (tokens s)).
  assert (H2 : steps input n s1 s2).
  { apply (scan_string_body input n (String.length body) s1); simpl; auto; [|lia].
    intros j Hj. rewrite Hi.
    replace (S (String.length pre + j)) with (String.length pre + S j)%nat by lia.
    unfold input. rewrite char_at_body by exact Hj.
    apply quote_free_char; auto. }
  (* the closing quote *)
  set (tok := mkToken TOKEN_STRING (String dquote body)
                (current_line s) (current_column s)).
  set (s3 := mkScanner STATE_SEARCHING (i s) (current_line s) (current_column s)
               (current_line s) (current_column s + 1)
               (S (S (i s) + String.length body)) (tokens s ++ [tok])%list).
  assert (H3 : tokenize_step input s2 = Ok s3).
  { assert (Hc : char_at input (S (i s + String.length body)) = dquote).
    { rewrite Hi.
      replace (S (String.length pre + String.length body))
        with (String.length pre + S (String.length body))%nat by lia.
      apply char_at_closing. }
    unfold Ast.tokenize_step. simpl state. simpl i.
    rewrite Hc, Ascii.eqb_refl. unfold s3, tok, add_token. simpl.
    replace (S (i s + String.length body) - i s)%nat
      with (S (String.length body)) by lia.
    rewrite Hi. unfold input. rewrite substring_app. simpl.
    now rewrite substring_prefix. }
  assert (Hall : steps input n s s3).
  { eapply steps_cons; [lia | exact H1 |].
    eapply steps_trans; [exact H2 |].
    eapply steps_cons; [simpl; lia | exact H3 | constructor]. }
  exists s3. split; [exact Hall|]. split; [reflexivity|].
  split; [exact Hi|]. split; [simpl; lia|]. split; [reflexivity|].
  intros toks Hok. apply tokenize_ok in Hok as (sf & Hsf & Hend & ->).
  fold n in Hsf, Hend.
  assert (Hrun : steps input n s3 sf).
  { apply (steps_final input n scanner_init); auto.
    exact (steps_trans _ _ _ _ _ Hreach Hall). }
  apply steps_tokens in Hrun as (new & -> & _).
  eexists. rewrite <- app_assoc. reflexivity.
Qed.

(** C6. Whenever [tokenize] returns, the sequence is a front part
    without any end-of-input token followed by a single end-of-input token, so
    that token occurs exactly once and is the last element. *)
Theorem eof_once_and_last input toks :
  tokenize input = Ok toks ->
  exists front l c,
    toks = (front ++ [mkToken TOKEN_EOF "EOF" l c])%list /\
    Forall not_eof front /\
    List.length (List.filter is_eof toks) = 1%nat.
Proof.
  intros H. apply tokenize_ok in H as (s & Hs & _ & ->).
  apply steps_tokens in Hs as (new & E & F). simpl in E. subst new.
  exists (tokens s), (current_line s), (current_column s).
  split; [reflexivity|]. split; [exact F|].
  rewrite List.filter_app, List.length_app. simpl.
  replace (List.filter is_eof (tokens s)) with (@nil Token); [reflexivity|].
  symmetry. induction F as [|t ts Ht _ IH]; simpl; auto.
  unfold not_eof in Ht. unfold is_eof, TokenType_eqb at 1.
  destruct (type t); try contradiction; simpl; exact IH.
Qed.

(** C9. For every text [tokenize] gives an answer without exhausting
    the bound of its loop: either a token sequence, or the fatal exit at a
    character met in [STATE_SEARCHING] for which that state has no rule, the
    loop having run without failure up to that character.  Every iteration
    moves [i] forward, except the one that closes an identifier or a number,
    which returns to [STATE_SEARCHING] where the next iteration moves. *)
Theorem tokenize_total input :
  ((exists toks, tokenize input = Ok toks) \/
   (exists s,
      steps input (c_strlen input) scanner_init s /\
      (i s < c_strlen input)%nat /\
      state s = STATE_SEARCHING /\
      no_rule (char_at input (i s)) /\
      tokenize input = Exit (UnexpectedCharacter (char_at input (i s))))) /\
  (forall s s',
      tokenize_step input s = Ok s' ->
      i s' = S (i s) \/
      (i s' = i s /\ state s <> STATE_SEARCHING /\ state s' = STATE_SEARCHING)) /\
  (forall s s',
      state s = STATE_SEARCHING -> tokenize_step input s = Ok s' ->
      i s' = S (i s)).
Proof.
  split; [|split].
  - unfold Ast.tokenize.
    destruct (tokenize_loop_enough input (c_strlen input)
                (2 * c_strlen input + 1) scanner_init)
      as [(s & Hs & Hi & Hr)|(s & Hs & Hi & Hst & Hn & Hr)];
      [rewrite measure_init; lia | |]; rewrite Hr; simpl.
    + left. eexists. reflexivity.
    + right. exists s. auto.
  - apply tokenize_step_progress.
  - intros s s' Hst H.
    destruct (tokenize_step_progress _ _ _ H) as [E|(_ & Hne & _)]; congruence.
Qed.

(** ** The parser *)

Lemma next_token_at toks k t t' :
  nth_error toks (S k) = Some t' ->
  next_token (parser_at toks k t) = Ok (parser_at toks (S k) t').
Proof.
  intros H. unfold next_token, parser_at.
  cbn [token_count current_token_index parser_tokens].
  assert (S k < List.length toks)%nat
    by (apply nth_error_Some; congruence).
  destruct (Nat.leb_spec (List.length toks) (S k)); [lia|].
  now rewrite H.
Qed.

Lemma accept_hit toks k t t' ty :
  type t = ty ->
  nth_error toks (S k) = Some t' ->
  accept (parser_at toks k t) ty = Ok (true, parser_at toks (S k) t').
Proof.
  intros E Hn. unfold accept.
  change (current_token (parser_at toks k t)) with t. rewrite E.
  unfold TokenType_eqb. rewrite Z.eqb_refl.
  now rewrite (next_token_at _ _ _ _ Hn).
Qed.

Lemma accept_miss p ty :
  TokenType_eqb (type (current_token p)) ty = false ->
  accept p ty = Ok (false, p).
Proof. intros E. unfold accept. now rewrite E. Qed.

Lemma accept_operand toks k t t' :
  is_operand t = true ->
  nth_error toks (S k) = Some t' ->
  or_accept (or_accept (accept (parser_at toks k t) TOKEN_NUMBER) TOKEN_STRING)
    TOKEN_IDENTIFIER = Ok (true, parser_at toks (S k) t').
Proof.
  intros Hop Hn. unfold is_operand in Hop. unfold or_accept.
  destruct (type t) eqn:E; try discriminate Hop;
    repeat (first [ rewrite (accept_hit _ _ _ _ _ E Hn)
                  | rewrite accept_miss by (simpl; rewrite E; reflexivity) ];
            cbn [bind]);
    reflexivity.
Qed.

Lemma accept_no_operand p :
  is_operand (current_token p) = false ->
  or_accept (or_accept (accept p TOKEN_NUMBER) TOKEN_STRING) TOKEN_IDENTIFIER
  = Ok (false, p).
Proof.
  unfold is_operand, or_accept. intros H.
  destruct (type (current_token p)) eqn:E; try discriminate H;
    repeat (rewrite accept_miss by (rewrite E; reflexivity); cbn [bind]);
    reflexivity.
Qed.

Lemma accept_operator_some ops toks k t t' text :
  operator_text ops t = Some text ->
  nth_error toks (S k) = Some t' ->
  accept_operator ops (parser_at toks k t) =
  Ok (Some text, parser_at toks (S k) t').
Proof.
  intros Ht Hn. induction ops as [|[ty x] ops IH]; simpl in *; [discriminate|].
  unfold accept. simpl.
  destruct (TokenType_eqb (type t) ty).
  - rewrite (next_token_at _ _ _ _ Hn). simpl. congruence.
  - simpl. auto.
Qed.

Lemma accept_operator_none ops p :
  operator_text ops (current_token p) = None ->
  accept_operator ops p = Ok (None, p).
Proof.
  induction ops as [|[ty x] ops IH]; simpl; auto.
  unfold accept.
  destruct (TokenType_eqb (type (current_token p)) ty); [discriminate|].
  simpl. auto.
Qed.

(** The two equations of [parse_expression]: an operand followed by an
    operator takes the whole rest of the expression as its right operand; an
    operand followed by anything else is a terminal expression. *)
Lemma parse_expression_chain fuel toks k a o b text :
  is_operand a = true ->
  operator_text expression_operators o = Some text ->
  nth_error toks (S k) = Some o ->
  nth_error toks (S (S k)) = Some b ->
  parse_expression (S fuel) (parser_at toks k a) =
  let* '(right_node, parser) :=
    parse_expression fuel (parser_at toks (S (S k)) b) in
  Ok (NODE_EXPRESSION a (Some text) (Some right_node), parser).
Proof.
  intros Ha Ho H1 H2. cbn [parse_expression].
  rewrite (accept_operand _ _ _ _ Ha H1). cbn [bind].
  rewrite (accept_operator_some _ _ _ _ _ _ Ho H2). reflexivity.
Qed.

Lemma parse_expression_terminal fuel toks k a t :
  is_operand a = true ->
  operator_text expression_operators t = None ->
  nth_error toks (S k) = Some t ->
  parse_expression (S fuel) (parser_at toks k a) =
  Ok (NODE_EXPRESSION a None None, parser_at toks (S k) t).
Proof.
  intros Ha Ht H1. cbn [parse_expression].
  rewrite (accept_operand _ _ _ _ Ha H1). cbn [bind].
  rewrite accept_operator_none by exact Ht. reflexivity.
Qed.

(** The tokens of the line [x=1+2+3]; the texts of the three operators are
    dead. *)
Example tokenize_x_1_2_3 :
  tokenize ("x=1+2+3" ++ nl) =
  Ok [mkToken TOKEN_IDENTIFIER "x" 1 1; mkToken TOKEN_EQUAL (dead_text 1) 1 2;
      mkToken TOKEN_NUMBER "1" 1 3; mkToken TOKEN_PLUS (dead_text 3) 1 4;
      mkToken TOKEN_NUMBER "2" 1 5; mkToken TOKEN_PLUS (dead_text 5) 1 6;
      mkToken TOKEN_NUMBER "3" 1 7; mkToken TOKEN_EOF "EOF" 2 1].
Proof. reflexivity. Qed.

(** C4. The text [x=1+2+3] is not parsed into the assignment of
    [1 + (2 + 3)]: without a character after it the last number is still
    pending when the scanning loop ends, no token is made of it, and the
    parser finds the end of input where the right operand of the second [+]
    should be.  Followed by a line feed the same text is parsed into that
    assignment, the chain nested to the right. *)
Theorem x_1_2_3_loses_its_last_operand :
  tokenize "x=1+2+3" =
    Ok [mkToken TOKEN_IDENTIFIER "x" 1 1;
        mkToken TOKEN_EQUAL (dead_text 1) 1 2;
        mkToken TOKEN_NUMBER "1" 1 3; mkToken TOKEN_PLUS (dead_text 3) 1 4;
        mkToken TOKEN_NUMBER "2" 1 5; mkToken TOKEN_PLUS (dead_text 5) 1 6;
        mkToken TOKEN_EOF "EOF" 1 8] /\
  parse_source "x=1+2+3" = Exit (UnexpectedSymbol "expression" 1 8) /\
  parse_source ("x=1+2+3" ++ nl) =
    Ok (NODE_PROGRAM (Some (NODE_STATEMENT_BLOCK
          [Some (NODE_ASSIGNMENT_STATEMENT "x"
             (Some (NODE_EXPRESSION (mkToken TOKEN_NUMBER "1" 1 3) (Some "+")
                (Some (NODE_EXPRESSION (mkToken TOKEN_NUMBER "2" 1 5) (Some "+")
                   (Some (NODE_EXPRESSION (mkToken TOKEN_NUMBER "3" 1 7)
                            None None)))))))]))).
Proof. repeat split; reflexivity. Qed.

(** Three operands [a], [b], [c] separated by two arithmetic operators and
    followed by a token that is not an arithmetic operator are parsed by
    [parse_expression] as [a op1 (b op2 c)], whatever the two operators are,
    the parser ending on the token after [c]. *)
Lemma parse_expression_right_associative
    pre a o1 b o2 c t rest text1 text2 fuel :
  is_operand a = true -> is_operand b = true -> is_operand c = true ->
  operator_text expression_operators o1 = Some text1 ->
  operator_text expression_operators o2 = Some text2 ->
  operator_text expression_operators t = None ->
  (3 <= fuel)%nat ->
  let toks := (pre ++ a :: o1 :: b :: o2 :: c :: t :: rest)%list in
  parse_expression fuel (parser_at toks (List.length pre) a) =
    Ok (NODE_EXPRESSION a (Some text1)
          (Some (NODE_EXPRESSION b (Some text2)
                   (Some (NODE_EXPRESSION c None None)))),
        parser_at toks (List.length pre + 5) t).
Proof.
  intros Ha Hb Hc H1 H2 Ht Hfuel toks.
  assert (Hn : forall j x, nth_error (a :: o1 :: b :: o2 :: c :: t :: rest) j = Some x ->
                 nth_error toks (List.length pre + j) = Some x).
  { intros j x Hj. unfold toks.
    rewrite nth_error_app2 by lia.
    now replace (List.length pre + j - List.length pre)%nat with j by lia. }
  destruct fuel as [|[|[|fuel]]]; try lia.
  replace (List.length pre + 5)%nat with (S (S (S (S (S (List.length pre))))))
    by lia.
  rewrite (parse_expression_chain _ toks _ a o1 b text1); auto;
    try (replace (S (List.length pre)) with (List.length pre + 1)%nat by lia;
         now apply Hn);
    try (replace (S (S (List.length pre))) with (List.length pre + 2)%nat by lia;
         now apply Hn).
  rewrite (parse_expression_chain _ toks _ b o2 c text2); auto;
    try (replace (S (S (S (List.length pre)))) with (List.length pre + 3)%nat by lia;
         now apply Hn);
    try (replace (S (S (S (S (List.length pre))))) with (List.length pre + 4)%nat by lia;
         now apply Hn).
  rewrite (parse_expression_terminal _ toks _ c t); auto.
  replace (S (S (S (S (S (List.length pre)))))) with (List.length pre + 5)%nat by lia.
  now apply Hn.
Qed.

Lemma accept_operator_text ops : forall p text q,
  accept_operator ops p = Ok (Some text, q) ->
  In text (List.map snd ops).
Proof.
  induction ops as [|[ty x] ops IH]; simpl; intros p text q H; [discriminate|].
  unfold accept in H.
  destruct (TokenType_eqb (type (current_token p)) ty).
  - destruct (next_token p); simpl in H; [|discriminate].
    injection H as <- _. auto.
  - simpl in H. eauto.
Qed.

(** C5. When the expression that opens a condition is followed by a
    token that is none of [>], [<], [=], [parse_condition] exits with the
    parser error tagged [condition] at that token; whenever it returns, the
    node is a condition with one of the three comparators and both sides; and
    the text [if(x){y=1}] is rejected with that error at its closing
    parenthesis. *)
Theorem condition_requires_comparator fuel p e p' :
  parse_expression fuel p = Ok (e, p') ->
  operator_text condition_operators (current_token p') = None ->
  parse_condition fuel p =
    Exit (UnexpectedSymbol "condition"
            (line (current_token p')) (column (current_token p'))) /\
  (forall fuel0 p0 n q,
     parse_condition fuel0 p0 = Ok (n, q) ->
     exists l text r,
       n = NODE_CONDITION (Some l) text (Some r) /\
       In text [">"; "<"; "="]) /\
  parse_source "if(x){y=1}" = Exit (UnexpectedSymbol "condition" 1 4).
Proof.
  intros He Hop. split; [|split; [|reflexivity]].
  - unfold parse_condition. rewrite He. cbn [bind].
    rewrite accept_operator_none by exact Hop. reflexivity.
  - clear. intros fuel p n q H. unfold parse_condition in H.
    destruct (parse_expression fuel p) as [[l p1]|]; [|discriminate].
    cbn [bind] in H.
    destruct (accept_operator condition_operators p1) as [[[text|] p2]|] eqn:E;
      cbn [bind] in H; try discriminate.
    destruct (parse_expression fuel p2) as [[r p3]|]; [|discriminate].
    cbn [bind] in H. injection H as <- _.
    exists l, text, r. split; [reflexivity|].
    exact (accept_operator_text _ _ _ _ E).
Qed.

(** ** The serializers *)

Lemma append_assoc (a b c : string) : (a ++ b) ++ c = a ++ (b ++ c).
Proof. induction a; simpl; congruence. Qed.

Lemma append_nil_r (a : string) : a ++ "" = a.
Proof. induction a; simpl; congruence. Qed.

Lemma contains_refl a : contains a a.
Proof. exists "", "". simpl. now rewrite append_nil_r. Qed.

Lemma contains_app_l a b t : contains a t -> contains a (b ++ t).
Proof.
  intros (x & y & ->). exists (b ++ x), y. now rewrite append_assoc.
Qed.

Lemma contains_app_r a b t : contains a t -> contains a (t ++ b).
Proof.
  intros (x & y & ->). exists x, (y ++ b). now rewrite !append_assoc.
Qed.

Lemma contains_trans a b c : contains a b -> contains b c -> contains a c.
Proof.
  intros (x & y & ->) (x' & y' & ->).
  exists (x' ++ x), (y ++ y'). now rewrite !append_assoc.
Qed.

Lemma ends_with_refl a : ends_with a a.
Proof. now exists "". Qed.

Lemma ends_with_app a b t : ends_with a t -> ends_with a (b ++ t).
Proof. intros (x & ->). exists (b ++ x). now rewrite append_assoc. Qed.

(** A text made of pieces contains what one of its pieces contains. *)
Ltac find_part :=
  solve [ repeat first
            [ assumption
            | apply contains_refl
            | apply contains_app_r; solve [find_part]
            | apply contains_app_l ] ].

Ltac find_tail :=
  repeat rewrite append_assoc;
  repeat first [ apply ends_with_refl | apply ends_with_app ].

Lemma write_statement_contains (write : option ASTNode -> nat -> string)
    c (statements : list (option ASTNode)) indent :
  In (Some c) statements ->
  contains (write (Some c) (indent + 1)%nat)
    ((fix loop (list : list (option ASTNode)) (indent : nat) : string :=
        match list with
        | nil => ""
        | statement :: rest =>
            write_indent (indent + 1) ++
            write statement (indent + 1)%nat ++
            (match rest with nil => "" | _ => "," end) ++
            nl ++
            loop rest indent
        end) statements indent).
Proof.
  induction statements as [|st rest IH]; intros Hin; [contradiction|].
  destruct Hin as [->|Hin].
  - find_part.
  - specialize (IH Hin). find_part.
Qed.

Lemma serialize_statement_contains (ser : option ASTNode -> string)
    c (statements : list (option ASTNode)) :
  In (Some c) statements ->
  contains (ser (Some c))
    ((fix loop (list : list (option ASTNode)) : string :=
        match list with
        | nil => ""
        | statement :: rest =>
            "    " ++
            ser statement ++
            (match rest with nil => "" | _ => "," end) ++
            nl ++
            loop rest
        end) statements).
Proof.
  induction statements as [|st rest IH]; intros Hin; [contradiction|].
  destruct Hin as [->|Hin].
  - find_part.
  - specialize (IH Hin). find_part.
Qed.

Lemma in_present c (child : option ASTNode) : In c (present child) -> child = Some c.
Proof. destruct child; simpl; [intros [->|[]] | intros []]; reflexivity. Qed.

Lemma in_statements c (statements : list (option ASTNode)) :
  In c (List.concat (List.map present statements)) -> In (Some c) statements.
Proof.
  induction statements as [|st rest IH]; simpl; auto.
  intros H. apply in_app_or in H as [H|H]; auto.
  left. now apply in_present.
Qed.

Lemma write_node_contains_child t c indent :
  In c (children t) ->
  exists indent', contains (write_node c indent') (write_node t indent).
Proof.
  destruct t; cbn [children]; intros Hin;
    repeat (apply in_app_or in Hin as [Hin|Hin]);
    try (apply in_present in Hin; subst);
    try contradiction;
    try (exists (indent + 2)%nat; cbn [write_node]; find_part).
  apply in_statements in Hin.
  exists (indent + 2 + 1)%nat. cbn [write_node].
  pose proof (write_statement_contains
                (fun child indent => match child with
                                     | Some n => write_node n indent
                                     | None => "null"
                                     end) c statements (indent + 2) Hin) as H.
  cbv beta iota in H. find_part.
Qed.

Lemma serialize_node_contains_child t c :
  In c (children t) -> contains (serialize_node c) (serialize_node t).
Proof.
  destruct t; cbn [children]; intros Hin;
    repeat (apply in_app_or in Hin as [Hin|Hin]);
    try (apply in_present in Hin; subst);
    try contradiction;
    try (cbn [serialize_node]; find_part).
  apply in_statements in Hin.
  cbn [serialize_node].
  pose proof (serialize_statement_contains
                (fun child => match child with
                              | Some n => serialize_node n
                              | None => "null"
                              end) c statements Hin) as H.
  cbv beta iota in H. find_part.
Qed.

Lemma write_node_contains_node n t :
  node_in n t ->
  forall indent, exists indent',
    contains (write_node n indent') (write_node t indent).
Proof.
  induction 1 as [|t c Hc _ IH]; intros indent.
  - exists indent. apply contains_refl.
  - destruct (write_node_contains_child t c indent Hc) as (i1 & H1).
    destruct (IH i1) as (i2 & H2).
    exists i2. eapply contains_trans; eauto.
Qed.

Lemma serialize_node_contains_node n t :
  node_in n t -> contains (serialize_node n) (serialize_node t).
Proof.
  induction 1 as [|t c Hc _ IH].
  - apply contains_refl.
  - eapply contains_trans; [exact IH|].
    now apply serialize_node_contains_child.
Qed.

(** C8. In both forms the text of an [if] node without else block
    ends with the key [elseBlock] holding [null]; the text of an expression
    without operator holds [null] under the key [operator], followed only by
    its [right] field; the text of an expression without right operand ends
    with the key [right] holding [null].  The text of every node of a tree
    occurs in the document of the tree, so this holds at every depth. *)
Theorem absent_optional_fields_are_null :
  (forall c b indent,
     ends_with (quoted "elseBlock" ++ ": " ++ "null" ++ write_closing indent)
       (write_node (NODE_IF_STATEMENT c b None) indent)) /\
  (forall c b,
     ends_with (quoted "elseBlock" ++ ": " ++ "null" ++ serialize_closing)
       (serialize_node (NODE_IF_STATEMENT c b None))) /\
  (forall tok r indent,
     ends_with (quoted "operator" ++ ": " ++ "null" ++ "," ++ nl ++
                write_indent (indent + 2) ++ quoted "right" ++ ": " ++
                write_ast_to_json r (indent + 2) ++ write_closing indent)
       (write_node (NODE_EXPRESSION tok None r) indent)) /\
  (forall tok r,
     ends_with (quoted "operator" ++ ": " ++ "null" ++ "," ++ nl ++ "    " ++
                quoted "right" ++ ": " ++ serialize_ast r ++ serialize_closing)
       (serialize_node (NODE_EXPRESSION tok None r))) /\
  (forall tok op indent,
     ends_with (quoted "right" ++ ": " ++ "null" ++ write_closing indent)
       (write_node (NODE_EXPRESSION tok op None) indent)) /\
  (forall tok op,
     ends_with (quoted "right" ++ ": " ++ "null" ++ serialize_closing)
       (serialize_node (NODE_EXPRESSION tok op None))) /\
  (forall n t,
     node_in n t ->
     (forall indent, exists indent',
        contains (write_node n indent') (write_node t indent)) /\
     contains (serialize_node n) (serialize_node t)).
Proof.
  unfold write_closing, serialize_closing, write_ast_to_json, serialize_ast.
  repeat split; intros.
  1-6: cbn [write_node serialize_node]; find_tail.
  - now apply write_node_contains_node.
  - now apply serialize_node_contains_node.
Qed.

(** *** The two forms on plain trees *)

(** Induction on syntax trees, through their optional children and their
    statement lists. *)
Section ASTNode_induction.

Variable P : ASTNode -> Prop.

Definition on_child (child : option ASTNode) : Prop :=
  match child with
  | Some n => P n
  | None => True
  end.

Hypothesis P_program : forall block, on_child block -> P (NODE_PROGRAM block).
Hypothesis P_block : forall statements,
  Forall on_child statements -> P (NODE_STATEMENT_BLOCK statements).
Hypothesis P_variable : forall identifier, P (NODE_VARIABLE_STATEMENT identifier).
Hypothesis P_if : forall condition block else_block,
  on_child condition -> on_child block -> on_child else_block ->
  P (NODE_IF_STATEMENT condition block else_block).
Hypothesis P_while : forall condition block,
  on_child condition -> on_child block ->
  P (NODE_WHILE_STATEMENT condition block).
Hypothesis P_assignment : forall identifier value,
  on_child value -> P (NODE_ASSIGNMENT_STATEMENT identifier value).
Hypothesis P_condition : forall left_node operator right_node,
  on_child left_node -> on_child right_node ->
  P (NODE_CONDITION left_node operator right_node).
Hypothesis P_expression : forall left_token operator right_node,
  on_child right_node -> P (NODE_EXPRESSION left_token operator right_node).

Fixpoint ASTNode_induction (node : ASTNode) : P node :=
  let child (c : option ASTNode) : on_child c :=
    match c with
    | Some n => ASTNode_induction n
    | None => I
    end in
  match node with
  | NODE_PROGRAM block => P_program block (child block)
  | NODE_STATEMENT_BLOCK statements =>
      P_block statements
        ((fix all (list : list (option ASTNode)) : Forall on_child list :=
            match list with
            | nil => @List.Forall_nil _ on_child
            | statement :: rest =>
                @List.Forall_cons _ on_child statement rest
                  (child statement) (all rest)
            end) statements)
  | NODE_VARIABLE_STATEMENT identifier => P_variable identifier
  | NODE_IF_STATEMENT condition block else_block =>
      P_if condition block else_block
        (child condition) (child block) (child else_block)
  | NODE_WHILE_STATEMENT condition block =>
      P_while condition block (child condition) (child block)
  | NODE_ASSIGNMENT_STATEMENT identifier value =>
      P_assignment identifier value (child value)
  | NODE_CONDITION left_node operator right_node =>
      P_condition left_node operator right_node
        (child left_node) (child right_node)
  | NODE_EXPRESSION left_token operator right_node =>
      P_expression left_token operator right_node (child right_node)
  end.

End ASTNode_induction.

Lemma strip_app a b :
  strip_whitespace (a ++ b) = strip_whitespace a ++ strip_whitespace b.
Proof.
  induction a as [|c a IH]; [reflexivity|]. simpl.
  destruct (_ || _); simpl; now rewrite IH.
Qed.

Lemma strip_indent n : strip_whitespace (write_indent n) = "".
Proof. induction n; simpl; auto. Qed.

Lemma plain_string_escapes s :
  plain_string s = true -> write_json_chars s = json_escaped_chars s.
Proof.
  induction s as [|c s IH]; [reflexivity|]. simpl.
  intros H. apply andb_prop in H as [Hc Hs]. rewrite (IH Hs). f_equal.
  destruct (Ascii.eqb c dquote); [reflexivity|].
  destruct (Ascii.eqb c backslash); [reflexivity|].
  destruct (Ascii.eqb c newline) eqn:En; [reflexivity|].
  destruct (Ascii.eqb c tab) eqn:Et; [reflexivity|].
  unfold plain_char in Hc. rewrite En, Et, !orb_false_r in Hc.
  apply Nat.leb_le in Hc.
  destruct (Ascii.eqb_spec c carriage_return) as [->|_]; [vm_compute in Hc; lia|].
  destruct (Ascii.eqb_spec c backspace) as [->|_]; [vm_compute in Hc; lia|].
  destruct (Ascii.eqb_spec c form_feed) as [->|_]; [vm_compute in Hc; lia|].
  destruct (Nat.ltb_spec (nat_of_ascii c) 32); [lia | reflexivity].
Qed.

Lemma strip_statements (write : option ASTNode -> nat -> string)
    (ser : option ASTNode -> string) (statements : list (option ASTNode)) :
  Forall (fun c => forall indent,
            strip_whitespace (write c indent) = strip_whitespace (ser c))
    statements ->
  forall indent,
    strip_whitespace
      ((fix loop (list : list (option ASTNode)) (indent : nat) : string :=
          match list with
          | nil => ""
          | statement :: rest =>
              write_indent (indent + 1) ++
              write statement (indent + 1)%nat ++
              (match rest with nil => "" | _ => "," end) ++
              nl ++
              loop rest indent
          end) statements indent) =
    strip_whitespace
      ((fix loop (list : list (option ASTNode)) : string :=
          match list with
          | nil => ""
          | statement :: rest =>
              "    " ++
              ser statement ++
              (match rest with nil => "" | _ => "," end) ++
              nl ++
              loop rest
          end) statements).
Proof.
  induction 1 as [|c rest Hc _ IH]; intros indent; [reflexivity|].
  rewrite !strip_app, strip_indent, Hc, IH. reflexivity.
Qed.

Lemma plain_statements_agree (statements : list (option ASTNode)) :
  Forall
    (on_child
       (fun node =>
          plain_node node ->
          forall indent,
            strip_whitespace (write_node node indent) =
            strip_whitespace (serialize_node node)))
    statements ->
  (fix all (list : list (option ASTNode)) : Prop :=
     match list with
     | nil => True
     | statement :: rest =>
         match statement with
         | Some n => plain_node n
         | None => True
         end /\ all rest
     end) statements ->
  Forall
    (fun c => forall indent,
       strip_whitespace
         (match c with Some n => write_node n indent | None => "null" end) =
       strip_whitespace
         (match c with Some n => serialize_node n | None => "null" end))
    statements.
Proof.
  induction 1 as [|c rest Hc _ IH]; intros Hplain; constructor.
  - destruct Hplain as [Hp _]. destruct c; cbn [on_child] in Hc; auto.
  - apply IH. apply Hplain.
Qed.

(** On a tree without control characters other than line feeds and tabs in
    its strings, the two forms write the same document up to spaces, tabs and
    line ends. *)
Lemma serializers_agree_on_plain_trees node :
  plain_node node ->
  forall indent,
    strip_whitespace (write_node node indent) =
    strip_whitespace (serialize_node node).
Proof.
  induction node using ASTNode_induction; intros Hplain indent;
    cbn [plain_node] in Hplain.
  2:{ (* statement block *)
      pose proof (strip_statements _ _ statements
                    (plain_statements_agree statements H Hplain)
                    (indent + 2)) as Hs.
      cbv beta in Hs.
      cbn [write_node serialize_node].
      rewrite ?strip_app, ?strip_indent, Hs. reflexivity. }
  all: cbn [write_node serialize_node];
    unfold write_token_to_json, serialize_token, write_json_string,
      json_append_escaped_string, json_append_int;
    repeat match goal with
    | o : option string |- _ => destruct o
    | H : _ /\ _ |- _ => destruct H
    | H : plain_string _ = true |- _ =>
        apply plain_string_escapes in H; rewrite H
    end;
    repeat match goal with
    | c : option ASTNode, H : on_child _ ?c |- _ =>
        let n := fresh "n" in
        destruct c as [n|]; cbn [on_child] in H
    end;
    rewrite ?strip_app, ?strip_indent;
    repeat match goal with
    | H : plain_node ?n -> forall indent, _ = _, Hp : plain_node ?n |- _ =>
        rewrite (H Hp); clear H
    end;
    reflexivity.
Qed.

(** C7. On the tree of an assignment whose string holds a carriage
    return the two forms write different values: the streaming form copies
    the byte 13 into the string, the buffered form writes a backslash and the
    letter [r]; the documents still differ once spaces, tabs, line feeds and
    carriage returns are removed from both. *)
Theorem serializers_differ_on_carriage_return :
  parse_source carriage_return_source = Ok carriage_return_tree /\
  write_json_string (value carriage_return_token) 0 =
    String dquote (String backslash (String dquote
      (String carriage_return (String dquote "")))) /\
  json_append_escaped_string (value carriage_return_token) =
    String dquote (String backslash (String dquote
      (String backslash (String "r" (String dquote ""))))) /\
  strip_whitespace (write_ast_to_json (Some carriage_return_tree) 0) <>
  strip_whitespace (serialize_ast (Some carriage_return_tree)).
Proof.
  repeat split. vm_compute. discriminate.
Qed.

(** ** What the scanning loop keeps true *)

Lemma steps_invariant (Inv : Scanner -> Prop) input n :
  (forall s s', Inv s -> (i s < n)%nat -> tokenize_step input s = Ok s' -> Inv s') ->
  forall s s', steps input n s s' -> Inv s -> Inv s'.
Proof.
  intros Hstep s s' H. induction H; eauto.
Qed.

Section Places.

Local Open Scope Z_scope.

Lemma before_trans a b c : before a b -> before b c -> before a c.
Proof. unfold before. lia. Qed.

Lemma Forall_before (l : list Token) a b :
  before a b -> Forall (fun t => before (position t) a) l ->
  Forall (fun t => before (position t) b) l.
Proof.
  intros Hab H. induction H; constructor; auto.
  eapply before_trans; eauto.
Qed.

Lemma sorted_snoc {A : Type} (R : A -> A -> Prop) l t :
  StronglySorted R l -> Forall (fun x => R x t) l ->
  StronglySorted R (l ++ [t]).
Proof.
  induction 1 as [|x l Hs IH Hx]; intros Ht; simpl.
  - repeat constructor.
  - inversion Ht; subst. constructor; [auto|].
    apply Forall_app. split; [exact Hx | repeat constructor; auto].
Qed.

Lemma places_in_order_step input s s' :
  places_in_order s -> tokenize_step input s = Ok s' -> places_in_order s'.
Proof.
  unfold places_in_order. intros (Hl & Hc & Hpos & Hsort & Hst) H.
  step_cases H; cbn [current_line current_column tokens state
                       state_start_line state_start_column] in *;
    unfold add_token;
    repeat match goal with
    | H : _ /\ _ |- _ => destruct H
    | |- _ /\ _ => split
    | |- Forall _ (_ ++ [_]) =>
        apply Forall_app; split; [|apply List.Forall_cons; [|apply List.Forall_nil]]
    | |- StronglySorted _ (_ ++ [_]) => apply sorted_snoc
    end;
    cbn [line column position fst snd];
    try lia; try assumption;
    try (unfold before, position; cbn [fst snd line column]; lia);
    try (eapply Forall_before; [|eassumption];
         first [assumption | unfold before; cbn [fst snd]; lia]).
Qed.

(** X1. The tokens [tokenize] returns are recorded at places that
    are all different and come in the order of the text: each token is
    recorded before the next one, by line first and by column within a line,
    the end-of-input token after all the others; and no line or column is
    below 1. *)
Theorem token_positions_increase input toks :
  tokenize input = Ok toks ->
  StronglySorted (fun t u => before (position t) (position u)) toks /\
  Forall (fun t => 1 <= line t /\ 1 <= column t) toks.
Proof.
  intros H. apply tokenize_ok in H as (s & Hs & _ & ->).
  apply (steps_invariant places_in_order) in Hs.
  - destruct Hs as (Hl & Hc & Hpos & Hsort & Hst). split.
    + apply sorted_snoc; [exact Hsort|].
      destruct (state s); [exact Hst | | |];
        destruct Hst as (Hb & _ & _ & Hall);
        exact (Forall_before _ _ _ Hb Hall).
    + apply Forall_app. split; [exact Hpos|].
      repeat constructor; assumption.
  - intros s0 s1 Hinv _. now apply places_in_order_step.
  - unfold places_in_order. simpl. repeat split; try lia; constructor.
Qed.

End Places.

Lemma c_strlen_le input : (c_strlen input <= String.length input)%nat.
Proof.
  induction input as [|c input IH]; simpl; [lia|].
  destruct (Ascii.eqb c zero); lia.
Qed.

Lemma substring_snoc input : forall start len,
  (start + len < String.length input)%nat ->
  substring start (S len) input =
  substring start len input ++ String (char_at input (start + len)) "".
Proof.
  unfold char_at.
  induction input as [|c input IH]; intros start len H; simpl in H; [lia|].
  destruct start as [|start].
  - destruct len as [|len]; simpl.
    + destruct input; reflexivity.
    + f_equal. rewrite (IH 0%nat len) by lia. reflexivity.
  - simpl. apply IH. lia.
Qed.

Lemma all_chars_app p a b :
  all_chars p (a ++ b) = all_chars p a && all_chars p b.
Proof. induction a; simpl; [reflexivity|]. now rewrite IHa, andb_assoc. Qed.

Lemma quote_free_app a b :
  quote_free (a ++ b) = quote_free a && quote_free b.
Proof. induction a; simpl; [reflexivity|]. now rewrite IHa, andb_assoc. Qed.

Lemma append_not_empty a c : a ++ String c "" <> "".
Proof. destruct a; discriminate. Qed.

Lemma separator_text_ok c ty v l col :
  separator_type c = Some ty ->
  token_text_ok (mkToken ty v l col) = true.
Proof.
  unfold separator_type.
  repeat match goal with
  | |- context [Ascii.eqb c ?x] => destruct (Ascii.eqb_spec c x) as [->|_]
  end; intros [= <-]; reflexivity.
Qed.

Lemma operator_text_ok c ty v l col :
  operator_type c = Some ty ->
  token_text_ok (mkToken ty v l col) = true.
Proof.
  unfold operator_type.
  repeat match goal with
  | |- context [Ascii.eqb c ?x] => destruct (Ascii.eqb_spec c x) as [->|_]
  end; intros [= <-]; reflexivity.
Qed.

Lemma keyword_text_ok v l col :
  v <> "" -> all_chars is_alpha v = true ->
  token_text_ok (mkToken (get_keyword_type v) v l col) = true.
Proof.
  intros Hne Ha.
  assert (Hid : get_keyword_type v = TOKEN_IDENTIFIER ->
                token_text_ok (mkToken TOKEN_IDENTIFIER v l col) = true).
  { intros E. unfold token_text_ok. cbn [type value]. rewrite Ha, E.
    destruct (String.eqb_spec v ""); [contradiction | reflexivity]. }
  unfold get_keyword_type in *.
  repeat match goal with
  | |- context [String.eqb v ?x] =>
      destruct (String.eqb_spec v x) as [->|_]; [reflexivity|]
  end.
  now apply Hid.
Qed.

Lemma lexical_step input s s' :
  lexical input s -> (i s < c_strlen input)%nat ->
  tokenize_step input s = Ok s' -> lexical input s'.
Proof.
  unfold lexical, pending. intros (Hle & Htok & Hst) Hlt H.
  pose proof (c_strlen_le input) as Hlen.
  assert (Hsnoc : substring (state_start s) (S (i s) - state_start s) input =
                  substring (state_start s) (i s - state_start s) input ++
                  String (char_at input (i s)) "").
  { replace (S (i s) - state_start s)%nat with (S (i s - state_start s)) by lia.
    rewrite substring_snoc by lia. do 3 f_equal. lia. }
  assert (Hone : substring (i s) (S (i s) - i s) input =
                 String (char_at input (i s)) "").
  { replace (S (i s) - i s)%nat with 1%nat by lia.
    rewrite substring_snoc by lia.
    replace (substring (i s) 0 input) with ""
      by (clear; generalize (i s); induction input; intros [|k]; simpl; auto).
    now rewrite Nat.add_0_r. }
  step_cases H;
    cbn [state state_start i tokens] in *; unfold add_token;
    repeat match goal with
    | H : _ /\ _ |- _ => destruct H
    | H : exists _, _ |- _ => destruct H
    | H : negb _ = true |- _ => apply negb_true_iff in H
    | H : negb _ = false |- _ => apply negb_false_iff in H
    | |- _ /\ _ => split
    | |- Forall _ (_ ++ [_]) =>
        apply Forall_app; split;
        [|apply List.Forall_cons; [|apply List.Forall_nil]]
    end;
    try lia; try assumption; try exact I;
    rewrite ?Hone, ?Hsnoc;
    try (apply append_not_empty);
    try discriminate;
    try (cbn [all_chars]; rewrite ?andb_true_r; assumption);
    try (rewrite all_chars_app; cbn [all_chars];
         rewrite ?andb_true_r; apply andb_true_intro; split; assumption);
    try (eapply separator_text_ok; eassumption);
    try (eapply operator_text_ok; eassumption);
    try (apply keyword_text_ok; assumption).
  - exists "". split; [|reflexivity]. f_equal. now apply Ascii.eqb_eq.
  - exists "". split; [|reflexivity]. f_equal. now apply Ascii.eqb_eq.
  - unfold token_text_ok. cbn [type value].
    match goal with H : substring _ _ _ = String dquote _ |- _ => rewrite H end.
    now rewrite Ascii.eqb_refl.
  - match goal with
    | H : substring _ _ _ = String dquote ?b |- _ =>
        exists (b ++ String (char_at input (i s)) ""); rewrite H
    end.
    split; [reflexivity|]. rewrite quote_free_app. cbn [quote_free].
    match goal with H : Ascii.eqb _ dquote = false |- _ => rewrite H end.
    rewrite andb_true_r. assumption.
  - unfold token_text_ok. cbn [type value].
    match goal with H : substring _ _ _ <> "" |- _ =>
      destruct (String.eqb_spec (substring (state_start s)
                                   (i s - state_start s) input) "");
        [contradiction|]
    end.
    assumption.
Qed.

(** X2. The text of every token [tokenize] returns, other than a
    separator or an operator, fits its type: a keyword token holds its
    keyword, the end-of-input token the text [EOF]; a number token holds one
    or more digits; an identifier token holds one or more letters or
    underscores that do not spell a keyword; a string token holds the opening
    quote followed by characters none of which is a quote.  The text of a
    separator or of an operator is dead, and nothing holds of it. *)
Theorem token_texts_fit_their_types input toks :
  tokenize input = Ok toks -> Forall (fun t => token_text_ok t = true) toks.
Proof.
  intros H. apply tokenize_ok in H as (s & Hs & _ & ->).
  apply (steps_invariant (lexical input)) in Hs.
  - destruct Hs as (_ & Htok & _).
    apply Forall_app. split; [exact Htok|]. repeat constructor.
  - intros s0 s1 Hinv Hlt. now apply lexical_step.
  - unfold lexical. simpl. repeat split; [lia | constructor].
Qed.

Lemma tokenize_run input s :
  steps input (c_strlen input) scanner_init s ->
  (c_strlen input <= i s)%nat ->
  tokenize input =
  Ok (add_token (tokens s) TOKEN_EOF "EOF" (current_line s) (current_column s)).
Proof.
  intros Hs Hi. unfold Ast.tokenize.
  rewrite (tokenize_loop_fuel _ _ _ (measure (c_strlen input) scanner_init))
    by (rewrite measure_init; lia).
  rewrite (tokenize_loop_steps _ _ _ _ Hs).
  replace (tokenize_loop _ input (c_strlen input) s) with (Ok s); [reflexivity|].
  destruct (measure (c_strlen input) s); simpl;
    destruct (Nat.ltb_spec (i s) (c_strlen input)); auto; lia.
Qed.

Lemma tokenize_run_exit input s e :
  steps input (c_strlen input) scanner_init s ->
  (i s < c_strlen input)%nat ->
  tokenize_step input s = Exit e ->
  tokenize input = Exit e.
Proof.
  intros Hs Hi He. unfold Ast.tokenize.
  rewrite (tokenize_loop_fuel _ _ _ (measure (c_strlen input) scanner_init))
    by (rewrite measure_init; lia).
  rewrite (tokenize_loop_steps _ _ _ _ Hs).
  destruct (measure (c_strlen input) s) eqn:Em.
  - unfold measure in Em. lia.
  - simpl. apply Nat.ltb_lt in Hi. now rewrite Hi, He.
Qed.

Lemma char_at_prefix pre x k :
  (k < String.length pre)%nat -> char_at (pre ++ x) k = char_at pre k.
Proof.
  unfold char_at. revert k.
  induction pre as [|c pre IH]; simpl; intros k Hk; [lia|].
  destruct k; [reflexivity|]. apply IH. lia.
Qed.

Lemma substring_of_prefix pre x : forall start len,
  (start + len <= String.length pre)%nat ->
  substring start len (pre ++ x) = substring start len pre.
Proof.
  induction pre as [|c pre IH]; simpl; intros start len H.
  - assert (start = 0 /\ len = 0)%nat as [-> ->] by lia.
    destruct x; reflexivity.
  - destruct start as [|start].
    + destruct len as [|len]; [reflexivity|].
      f_equal. apply (IH 0%nat). lia.
    + apply IH. lia.
Qed.

Lemma tokenize_step_prefix pre x s :
  (state_start s <= i s)%nat -> (i s < String.length pre)%nat ->
  tokenize_step (pre ++ x) s = tokenize_step pre s.
Proof.
  intros Hle Hlt. unfold Ast.tokenize_step.
  rewrite char_at_prefix by exact Hlt.
  rewrite substring_of_prefix by lia.
  reflexivity.
Qed.

Lemma within_step input n s s' :
  within input n s -> (i s < n)%nat ->
  tokenize_step input s = Ok s' -> within input n s'.
Proof.
  unfold within. intros (Hle & Hn & Hst) Hlt H.
  step_cases H; cbn [state state_start i] in *;
    repeat match goal with
    | H : negb _ = false |- _ => apply negb_false_iff in H
    | |- _ /\ _ => split
    end;
    cbn [Nat.sub]; rewrite ?Nat.sub_0_r; try lia; try exact I; try assumption.
Qed.

Lemma within_init input n : within input n scanner_init.
Proof. unfold within. simpl. repeat split; lia. Qed.

(** The run over a front part of the text does not depend on what
    follows. *)
Lemma steps_prefix pre x n : forall s s',
  (String.length pre <= n)%nat ->
  steps pre (String.length pre) s s' ->
  within pre (String.length pre) s ->
  steps (pre ++ x) n s s'.
Proof.
  intros s s' Hn H. induction H as [|s s1 s2 Hlt E _ IH]; intros Hw.
  - constructor.
  - apply steps_cons with s1; [lia | |].
    + rewrite tokenize_step_prefix; [exact E | apply Hw | exact Hlt].
    + apply IH. eapply within_step; eauto.
Qed.

Lemma alpha_facts a :
  is_alpha a = true ->
  Ascii.eqb a dquote = false /\ separator_type a = None /\
  operator_type a = None /\ is_digit a = false /\
  Ascii.eqb a newline = false /\ Ascii.eqb a zero = false.
Proof.
  destruct a as [[] [] [] [] [] [] [] []]; intros H;
    try discriminate H; repeat split.
Qed.

Lemma digit_facts d :
  is_digit d = true ->
  Ascii.eqb d dquote = false /\ separator_type d = None /\
  operator_type d = None /\ is_alpha d = false /\
  Ascii.eqb d newline = false /\ Ascii.eqb d zero = false.
Proof.
  destruct d as [[] [] [] [] [] [] [] []]; intros H;
    try discriminate H; repeat split.
Qed.

Lemma c_strlen_app pre x :
  c_strlen pre = String.length pre ->
  c_strlen (pre ++ x) = (String.length pre + c_strlen x)%nat.
Proof.
  induction pre as [|c pre IH]; simpl; [reflexivity|].
  destruct (Ascii.eqb c zero); [discriminate|].
  intros H. f_equal. apply IH. lia.
Qed.

Lemma c_strlen_all p w :
  (forall c, p c = true -> Ascii.eqb c zero = false) ->
  all_chars p w = true -> c_strlen w = String.length w.
Proof.
  intros Hp. induction w as [|c w IH]; simpl; [reflexivity|].
  intros H. apply andb_prop in H as [Hc Hw].
  rewrite (Hp c Hc). f_equal. auto.
Qed.

Lemma all_chars_at p w : forall j,
  all_chars p w = true -> (j < String.length w)%nat -> p (char_at w j) = true.
Proof.
  unfold char_at. induction w as [|c w IH]; simpl; intros j H Hj; [lia|].
  apply andb_prop in H as [Hc Hw].
  destruct j; [exact Hc|]. apply IH; [exact Hw | lia].
Qed.

Lemma scan_identifier input n : forall k s,
  state s = STATE_IDENTIFIER ->
  (forall j, (j < k)%nat -> is_alpha (char_at input (i s + j)) = true) ->
  (i s + k <= n)%nat ->
  steps input n s
    (mkScanner STATE_IDENTIFIER (state_start s) (state_start_line s)
       (state_start_column s) (current_line s) (current_column s)
       (i s + k) (tokens s)).
Proof.
  induction k as [|k IH]; intros s Hst Hq Hn.
  - rewrite Nat.add_0_r. destruct s; simpl in *; subst. constructor.
  - eapply steps_cons with
      (s' := mkScanner STATE_IDENTIFIER (state_start s) (state_start_line s)
               (state_start_column s) (current_line s) (current_column s)
               (S (i s)) (tokens s)).
    + lia.
    + unfold Ast.tokenize_step. rewrite Hst.
      specialize (Hq 0%nat). rewrite Nat.add_0_r in Hq. rewrite Hq by lia.
      reflexivity.
    + replace (i s + S k)%nat with (S (i s) + k)%nat by lia.
      apply (IH (mkScanner STATE_IDENTIFIER (state_start s) (state_start_line s)
               (state_start_column s) (current_line s) (current_column s)
               (S (i s)) (tokens s))); simpl; auto; try lia.
      intros j Hj. replace (S (i s + j)) with (i s + S j)%nat by lia.
      apply Hq. lia.
Qed.

Lemma scan_number input n : forall k s,
  state s = STATE_NUMBER ->
  (forall j, (j < k)%nat -> is_digit (char_at input (i s + j)) = true) ->
  (i s + k <= n)%nat ->
  steps input n s
    (mkScanner STATE_NUMBER (state_start s) (state_start_line s)
       (state_start_column s) (current_line s) (current_column s)
       (i s + k) (tokens s)).
Proof.
  induction k as [|k IH]; intros s Hst Hq Hn.
  - rewrite Nat.add_0_r. destruct s; simpl in *; subst. constructor.
  - eapply steps_cons with
      (s' := mkScanner STATE_NUMBER (state_start s) (state_start_line s)
               (state_start_column s) (current_line s) (current_column s)
               (S (i s)) (tokens s)).
    + lia.
    + unfold Ast.tokenize_step. rewrite Hst.
      specialize (Hq 0%nat). rewrite Nat.add_0_r in Hq. rewrite Hq by lia.
      reflexivity.
    + replace (i s + S k)%nat with (S (i s) + k)%nat by lia.
      apply (IH (mkScanner STATE_NUMBER (state_start s) (state_start_line s)
               (state_start_column s) (current_line s) (current_column s)
               (S (i s)) (tokens s))); simpl; auto; try lia.
      intros j Hj. replace (S (i s + j)) with (i s + S j)%nat by lia.
      apply Hq. lia.
Qed.

Lemma searching_step_alpha input s :
  state s = STATE_SEARCHING -> is_alpha (char_at input (i s)) = true ->
  tokenize_step input s =
  Ok (mkScanner STATE_IDENTIFIER (i s) (current_line s) (current_column s)
        (current_line s) (current_column s + 1) (S (i s)) (tokens s)).
Proof.
  intros Hst Ha. unfold Ast.tokenize_step, advance. rewrite Hst.
  destruct (alpha_facts _ Ha) as (-> & -> & -> & -> & -> & _).
  now rewrite Ha.
Qed.

Lemma searching_step_digit input s :
  state s = STATE_SEARCHING -> is_digit (char_at input (i s)) = true ->
  tokenize_step input s =
  Ok (mkScanner STATE_NUMBER (i s) (current_line s) (current_column s)
        (current_line s) (current_column s + 1) (S (i s)) (tokens s)).
Proof.
  intros Hst Hd. unfold Ast.tokenize_step, advance. rewrite Hst.
  destruct (digit_facts _ Hd) as (-> & -> & -> & _ & -> & _).
  now rewrite Hd.
Qed.

Lemma searching_step_blank input s :
  state s = STATE_SEARCHING -> char_at input (i s) = " "%char ->
  tokenize_step input s =
  Ok (mkScanner STATE_SEARCHING (i s) (state_start_line s)
        (state_start_column s) (current_line s) (current_column s + 1)
        (S (i s)) (tokens s)).
Proof.
  intros Hst Hc. unfold Ast.tokenize_step, advance. rewrite Hst, Hc. reflexivity.
Qed.

Lemma number_step_end input s :
  state s = STATE_NUMBER -> is_digit (char_at input (i s)) = false ->
  tokenize_step input s =
  Ok (mkScanner STATE_SEARCHING (state_start s) (state_start_line s)
        (state_start_column s) (current_line s) (current_column s) (i s)
        (add_token (tokens s) TOKEN_NUMBER
           (substring (state_start s) (i s - state_start s) input)
           (state_start_line s) (state_start_column s))).
Proof. intros Hst Hd. unfold Ast.tokenize_step. now rewrite Hst, Hd. Qed.

Lemma identifier_step_end input s :
  state s = STATE_IDENTIFIER -> is_alpha (char_at input (i s)) = false ->
  tokenize_step input s =
  Ok (mkScanner STATE_SEARCHING (state_start s) (state_start_line s)
        (state_start_column s) (current_line s) (current_column s) (i s)
        (add_token (tokens s)
           (get_keyword_type
              (substring (state_start s) (i s - state_start s) input))
           (substring (state_start s) (i s - state_start s) input)
           (state_start_line s) (state_start_column s))).
Proof. intros Hst Ha. unfold Ast.tokenize_step. now rewrite Hst, Ha. Qed.

Lemma finish_run input s1 sf :
  steps input (c_strlen input) scanner_init s1 ->
  steps input (c_strlen input) s1 sf ->
  (c_strlen input <= i sf)%nat ->
  tokenize input =
  Ok (add_token (tokens sf) TOKEN_EOF "EOF" (current_line sf) (current_column sf)).
Proof.
  intros H1 H2 Hi. apply tokenize_run; [|exact Hi].
  exact (steps_trans _ _ _ _ _ H1 H2).
Qed.

Section Ended.

Variables (pre : string) (s1 : Scanner).
Hypothesis no_zero : c_strlen pre = String.length pre.
Hypothesis reached : steps pre (String.length pre) scanner_init s1.
Hypothesis at_end : i s1 = String.length pre.

Lemma reached_within : within pre (String.length pre) s1.
Proof.
  apply (steps_invariant (within pre (String.length pre)) pre
           (String.length pre)) with (s := scanner_init).
  - intros. eapply within_step; eauto.
  - exact reached.
  - apply within_init.
Qed.

Lemma tokenize_blank_ended :
  tokenize (pre ++ " ") = Ok (closed_by_blank pre s1).
Proof.
  pose proof reached_within as (Hle & _ & _).
  set (X := pre ++ " ").
  assert (Hn : c_strlen X = S (String.length pre)).
  { unfold X. rewrite c_strlen_app by exact no_zero. simpl. lia. }
  assert (Hc : char_at X (i s1) = " "%char).
  { unfold X. rewrite at_end, <- (Nat.add_0_r (String.length pre)).
    now rewrite char_at_app. }
  assert (Hsub : substring (state_start s1) (i s1 - state_start s1) X =
                 substring (state_start s1) (i s1 - state_start s1) pre).
  { apply substring_of_prefix. lia. }
  assert (H1 : steps X (c_strlen X) scanner_init s1).
  { apply steps_prefix; [lia | exact reached | apply within_init]. }
  unfold closed_by_blank. destruct (state s1) eqn:Hst.
  - pose proof (searching_step_blank X s1 Hst Hc) as E.
    match type of E with
    | _ = Ok ?s =>
        assert (H2 : steps X (c_strlen X) s1 s)
          by (eapply steps_cons; [lia | exact E | apply steps_refl])
    end.
    rewrite (finish_run X s1 _ H1 H2) by (simpl; lia). reflexivity.
  - assert (E : tokenize_step X s1 =
                Ok (mkScanner STATE_STRING (state_start s1)
                      (state_start_line s1) (state_start_column s1)
                      (current_line s1) (current_column s1) (S (i s1))
                      (tokens s1))).
    { unfold Ast.tokenize_step. now rewrite Hst, Hc. }
    match type of E with
    | _ = Ok ?s =>
        assert (H2 : steps X (c_strlen X) s1 s)
          by (eapply steps_cons; [lia | exact E | apply steps_refl])
    end.
    rewrite (finish_run X s1 _ H1 H2) by (simpl; lia). reflexivity.
  - pose proof (number_step_end X s1 Hst ltac:(now rewrite Hc)) as E.
    rewrite Hsub in E.
    match type of E with _ = Ok ?s => set (s2 := s) in * end.
    pose proof (searching_step_blank X s2 eq_refl Hc) as E2.
    match type of E2 with
    | _ = Ok ?s =>
        assert (H2 : steps X (c_strlen X) s1 s)
          by (eapply steps_cons; [lia | exact E |];
              eapply steps_cons; [simpl; lia | exact E2 | apply steps_refl])
    end.
    rewrite (finish_run X s1 _ H1 H2) by (simpl; lia). reflexivity.
  - pose proof (identifier_step_end X s1 Hst ltac:(now rewrite Hc)) as E.
    rewrite Hsub in E.
    match type of E with _ = Ok ?s => set (s2 := s) in * end.
    pose proof (searching_step_blank X s2 eq_refl Hc) as E2.
    match type of E2 with
    | _ = Ok ?s =>
        assert (H2 : steps X (c_strlen X) s1 s)
          by (eapply steps_cons; [lia | exact E |];
              eapply steps_cons; [simpl; lia | exact E2 | apply steps_refl])
    end.
    rewrite (finish_run X s1 _ H1 H2) by (simpl; lia). reflexivity.
Qed.

Lemma tokenize_letters_ended w :
  w <> "" -> all_chars is_alpha w = true ->
  state s1 <> STATE_IDENTIFIER ->
  tokenize (pre ++ w) = Ok (closed_by_blank pre s1).
Proof.
  intros Hne Hw Hnot.
  pose proof reached_within as (Hle & _ & _).
  set (X := pre ++ w).
  assert (Hn : c_strlen X = (String.length pre + String.length w)%nat).
  { unfold X. rewrite c_strlen_app by exact no_zero. f_equal.
    apply (c_strlen_all is_alpha); [|exact Hw].
    intros c Hc. apply (alpha_facts c Hc). }
  assert (Hlen : (0 < String.length w)%nat) by (destruct w; simpl; [easy | lia]).
  assert (Hc : forall j, (j < String.length w)%nat ->
                 is_alpha (char_at X (i s1 + j)) = true).
  { intros j Hj. unfold X. rewrite at_end, char_at_app.
    now apply all_chars_at. }
  assert (Hc0 : is_alpha (char_at X (i s1)) = true).
  { rewrite <- (Nat.add_0_r (i s1)). now apply Hc. }
  assert (Hsub : substring (state_start s1) (i s1 - state_start s1) X =
                 substring (state_start s1) (i s1 - state_start s1) pre).
  { apply substring_of_prefix. lia. }
  assert (H1 : steps X (c_strlen X) scanner_init s1).
  { apply steps_prefix; [lia | exact reached | apply within_init]. }
  assert (Hword : forall s, state s = STATE_SEARCHING -> i s = i s1 ->
            steps X (c_strlen X) s
              (mkScanner STATE_IDENTIFIER (i s) (current_line s)
                 (current_column s) (current_line s) (current_column s + 1)
                 (S (i s) + (String.length w - 1)) (tokens s))).
  { intros s Hs Hi.
    eapply steps_cons;
      [lia | apply searching_step_alpha; [exact Hs | now rewrite Hi] |].
    apply (scan_identifier X (c_strlen X) (String.length w - 1)
             (mkScanner STATE_IDENTIFIER (i s) (current_line s)
                (current_column s) (current_line s) (current_column s + 1)
                (S (i s)) (tokens s))); [reflexivity | | simpl; lia].
    intros j Hj. cbn [i]. rewrite Hi.
    replace (S (i s1) + j)%nat with (i s1 + S j)%nat by lia.
    apply Hc. lia. }
  unfold closed_by_blank. destruct (state s1) eqn:Hst.
  - rewrite (finish_run X s1 _ H1 (Hword s1 Hst eq_refl)) by (simpl; lia).
    reflexivity.
  - assert (H2 : steps X (c_strlen X) s1
                   (mkScanner STATE_STRING (state_start s1)
                      (state_start_line s1) (state_start_column s1)
                      (current_line s1) (current_column s1)
                      (i s1 + String.length w) (tokens s1))).
    { apply scan_string_body; [exact Hst | | lia].
      intros j Hj. apply (alpha_facts _ (Hc j Hj)). }
    rewrite (finish_run X s1 _ H1 H2) by (simpl; lia). reflexivity.
  - pose proof (number_step_end X s1 Hst
                  ltac:(apply (alpha_facts _ Hc0))) as E.
    rewrite Hsub in E.
    match type of E with _ = Ok ?s => set (s2 := s) in * end.
    assert (H2 := Hword s2 eq_refl eq_refl).
    rewrite (finish_run X s1 _ H1
               (steps_trans _ _ _ _ _
                  (steps_cons X (c_strlen X) s1 s2 s2 ltac:(lia) E
                     (steps_refl _ _ _)) H2)) by (simpl; lia).
    reflexivity.
  - contradiction.
Qed.

Lemma tokenize_digits_ended w :
  w <> "" -> all_chars is_digit w = true ->
  state s1 <> STATE_NUMBER ->
  tokenize (pre ++ w) = Ok (closed_by_blank pre s1).
Proof.
  intros Hne Hw Hnot.
  pose proof reached_within as (Hle & _ & _).
  set (X := pre ++ w).
  assert (Hn : c_strlen X = (String.length pre + String.length w)%nat).
  { unfold X. rewrite c_strlen_app by exact no_zero. f_equal.
    apply (c_strlen_all is_digit); [|exact Hw].
    intros c Hc. apply (digit_facts c Hc). }
  assert (Hlen : (0 < String.length w)%nat) by (destruct w; simpl; [easy | lia]).
  assert (Hc : forall j, (j < String.length w)%nat ->
                 is_digit (char_at X (i s1 + j)) = true).
  { intros j Hj. unfold X. rewrite at_end, char_at_app.
    now apply all_chars_at. }
  assert (Hc0 : is_digit (char_at X (i s1)) = true).
  { rewrite <- (Nat.add_0_r (i s1)). now apply Hc. }
  assert (Hsub : substring (state_start s1) (i s1 - state_start s1) X =
                 substring (state_start s1) (i s1 - state_start s1) pre).
  { apply substring_of_prefix. lia. }
  assert (H1 : steps X (c_strlen X) scanner_init s1).
  { apply steps_prefix; [lia | exact reached | apply within_init]. }
  assert (Hword : forall s, state s = STATE_SEARCHING -> i s = i s1 ->
            steps X (c_strlen X) s
              (mkScanner STATE_NUMBER (i s) (current_line s)
                 (current_column s) (current_line s) (current_column s + 1)
                 (S (i s) + (String.length w - 1)) (tokens s))).
  { intros s Hs Hi.
    eapply steps_cons;
      [lia | apply searching_step_digit; [exact Hs | now rewrite Hi] |].
    apply (scan_number X (c_strlen X) (String.length w - 1)
             (mkScanner STATE_NUMBER (i s) (current_line s)
                (current_column s) (current_line s) (current_column s + 1)
                (S (i s)) (tokens s))); [reflexivity | | simpl; lia].
    intros j Hj. cbn [i]. rewrite Hi.
    replace (S (i s1) + j)%nat with (i s1 + S j)%nat by lia.
    apply Hc. lia. }
  unfold closed_by_blank. destruct (state s1) eqn:Hst.
  - rewrite (finish_run X s1 _ H1 (Hword s1 Hst eq_refl)) by (simpl; lia).
    reflexivity.
  - assert (H2 : steps X (c_strlen X) s1
                   (mkScanner STATE_STRING (state_start s1)
                      (state_start_line s1) (state_start_column s1)
                      (current_line s1) (current_column s1)
                      (i s1 + String.length w) (tokens s1))).
    { apply scan_string_body; [exact Hst | | lia].
      intros j Hj. apply (digit_facts _ (Hc j Hj)). }
    rewrite (finish_run X s1 _ H1 H2) by (simpl; lia). reflexivity.
  - contradiction.
  - pose proof (identifier_step_end X s1 Hst
                  ltac:(apply (digit_facts _ Hc0))) as E.
    rewrite Hsub in E.
    match type of E with _ = Ok ?s => set (s2 := s) in * end.
    assert (H2 := Hword s2 eq_refl eq_refl).
    rewrite (finish_run X s1 _ H1
               (steps_trans _ _ _ _ _
                  (steps_cons X (c_strlen X) s1 s2 s2 ltac:(lia) E
                     (steps_refl _ _ _)) H2)) by (simpl; lia).
    reflexivity.
Qed.

End Ended.

Lemma searching_step_exit input s :
  state s = STATE_SEARCHING -> no_rule (char_at input (i s)) ->
  tokenize_step input s = Exit (UnexpectedCharacter (char_at input (i s))).
Proof.
  intros Hst (H1 & H2 & H3 & H4 & H5 & H6).
  unfold Ast.tokenize_step. now rewrite Hst, H1, H2, H3, H4, H5, H6.
Qed.

Lemma tokenize_prefix_exit pre x s :
  c_strlen pre = String.length pre ->
  steps pre (String.length pre) scanner_init s ->
  (i s < String.length pre)%nat ->
  state s = STATE_SEARCHING -> no_rule (char_at pre (i s)) ->
  tokenize (pre ++ x) = Exit (UnexpectedCharacter (char_at pre (i s))).
Proof.
  intros Hz Hs Hi Hst Hno.
  assert (Hw : within pre (String.length pre) s).
  { apply (steps_invariant (within pre (String.length pre)) pre
             (String.length pre)) with (s := scanner_init).
    - intros. eapply within_step; eauto.
    - exact Hs.
    - apply within_init. }
  assert (Hn : (String.length pre <= c_strlen (pre ++ x))%nat)
    by (rewrite c_strlen_app by exact Hz; lia).
  apply (tokenize_run_exit (pre ++ x) s).
  - apply steps_prefix; [exact Hn | exact Hs | apply within_init].
  - lia.
  - rewrite tokenize_step_prefix; [|apply Hw | exact Hi].
    now apply searching_step_exit.
Qed.

(** X3. A word that ends the text leaves no token.  When the text
    [pre], which holds no zero character, does not end with a letter or an
    underscore, appending a word of letters and underscores gives the tokens
    that appending one blank gives; the same holds of a word of digits after
    a text that does not end with a digit.  The scan reaches the end of the
    text inside the word, and no token is added after the loop but the
    end-of-input token. *)
Theorem final_word_is_lost pre w :
  c_strlen pre = String.length pre ->
  w <> "" ->
  (all_chars is_alpha w = true /\ is_alpha (last_char pre) = false) \/
  (all_chars is_digit w = true /\ is_digit (last_char pre) = false) ->
  tokenize (pre ++ w) = tokenize (pre ++ " ").
Proof.
  intros Hz Hne Hclass.
  destruct (tokenize_loop_enough pre (String.length pre)
              (2 * String.length pre + 1) scanner_init)
    as [(s1 & Hs & Hi & _)|(s1 & Hs & Hi & Hst & Hno & _)];
    [rewrite measure_init; lia | |].
  - assert (Hw : within pre (String.length pre) s1).
    { apply (steps_invariant (within pre (String.length pre)) pre
               (String.length pre)) with (s := scanner_init).
      - intros. eapply within_step; eauto.
      - exact Hs.
      - apply within_init. }
    assert (Hend : i s1 = String.length pre) by (destruct Hw as (_ & ? & _); lia).
    rewrite (tokenize_blank_ended pre s1 Hz Hs Hend).
    destruct Hw as (_ & _ & Hlast). unfold last_char in Hclass.
    rewrite <- Hend in Hclass.
    destruct Hclass as [[Hw Hl] | [Hw Hl]].
    + apply tokenize_letters_ended; auto.
      intros E. rewrite E in Hlast. destruct Hlast. congruence.
    + apply tokenize_digits_ended; auto.
      intros E. rewrite E in Hlast. destruct Hlast. congruence.
  - now rewrite !(tokenize_prefix_exit pre _ s1).
Qed.

Section Blank.

Local Open Scope Z_scope.

Lemma location_loop_succ input : forall n k lc,
  location_loop (S n) k input lc =
  let lc' := location_loop n k input lc in
  if Ascii.eqb (char_at input (k + n)) newline
  then (fst lc' + 1, 1)
  else (fst lc', snd lc' + 1).
Proof.
  induction n as [|n IH]; intros k lc.
  - simpl. now rewrite Nat.add_0_r.
  - change (location_loop (S (S n)) k input lc)
      with (location_loop (S n) (S k) input
              (if Ascii.eqb (char_at input k) newline
               then (fst lc + 1, 1) else (fst lc, snd lc + 1))).
    rewrite IH. cbn [location_loop].
    now replace (S k + n)%nat with (k + S n)%nat by lia.
Qed.

Lemma get_location_succ input k :
  get_location_from_index (S k) input =
  let lc := get_location_from_index k input in
  if Ascii.eqb (char_at input k) newline
  then (fst lc + 1, 1)
  else (fst lc, snd lc + 1).
Proof. unfold get_location_from_index. now rewrite location_loop_succ. Qed.

Lemma whitespace_facts c :
  is_whitespace c = true ->
  Ascii.eqb c dquote = false /\ separator_type c = None /\
  operator_type c = None /\ is_digit c = false /\ is_alpha c = false /\
  Ascii.eqb c zero = false.
Proof.
  destruct c as [[] [] [] [] [] [] [] []]; intros H;
    try discriminate H; repeat split.
Qed.

Lemma blank_scan_step input s s' :
  all_chars is_whitespace input = true ->
  blank_scan input s -> (i s < c_strlen input)%nat ->
  tokenize_step input s = Ok s' -> blank_scan input s'.
Proof.
  unfold blank_scan. intros Hall (Hst & Htok & Hloc) Hlt H.
  pose proof (c_strlen_le input) as Hlen.
  assert (Hw : is_whitespace (char_at input (i s)) = true)
    by (apply all_chars_at; [exact Hall | lia]).
  destruct (whitespace_facts _ Hw) as (H1 & H2 & H3 & H4 & H5 & _).
  unfold Ast.tokenize_step, advance in H.
  rewrite Hst, H1, H2, H3, H4, H5, Hw in H.
  destruct (Ascii.eqb (char_at input (i s)) newline) eqn:En;
    injection H as <-; cbn [state tokens current_line current_column i];
    rewrite get_location_succ; cbv zeta; rewrite En, <- Hloc; auto.
Qed.

(** X4. A text made of blanks, tabs and line feeds only, the empty
    text included, holds no statement: [tokenize] returns the end-of-input
    token alone, recorded at the line and column that
    [get_location_from_index] counts for the end of the text, and the parser
    exits with the error [statement] at that place. *)
Theorem blank_text_is_no_program input :
  all_chars is_whitespace input = true ->
  tokenize input =
    Ok [mkToken TOKEN_EOF "EOF"
          (fst (get_location_from_index (String.length input) input))
          (snd (get_location_from_index (String.length input) input))] /\
  parse_source input =
    Exit (UnexpectedSymbol "statement"
            (fst (get_location_from_index (String.length input) input))
            (snd (get_location_from_index (String.length input) input))).
Proof.
  intros Hall.
  assert (Hn : c_strlen input = String.length input).
  { apply (c_strlen_all is_whitespace); [|exact Hall].
    intros c Hc. apply (whitespace_facts c Hc). }
  assert (Htok : tokenize input =
    Ok [mkToken TOKEN_EOF "EOF"
          (fst (get_location_from_index (String.length input) input))
          (snd (get_location_from_index (String.length input) input))]).
  { destruct (tokenize_loop_enough input (c_strlen input)
                (2 * c_strlen input + 1) scanner_init)
      as [(s & Hs & Hi & _)|(s & Hs & Hi & Hst & Hno & _)];
      [rewrite measure_init; lia | |].
    - rewrite (tokenize_run input s Hs Hi).
      assert (Hw : within input (c_strlen input) s).
      { apply (steps_invariant (within input (c_strlen input)) input
                 (c_strlen input)) with (s := scanner_init); auto.
        - intros. eapply within_step; eauto.
        - apply within_init. }
      apply (steps_invariant (blank_scan input)) in Hs.
      + destruct Hs as (_ & -> & Hloc).
        assert (i s = String.length input) as E
          by (destruct Hw as (_ & ? & _); lia).
        rewrite E in Hloc. rewrite <- Hloc. reflexivity.
      + intros. eapply blank_scan_step; eauto.
      + unfold blank_scan. auto.
    - exfalso.
      assert (Hw : is_whitespace (char_at input (i s)) = true)
        by (apply all_chars_at; [exact Hall | lia]).
      destruct Hno as (_ & _ & _ & _ & _ & Hno). congruence. }
  split; [exact Htok|].
  unfold Ast.parse_source. rewrite Htok. reflexivity.
Qed.

End Blank.

(** ** The parser on the tokens of a text *)

Lemma TokenType_eqb_eq a b : TokenType_eqb a b = true <-> a = b.
Proof.
  unfold TokenType_eqb. split.
  - intros H. apply Z.eqb_eq in H. destruct a, b; simpl in H; congruence.
  - intros ->. apply Z.eqb_refl.
Qed.

Lemma TokenType_eqb_neq a b : TokenType_eqb a b = false <-> a <> b.
Proof.
  rewrite <- TokenType_eqb_eq. destruct (TokenType_eqb a b); split; congruence.
Qed.

Lemma firstn_succ {A : Type} (l : list A) : forall k t,
  nth_error l k = Some t -> firstn (S k) l = (firstn k l ++ [t])%list.
Proof.
  induction l as [|x l IH]; intros [|k] t H; simpl in *; try discriminate.
  - now injection H as ->.
  - now rewrite (IH k t H).
Qed.

Lemma unparse_block statements :
  unparse (NODE_STATEMENT_BLOCK statements) = unparse_statements statements.
Proof.
  cbn [unparse]. induction statements as [|s rest IH]; [reflexivity|].
  cbn [unparse_statements]. rewrite <- IH. reflexivity.
Qed.

Lemma is_statement_block statements :
  (fix all (items : list (option ASTNode)) : bool :=
     match items with
     | nil => true
     | Some statement :: rest => is_statement statement && all rest
     | None :: _ => false
     end) statements = are_statements statements.
Proof.
  induction statements as [|[s|] rest IH]; simpl; congruence.
Qed.

Lemma expression_operators_not_eof ty text :
  In (ty, text) expression_operators -> ty <> TOKEN_EOF.
Proof. simpl. intuition congruence. Qed.

Lemma condition_operators_not_eof ty text :
  In (ty, text) condition_operators -> ty <> TOKEN_EOF.
Proof. simpl. intuition congruence. Qed.

Lemma expression_operator_kind t text :
  operator_text expression_operators t = Some text ->
  kind t = bare (operator_token expression_operators text) /\
  existsb (String.eqb text) (List.map snd expression_operators) = true /\
  plain_string text = true.
Proof.
  unfold kind, bare, is_operand, operator_text, expression_operators.
  destruct (type t); simpl; intros [= <-]; repeat split; reflexivity.
Qed.

Lemma condition_operator_kind t text :
  operator_text condition_operators t = Some text ->
  kind t = bare (operator_token condition_operators text) /\
  existsb (String.eqb text) (List.map snd condition_operators) = true /\
  plain_string text = true.
Proof.
  unfold kind, bare, is_operand, operator_text, condition_operators.
  destruct (type t); simpl; intros [= <-]; repeat split; reflexivity.
Qed.

Lemma plain_block statements :
  plain_node (NODE_STATEMENT_BLOCK statements) <-> plain_statements statements.
Proof.
  cbn [plain_node]. induction statements as [|s rest IH]; [reflexivity|].
  cbn [plain_statements]. now rewrite IH.
Qed.

Lemma parse_first toks first :
  nth_error toks 0 = Some first ->
  parse toks =
  parse_program (parse_fuel toks) (mkParser toks (List.length toks) 0 first).
Proof. destruct toks; simpl; [discriminate|]. now intros [= ->]. Qed.

Section Parsed.

Variables (toks front : list Token) (eof : Token).
Hypothesis toks_end : toks = (front ++ [eof])%list.
Hypothesis eof_type : type eof = TOKEN_EOF.
Hypothesis front_not_eof : Forall not_eof front.

Lemma current_plain k p :
  stands_at toks k p -> plain_tokens toks ->
  is_operand (current_token p) = true ->
  plain_string (value (current_token p)) = true.
Proof.
  intros (t & -> & Ht) Hp. unfold plain_tokens in Hp.
  rewrite List.Forall_forall in Hp. apply Hp.
  now apply nth_error_In in Ht.
Qed.

Lemma not_last k t ty :
  nth_error toks k = Some t -> type t = ty -> ty <> TOKEN_EOF ->
  (S k < List.length toks)%nat.
Proof.
  intros Hk Ht Hty. rewrite toks_end in *. rewrite length_app. simpl.
  destruct (Nat.lt_ge_cases k (List.length front)) as [|Hge]; [lia|].
  rewrite nth_error_app2 in Hk by exact Hge.
  destruct (k - List.length front)%nat as [|j] eqn:E; simpl in Hk.
  - injection Hk as <-. congruence.
  - destruct j; discriminate.
Qed.

Lemma eof_is_last k t :
  nth_error toks k = Some t -> type t = TOKEN_EOF -> k = List.length front.
Proof.
  intros Hk Ht. rewrite toks_end in Hk.
  destruct (Nat.lt_ge_cases k (List.length front)) as [Hlt|Hge].
  - rewrite nth_error_app1 in Hk by exact Hlt.
    apply nth_error_In in Hk.
    rewrite List.Forall_forall in front_not_eof.
    now apply front_not_eof in Hk.
  - rewrite nth_error_app2 in Hk by exact Hge.
    destruct (k - List.length front)%nat as [|j] eqn:E; simpl in Hk; [lia|].
    destruct j; discriminate.
Qed.

Lemma kinds_succ k t :
  nth_error toks k = Some t ->
  kinds toks (S k) = (kinds toks k ++ [kind t])%list.
Proof.
  intros H. unfold kinds. rewrite (firstn_succ _ _ _ H), List.map_app.
  reflexivity.
Qed.

(** [accept] on a token type other than the end of input. *)
Lemma accept_cases ty p k :
  stands_at toks k p -> ty <> TOKEN_EOF ->
  (accept p ty = Ok (false, p) /\ type (current_token p) <> ty) \/
  (exists p', accept p ty = Ok (true, p') /\ stands_at toks (S k) p' /\
              type (current_token p) = ty /\
              kinds toks (S k) = (kinds toks k ++ [kind (current_token p)])%list).
Proof.
  intros (t & -> & Ht) Hty. unfold accept.
  change (current_token (parser_at toks k t)) with t.
  destruct (TokenType_eqb (type t) ty) eqn:E.
  - apply TokenType_eqb_eq in E. right.
    pose proof (not_last k t ty Ht E Hty) as Hlt.
    destruct (nth_error toks (S k)) as [t'|] eqn:Ht'.
    + exists (parser_at toks (S k) t').
      rewrite (next_token_at _ _ _ _ Ht'). cbn [bind].
      repeat split; auto.
      * exists t'. auto.
      * now apply kinds_succ.
    + apply nth_error_None in Ht'. lia.
  - apply TokenType_eqb_neq in E. left. auto.
Qed.

Lemma operand_cases p k :
  stands_at toks k p ->
  (or_accept (or_accept (accept p TOKEN_NUMBER) TOKEN_STRING) TOKEN_IDENTIFIER
     = Ok (false, p) /\ is_operand (current_token p) = false) \/
  (exists p',
     or_accept (or_accept (accept p TOKEN_NUMBER) TOKEN_STRING) TOKEN_IDENTIFIER
       = Ok (true, p') /\ stands_at toks (S k) p' /\
     is_operand (current_token p) = true /\
     kinds toks (S k) = (kinds toks k ++ [kind (current_token p)])%list).
Proof.
  intros (t & -> & Ht).
  change (current_token (parser_at toks k t)) with t.
  destruct (is_operand t) eqn:Hop.
  - right.
    assert (Hty : type t <> TOKEN_EOF).
    { unfold is_operand in Hop. destruct (type t); discriminate. }
    pose proof (not_last k t _ Ht eq_refl Hty) as Hlt.
    destruct (nth_error toks (S k)) as [t'|] eqn:Ht';
      [|apply nth_error_None in Ht'; lia].
    exists (parser_at toks (S k) t').
    rewrite (accept_operand _ _ _ _ Hop Ht').
    repeat split; auto; [exists t'; auto | now apply kinds_succ].
  - left. split; [|reflexivity]. now apply accept_no_operand.
Qed.

Lemma operator_text_type ops t text :
  operator_text ops t = Some text -> In (type t, text) ops.
Proof.
  induction ops as [|[ty x] ops IH]; simpl; [discriminate|].
  destruct (TokenType_eqb (type t) ty) eqn:E.
  - apply TokenType_eqb_eq in E. intros [= <-]. left. congruence.
  - auto.
Qed.

Lemma operator_cases ops p k :
  stands_at toks k p ->
  (forall ty text, In (ty, text) ops -> ty <> TOKEN_EOF) ->
  (accept_operator ops p = Ok (None, p) /\
   operator_text ops (current_token p) = None) \/
  (exists text p',
     accept_operator ops p = Ok (Some text, p') /\ stands_at toks (S k) p' /\
     operator_text ops (current_token p) = Some text /\
     kinds toks (S k) = (kinds toks k ++ [kind (current_token p)])%list).
Proof.
  intros (t & -> & Ht) Hops.
  change (current_token (parser_at toks k t)) with t.
  destruct (operator_text ops t) as [text|] eqn:Hop.
  - right.
    pose proof (Hops _ _ (operator_text_type _ _ _ Hop)) as Hty.
    pose proof (not_last k t _ Ht eq_refl Hty) as Hlt.
    destruct (nth_error toks (S k)) as [t'|] eqn:Ht';
      [|apply nth_error_None in Ht'; lia].
    exists text, (parser_at toks (S k) t').
    rewrite (accept_operator_some _ _ _ _ _ _ Hop Ht').
    repeat split; auto; [exists t'; auto | now apply kinds_succ].
  - left. split; [|reflexivity]. now apply accept_operator_none.
Qed.


Ltac plain_done :=
  let Hp := fresh "Hp" in
  intros Hp; cbn [plain_node plain_statements];
  repeat match goal with
  | H : plain_tokens _ -> _ |- _ => specialize (H Hp)
  | |- _ /\ _ => split
  | |- True => exact I
  end;
  first [ assumption
        | eapply current_plain; eassumption
        | eapply current_plain; try eassumption;
          match goal with
          | H : type (current_token ?p) = _
            |- is_operand (current_token ?p) = true =>
              unfold is_operand; rewrite H; reflexivity
          end
        | apply plain_block; assumption ].

(** The outcomes of [parse_expression]: a bound as large as the number
    of tokens from the current one on is never exhausted; the parser has moved
    forward over the tokens the expression reads back to. *)
Lemma parse_expression_outcome : forall fuel p k,
  stands_at toks k p ->
  outcome (fuel < List.length toks - k)%nat
    (fun '(n, p') =>
       exists k', stands_at toks k' p' /\ (k < k')%nat /\
                  kinds toks k' = (kinds toks k ++ unparse n)%list /\
                  is_expression n = true /\
                  (plain_tokens toks -> plain_node n))
    (parse_expression fuel p).
Proof.
  induction fuel as [|fuel IH]; intros p k Hat.
  - simpl. destruct Hat as (t & _ & Ht).
    assert (k < List.length toks)%nat by (apply nth_error_Some; congruence).
    lia.
  - cbn [parse_expression].
    destruct (operand_cases p k Hat) as [[E Hop] | (p1 & E & Hat1 & Hop & Hk1)];
      rewrite E; cbn [bind]; [exact I|].
    destruct (operator_cases expression_operators p1 (S k) Hat1
                expression_operators_not_eof)
      as [[E1 Hno] | (text & p2 & E1 & Hat2 & Htext & Hk2)];
      rewrite E1; cbn [bind].
    + exists (S k). cbn [unparse is_expression].
      split; [exact Hat1|]. split; [lia|]. split; [exact Hk1|].
      split; [exact Hop|]. plain_done.
    + specialize (IH p2 (S (S k)) Hat2).
      destruct (parse_expression fuel p2) as [[r p3]|e]; cbn [bind outcome] in *.
      * destruct IH as (k' & Hat3 & Hlt & Hk3 & Hr & Hpl).
        exists k'. split; [exact Hat3|]. split; [lia|].
        destruct (expression_operator_kind _ _ Htext) as (Hkind & Hin & Hptext).
        split; [|split].
        -- rewrite Hk3, Hk2, Hk1, Hkind, <- !app_assoc. reflexivity.
        -- cbn [is_expression]. now rewrite Hop, Hin, Hr.
        -- plain_done.
      * destruct e; auto. lia.
Qed.

Lemma parse_condition_outcome fuel p k :
  stands_at toks k p ->
  outcome (fuel < List.length toks - k)%nat
    (fun '(n, p') =>
       exists k', stands_at toks k' p' /\ (k < k')%nat /\
                  kinds toks k' = (kinds toks k ++ unparse n)%list /\
                  is_condition n = true /\
                  (plain_tokens toks -> plain_node n))
    (parse_condition fuel p).
Proof.
  intros Hat. unfold parse_condition.
  pose proof (parse_expression_outcome fuel p k Hat) as H.
  destruct (parse_expression fuel p) as [[l p1]|e]; cbn [bind outcome] in *;
    [|destruct e; auto].
  destruct H as (k1 & Hat1 & Hlt1 & Hk1 & Hl & Hpl).
  destruct (operator_cases condition_operators p1 k1 Hat1
              condition_operators_not_eof)
    as [[E1 Hno] | (text & p2 & E1 & Hat2 & Htext & Hk2)];
    rewrite E1; cbn [bind]; [exact I|].
  pose proof (parse_expression_outcome fuel p2 (S k1) Hat2) as H.
  destruct (parse_expression fuel p2) as [[r p3]|e]; cbn [bind outcome] in *.
  - destruct H as (k3 & Hat3 & Hlt3 & Hk3 & Hr & Hpr).
    exists k3. split; [exact Hat3|]. split; [lia|].
    destruct (condition_operator_kind _ _ Htext) as (Hkind & Hin & Hptext).
    split; [|split].
    + rewrite Hk3, Hk2, Hk1, Hkind. cbn [unparse].
      rewrite <- !app_assoc. reflexivity.
    + cbn [is_condition]. now rewrite Hl, Hin, Hr.
    + plain_done.
  - destruct e; auto. lia.
Qed.

Lemma expect_cases ty p k :
  stands_at toks k p -> ty <> TOKEN_EOF ->
  (exists l c, expect p ty = Exit (UnexpectedSymbol "expect" l c)) \/
  (exists p', expect p ty = Ok p' /\ stands_at toks (S k) p' /\
              type (current_token p) = ty /\
              kinds toks (S k) = (kinds toks k ++ [kind (current_token p)])%list).
Proof.
  intros Hat Hty. unfold expect.
  destruct (accept_cases ty p k Hat Hty) as [[E _] | (p1 & E & H)];
    rewrite E; cbn [bind].
  - left. unfold parser_error. eauto.
  - right. eauto.
Qed.

Lemma kind_bare t ty :
  type t = ty -> is_operand t = false -> kind t = bare ty.
Proof. unfold kind, bare. now intros -> ->. Qed.

Lemma kind_identifier t :
  type t = TOKEN_IDENTIFIER -> kind t = (TOKEN_IDENTIFIER, value t).
Proof. unfold kind, is_operand. now intros ->. Qed.

Lemma is_statement_if c b e :
  is_statement (NODE_IF_STATEMENT (Some c) (Some b) e) =
  is_condition c && is_block b &&
  match e with Some b' => is_block b' | None => true end.
Proof.
  cbn [is_statement]. unfold is_block.
  destruct b as [| [|first rest] | | | | | |]; try reflexivity;
    rewrite ?is_statement_block;
    destruct e as [[| [|first' rest'] | | | | | |]|]; try reflexivity;
    rewrite ?is_statement_block; reflexivity.
Qed.

Lemma is_statement_while c b :
  is_statement (NODE_WHILE_STATEMENT (Some c) (Some b)) =
  is_condition c && is_block b.
Proof.
  cbn [is_statement]. unfold is_block.
  destruct b as [| [|first rest] | | | | | |]; try reflexivity;
    rewrite ?is_statement_block; reflexivity.
Qed.

Lemma kind_of_type t ty :
  type t = ty ->
  match ty with
  | TOKEN_NUMBER | TOKEN_STRING | TOKEN_IDENTIFIER => False
  | _ => True
  end ->
  kind t = bare ty.
Proof.
  intros <- H. unfold kind, bare, is_operand. destruct (type t); easy.
Qed.

Lemma block_outcome (short : Prop) fuel p k :
  outcome short
    (fun '(stmts, p') =>
       exists k' new, stands_at toks k' p' /\ (k < k')%nat /\
         stmts = (nil ++ new)%list /\ new <> nil /\
         kinds toks k' = (kinds toks k ++ unparse_statements new)%list /\
         are_statements new = true /\
         (plain_tokens toks -> plain_statements new))
    (statement_loop fuel nil p) ->
  outcome short
    (fun '(n, p') =>
       exists k', stands_at toks k' p' /\ (k < k')%nat /\
                  kinds toks k' = (kinds toks k ++ unparse n)%list /\
                  is_block n = true /\
                  (plain_tokens toks -> plain_node n))
    (statement_block (statement_loop fuel nil p)).
Proof.
  unfold statement_block.
  destruct (statement_loop fuel nil p) as [[stmts p']|e];
    cbn [bind outcome]; [|auto].
  intros (k' & new & Hat & Hlt & -> & Hne & Hk & Hs & Hpl).
  exists k'. rewrite unparse_block. cbn [app].
  split; [exact Hat|]. split; [exact Hlt|]. split; [exact Hk|]. split.
  - destruct new; [contradiction | exact Hs].
  - intros Hp. apply plain_block. auto.
Qed.

Ltac step :=
  match goal with
  | H : stands_at toks ?k ?p |- context [expect ?p ?ty] =>
      let E := fresh "E" in
      destruct (expect_cases ty p k H ltac:(discriminate))
        as [(?l & ?c & E) | (?p & E & ?Hat & ?Hty & ?Hk)];
      rewrite E; cbn [bind outcome]; [exact I|]
  | H : stands_at toks ?k ?p |- context [accept ?p ?ty] =>
      let E := fresh "E" in
      destruct (accept_cases ty p k H ltac:(discriminate))
        as [[E ?Hne] | (?p & E & ?Hat & ?Hty & ?Hk)];
      rewrite E; cbn [bind]
  end.

Ltac read_back :=
  repeat match goal with
  | H : kinds toks _ = _ |- _ => rewrite H; clear H
  end;
  repeat match goal with
  | H : type (current_token ?p) = _ |- context [kind (current_token ?p)] =>
      first [ rewrite (kind_identifier _ H)
            | rewrite (kind_of_type _ _ H I) ]
  end;
  rewrite <- ?app_assoc; cbn [app]; rewrite ?app_nil_r; reflexivity.

Ltac finish_outcome :=
  match goal with
  | e : failure |- _ => destruct e; auto; lia
  end.

Lemma parse_statement_outcome : forall fuel,
  (forall p k,
     stands_at toks k p ->
     outcome (fuel < 2 * (List.length toks - k) - 1)%nat
       (fun '(n, p') =>
          exists k', stands_at toks k' p' /\ (k < k')%nat /\
                     kinds toks k' = (kinds toks k ++ unparse n)%list /\
                     is_statement n = true /\
                     (plain_tokens toks -> plain_node n))
       (parse_statement fuel p)) /\
  (forall acc p k,
     stands_at toks k p ->
     outcome (fuel < 2 * (List.length toks - k))%nat
       (fun '(stmts, p') =>
          exists k' new, stands_at toks k' p' /\ (k < k')%nat /\
            stmts = (acc ++ new)%list /\ new <> nil /\
            kinds toks k' = (kinds toks k ++ unparse_statements new)%list /\
            are_statements new = true /\
         (plain_tokens toks -> plain_statements new))
       (statement_loop fuel acc p)).
Proof.
  induction fuel as [|fuel [IHs IHl]].
  { split; intros; simpl;
      match goal with H : stands_at _ _ _ |- _ => destruct H as (t & _ & Ht) end;
      assert (k < List.length toks)%nat by (apply nth_error_Some; congruence);
      lia. }
  assert (Hlen : forall p k, stands_at toks k p -> (k < List.length toks)%nat).
  { intros p k (t & _ & Ht). apply nth_error_Some. congruence. }
  split.
  - intros p k Hat. pose proof (Hlen _ _ Hat). cbn [parse_statement].
    step.
    2:{ (* var *)
        step. exists (S (S k)). cbn [unparse is_statement].
        split; [assumption|]. split; [lia|]. split; [read_back|].
        split; [reflexivity | plain_done]. }
    step.
    2:{ (* if *)
        step.
        pose proof (parse_condition_outcome fuel p1 _ Hat1) as H1.
        destruct (parse_condition fuel p1) as [[c p2]|e];
          cbn [bind outcome] in *; [|finish_outcome].
        destruct H1 as (k2 & Hat2 & Hlt2 & Hk2 & Hc & Hpc).
        step. step.
        pose proof (block_outcome _ fuel p4 _ (IHl nil p4 _ Hat4)) as H4.
        destruct (statement_block (statement_loop fuel nil p4)) as [[b p5]|e];
          cbn [bind outcome] in *; [|finish_outcome].
        destruct H4 as (k5 & Hat5 & Hlt5 & Hk5 & Hb & Hpb).
        step. step.
        - (* no else *)
          exists (S k5). rewrite is_statement_if, Hc, Hb. cbn [unparse].
          split; [assumption|]. split; [lia|]. split; [read_back|].
          split; [reflexivity | plain_done].
        - (* else *)
          step.
          pose proof (block_outcome _ fuel p8 _ (IHl nil p8 _ Hat8)) as H8.
          destruct (statement_block (statement_loop fuel nil p8)) as [[b' p9]|e];
            cbn [bind outcome] in *; [|finish_outcome].
          destruct H8 as (k9 & Hat9 & Hlt9 & Hk9 & Hb' & Hpb').
          step.
          exists (S k9). rewrite is_statement_if, Hc, Hb, Hb'. cbn [unparse].
          split; [assumption|]. split; [lia|]. split; [read_back|].
          split; [reflexivity | plain_done]. }
    step.
    2:{ (* while *)
        step.
        pose proof (parse_condition_outcome fuel p1 _ Hat1) as H1.
        destruct (parse_condition fuel p1) as [[c p2]|e];
          cbn [bind outcome] in *; [|finish_outcome].
        destruct H1 as (k2 & Hat2 & Hlt2 & Hk2 & Hc & Hpc).
        step. step.
        pose proof (block_outcome _ fuel p4 _ (IHl nil p4 _ Hat4)) as H4.
        destruct (statement_block (statement_loop fuel nil p4)) as [[b p5]|e];
          cbn [bind outcome] in *; [|finish_outcome].
        destruct H4 as (k5 & Hat5 & Hlt5 & Hk5 & Hb & Hpb).
        step.
        exists (S k5). rewrite is_statement_while, Hc, Hb. cbn [unparse].
        split; [assumption|]. split; [lia|]. split; [read_back|].
        split; [reflexivity | plain_done]. }
    unfold peek.
    destruct (TokenType_eqb (type (current_token p)) TOKEN_IDENTIFIER) eqn:Hpeek;
      [|exact I].
    apply TokenType_eqb_eq in Hpeek.
    step; [contradiction|].
    step.
    pose proof (parse_expression_outcome fuel p1 _ Hat1) as H1.
    destruct (parse_expression fuel p1) as [[v p2]|e];
      cbn [bind outcome] in *; [|finish_outcome].
    destruct H1 as (k2 & Hat2 & Hlt2 & Hk2 & Hv & Hpv).
    exists k2. cbn [unparse is_statement].
    split; [assumption|]. split; [lia|]. split; [read_back|].
    split; [assumption | plain_done].
  - intros acc p k Hat. pose proof (Hlen _ _ Hat). cbn [statement_loop].
    pose proof (IHs p k Hat) as H1.
    destruct (parse_statement fuel p) as [[st p1]|e];
      cbn [bind outcome] in *; [|finish_outcome].
    destruct H1 as (k1 & Hat1 & Hlt1 & Hk1 & Hst & Hpst).
    step.
    + exists k1, [Some st]. cbn [unparse_statements unparse_child are_statements].
      rewrite Hst, app_nil_r.
      split; [assumption|]. split; [lia|]. split; [reflexivity|].
      split; [discriminate|]. split; [assumption|].
      split; [reflexivity | plain_done].
    + pose proof (IHl (acc ++ [Some st])%list p0 _ Hat0) as H2.
      destruct (statement_loop fuel (acc ++ [Some st]) p0) as [[stmts p2]|e];
        cbn [bind outcome] in *; [|finish_outcome].
      destruct H2 as (k2 & new & Hat2 & Hlt2 & -> & Hne & Hk2 & Hnew & Hpnew).
      exists k2, (Some st :: new).
      split; [exact Hat2|]. split; [lia|].
      split; [now rewrite <- app_assoc|]. split; [discriminate|].
      split; [|split].
      * cbn [unparse_statements unparse_child].
        destruct new as [|s new']; [contradiction|]. read_back.
      * cbn [are_statements]. now rewrite Hst, Hnew.
      * plain_done.
Qed.

(** The whole parse of a token array that ends with its only
    end-of-input token. *)
Lemma parse_outcome :
  outcome False
    (fun tree =>
       List.map kind toks = (unparse tree ++ [bare TOKEN_EOF])%list /\
       is_program tree = true /\
       (plain_tokens toks -> plain_node tree))
    (parse toks).
Proof.
  destruct (nth_error toks 0) as [first|] eqn:H0.
  2:{ apply nth_error_None in H0. rewrite toks_end, length_app in H0.
      simpl in H0. lia. }
  rewrite (parse_first _ _ H0).
  assert (Hat : stands_at toks 0 (mkParser toks (List.length toks) 0 first)).
  { exists first. split; [reflexivity | exact H0]. }
  unfold parse_program, parse_statement_block.
  pose proof (block_outcome _ (parse_fuel toks) _ _
                (proj2 (parse_statement_outcome (parse_fuel toks)) nil _ _ Hat))
    as H.
  destruct (statement_block (statement_loop (parse_fuel toks) nil _))
    as [[b p]|e]; cbn [bind outcome] in *.
  - destruct H as (k & (t & -> & Ht) & Hlt & Hk & Hb & Hpb).
    change (current_token (parser_at toks k t)) with t.
    destruct (TokenType_eqb (type t) TOKEN_EOF) eqn:E; cbn [negb]; [|exact I].
    apply TokenType_eqb_eq in E. cbn [outcome is_program unparse].
    pose proof (eof_is_last k t Ht E) as ->.
    split; [|split; [exact Hb | exact Hpb]].
    unfold kinds in Hk. change (firstn 0 toks) with (@nil Token) in Hk.
    cbn [List.map app] in Hk.
    rewrite <- Hk. rewrite toks_end.
    rewrite List.map_app, firstn_app, Nat.sub_diag, firstn_all.
    cbn [firstn]. rewrite app_nil_r. cbn [List.map]. f_equal. f_equal.
    apply kind_of_type; [exact eof_type | exact I].
  - destruct e; auto. unfold parse_fuel in H. lia.
Qed.

End Parsed.

Lemma tokenize_shape input toks :
  tokenize input = Ok toks ->
  exists front eof,
    toks = (front ++ [eof])%list /\ type eof = TOKEN_EOF /\
    Forall not_eof front.
Proof.
  intros H. apply tokenize_ok in H as (s & Hs & _ & ->).
  apply steps_tokens in Hs as (new & E & F). simpl in E. subst new.
  eexists _, _. split; [reflexivity|]. split; [reflexivity | exact F].
Qed.

Lemma tokenize_exit input e :
  tokenize input = Exit e -> exists c, e = UnexpectedCharacter c.
Proof.
  unfold Ast.tokenize. intros H.
  destruct (tokenize_loop_enough input (c_strlen input)
              (2 * c_strlen input + 1) scanner_init)
    as [(s & _ & _ & Hr)|(s & _ & _ & _ & _ & Hr)];
    [rewrite measure_init; lia | |]; rewrite Hr in H; simpl in H.
  - discriminate.
  - injection H as <-. eauto.
Qed.

(** X5. On every text the front end comes to an end, with a tree or
    with one of its two diagnostics.  The bounds of this embedding on the
    scanning loop and on the depth of the parser are never exhausted; the
    parser never reads past the token array; and the exit [Unexpected end of
    input] of [next_token] is never taken, because the parser moves forward
    only from a token it has accepted, and never accepts the end-of-input
    token that ends the array. *)
Theorem parse_source_exits input :
  parse_source input <> Exit OutOfFuel /\
  parse_source input <> Exit Undefined /\
  parse_source input <> Exit UnexpectedEndOfInput.
Proof.
  unfold Ast.parse_source.
  destruct (tokenize input) as [toks|e] eqn:E; cbn [bind].
  - apply tokenize_shape in E as (front & eof & -> & Heof & Hfront).
    pose proof (parse_outcome _ front eof eq_refl Heof Hfront) as H.
    destruct (parse (front ++ [eof])) as [tree|[]]; cbn [outcome] in H;
      repeat split; try discriminate; contradiction.
  - apply tokenize_exit in E as (c & ->). repeat split; discriminate.
Qed.

(** X6. A tree the parser returns keeps every token of the
    text, in order: read back with [unparse], it gives the types of all the
    tokens before the end-of-input token, with the texts of the identifiers,
    numbers and strings. *)
Theorem parse_source_keeps_every_token input tree :
  parse_source input = Ok tree ->
  exists toks,
    tokenize input = Ok toks /\
    List.map kind toks = (unparse tree ++ [bare TOKEN_EOF])%list.
Proof.
  unfold Ast.parse_source. intros H.
  destruct (tokenize input) as [toks|e] eqn:E; cbn [bind] in H; [|discriminate].
  exists toks. split; [reflexivity|].
  apply tokenize_shape in E as (front & eof & -> & Heof & Hfront).
  pose proof (parse_outcome _ front eof eq_refl Heof Hfront) as Ho.
  rewrite H in Ho. apply Ho.
Qed.

(** X7. A tree the parser returns is a program node over a block;
    a block holds at least one statement and no null entry; the condition and
    the block of an [if] or a [while] are never null, the else block is null
    or a block; a condition has both sides and one of the three comparators;
    an assignment has its value; the left token of an expression is a number,
    a string or an identifier, and its operator and right operand are either
    both null or an arithmetic operator and an expression. *)
Theorem parse_source_tree_shape input tree :
  parse_source input = Ok tree -> is_program tree = true.
Proof.
  unfold Ast.parse_source. intros H.
  destruct (tokenize input) as [toks|e] eqn:E; cbn [bind] in H; [|discriminate].
  apply tokenize_shape in E as (front & eof & -> & Heof & Hfront).
  pose proof (parse_outcome _ front eof eq_refl Heof Hfront) as Ho.
  rewrite H in Ho. apply Ho.
Qed.

(** ** Escaped strings *)

Lemma unicode_escape_valid c x :
  (nat_of_ascii c <? 32)%nat = true ->
  json_string_rest (unicode_escape c ++ x) = json_string_rest x /\
  (Ascii.eqb c newline = false -> Ascii.eqb c tab = false ->
   Ascii.eqb c carriage_return = false -> Ascii.eqb c backspace = false ->
   Ascii.eqb c form_feed = false ->
   json_unescape (unicode_escape c ++ x) = String c (json_unescape x)).
Proof.
  destruct c as [[] [] [] [] [] [] [] []]; intros H; try discriminate H;
    split; try reflexivity; intros; try discriminate; reflexivity.
Qed.

Lemma json_escaped_chars_valid s :
  json_string_rest (json_escaped_chars s ++ String dquote "") = true.
Proof.
  induction s as [|c s IH]; [reflexivity|].
  cbn [json_escaped_chars]. rewrite append_assoc.
  destruct (Ascii.eqb_spec c dquote) as [->|H1]; [exact IH|].
  destruct (Ascii.eqb_spec c backslash) as [->|H2]; [exact IH|].
  destruct (Ascii.eqb_spec c newline) as [->|H3]; [exact IH|].
  destruct (Ascii.eqb_spec c tab) as [->|H4]; [exact IH|].
  destruct (Ascii.eqb_spec c carriage_return) as [->|H5]; [exact IH|].
  destruct (Ascii.eqb_spec c backspace) as [->|H6]; [exact IH|].
  destruct (Ascii.eqb_spec c form_feed) as [->|H7]; [exact IH|].
  destruct (nat_of_ascii c <? 32)%nat eqn:H8.
  - now rewrite (proj1 (unicode_escape_valid c _ H8)).
  - cbn [append json_string_rest].
    apply Ascii.eqb_neq in H1, H2. now rewrite H1, H2, H8.
Qed.

(** X8. [json_append_escaped_string] always writes a string
    literal of JSON.  [write_json_string] writes one exactly when the text
    holds no control character other than the line feed and the tab, since it
    copies the other control characters as they are. *)
Theorem escaped_string_is_json str :
  json_string_literal (json_append_escaped_string str) = true /\
  forall indent,
    json_string_literal (write_json_string str indent) = plain_string str.
Proof.
  split.
  - unfold json_append_escaped_string, json_string_literal.
    rewrite Ascii.eqb_refl. apply json_escaped_chars_valid.
  - intros indent. unfold write_json_string, json_string_literal.
    rewrite Ascii.eqb_refl. cbn [andb].
    induction str as [|c s IH]; [reflexivity|].
    cbn [write_json_chars plain_string]. rewrite append_assoc.
    unfold plain_char.
    destruct (Ascii.eqb_spec c dquote) as [->|H1]; [exact IH|].
    destruct (Ascii.eqb_spec c backslash) as [->|H2]; [exact IH|].
    destruct (Ascii.eqb_spec c newline) as [->|H3]; [exact IH|].
    destruct (Ascii.eqb_spec c tab) as [->|H4]; [exact IH|].
    cbn [append json_string_rest].
    apply Ascii.eqb_neq in H1, H2. rewrite H1, H2.
    rewrite !orb_false_r.
    destruct (Nat.ltb_spec (nat_of_ascii c) 32) as [Hlt|Hge].
    + destruct (Nat.leb_spec 32 (nat_of_ascii c)); [lia | reflexivity].
    + destruct (Nat.leb_spec 32 (nat_of_ascii c)); [exact IH | lia].
Qed.

Lemma escaped_chars_read_back str :
  json_unescape (json_escaped_chars str) = str /\
  json_unescape (write_json_chars str) = str.
Proof.
  split; induction str as [|c s IH]; try reflexivity.
  - cbn [json_escaped_chars].
    destruct (Ascii.eqb_spec c dquote) as [->|H1]; [cbn; now rewrite IH|].
    destruct (Ascii.eqb_spec c backslash) as [->|H2]; [cbn; now rewrite IH|].
    destruct (Ascii.eqb_spec c newline) as [->|H3]; [cbn; now rewrite IH|].
    destruct (Ascii.eqb_spec c tab) as [->|H4]; [cbn; now rewrite IH|].
    destruct (Ascii.eqb_spec c carriage_return) as [->|H5]; [cbn; now rewrite IH|].
    destruct (Ascii.eqb_spec c backspace) as [->|H6]; [cbn; now rewrite IH|].
    destruct (Ascii.eqb_spec c form_feed) as [->|H7]; [cbn; now rewrite IH|].
    apply Ascii.eqb_neq in H1, H2, H3, H4, H5, H6, H7.
    destruct (nat_of_ascii c <? 32)%nat eqn:H8.
    + rewrite (proj2 (unicode_escape_valid c _ H8)) by assumption.
      now rewrite IH.
    + cbn [append json_unescape]. now rewrite H2, IH.
  - cbn [write_json_chars].
    destruct (Ascii.eqb_spec c dquote) as [->|H1]; [cbn; now rewrite IH|].
    destruct (Ascii.eqb_spec c backslash) as [->|H2]; [cbn; now rewrite IH|].
    destruct (Ascii.eqb_spec c newline) as [->|H3]; [cbn; now rewrite IH|].
    destruct (Ascii.eqb_spec c tab) as [->|H4]; [cbn; now rewrite IH|].
    apply Ascii.eqb_neq in H2.
    cbn [append json_unescape]. now rewrite H2, IH.
Qed.

(** X9. Escaping loses nothing: the characters either serializer
    writes for a text stand, read as the escapes of JSON, for that text; so
    two different texts are never written alike. *)
Theorem escaped_string_reads_back :
  (forall str, json_unescape (json_escaped_chars str) = str) /\
  (forall str, json_unescape (write_json_chars str) = str) /\
  (forall a b, json_escaped_chars a = json_escaped_chars b -> a = b) /\
  (forall a b, write_json_chars a = write_json_chars b -> a = b).
Proof.
  split; [|split; [|split]].
  - intros str. apply escaped_chars_read_back.
  - intros str. apply escaped_chars_read_back.
  - intros a b H. apply (f_equal json_unescape) in H.
    now rewrite !(proj1 (escaped_chars_read_back _)) in H.
  - intros a b H. apply (f_equal json_unescape) in H.
    now rewrite !(proj2 (escaped_chars_read_back _)) in H.
Qed.

(** ** The two programs on plain texts *)

Lemma plain_char_at s : forall k,
  plain_string s = true -> (k < String.length s)%nat ->
  plain_char (char_at s k) = true.
Proof.
  unfold char_at. induction s as [|c s IH]; simpl; intros k H Hk; [lia|].
  apply andb_prop in H as [Hc Hs].
  destruct k; [exact Hc|]. apply IH; [exact Hs | lia].
Qed.

Lemma plain_substring s : forall start len,
  plain_string s = true -> plain_string (substring start len s) = true.
Proof.
  induction s as [|c s IH]; intros start len H.
  - destruct start, len; reflexivity.
  - simpl in H. apply andb_prop in H as [Hc Hs].
    destruct start as [|start]; simpl.
    + destruct len as [|len]; [reflexivity|].
      simpl. now rewrite Hc, IH.
    + now apply IH.
Qed.

Lemma plain_tokens_step input s s' :
  plain_string input = true ->
  plain_tokens (tokens s) -> (i s < c_strlen input)%nat ->
  tokenize_step input s = Ok s' -> plain_tokens (tokens s').
Proof.
  unfold plain_tokens. intros Hin Htok Hlt H.
  pose proof (c_strlen_le input) as Hlen.
  assert (Hc : plain_string (String (char_at input (i s)) "") = true).
  { simpl. rewrite plain_char_at by (auto; lia). reflexivity. }
  step_cases H; cbn [tokens]; unfold add_token;
    try assumption;
    (apply List.Forall_app; split; [assumption|]);
    (apply List.Forall_cons; [|apply List.Forall_nil]);
    cbn [value]; intros Hop; auto using plain_substring;
    exfalso; unfold is_operand in Hop; cbn [type] in Hop;
    repeat match goal with
    | H : separator_type _ = Some _ |- _ => unfold separator_type in H
    | H : operator_type _ = Some _ |- _ => unfold operator_type in H
    | H : (if ?b then _ else _) = Some _ |- _ =>
        destruct b; [injection H as <-; discriminate Hop|]
    | H : None = Some _ |- _ => discriminate H
    end.
Qed.

Lemma tokenize_plain input toks :
  plain_string input = true -> tokenize input = Ok toks -> plain_tokens toks.
Proof.
  intros Hin H. apply tokenize_ok in H as (s & Hs & _ & ->).
  apply (steps_invariant (fun s => plain_tokens (tokens s))) in Hs.
  - apply List.Forall_app. split; [exact Hs|]. repeat constructor.
  - intros s0 s1 H0 Hlt. now apply plain_tokens_step.
  - constructor.
Qed.

(** X10. On a source text without control character other than line
    feeds and tabs, what [parse_file] writes to its file and what
    [generateAst] returns are the same document up to spaces, tabs and line
    ends. *)
Theorem outputs_agree_on_plain_text input a b :
  plain_string input = true ->
  parse_file input = Ok a -> generateAst input = Ok b ->
  strip_whitespace a = strip_whitespace b.
Proof.
  unfold Ast.parse_file, Ast.generateAst, Ast.parse_source. intros Hin Ha Hb.
  destruct (tokenize input) as [toks|e] eqn:E; cbn [bind] in *; [|discriminate].
  pose proof (tokenize_plain input toks Hin E) as Hp.
  apply tokenize_shape in E as (front & eof & -> & Heof & Hfront).
  pose proof (parse_outcome _ front eof eq_refl Heof Hfront) as Ho.
  destruct (parse (front ++ [eof])) as [tree|e]; cbn [bind outcome] in *;
    [|discriminate].
  injection Ha as <-. injection Hb as <-.
  destruct Ho as (_ & _ & Hplain).
  cbn [write_ast_to_json serialize_ast].
  rewrite strip_app, (serializers_agree_on_plain_trees tree (Hplain Hp) 0).
  change (strip_whitespace nl) with "". apply append_nil_r.
Qed.

(** ** JSON texts *)

Lemma json_blank_app a b : json_blank a -> json_blank b -> json_blank (a ++ b).
Proof.
  unfold json_blank. intros Ha Hb. now rewrite all_chars_app, Ha, Hb.
Qed.

Lemma json_blank_indent n : json_blank (write_indent n).
Proof.
  induction n as [|n IH]; [reflexivity|]. cbn [write_indent].
  now apply json_blank_app.
Qed.

Lemma json_value_eq a b : json_value a -> a = b -> json_value b.
Proof. now intros H <-. Qed.

(** The members of an object, laid out by [fields_text]. *)
Lemma fields_members wa wb wc rest :
  json_blank wa -> json_blank wb -> json_blank wc ->
  forall fields,
    fields <> [] ->
    Forall (fun f => json_string_literal (quoted (fst f)) = true /\
                     json_value (snd f)) fields ->
    exists members,
      json_members members /\
      fields_text fields wa wb (wc ++ rest) = members ++ rest.
Proof.
  intros Ha Hb Hc. induction fields as [|[name v] fields IH]; [congruence|].
  intros _ Hf. apply Forall_cons in Hf as [[Hn Hv] Hf]. cbn [fst snd] in *.
  assert (Hm : forall ws2, json_blank ws2 ->
            json_member ((wa ++ wb) ++ quoted name ++ "" ++ ":" ++
                         (" " ++ v ++ ws2))).
  { intros ws2 H2. apply json_member_intro; auto.
    - now apply json_blank_app.
    - reflexivity.
    - now apply json_element_intro. }
  destruct fields as [|f fields].
  - exists ((wa ++ wb) ++ quoted name ++ "" ++ ":" ++ (" " ++ v ++ wc)).
    split; [apply json_members_last, Hm, Hc|].
    cbn [fields_text]. rewrite !append_assoc. cbn [append].
    now rewrite ?append_assoc.
  - destruct (IH ltac:(discriminate) Hf) as (members & Hms & E).
    exists (((wa ++ wb) ++ quoted name ++ "" ++ ":" ++ (" " ++ v ++ ""))
            ++ "," ++ members).
    split; [apply json_members_cons; [apply Hm; reflexivity | exact Hms]|].
    change (fields_text ((name, v) :: f :: fields) wa wb (wc ++ rest))
      with (wa ++ wb ++ quoted name ++ ": " ++ v ++ "," ++
            fields_text (f :: fields) wa wb (wc ++ rest)).
    rewrite E, !append_assoc. cbn [append]. now rewrite ?append_assoc.
Qed.

Lemma object_of_fields fields wa wb wc :
  json_blank wa -> json_blank wb -> json_blank wc ->
  fields <> [] ->
  Forall (fun f => json_string_literal (quoted (fst f)) = true /\
                   json_value (snd f)) fields ->
  json_value ("{" ++ fields_text fields wa wb (wc ++ "}")).
Proof.
  intros Ha Hb Hc Hne Hf.
  destruct (fields_members wa wb wc "}" Ha Hb Hc fields Hne Hf)
    as (members & Hm & ->).
  now apply json_object.
Qed.

(** The elements of an array, laid out by [items_text]. *)
Lemma items_elements wa wc rest :
  json_blank wa -> json_blank wc ->
  forall pre items,
    json_blank pre -> items <> [] -> Forall json_value items ->
    exists elements,
      json_elements elements /\
      pre ++ items_text items wa (wc ++ rest) = elements ++ rest.
Proof.
  intros Ha Hc pre items. revert pre.
  induction items as [|v items IH]; intros pre Hp Hne Hf; [congruence|].
  apply Forall_cons in Hf as [Hv Hf].
  destruct items as [|w items].
  - exists ((pre ++ wa) ++ v ++ wc). split.
    + apply json_elements_last, json_element_intro; auto.
      now apply json_blank_app.
    + cbn [items_text]. now rewrite ?append_assoc.
  - destruct (IH nl ltac:(reflexivity) ltac:(discriminate) Hf)
      as (elements & He & E).
    exists (((pre ++ wa) ++ v ++ "") ++ "," ++ elements). split.
    + apply json_elements_cons; [|exact He].
      apply json_element_intro; auto; [now apply json_blank_app | reflexivity].
    + change (items_text (v :: w :: items) wa (wc ++ rest))
        with (wa ++ v ++ "," ++ nl ++ items_text (w :: items) wa (wc ++ rest)).
      rewrite E, !append_assoc. cbn [append]. now rewrite ?append_assoc.
Qed.

Lemma array_of_items items wa wc :
  json_blank wa -> json_blank wc -> Forall json_value items ->
  json_value ("[" ++ nl ++ items_text items wa (wc ++ "]")).
Proof.
  intros Ha Hc Hf. destruct items as [|v items].
  - cbn [items_text].
    change ("[" ++ nl ++ wc ++ "]") with ("[" ++ (nl ++ wc) ++ "]").
    apply json_array_empty. now apply json_blank_app.
  - destruct (items_elements wa wc "]" Ha Hc nl (v :: items)
                ltac:(reflexivity) ltac:(discriminate) Hf)
      as (elements & He & ->).
    now apply json_array.
Qed.

(** *** The buffered form *)

Ltac fields_done :=
  repeat (apply List.Forall_cons || apply List.Forall_nil);
  cbn [fst snd]; (split; [reflexivity | assumption]).

Lemma serialize_object_1 k1 v1 :
  json_string_literal (quoted k1) = true -> json_value v1 ->
  json_value ("{" ++ nl ++ "    " ++ quoted k1 ++ ": " ++ v1 ++ nl ++ "  }").
Proof.
  intros H1 V1.
  apply (object_of_fields [(k1, v1)] nl "    " (nl ++ "  "));
    try reflexivity; try discriminate.
  repeat (apply List.Forall_cons || apply List.Forall_nil); auto.
Qed.

Lemma serialize_object_2 k1 v1 k2 v2 :
  json_string_literal (quoted k1) = true -> json_value v1 ->
  json_string_literal (quoted k2) = true -> json_value v2 ->
  json_value ("{" ++ nl ++ "    " ++ quoted k1 ++ ": " ++ v1 ++
              "," ++ nl ++ "    " ++ quoted k2 ++ ": " ++ v2 ++ nl ++ "  }").
Proof.
  intros H1 V1 H2 V2.
  apply (object_of_fields [(k1, v1); (k2, v2)] nl "    " (nl ++ "  "));
    try reflexivity; try discriminate.
  repeat (apply List.Forall_cons || apply List.Forall_nil); auto.
Qed.

Lemma serialize_object_3 k1 v1 k2 v2 k3 v3 :
  json_string_literal (quoted k1) = true -> json_value v1 ->
  json_string_literal (quoted k2) = true -> json_value v2 ->
  json_string_literal (quoted k3) = true -> json_value v3 ->
  json_value ("{" ++ nl ++ "    " ++ quoted k1 ++ ": " ++ v1 ++
              "," ++ nl ++ "    " ++ quoted k2 ++ ": " ++ v2 ++
              "," ++ nl ++ "    " ++ quoted k3 ++ ": " ++ v3 ++ nl ++ "  }").
Proof.
  intros H1 V1 H2 V2 H3 V3.
  apply (object_of_fields [(k1, v1); (k2, v2); (k3, v3)] nl "    "
           (nl ++ "  "));
    try reflexivity; try discriminate.
  repeat (apply List.Forall_cons || apply List.Forall_nil); auto.
Qed.

Lemma serialize_node_object n d :
  json_value d ->
  json_value ("{" ++ nl ++ "  " ++ quoted "type" ++ ": " ++ print_int n ++
              "," ++ nl ++ "  " ++ quoted "data" ++ ": " ++ d ++ nl ++ "}").
Proof.
  intros Hd.
  apply (object_of_fields [("type", print_int n); ("data", d)] nl "  " nl);
    try reflexivity; try discriminate.
  repeat (apply List.Forall_cons || apply List.Forall_nil); cbn [fst snd];
    (split; [reflexivity|]); [apply json_integer | exact Hd].
Qed.

Lemma escaped_string_value str : json_value (json_append_escaped_string str).
Proof.
  apply json_string. unfold json_append_escaped_string, json_string_literal.
  rewrite Ascii.eqb_refl. apply json_escaped_chars_valid.
Qed.

Lemma serialize_token_value token : json_value (serialize_token token).
Proof.
  unfold serialize_token, json_append_int.
  apply (object_of_fields
           [("type", print_int (TokenType_ordinal (type token)));
            ("value", json_append_escaped_string (value token));
            ("line", print_int (line token));
            ("column", print_int (column token))] nl "    " (nl ++ "  "));
    try reflexivity; try discriminate.
  repeat (apply List.Forall_cons || apply List.Forall_nil); cbn [fst snd];
    (split; [reflexivity|]);
    first [apply json_integer | apply escaped_string_value].
Qed.

(** The list of statements of a block. *)
Lemma serialize_statements_value (ser : option ASTNode -> string) statements :
  Forall (fun c => json_value (ser c)) statements ->
  json_value
    ("[" ++ nl ++
     (fix loop (list : list (option ASTNode)) : string :=
        match list with
        | nil => ""
        | statement :: rest =>
            "    " ++ ser statement ++
            (match rest with nil => "" | _ => "," end) ++
            nl ++ loop rest
        end) statements ++ "  ]").
Proof.
  intros Hf. set (loop := fix loop (list : list (option ASTNode)) := _).
  destruct statements as [|c statements].
  - apply (json_array_empty (nl ++ "  ")). reflexivity.
  - assert (E : forall list, list <> [] ->
              loop list ++ "  ]" =
              items_text (List.map ser list) "    " ((nl ++ "  ") ++ "]")).
    { induction list as [|x list IH]; [congruence|]. intros _.
      destruct list as [|y list].
      - cbn. now rewrite ?append_assoc.
      - specialize (IH ltac:(discriminate)).
        change (loop (x :: y :: list))
          with ("    " ++ ser x ++ "," ++ nl ++ loop (y :: list)).
        change (items_text (List.map ser (x :: y :: list)) "    "
                  ((nl ++ "  ") ++ "]"))
          with ("    " ++ ser x ++ "," ++ nl ++
                items_text (List.map ser (y :: list)) "    "
                  ((nl ++ "  ") ++ "]")).
        rewrite <- IH, !append_assoc. cbn [append].
        now rewrite ?append_assoc. }
    rewrite E by discriminate.
    apply array_of_items; try reflexivity.
    apply List.Forall_forall. intros v Hv.
    apply in_map_iff in Hv as (x & <- & Hx).
    rewrite List.Forall_forall in Hf. now apply Hf.
Qed.

Ltac child_cases :=
  repeat match goal with
  | c : option ASTNode, H : on_child _ ?c |- _ =>
      let n := fresh "n" in
      destruct c as [n|]; cbn [on_child] in H
  | o : option string |- _ => destruct o
  end.

Ltac serialize_object :=
  lazymatch goal with
  | |- json_value ("{" ++ nl ++ "    " ++ quoted _ ++ ": " ++ _ ++
                   nl ++ "  }") =>
      apply serialize_object_1
  | |- json_value ("{" ++ nl ++ "    " ++ quoted _ ++ ": " ++ _ ++
                   "," ++ nl ++ "    " ++ quoted _ ++ ": " ++ _ ++
                   nl ++ "  }") =>
      apply serialize_object_2
  | |- json_value ("{" ++ nl ++ "    " ++ quoted _ ++ ": " ++ _ ++
                   "," ++ nl ++ "    " ++ quoted _ ++ ": " ++ _ ++
                   "," ++ nl ++ "    " ++ quoted _ ++ ": " ++ _ ++
                   nl ++ "  }") =>
      apply serialize_object_3
  end.

Lemma serialize_node_value node : json_value (serialize_node node).
Proof.
  induction node using ASTNode_induction;
    cbn [serialize_node]; unfold json_append_int;
    apply serialize_node_object; child_cases; serialize_object;
    try first [ reflexivity | assumption | apply json_null
              | apply escaped_string_value | apply serialize_token_value ].
  apply serialize_statements_value.
  apply List.Forall_forall. intros c Hc.
  rewrite List.Forall_forall in H.
  specialize (H c Hc). destruct c; [exact H | apply json_null].
Qed.

(** *** The streaming form *)

Lemma write_json_chars_valid str :
  json_string_rest (write_json_chars str ++ String dquote "") =
  plain_string str.
Proof.
  induction str as [|c s IH]; [reflexivity|].
  cbn [write_json_chars plain_string]. rewrite append_assoc.
  unfold plain_char.
  destruct (Ascii.eqb_spec c dquote) as [->|H1]; [exact IH|].
  destruct (Ascii.eqb_spec c backslash) as [->|H2]; [exact IH|].
  destruct (Ascii.eqb_spec c newline) as [->|H3]; [exact IH|].
  destruct (Ascii.eqb_spec c tab) as [->|H4]; [exact IH|].
  cbn [append json_string_rest].
  apply Ascii.eqb_neq in H1, H2. rewrite H1, H2.
  rewrite !orb_false_r.
  destruct (Nat.ltb_spec (nat_of_ascii c) 32) as [Hlt|Hge].
  - destruct (Nat.leb_spec 32 (nat_of_ascii c)); [lia | reflexivity].
  - destruct (Nat.leb_spec 32 (nat_of_ascii c)); [exact IH | lia].
Qed.

Lemma write_json_string_value str indent :
  plain_string str = true -> json_value (write_json_string str indent).
Proof.
  intros H. apply json_string. unfold write_json_string, json_string_literal.
  rewrite Ascii.eqb_refl. cbn [andb]. now rewrite write_json_chars_valid.
Qed.

Lemma write_object_1 W1 W2 k1 v1 :
  json_blank W1 -> json_blank W2 ->
  json_string_literal (quoted k1) = true -> json_value v1 ->
  json_value ("{" ++ nl ++ W2 ++ quoted k1 ++ ": " ++ v1 ++ nl ++ W1 ++ "}").
Proof.
  intros B1 B2 H1 V1.
  apply (object_of_fields [(k1, v1)] nl W2 (nl ++ W1));
    try reflexivity; try discriminate; try assumption.
  repeat (apply List.Forall_cons || apply List.Forall_nil); auto.
Qed.

Lemma write_object_2 W1 W2 k1 v1 k2 v2 :
  json_blank W1 -> json_blank W2 ->
  json_string_literal (quoted k1) = true -> json_value v1 ->
  json_string_literal (quoted k2) = true -> json_value v2 ->
  json_value ("{" ++ nl ++ W2 ++ quoted k1 ++ ": " ++ v1 ++
              "," ++ nl ++ W2 ++ quoted k2 ++ ": " ++ v2 ++ nl ++ W1 ++ "}").
Proof.
  intros B1 B2 H1 V1 H2 V2.
  apply (object_of_fields [(k1, v1); (k2, v2)] nl W2 (nl ++ W1));
    try reflexivity; try discriminate; try assumption.
  repeat (apply List.Forall_cons || apply List.Forall_nil); auto.
Qed.

Lemma write_object_3 W1 W2 k1 v1 k2 v2 k3 v3 :
  json_blank W1 -> json_blank W2 ->
  json_string_literal (quoted k1) = true -> json_value v1 ->
  json_string_literal (quoted k2) = true -> json_value v2 ->
  json_string_literal (quoted k3) = true -> json_value v3 ->
  json_value ("{" ++ nl ++ W2 ++ quoted k1 ++ ": " ++ v1 ++
              "," ++ nl ++ W2 ++ quoted k2 ++ ": " ++ v2 ++
              "," ++ nl ++ W2 ++ quoted k3 ++ ": " ++ v3 ++ nl ++ W1 ++ "}").
Proof.
  intros B1 B2 H1 V1 H2 V2 H3 V3.
  apply (object_of_fields [(k1, v1); (k2, v2); (k3, v3)] nl W2 (nl ++ W1));
    try reflexivity; try discriminate; try assumption.
  repeat (apply List.Forall_cons || apply List.Forall_nil); auto.
Qed.

Lemma write_node_object n W0 W1 d :
  json_blank W0 -> json_blank W1 -> json_value d ->
  json_value ("{" ++ nl ++ W1 ++ quoted "type" ++ ": " ++ print_int n ++
              ("," ++ nl ++ W1 ++ quoted "data" ++ ": " ++ d) ++
              nl ++ W0 ++ "}").
Proof.
  intros B0 B1 Hd.
  apply (json_value_eq
           ("{" ++ fields_text [("type", print_int n); ("data", d)] nl W1
                     ((nl ++ W0) ++ "}"))).
  - apply object_of_fields; try reflexivity; try discriminate; try assumption.
    repeat (apply List.Forall_cons || apply List.Forall_nil); cbn [fst snd];
      (split; [reflexivity|]); [apply json_integer | exact Hd].
  - cbn [fields_text]. rewrite !append_assoc. cbn [append].
    now rewrite ?append_assoc.
Qed.

Lemma write_token_value token indent :
  plain_string (value token) = true ->
  json_value (write_token_to_json token indent).
Proof.
  intros Hp. unfold write_token_to_json.
  apply (object_of_fields
           [("type", print_int (TokenType_ordinal (type token)));
            ("value", write_json_string (value token) (indent + 1));
            ("line", print_int (line token));
            ("column", print_int (column token))]
           nl (write_indent (indent + 1)) (nl ++ write_indent indent));
    try reflexivity; try discriminate;
    try apply json_blank_indent;
    try (apply json_blank_app; [reflexivity | apply json_blank_indent]).
  repeat (apply List.Forall_cons || apply List.Forall_nil); cbn [fst snd];
    (split; [reflexivity|]);
    first [apply json_integer | now apply write_json_string_value].
Qed.

Lemma write_statements_value (write : option ASTNode -> nat -> string)
    statements indent :
  Forall (fun c => forall indent, json_value (write c indent)) statements ->
  json_value
    ("[" ++ nl ++
     (fix loop (list : list (option ASTNode)) (indent : nat) : string :=
        match list with
        | nil => ""
        | statement :: rest =>
            write_indent (indent + 1) ++
            write statement (indent + 1)%nat ++
            (match rest with nil => "" | _ => "," end) ++
            nl ++ loop rest indent
        end) statements indent ++ write_indent indent ++ "]").
Proof.
  intros Hf. set (loop := fix loop (list : list (option ASTNode)) (indent : nat) := _).
  destruct statements as [|c statements].
  - apply (json_array_empty (nl ++ write_indent indent)).
    apply json_blank_app; [reflexivity | apply json_blank_indent].
  - assert (E : forall list, list <> [] ->
              loop list indent ++ write_indent indent ++ "]" =
              items_text (List.map (fun c => write c (indent + 1)%nat) list)
                (write_indent (indent + 1))
                ((nl ++ write_indent indent) ++ "]")).
    { induction list as [|x list IH]; [congruence|]. intros _.
      destruct list as [|y list].
      - cbn. now rewrite ?append_assoc.
      - specialize (IH ltac:(discriminate)).
        change (loop (x :: y :: list) indent)
          with (write_indent (indent + 1) ++ write x (indent + 1)%nat ++
                "," ++ nl ++ loop (y :: list) indent).
        change (items_text
                  (List.map (fun c => write c (indent + 1)%nat)
                     (x :: y :: list))
                  (write_indent (indent + 1))
                  ((nl ++ write_indent indent) ++ "]"))
          with (write_indent (indent + 1) ++ write x (indent + 1)%nat ++
                "," ++ nl ++
                items_text
                  (List.map (fun c => write c (indent + 1)%nat) (y :: list))
                  (write_indent (indent + 1))
                  ((nl ++ write_indent indent) ++ "]")).
        rewrite <- IH, !append_assoc. cbn [append].
        now rewrite ?append_assoc. }
    rewrite E by discriminate.
    apply array_of_items; try apply json_blank_indent.
    apply List.Forall_forall. intros v Hv.
    apply in_map_iff in Hv as (x & <- & Hx).
    rewrite List.Forall_forall in Hf. now apply Hf.
Qed.

Ltac write_object :=
  lazymatch goal with
  | |- json_value ("{" ++ nl ++ _ ++ quoted _ ++ ": " ++ _ ++
                   nl ++ _ ++ "}") =>
      apply write_object_1
  | |- json_value ("{" ++ nl ++ _ ++ quoted _ ++ ": " ++ _ ++
                   "," ++ nl ++ _ ++ quoted _ ++ ": " ++ _ ++
                   nl ++ _ ++ "}") =>
      apply write_object_2
  | |- json_value ("{" ++ nl ++ _ ++ quoted _ ++ ": " ++ _ ++
                   "," ++ nl ++ _ ++ quoted _ ++ ": " ++ _ ++
                   "," ++ nl ++ _ ++ quoted _ ++ ": " ++ _ ++
                   nl ++ _ ++ "}") =>
      apply write_object_3
  end.

Lemma write_node_value node :
  plain_node node -> forall indent, json_value (write_node node indent).
Proof.
  induction node using ASTNode_induction; intros Hplain indent;
    cbn [plain_node] in Hplain;
    repeat match goal with H : _ /\ _ |- _ => destruct H end;
    cbn [write_node].
  2:{ change (": {" ++ ?x) with (": " ++ "{" ++ x).
      apply write_node_object; try apply json_blank_indent.
      apply write_object_1; try apply json_blank_indent; [reflexivity|].
      apply (write_statements_value
               (fun c i => match c with
                           | Some n => write_node n i
                           | None => "null"
                           end)).
      revert Hplain. induction H as [|c rest Hc _ IH]; intros Hplain;
        constructor.
      - destruct Hplain as [Hp _]. intros i.
        destruct c; cbn [on_child] in Hc; [now apply Hc | apply json_null].
      - apply IH, Hplain. }
  all: change (": {" ++ ?x) with (": " ++ "{" ++ x);
    apply write_node_object; try apply json_blank_indent;
    child_cases; write_object;
    try first [ apply json_blank_indent | reflexivity | apply json_null
              | now apply write_json_string_value
              | now apply write_token_value
              | solve [auto] ].
Qed.

(** *** Whole documents *)

Lemma json_value_text v ws : json_value v -> json_blank ws -> json_text (v ++ ws).
Proof.
  intros Hv Hws. exact (json_element_intro "" v ws eq_refl Hv Hws).
Qed.

(** X11. Whatever the tree, the text that [serialize_ast] appends to the
    buffer, which is the text [generateAst] returns, is a JSON text: every
    object and array is closed, members and elements are separated by
    single commas, every name and string is a JSON string literal and every
    number a decimal integer. *)
Theorem serialize_ast_is_json (node : option ASTNode) :
  json_text (serialize_ast node).
Proof.
  rewrite <- (append_nil_r (serialize_ast node)).
  apply json_value_text; [|reflexivity].
  destruct node as [n|]; [apply serialize_node_value | apply json_null].
Qed.

(** X12. On a source text without control character other than line feeds
    and tabs, what [parse_file] writes to its file is a JSON text. *)
Theorem parse_file_writes_json input text :
  plain_string input = true -> parse_file input = Ok text -> json_text text.
Proof.
  unfold Ast.parse_file, Ast.parse_source. intros Hin H.
  destruct (tokenize input) as [toks|e] eqn:E; cbn [bind] in *; [|discriminate].
  pose proof (tokenize_plain input toks Hin E) as Hp.
  apply tokenize_shape in E as (front & eof & -> & Heof & Hfront).
  pose proof (parse_outcome _ front eof eq_refl Heof Hfront) as Ho.
  destruct (parse (front ++ [eof])) as [tree|e]; cbn [bind outcome] in *;
    [|discriminate].
  injection H as <-. destruct Ho as (_ & _ & Hplain).
  apply json_value_text; [|reflexivity].
  cbn [write_ast_to_json]. apply write_node_value, Hplain, Hp.
Qed.

End Lexer.

(** ** Instances *)

Lemma string_token_includes_opening_quote_witness :
  exists s',
    steps sample_dead_text quoted_sample (c_strlen quoted_sample)
      quoted_sample_scanner s' /\
    state s' = STATE_SEARCHING /\
    state_start s' = 1%nat /\
    i s' = 5%nat /\
    tokens s' = [mkToken TOKEN_STRING (String dquote "ab") 1 2] /\
    forall toks, tokenize sample_dead_text quoted_sample = Ok toks ->
      exists rest, toks = (tokens s' ++ rest)%list.
Proof.
  apply (string_token_includes_opening_quote sample_dead_text
           " " "ab" ";" quoted_sample_scanner).
  - eapply steps_cons; [simpl; lia | reflexivity | apply steps_refl].
  - reflexivity.
  - reflexivity.
  - reflexivity.
  - simpl. lia.
Defined.

Lemma eof_once_and_last_witness :
  exists front l c,
    [mkToken TOKEN_IDENTIFIER "x" 1 1;
     mkToken TOKEN_EQUAL (sample_dead_text 1) 1 2;
     mkToken TOKEN_NUMBER "1" 1 3;
     mkToken TOKEN_SEMICOLON (sample_dead_text 3) 1 4;
     mkToken TOKEN_EOF "EOF" 1 5] =
      (front ++ [mkToken TOKEN_EOF "EOF" l c])%list /\
    Forall not_eof front /\
    List.length (List.filter is_eof
      [mkToken TOKEN_IDENTIFIER "x" 1 1;
       mkToken TOKEN_EQUAL (sample_dead_text 1) 1 2;
       mkToken TOKEN_NUMBER "1" 1 3;
       mkToken TOKEN_SEMICOLON (sample_dead_text 3) 1 4;
       mkToken TOKEN_EOF "EOF" 1 5]) = 1%nat.
Proof.
  apply (eof_once_and_last sample_dead_text "x=1;"). reflexivity.
Defined.

Lemma parse_expression_right_associative_witness :
  parse_expression 3
    (parser_at tokens_1_plus_2_times_3 0 (mkToken TOKEN_NUMBER "1" 1 1)) =
    Ok (NODE_EXPRESSION (mkToken TOKEN_NUMBER "1" 1 1) (Some "+")
          (Some (NODE_EXPRESSION (mkToken TOKEN_NUMBER "2" 1 3) (Some "*")
                   (Some (NODE_EXPRESSION (mkToken TOKEN_NUMBER "3" 1 5)
                            None None)))),
        parser_at tokens_1_plus_2_times_3 5 (mkToken TOKEN_EOF "EOF" 1 6)).
Proof.
  apply (parse_expression_right_associative nil
           (mkToken TOKEN_NUMBER "1" 1 1)
           (mkToken TOKEN_PLUS (sample_dead_text 1) 1 2)
           (mkToken TOKEN_NUMBER "2" 1 3)
           (mkToken TOKEN_MULTIPLY (sample_dead_text 3) 1 4)
           (mkToken TOKEN_NUMBER "3" 1 5) (mkToken TOKEN_EOF "EOF" 1 6)
           nil "+" "*" 3);
    first [reflexivity | apply le_n].
Defined.

Lemma condition_requires_comparator_witness :
  parse_condition 1
    (parser_at tokens_x_rparen 0 (mkToken TOKEN_IDENTIFIER "x" 1 3)) =
    Exit (UnexpectedSymbol "condition" 1 4) /\
  (forall fuel0 p0 n q,
     parse_condition fuel0 p0 = Ok (n, q) ->
     exists l text r,
       n = NODE_CONDITION (Some l) text (Some r) /\
       In text [">"; "<"; "="]) /\
  parse_source sample_dead_text "if(x){y=1}" =
    Exit (UnexpectedSymbol "condition" 1 4).
Proof.
  apply (condition_requires_comparator sample_dead_text 1
           (parser_at tokens_x_rparen 0 (mkToken TOKEN_IDENTIFIER "x" 1 3))
           (NODE_EXPRESSION (mkToken TOKEN_IDENTIFIER "x" 1 3) None None)
           (parser_at tokens_x_rparen 1
              (mkToken TOKEN_RPAREN (sample_dead_text 3) 1 4)));
    reflexivity.
Defined.

Lemma token_positions_increase_witness :
  StronglySorted (fun t u => before (position t) (position u))
    [mkToken TOKEN_IDENTIFIER "ab" 1 1; mkToken TOKEN_IDENTIFIER "cd" 1 3;
     mkToken TOKEN_EOF "EOF" 1 5] /\
  Forall (fun t => (1 <= line t)%Z /\ (1 <= column t)%Z)
    [mkToken TOKEN_IDENTIFIER "ab" 1 1; mkToken TOKEN_IDENTIFIER "cd" 1 3;
     mkToken TOKEN_EOF "EOF" 1 5].
Proof.
  apply (token_positions_increase sample_dead_text "ab cd "). reflexivity.
Defined.

Lemma token_texts_fit_their_types_witness :
  Forall (fun t => token_text_ok t = true)
    [mkToken TOKEN_WHILE "while" 1 1;
     mkToken TOKEN_LPAREN (sample_dead_text 5) 1 2;
     mkToken TOKEN_IDENTIFIER "n" 1 3;
     mkToken TOKEN_GREATER (sample_dead_text 7) 1 4;
     mkToken TOKEN_NUMBER "10" 1 5;
     mkToken TOKEN_RPAREN (sample_dead_text 10) 1 6;
     mkToken TOKEN_EOF "EOF" 1 7].
Proof.
  apply (token_texts_fit_their_types sample_dead_text "while(n>10)").
  reflexivity.
Defined.

Lemma final_word_is_lost_witness :
  tokenize sample_dead_text ("x = y + " ++ "total") =
  tokenize sample_dead_text ("x = y + " ++ " ").
Proof.
  apply (final_word_is_lost sample_dead_text "x = y + " "total").
  - reflexivity.
  - discriminate.
  - left. split; reflexivity.
Defined.

Lemma blank_text_is_no_program_witness :
  tokenize sample_dead_text (" " ++ nl ++ "  ") =
    Ok [mkToken TOKEN_EOF "EOF" 2 3] /\
  parse_source sample_dead_text (" " ++ nl ++ "  ") =
    Exit (UnexpectedSymbol "statement" 2 3).
Proof.
  apply (blank_text_is_no_program sample_dead_text (" " ++ nl ++ "  ")).
  reflexivity.
Defined.

Lemma parse_source_keeps_every_token_witness :
  exists toks,
    tokenize sample_dead_text sample_program = Ok toks /\
    List.map kind toks = (unparse sample_program_tree ++ [bare TOKEN_EOF])%list.
Proof.
  apply (parse_source_keeps_every_token sample_dead_text sample_program
           sample_program_tree).
  reflexivity.
Defined.

Lemma parse_source_tree_shape_witness : is_program sample_program_tree = true.
Proof.
  apply (parse_source_tree_shape sample_dead_text sample_program
           sample_program_tree).
  reflexivity.
Defined.

Lemma outputs_agree_on_plain_text_witness :
  strip_whitespace (write_ast_to_json (Some sample_program_tree) 0 ++ nl) =
  strip_whitespace (serialize_ast (Some sample_program_tree)).
Proof.
  apply (outputs_agree_on_plain_text sample_dead_text sample_program);
    reflexivity.
Defined.

Lemma parse_file_writes_json_witness :
  json_text (write_ast_to_json (Some sample_program_tree) 0 ++ nl).
Proof.
  apply (parse_file_writes_json sample_dead_text sample_program); reflexivity.
Defined.

End AstFacts.

(** * Properties of the sorting routines *)

Module SortFacts.
Import Sort.
Local Open Scope Z_scope.

(** ** Loops and arrays *)

(** The invariant rule of the counted loop. *)
Lemma for_range_inv {T : Type} (I : Z -> T -> Prop) body : forall n i (s : T),
  I i s ->
  (forall k s, i <= k < i + Z.of_nat n -> I k s ->
     exists s', body k s = Ret s' /\ I (k + 1) s') ->
  exists s', for_range n i body s = Ret s' /\ I (i + Z.of_nat n) s'.
Proof.
  induction n as [|n IH]; intros i s Hi Hstep.
  - exists s. rewrite Z.add_0_r. auto.
  - destruct (Hstep i s) as (s1 & E1 & H1); [lia | exact Hi |].
    destruct (IH (i + 1) s1 H1) as (s' & E' & H').
    { intros k s2 Hk. apply Hstep. lia. }
    exists s'. simpl. rewrite E1. simpl. split; [exact E'|].
    replace (i + Z.of_nat (S n)) with (i + 1 + Z.of_nat n) by lia. exact H'.
Qed.

Lemma for_up_inv {T : Type} (I : Z -> T -> Prop) lo hi body (s : T) :
  lo <= hi ->
  I lo s ->
  (forall k s, lo <= k < hi -> I k s ->
     exists s', body k s = Ret s' /\ I (k + 1) s') ->
  exists s', for_up lo hi body s = Ret s' /\ I hi s'.
Proof.
  intros Hle Hi Hstep. unfold for_up.
  destruct (for_range_inv I body (Z.to_nat (hi - lo)) lo s Hi)
    as (s' & E & H).
  { intros k s1 Hk. apply Hstep. lia. }
  exists s'. split; [exact E|].
  now replace hi with (lo + Z.of_nat (Z.to_nat (hi - lo))) by lia.
Qed.

Lemma for_down_range_inv {T : Type} (I : Z -> T -> Prop) body : forall n i (s : T),
  I i s ->
  (forall k s, i - Z.of_nat n < k <= i -> I k s ->
     exists s', body k s = Ret s' /\ I (k - 1) s') ->
  exists s', for_down_range n i body s = Ret s' /\ I (i - Z.of_nat n) s'.
Proof.
  induction n as [|n IH]; intros i s Hi Hstep.
  - exists s. rewrite Z.sub_0_r. auto.
  - destruct (Hstep i s) as (s1 & E1 & H1); [lia | exact Hi |].
    destruct (IH (i - 1) s1 H1) as (s' & E' & H').
    { intros k s2 Hk. apply Hstep. lia. }
    exists s'. simpl. rewrite E1. simpl. split; [exact E'|].
    replace (i - Z.of_nat (S n)) with (i - 1 - Z.of_nat n) by lia. exact H'.
Qed.

Lemma for_down_inv {T : Type} (I : Z -> T -> Prop) hi body (s : T) :
  -1 <= hi ->
  I hi s ->
  (forall k s, 0 <= k <= hi -> I k s ->
     exists s', body k s = Ret s' /\ I (k - 1) s') ->
  exists s', for_down hi body s = Ret s' /\ I (-1) s'.
Proof.
  intros Hle Hi Hstep. unfold for_down.
  destruct (for_down_range_inv I body (Z.to_nat (hi + 1)) hi s Hi)
    as (s' & E & H).
  { intros k s1 Hk. apply Hstep. lia. }
  exists s'. split; [exact E|].
  now replace (-1) with (hi - Z.of_nat (Z.to_nat (hi + 1))) by lia.
Qed.

Lemma array_get_middle {A : Type} (l1 : list A) x l2 i :
  i = Z.of_nat (length l1) ->
  array_get (l1 ++ x :: l2) i = Ret x.
Proof.
  intros ->. unfold array_get.
  destruct (Z.ltb_spec (Z.of_nat (length l1)) 0); [lia|].
  rewrite Nat2Z.id. now rewrite list_lookup_middle.
Qed.

Lemma array_set_middle {A : Type} (l1 : list A) x l2 i v :
  i = Z.of_nat (length l1) ->
  array_set (l1 ++ x :: l2) i v = Ret (l1 ++ v :: l2).
Proof.
  intros ->. unfold array_set. rewrite length_app. simpl.
  destruct (Z.leb_spec 0 (Z.of_nat (length l1))); [|lia].
  destruct (Z.ltb_spec (Z.of_nat (length l1))
              (Z.of_nat (length l1 + S (length l2)))); [|lia].
  simpl. rewrite Nat2Z.id.
  rewrite insert_app_r_alt by lia. now rewrite Nat.sub_diag.
Qed.

(** ** Bubble sort *)

Lemma bubble_inner_loop : forall n l1 l,
  (n < length l)%nat ->
  for_range n (Z.of_nat (length l1)) bubble_inner_body (l1 ++ l) =
  Ret (l1 ++ bubble_pass n l).
Proof.
  induction n as [|n IH]; intros l1 l Hn; [reflexivity|].
  destruct l as [|a [|b l']]; simpl in Hn; try lia.
  cbn [for_range bubble_pass]. unfold bubble_inner_body at 1.
  rewrite (array_get_middle l1 a (b :: l')) by reflexivity. cbn [bind].
  replace (l1 ++ a :: b :: l') with ((l1 ++ [a]) ++ b :: l')
    by now rewrite <- app_assoc.
  rewrite (array_get_middle (l1 ++ [a]) b l')
    by (rewrite length_app; simpl; lia).
  cbn [bind].
  destruct (a >? b).
  - rewrite <- app_assoc. cbn [app].
    rewrite (array_set_middle l1 a (b :: l')) by reflexivity. cbn [bind].
    replace (l1 ++ b :: b :: l') with ((l1 ++ [b]) ++ b :: l')
      by now rewrite <- app_assoc.
    rewrite (array_set_middle (l1 ++ [b]) b l')
      by (rewrite length_app; simpl; lia).
    cbn [bind].
    replace (Z.of_nat (length l1) + 1) with (Z.of_nat (length (l1 ++ [b])))
      by (rewrite length_app; simpl; lia).
    rewrite IH by (simpl; lia).
    now rewrite <- app_assoc.
  - replace (Z.of_nat (length l1) + 1) with (Z.of_nat (length (l1 ++ [a])))
      by (rewrite length_app; simpl; lia).
    cbn [bind]. rewrite IH by (simpl; lia).
    now rewrite <- app_assoc.
Qed.

Lemma bubble_pass_perm : forall n l, bubble_pass n l ≡ₚ l.
Proof.
  induction n as [|n IH]; intros l; [destruct l; reflexivity|].
  destruct l as [|a [|b l']]; try reflexivity. simpl.
  destruct (a >? b).
  - rewrite IH. apply perm_swap.
  - now rewrite IH.
Qed.

Lemma bubble_pass_app : forall n l r,
  (n < length l)%nat -> bubble_pass n (l ++ r) = bubble_pass n l ++ r.
Proof.
  induction n as [|n IH]; intros l r Hn; [destruct l; reflexivity|].
  destruct l as [|a [|b l']]; simpl in Hn; try lia. simpl.
  destruct (a >? b); simpl; f_equal;
    [apply (IH (a :: l') r) | apply (IH (b :: l') r)]; simpl; lia.
Qed.

(** A pass over a whole list moves a largest element to its end. *)
Lemma bubble_pass_max : forall n l,
  length l = S n ->
  exists front mx,
    bubble_pass n l = front ++ [mx] /\ Forall (fun x => x <= mx) l.
Proof.
  induction n as [|n IH]; intros l Hl.
  - destruct l as [|a [|]]; try discriminate. exists [], a. simpl.
    split; [reflexivity|]. repeat constructor. lia.
  - destruct l as [|a [|b l']]; try discriminate. simpl.
    destruct (Z.gtb_spec a b) as [Hgt|Hle].
    + destruct (IH (a :: l')) as (front & mx & E & F); [simpl in *; lia|].
      exists (b :: front), mx. rewrite E. split; [reflexivity|].
      inversion F; subst. repeat constructor; auto; lia.
    + destruct (IH (b :: l')) as (front & mx & E & F); [simpl in *; lia|].
      exists (a :: front), mx. rewrite E. split; [reflexivity|].
      inversion F; subst. repeat constructor; auto; lia.
Qed.

Lemma bubble_sort_spec l0 rest :
  exists s,
    bubble_sort (l0 ++ rest) (Z.of_nat (length l0)) = Ret (s ++ rest) /\
    s ≡ₚ l0 /\ StronglySorted Z.le s.
Proof.
  set (size := Z.of_nat (length l0)).
  set (I := fun (i : Z) (d : list Z) =>
              exists u s, d = u ++ s ++ rest /\
                          Z.of_nat (length u) = size - i /\
                          StronglySorted Z.le s /\
                          Forall (fun x => Forall (Z.le x) s) u /\
                          u ++ s ≡ₚ l0).
  destruct (for_up_inv I 0 size
              (fun i data => for_up 0 (size - i - 1) bubble_inner_body data)
              (l0 ++ rest)) as (d & E & (u & s & -> & Hu & Hs & _ & Hp)).
  - lia.
  - exists l0, []. simpl. rewrite app_nil_r. repeat split; auto; try lia.
    + constructor.
    + apply Forall_forall. intros; constructor.
  - intros i d Hi (u & s & -> & Hu & Hs & Hus & Hp).
    unfold for_up. rewrite Z.sub_0_r.
    set (n := Z.to_nat (size - i - 1)).
    assert (Hn : length u = S n) by lia.
    pose proof (bubble_inner_loop n [] (u ++ s ++ rest)) as Hloop.
    change (Z.of_nat (length (@nil Z))) with 0 in Hloop.
    cbn [app] in Hloop. fold n.
    rewrite Hloop by (rewrite length_app; lia). clear Hloop.
    rewrite bubble_pass_app by lia.
    destruct (bubble_pass_max n u Hn) as (front & mx & Eb & Hmx).
    pose proof (bubble_pass_perm n u) as Hperm. rewrite Eb in Hperm.
    eexists. split; [reflexivity|].
    exists front, (mx :: s). rewrite Eb. simpl. rewrite <- !app_assoc. simpl.
    split; [reflexivity|].
    assert (Hlen : length (front ++ [mx]) = length u) by now rewrite Hperm.
    rewrite length_app in Hlen. simpl in Hlen.
    assert (Hin : mx ∈ u).
    { rewrite <- Hperm. apply elem_of_app. right.
      now apply list_elem_of_singleton. }
    assert (Hfront : forall x, x ∈ front -> x ∈ u).
    { intros x Hx. rewrite <- Hperm. apply elem_of_app. now left. }
    rewrite Forall_forall in Hus, Hmx.
    repeat split.
    + lia.
    + constructor; auto.
    + apply Forall_forall. intros x Hx. constructor; auto.
    + rewrite <- Hp, <- Hperm, <- app_assoc. reflexivity.
  - exists s. unfold bubble_sort. fold size.
    assert (u = []) as -> by (destruct u; simpl in *; [reflexivity | lia]).
    simpl in *. auto.
Qed.

(** ** Quick sort *)

Ltac same_list := repeat rewrite <- app_assoc; cbn [app]; reflexivity.
Ltac list_length := rewrite ?length_app in *; cbn [length] in *; lia.

Lemma partition_body_small pre small large x unk p post j i :
  j = Z.of_nat (length pre + length small + length large) ->
  i = Z.of_nat (length pre + length small) - 1 ->
  x <= p ->
  exists large',
    partition_body p j (pre ++ small ++ large ++ x :: unk ++ p :: post, i) =
    Ret (pre ++ (small ++ [x]) ++ large' ++ unk ++ p :: post, i + 1) /\
    large' ≡ₚ large.
Proof.
  intros Hj Hi Hx. unfold partition_body.
  replace (pre ++ small ++ large ++ x :: unk ++ p :: post)
    with ((pre ++ small ++ large) ++ x :: unk ++ p :: post) by same_list.
  rewrite (array_get_middle (pre ++ small ++ large) x) by list_length.
  cbn [bind]. destruct (Z.leb_spec x p); [|lia].
  destruct large as [|l0 lt].
  - exists []. split; [|reflexivity].
    rewrite app_nil_r.
    rewrite (array_get_middle (pre ++ small) x _ (i + 1)) by list_length.
    cbn [bind].
    rewrite (array_set_middle (pre ++ small) x) by list_length. cbn [bind].
    rewrite (array_set_middle (pre ++ small) x) by list_length. cbn [bind].
    f_equal. f_equal. same_list.
  - exists (lt ++ [l0]). split; [|now rewrite Permutation_app_comm].
    replace ((pre ++ small ++ l0 :: lt) ++ x :: unk ++ p :: post)
      with ((pre ++ small) ++ l0 :: lt ++ x :: unk ++ p :: post) by same_list.
    rewrite (array_get_middle (pre ++ small) l0) by list_length. cbn [bind].
    rewrite (array_set_middle (pre ++ small) l0) by list_length. cbn [bind].
    replace ((pre ++ small) ++ x :: lt ++ x :: unk ++ p :: post)
      with ((pre ++ small ++ x :: lt) ++ x :: unk ++ p :: post) by same_list.
    rewrite (array_set_middle (pre ++ small ++ x :: lt) x) by list_length.
    cbn [bind]. f_equal. f_equal. same_list.
Qed.

Lemma partition_body_large pre small large x unk p post j i :
  j = Z.of_nat (length pre + length small + length large) ->
  p < x ->
  partition_body p j (pre ++ small ++ large ++ x :: unk ++ p :: post, i) =
  Ret (pre ++ small ++ (large ++ [x]) ++ unk ++ p :: post, i).
Proof.
  intros Hj Hx. unfold partition_body.
  replace (pre ++ small ++ large ++ x :: unk ++ p :: post)
    with ((pre ++ small ++ large) ++ x :: unk ++ p :: post) by same_list.
  rewrite (array_get_middle (pre ++ small ++ large) x) by list_length.
  cbn [bind]. destruct (Z.leb_spec x p); [lia|].
  f_equal. f_equal. same_list.
Qed.

(** [partition] on the cells [low .. high] of an array, [mid] being the
    cells before the pivot [p]. *)
Lemma partition_spec pre mid p post low high :
  low = Z.of_nat (length pre) ->
  high = low + Z.of_nat (length mid) ->
  exists small large,
    partition (pre ++ mid ++ p :: post) low high =
      Ret (pre ++ small ++ p :: large ++ post,
           low + Z.of_nat (length small)) /\
    small ++ large ≡ₚ mid /\
    Forall (fun x => x <= p) small /\
    Forall (fun x => p < x) large.
Proof.
  intros Hlow Hhigh.
  set (I := fun (j : Z) (st : list Z * Z) =>
              exists small large unk,
                st = (pre ++ small ++ large ++ unk ++ p :: post,
                      Z.of_nat (length pre + length small) - 1) /\
                j = Z.of_nat (length pre + length small + length large) /\
                Forall (fun x => x <= p) small /\
                Forall (fun x => p < x) large /\
                small ++ large ++ unk ≡ₚ mid).
  destruct (for_up_inv I low high (partition_body p)
              (pre ++ mid ++ p :: post, low - 1))
    as (st & E & (small & large & unk & -> & Hj & Hs & Hl & Hp)).
  - lia.
  - exists [], [], mid. cbn [app length]. repeat split; auto.
    + do 2 f_equal. lia.
    + lia.
  - intros j st Hjr (small & large & unk & -> & Hj & Hs & Hl & Hp).
    assert (Hlen : length (small ++ large ++ unk) = length mid)
      by now rewrite Hp.
    rewrite !length_app in Hlen.
    destruct unk as [|x unk]; [simpl in Hlen; lia|].
    destruct (Z.le_gt_cases x p) as [Hx|Hx].
    + destruct (partition_body_small pre small large x unk p post j
                  (Z.of_nat (length pre + length small) - 1) Hj eq_refl Hx)
        as (large' & E & Hperm).
      cbn [app]. rewrite E. eexists. split; [reflexivity|].
      exists (small ++ [x]), large', unk. repeat split.
      * do 2 f_equal. rewrite length_app. simpl. lia.
      * rewrite length_app. simpl.
        assert (length large' = length large) by now rewrite Hperm.
        lia.
      * apply Forall_app. split; auto.
      * now rewrite Hperm.
      * rewrite <- Hp, Hperm, <- app_assoc. cbn [app].
        now rewrite (Permutation_middle large unk x).
    + cbn [app]. rewrite (partition_body_large pre small large x unk p post j _ Hj)
        by lia.
      eexists. split; [reflexivity|].
      exists small, (large ++ [x]), unk. repeat split; auto.
      * rewrite length_app. simpl. lia.
      * apply Forall_app; split; auto.
      * rewrite <- Hp, <- app_assoc. reflexivity.
  - assert (Hlen : length (small ++ large ++ unk) = length mid)
      by now rewrite Hp.
    rewrite !length_app in Hlen.
    assert (unk = []) as -> by (destruct unk; simpl in *; [reflexivity | lia]).
    rewrite app_nil_r in Hp. cbn [app] in E.
    unfold partition.
    replace (pre ++ mid ++ p :: post) with ((pre ++ mid) ++ p :: post)
      by same_list.
    rewrite (array_get_middle (pre ++ mid) p) by list_length. cbn [bind].
    replace ((pre ++ mid) ++ p :: post) with (pre ++ mid ++ p :: post)
      by same_list.
    change (for_up low high _ (pre ++ mid ++ p :: post, low - 1))
      with (for_up low high (partition_body p)
              (pre ++ mid ++ p :: post, low - 1)).
    rewrite E. cbn [bind].
    replace (Z.of_nat (length pre + length small) - 1 + 1)
      with (Z.of_nat (length pre + length small)) by lia.
    destruct large as [|l0 lt].
    + exists small, []. cbn [app].
      rewrite (app_assoc pre small).
      rewrite (array_get_middle (pre ++ small) p) by list_length. cbn [bind].
      rewrite (array_get_middle (pre ++ small) p)
        by (rewrite length_app; simpl in *; lia).
      cbn [bind].
      rewrite (array_set_middle (pre ++ small) p) by list_length. cbn [bind].
      rewrite (array_set_middle (pre ++ small) p)
        by (rewrite length_app; simpl in *; lia).
      cbn [bind]. rewrite <- app_assoc. repeat split; auto.
      do 2 f_equal. lia.
    + exists small, (lt ++ [l0]).
      replace (pre ++ small ++ (l0 :: lt) ++ p :: post)
        with ((pre ++ small) ++ l0 :: lt ++ p :: post) by same_list.
      rewrite (array_get_middle (pre ++ small) l0) by list_length. cbn [bind].
      replace ((pre ++ small) ++ l0 :: lt ++ p :: post)
        with ((pre ++ small ++ l0 :: lt) ++ p :: post) by same_list.
      rewrite (array_get_middle (pre ++ small ++ l0 :: lt) p)
        by (rewrite !length_app; simpl in *; lia).
      cbn [bind].
      replace ((pre ++ small ++ l0 :: lt) ++ p :: post)
        with ((pre ++ small) ++ l0 :: lt ++ p :: post) by same_list.
      rewrite (array_set_middle (pre ++ small) l0) by list_length. cbn [bind].
      replace ((pre ++ small) ++ p :: lt ++ p :: post)
        with ((pre ++ small ++ p :: lt) ++ p :: post) by same_list.
      rewrite (array_set_middle (pre ++ small ++ p :: lt) p)
        by (rewrite !length_app; simpl in *; lia).
      cbn [bind]. repeat split.
      * do 2 f_equal; [same_list | lia].
      * rewrite <- Hp. apply Permutation_app_head, Permutation_app_comm.
      * exact Hs.
      * apply Forall_app. inversion Hl; subst. split; auto.
Qed.

Lemma quick_sort_recursive_spec : forall fuel pre mid post,
  (length mid <= fuel)%nat ->
  exists s,
    quick_sort_recursive fuel (pre ++ mid ++ post)
      (Z.of_nat (length pre))
      (Z.of_nat (length pre) + Z.of_nat (length mid) - 1) =
      Ret (pre ++ s ++ post) /\
    s ≡ₚ mid /\ StronglySorted Z.le s.
Proof.
  induction fuel as [|fuel IH]; intros pre mid post Hfuel.
  - destruct mid; simpl in Hfuel; [|lia]. exists []. simpl.
    match goal with
    | |- context [?a <? ?b] => destruct (Z.ltb_spec a b); [lia|]
    end.
    repeat split; auto. constructor.
  - cbn [quick_sort_recursive].
    destruct (Z.ltb_spec (Z.of_nat (length pre))
                (Z.of_nat (length pre) + Z.of_nat (length mid) - 1))
      as [Hlt|Hge].
    + destruct mid as [|p mid' _] using rev_ind; [simpl in Hlt; lia|].
      rewrite length_app in Hlt, Hfuel. simpl in Hlt, Hfuel.
      destruct (partition_spec pre mid' p post (Z.of_nat (length pre))
                  (Z.of_nat (length pre) + Z.of_nat (length mid')))
        as (small & large & E & Hp & Hs & Hl); auto.
      assert (Hlen : length (small ++ large) = length mid') by now rewrite Hp.
      rewrite length_app in Hlen.
      replace (pre ++ (mid' ++ [p]) ++ post) with (pre ++ mid' ++ p :: post)
        by same_list.
      replace (Z.of_nat (length pre) + Z.of_nat (length (mid' ++ [p])) - 1)
        with (Z.of_nat (length pre) + Z.of_nat (length mid'))
        by (rewrite length_app; simpl; lia).
      rewrite E. cbn [bind].
      destruct (IH pre small (p :: large ++ post)) as (s1 & E1 & Hp1 & Hs1);
        [lia|].
      rewrite E1. cbn [bind].
      assert (Hlen1 : length s1 = length small) by now rewrite Hp1.
      destruct (IH (pre ++ s1 ++ [p]) large post) as (s2 & E2 & Hp2 & Hs2);
        [lia|].
      replace ((pre ++ s1 ++ [p]) ++ large ++ post)
        with (pre ++ s1 ++ p :: large ++ post) in E2 by same_list.
      replace (Z.of_nat (length (pre ++ s1 ++ [p])))
        with (Z.of_nat (length pre) + Z.of_nat (length small) + 1) in E2
        by (rewrite !length_app; simpl; lia).
      replace (Z.of_nat (length pre) + Z.of_nat (length small) + 1 +
               Z.of_nat (length large) - 1)
        with (Z.of_nat (length pre) + Z.of_nat (length mid')) in E2 by lia.
      rewrite E2.
      exists (s1 ++ p :: s2). split; [f_equal; same_list|]. split.
      * rewrite Hp1, Hp2, <- Hp, <- app_assoc.
        apply Permutation_app_head, Permutation_cons_append.
      * rewrite Forall_forall in Hs, Hl.
        apply StronglySorted_app_2; auto.
        -- intros x1 x2 H1 H2. rewrite Hp1 in H1.
           apply elem_of_cons in H2 as [->|H2]; [auto|].
           rewrite Hp2 in H2. specialize (Hs _ H1). specialize (Hl _ H2). lia.
        -- constructor; auto. apply Forall_forall. intros x Hx.
           rewrite Hp2 in Hx. specialize (Hl _ Hx). lia.
    + exists mid. repeat split; auto.
      destruct mid as [|a [|b mid]]; simpl in Hge; try lia;
        repeat constructor.
Qed.

Lemma quick_sort_spec l0 rest :
  exists s,
    quick_sort (l0 ++ rest) (Z.of_nat (length l0)) = Ret (s ++ rest) /\
    s ≡ₚ l0 /\ StronglySorted Z.le s.
Proof.
  destruct (quick_sort_recursive_spec (length l0) [] l0 rest) as (s & E & H);
    [lia|].
  exists s. split; [|exact H].
  unfold quick_sort. rewrite Nat2Z.id. exact E.
Qed.

(** ** Radix sort *)

(** *** One pass, as a stable distribution into ten buckets *)

Lemma digit_range exp x : 0 <= x -> 0 < exp -> 0 <= digit exp x < 10.
Proof.
  intros Hx He. unfold digit.
  assert (0 <= Z.quot x exp) by (apply Z.quot_pos; lia).
  rewrite Z.rem_mod_nonneg by lia. apply Z.mod_pos_bound. lia.
Qed.

Lemma digit_of_ok x exp :
  0 <= x -> 0 < exp -> digit_of x exp = Ret (digit exp x).
Proof.
  intros Hx He. unfold digit_of, int_div.
  destruct (Z.eqb_spec exp 0); [lia|].
  destruct (Z.eqb_spec x INT_MIN); [unfold INT_MIN in *; lia|].
  reflexivity.
Qed.

Lemma bucket_app exp l1 l2 d :
  bucket exp (l1 ++ l2) d = bucket exp l1 d ++ bucket exp l2 d.
Proof. apply filter_app. Qed.

Lemma bucket_one_same exp x d :
  digit exp x = Z.of_nat d -> bucket exp [x] d = [x].
Proof. intros H. unfold bucket. now rewrite filter_cons_True. Qed.

Lemma bucket_one_other exp x d :
  digit exp x <> Z.of_nat d -> bucket exp [x] d = [].
Proof. intros H. unfold bucket. now rewrite filter_cons_False. Qed.

Lemma below_S exp l d : below exp l (S d) = below exp l d ++ bucket exp l d.
Proof.
  unfold below. rewrite seq_S, fmap_app, concat_app. simpl.
  now rewrite app_nil_r.
Qed.

(** Arrays given by a function of the index. *)
Lemma array_get_lookup {A : Type} (l : list A) i x :
  0 <= i -> l !! Z.to_nat i = Some x -> array_get l i = Ret x.
Proof.
  intros Hi H. unfold array_get.
  destruct (Z.ltb_spec i 0); [lia|]. now rewrite H.
Qed.

Lemma array_get_tabulate {A : Type} (f : nat -> A) n d :
  0 <= d < Z.of_nat n ->
  array_get (f <$> seq 0 n) d = Ret (f (Z.to_nat d)).
Proof.
  intros H. apply array_get_lookup; [lia|].
  now rewrite list_lookup_fmap, lookup_seq_lt by lia.
Qed.

Lemma array_set_tabulate {A : Type} (f g : nat -> A) n d v :
  0 <= d < Z.of_nat n ->
  g (Z.to_nat d) = v ->
  (forall d', d' <> Z.to_nat d -> g d' = f d') ->
  array_set (f <$> seq 0 n) d v = Ret (g <$> seq 0 n).
Proof.
  intros Hd Hv Hg. unfold array_set. rewrite length_fmap, length_seq.
  destruct (Z.leb_spec 0 d); [|lia].
  destruct (Z.ltb_spec d (Z.of_nat n)); [|lia].
  simpl. f_equal. apply list_eq. intros k.
  destruct (decide (k = Z.to_nat d)) as [->|Hne].
  - rewrite list_lookup_insert_eq by (rewrite length_fmap, length_seq; lia).
    rewrite list_lookup_fmap, lookup_seq_lt by lia. simpl. now rewrite Hv.
  - rewrite list_lookup_insert_ne by auto.
    rewrite !list_lookup_fmap.
    destruct (seq 0 n !! k) as [k'|] eqn:E; simpl; [|reflexivity].
    apply lookup_seq in E as [-> _]. simpl. now rewrite Hg.
Qed.

Lemma count_loop l rest exp :
  Forall (Z.le 0) l -> 0 < exp ->
  for_up 0 (Z.of_nat (length l)) (count_body (l ++ rest) exp)
    (replicate 10 0) =
  Ret ((fun d => Z.of_nat (length (bucket exp l d))) <$> seq 0 10).
Proof.
  intros Hl He.
  set (I := fun (i : Z) (count : list Z) =>
              count = (fun d => Z.of_nat
                         (length (bucket exp (take (Z.to_nat i) l) d)))
                      <$> seq 0 10).
  destruct (for_up_inv I 0 (Z.of_nat (length l)) (count_body (l ++ rest) exp)
              (replicate 10 0)) as (count & E & Hc).
  - lia.
  - reflexivity.
  - intros k count Hk ->.
    destruct (lookup_lt_is_Some_2 l (Z.to_nat k)) as [x Hx]; [lia|].
    assert (0 <= x) by (eapply (Forall_lookup_1 (Z.le 0)); eauto).
    destruct (digit_range exp x) as [Hd0 Hd9]; [lia | lia |].
    unfold count_body.
    rewrite (array_get_lookup (l ++ rest) k x)
      by first [lia | rewrite lookup_app_l; [exact Hx | lia]].
    cbn [bind]. rewrite digit_of_ok by lia. cbn [bind].
    rewrite array_get_tabulate by lia. cbn [bind].
    eexists. split.
    + apply array_set_tabulate with
        (g := fun d => Z.of_nat
                (length (bucket exp (take (Z.to_nat (k + 1)) l) d))).
      * lia.
      * replace (Z.to_nat (k + 1)) with (S (Z.to_nat k)) by lia.
        rewrite (take_S_r _ _ _ Hx), bucket_app, length_app.
        rewrite bucket_one_same by (rewrite Z2Nat.id; lia).
        simpl. lia.
      * intros d' Hd'.
        replace (Z.to_nat (k + 1)) with (S (Z.to_nat k)) by lia.
        rewrite (take_S_r _ _ _ Hx), bucket_app, length_app.
        rewrite bucket_one_other by lia.
        simpl. f_equal. lia.
    + reflexivity.
  - rewrite E. f_equal. unfold I in Hc. rewrite Hc.
    rewrite Nat2Z.id, take_ge by lia. reflexivity.
Qed.

Lemma prefix_loop exp l :
  for_up 1 10 prefix_body
    ((fun d => Z.of_nat (length (bucket exp l d))) <$> seq 0 10) =
  Ret ((fun d => Z.of_nat (length (below exp l (S d)))) <$> seq 0 10).
Proof.
  assert (H : forall c0 c1 c2 c3 c4 c5 c6 c7 c8 c9 : Z,
             for_up 1 10 prefix_body [c0; c1; c2; c3; c4; c5; c6; c7; c8; c9] =
             Ret [c0; c1 + c0; c2 + (c1 + c0); c3 + (c2 + (c1 + c0));
                  c4 + (c3 + (c2 + (c1 + c0)));
                  c5 + (c4 + (c3 + (c2 + (c1 + c0))));
                  c6 + (c5 + (c4 + (c3 + (c2 + (c1 + c0)))));
                  c7 + (c6 + (c5 + (c4 + (c3 + (c2 + (c1 + c0))))));
                  c8 + (c7 + (c6 + (c5 + (c4 + (c3 + (c2 + (c1 + c0)))))));
                  c9 + (c8 + (c7 + (c6 + (c5 + (c4 + (c3 + (c2 + (c1 + c0))))))))])
    by reflexivity.
  cbn [fmap list_fmap seq]. rewrite H. f_equal.
  rewrite !below_S. unfold below. cbn [fmap list_fmap seq concat].
  rewrite !length_app. cbn [length].
  repeat (apply (f_equal2 cons); [lia|]). reflexivity.
Qed.

Lemma seq_split n d :
  (d < n)%nat -> seq 0 n = seq 0 d ++ d :: seq (S d) (n - S d).
Proof.
  intros H. replace n with (d + S (n - S d))%nat at 1 by lia.
  now rewrite seq_app.
Qed.

Lemma concat_tabulate_split {A : Type} (F : nat -> list A) n d :
  (d < n)%nat ->
  concat (F <$> seq 0 n) =
  concat (F <$> seq 0 d) ++ F d ++ concat (F <$> seq (S d) (n - S d)).
Proof.
  intros H. rewrite (seq_split n d H), fmap_app, concat_app. reflexivity.
Qed.

Lemma concat_tabulate_ext {A : Type} (F G : nat -> list A) a n :
  (forall d, (a <= d < a + n)%nat -> F d = G d) ->
  concat (F <$> seq a n) = concat (G <$> seq a n).
Proof.
  revert a. induction n as [|n IH]; intros a H; [reflexivity|].
  simpl. rewrite (H a) by lia. f_equal. apply IH. intros d Hd. apply H. lia.
Qed.

Lemma length_slots exp f s d :
  length (concat (slot exp f s <$> seq 0 d)) = length (below exp (f ++ s) d).
Proof.
  induction d as [|d IH]; [reflexivity|].
  rewrite seq_S, fmap_app, concat_app, length_app, IH, below_S, length_app.
  simpl. rewrite app_nil_r. unfold slot.
  rewrite length_app, length_replicate, length_fmap, bucket_app, length_app.
  reflexivity.
Qed.

(** Distributing into the buckets permutes the list. *)
Lemma bucket_sort_perm exp l :
  Forall (Z.le 0) l -> 0 < exp -> bucket_sort exp l ≡ₚ l.
Proof.
  intros Hl He. unfold bucket_sort, below.
  induction Hl as [|x l Hx _ IH]; [reflexivity|].
  destruct (digit_range exp x Hx He) as [H0 H9].
  set (d := Z.to_nat (digit exp x)).
  rewrite (concat_tabulate_split (bucket exp (x :: l)) 10 d) by lia.
  rewrite (concat_tabulate_split (bucket exp l) 10 d) in IH by lia.
  rewrite (concat_tabulate_ext (bucket exp (x :: l)) (bucket exp l) 0 d).
  2:{ intros d' Hd'. unfold bucket. rewrite filter_cons_False; [reflexivity|].
      unfold d in Hd'. lia. }
  rewrite (concat_tabulate_ext (bucket exp (x :: l)) (bucket exp l) (S d)).
  2:{ intros d' Hd'. unfold bucket. rewrite filter_cons_False; [reflexivity|].
      unfold d in Hd'. lia. }
  replace (bucket exp (x :: l) d) with (x :: bucket exp l d).
  2:{ unfold bucket. rewrite filter_cons_True; [reflexivity|].
      unfold d. lia. }
  cbn [app]. etransitivity; [symmetry; apply Permutation_middle|].
  apply perm_skip, IH.
Qed.

Lemma length_bucket_sort exp l :
  Forall (Z.le 0) l -> 0 < exp -> length (bucket_sort exp l) = length l.
Proof. intros. now rewrite bucket_sort_perm. Qed.

Lemma all_none_replicate (l : list (option Z)) :
  Forall (fun c => c = None) l -> l = replicate (length l) None.
Proof. induction 1; simpl; congruence. Qed.

Lemma layout_start exp l :
  Forall (Z.le 0) l -> 0 < exp ->
  layout exp l [] = replicate (length l) None.
Proof.
  intros Hl He.
  rewrite <- (length_bucket_sort exp l Hl He).
  unfold bucket_sort. rewrite <- (app_nil_r l) at 2.
  rewrite <- length_slots. apply all_none_replicate.
  unfold layout. generalize (seq 0 10). intros ds.
  induction ds as [|d ds IH]; simpl; [constructor|].
  apply Forall_app. split; [|exact IH].
  unfold slot, bucket. rewrite filter_nil. simpl. rewrite app_nil_r.
  apply Forall_forall. intros c Hc.
  now apply elem_of_replicate in Hc as [-> _].
Qed.

Lemma layout_end exp l : layout exp [] l = Some <$> bucket_sort exp l.
Proof.
  unfold layout, bucket_sort, below. generalize (seq 0 10). intros ds.
  induction ds as [|d ds IH]; [reflexivity|].
  cbn [fmap list_fmap concat]. cbn [fmap] in IH.
  rewrite fmap_app. cbn [fmap]. rewrite <- IH. reflexivity.
Qed.

(** One step of the filling: the element [x] that ends [f] goes to the last
    free cell of its digit. *)
Lemma build_step exp f' x s pad :
  0 <= x -> 0 < exp ->
  let d := Z.to_nat (digit exp x) in
  array_set (layout exp (f' ++ [x]) s ++ pad)
    (Z.of_nat (length (below exp (f' ++ [x] ++ s) d)) +
     Z.of_nat (length (bucket exp (f' ++ [x]) d)) - 1) (Some x) =
  Ret (layout exp f' (x :: s) ++ pad).
Proof.
  intros Hx He d.
  destruct (digit_range exp x Hx He) as [H0 H9].
  assert (Hd : digit exp x = Z.of_nat d) by (unfold d; lia).
  assert (Hd10 : (d < 10)%nat) by (unfold d; lia).
  unfold layout.
  rewrite !(concat_tabulate_split (slot exp _ _) 10 d Hd10).
  assert (Hother : forall d', d' <> d ->
            slot exp (f' ++ [x]) s d' = slot exp f' (x :: s) d').
  { intros d' Hd'. unfold slot.
    rewrite bucket_app, (bucket_one_other exp x d') by lia.
    rewrite app_nil_r.
    change (x :: s) with ([x] ++ s).
    now rewrite (bucket_app exp [x] s), (bucket_one_other exp x d') by lia. }
  rewrite (concat_tabulate_ext (slot exp (f' ++ [x]) s)
             (slot exp f' (x :: s)) 0 d)
    by (intros; apply Hother; lia).
  rewrite (concat_tabulate_ext (slot exp (f' ++ [x]) s)
             (slot exp f' (x :: s)) (S d))
    by (intros; apply Hother; lia).
  set (A := concat (slot exp f' (x :: s) <$> seq 0 d)).
  set (C := concat (slot exp f' (x :: s) <$> seq (S d) (10 - S d))).
  assert (HA : length A = length (below exp (f' ++ [x] ++ s) d)).
  { unfold A. rewrite length_slots. reflexivity. }
  unfold slot.
  rewrite bucket_app, (bucket_one_same exp x d Hd), length_app.
  change (x :: s) with ([x] ++ s).
  rewrite (bucket_app exp [x] s), (bucket_one_same exp x d Hd).
  cbn [length app fmap list_fmap].
  replace (length (bucket exp f' d) + 1)%nat
    with (S (length (bucket exp f' d))) by lia.
  rewrite replicate_S_end.
  replace ((A ++ ((replicate (length (bucket exp f' d)) None ++ [None]) ++
                  (Some <$> bucket exp s d)) ++ C) ++ pad)
    with ((A ++ replicate (length (bucket exp f' d)) None) ++
          None :: ((Some <$> bucket exp s d) ++ C ++ pad)) by same_list.
  cbn [app] in HA.
  rewrite array_set_middle by (rewrite length_app, length_replicate; lia).
  f_equal. same_list.
Qed.

Lemma build_loop l rest exp :
  Forall (Z.le 0) l -> 0 < exp ->
  Z.of_nat (length l) <= MAX_DATA_SIZE ->
  for_down (Z.of_nat (length l) - 1) (build_body (l ++ rest) exp)
    (replicate (Z.to_nat MAX_DATA_SIZE) None,
     (fun d => Z.of_nat (length (below exp l (S d)))) <$> seq 0 10) =
  Ret ((Some <$> bucket_sort exp l) ++
       replicate (Z.to_nat MAX_DATA_SIZE - length l) None,
       (fun d => Z.of_nat (length (below exp l d))) <$> seq 0 10).
Proof.
  intros Hl He Hmax.
  set (pad := replicate (Z.to_nat MAX_DATA_SIZE - length l) (@None Z)).
  set (I := fun (k : Z) (st : list (option Z) * list Z) =>
              st = (layout exp (take (Z.to_nat (k + 1)) l)
                      (drop (Z.to_nat (k + 1)) l) ++ pad,
                    (fun d => Z.of_nat (length (below exp l d)) +
                              Z.of_nat (length
                                (bucket exp (take (Z.to_nat (k + 1)) l) d)))
                    <$> seq 0 10)).
  destruct (for_down_inv I (Z.of_nat (length l) - 1)
              (build_body (l ++ rest) exp)
              (replicate (Z.to_nat MAX_DATA_SIZE) None,
               (fun d => Z.of_nat (length (below exp l (S d)))) <$> seq 0 10))
    as (st & E & Hst).
  - lia.
  - unfold I.
    replace (Z.to_nat (Z.of_nat (length l) - 1 + 1)) with (length l) by lia.
    rewrite take_ge, drop_ge by lia.
    rewrite layout_start by assumption. unfold pad.
    rewrite <- replicate_add. f_equal.
    + f_equal. lia.
    + apply list_fmap_ext. intros _ d _. rewrite below_S, length_app. lia.
  - intros k st Hk ->.
    destruct (lookup_lt_is_Some_2 l (Z.to_nat k)) as [x Hx]; [lia|].
    assert (H0x : 0 <= x) by (eapply (Forall_lookup_1 (Z.le 0)); eauto).
    destruct (digit_range exp x H0x He) as [Hd0 Hd9].
    unfold I.
    replace (Z.to_nat (k + 1)) with (S (Z.to_nat k)) by lia.
    replace (Z.to_nat (k - 1 + 1)) with (Z.to_nat k) by lia.
    rewrite (take_S_r _ _ _ Hx).
    rewrite (drop_S _ _ _ Hx).
    set (f' := take (Z.to_nat k) l).
    set (s := drop (S (Z.to_nat k)) l).
    assert (Hsplit : f' ++ [x] ++ s = l).
    { unfold f', s. cbn [app]. rewrite <- (drop_S _ _ _ Hx).
      apply take_drop. }
    unfold build_body.
    rewrite (array_get_lookup (l ++ rest) k x)
      by first [lia | rewrite lookup_app_l; [exact Hx | lia]].
    cbn [bind]. rewrite digit_of_ok by lia. cbn [bind].
    rewrite array_get_tabulate by lia. cbn [bind].
    pose proof (build_step exp f' x s pad H0x He) as Hb.
    cbv zeta in Hb. rewrite Hsplit in Hb. rewrite Hb. clear Hb. cbn [bind].
    eexists. split; [|reflexivity].
    rewrite (array_set_tabulate _
               (fun d => Z.of_nat (length (below exp l d)) +
                         Z.of_nat (length (bucket exp f' d))) 10 (digit exp x));
      [reflexivity | lia | |].
    + rewrite bucket_app, length_app.
      rewrite bucket_one_same by (rewrite Z2Nat.id; lia).
      simpl. lia.
    + intros d' Hd'.
      rewrite bucket_app, (bucket_one_other exp x d') by lia.
      now rewrite app_nil_r.
  - rewrite E. unfold I in Hst. rewrite Hst.
    replace (Z.to_nat (-1 + 1)) with 0%nat by lia.
    rewrite take_0, drop_0, layout_end. f_equal. f_equal.
    apply list_fmap_ext. intros _ d _. unfold bucket at 1.
    rewrite filter_nil. simpl. lia.
Qed.

Lemma copy_loop t l rest pad :
  length t = length l ->
  for_up 0 (Z.of_nat (length l)) (copy_body ((Some <$> t) ++ pad)) (l ++ rest) =
  Ret (t ++ rest).
Proof.
  intros Hlen.
  set (I := fun (i : Z) (arr : list Z) =>
              arr = take (Z.to_nat i) t ++ drop (Z.to_nat i) l ++ rest).
  destruct (for_up_inv I 0 (Z.of_nat (length l))
              (copy_body ((Some <$> t) ++ pad)) (l ++ rest))
    as (arr & E & Harr).
  - lia.
  - reflexivity.
  - intros k arr Hk ->.
    destruct (lookup_lt_is_Some_2 t (Z.to_nat k)) as [v Hv]; [lia|].
    destruct (lookup_lt_is_Some_2 l (Z.to_nat k)) as [y Hy]; [lia|].
    unfold copy_body.
    rewrite (array_get_lookup _ k (Some v)).
    2: lia.
    2:{ rewrite lookup_app_l by (rewrite length_fmap; lia).
        now rewrite list_lookup_fmap, Hv. }
    cbn [bind]. rewrite (drop_S _ _ _ Hy). cbn [app].
    rewrite array_set_middle by (rewrite length_take; lia).
    eexists. split; [reflexivity|]. unfold I.
    replace (Z.to_nat (k + 1)) with (S (Z.to_nat k)) by lia.
    rewrite (take_S_r _ _ _ Hv). same_list.
  - rewrite E. unfold I in Harr. rewrite Harr, Nat2Z.id.
    rewrite take_ge, drop_ge by lia. reflexivity.
Qed.

(** A pass of the counting sort distributes the first [size] cells into the
    buckets of their digit and leaves the other cells alone. *)
Lemma counting_sort_for_radix_spec l rest exp :
  Forall (Z.le 0) l -> 0 < exp ->
  Z.of_nat (length l) <= MAX_DATA_SIZE ->
  counting_sort_for_radix (l ++ rest) (Z.of_nat (length l)) exp =
  Ret (bucket_sort exp l ++ rest).
Proof.
  intros Hl He Hmax.
  change (counting_sort_for_radix (l ++ rest) (Z.of_nat (length l)) exp)
    with (let* count :=
            for_up 0 (Z.of_nat (length l)) (count_body (l ++ rest) exp)
              (replicate 10 0) in
          let* count := for_up 1 10 prefix_body count in
          let* '(output, count) :=
            for_down (Z.of_nat (length l) - 1) (build_body (l ++ rest) exp)
              (replicate (Z.to_nat MAX_DATA_SIZE) None, count) in
          for_up 0 (Z.of_nat (length l)) (copy_body output) (l ++ rest)).
  rewrite count_loop by assumption. cbn [bind].
  rewrite prefix_loop. cbn [bind].
  rewrite build_loop by assumption. cbn [bind].
  apply copy_loop. now apply length_bucket_sort.
Qed.

(** *** What a pass does to the order *)

Lemma digit_div exp x :
  0 <= x -> 0 < exp -> digit exp x = (x / exp) mod 10.
Proof.
  intros Hx He. unfold digit.
  rewrite Z.quot_div_nonneg by lia.
  apply Z.rem_mod_nonneg; [|lia]. apply Z.div_pos; lia.
Qed.

Lemma filter_sorted (R R' : relation Z) (P : Z -> Prop)
    `{forall x, Decision (P x)} (l : list Z) :
  StronglySorted R l ->
  (forall x y, x ∈ l -> y ∈ l -> P x -> P y -> R x y -> R' x y) ->
  StronglySorted R' (filter P l).
Proof.
  induction 1 as [|x l Hs IH Hx]; intros Himp; [constructor|].
  assert (Htail : StronglySorted R' (filter P l)).
  { apply IH. intros a b Ha Hb. apply Himp; now apply list_elem_of_further. }
  destruct (decide (P x)) as [Hp|Hp].
  - rewrite filter_cons_True by assumption. constructor; [exact Htail|].
    apply Forall_forall. intros y Hy.
    apply list_elem_of_filter in Hy as [Hpy Hy].
    rewrite Forall_forall in Hx.
    apply Himp; auto.
    + apply list_elem_of_here.
    + now apply list_elem_of_further.
  - now rewrite filter_cons_False by assumption.
Qed.

Lemma elem_of_buckets exp l a n x :
  x ∈ concat (bucket exp l <$> seq a n) ->
  x ∈ l /\ Z.of_nat a <= digit exp x < Z.of_nat (a + n).
Proof.
  revert a. induction n as [|n IH]; intros a; simpl.
  - intros H. now apply elem_of_nil in H.
  - intros H. apply elem_of_app in H as [H|H].
    + apply list_elem_of_filter in H as [Hd Hx]. split; [exact Hx | lia].
    + apply IH in H as [Hx Hd]. split; [exact Hx | lia].
Qed.

(** The buckets one after the other are sorted for [R'] when the list was
    sorted for [R], [R'] follows from [R] between elements of equal digit,
    and [R'] holds from a smaller digit to a larger one. *)
Lemma buckets_sorted exp (R R' : relation Z) l :
  StronglySorted R l ->
  (forall x y, x ∈ l -> y ∈ l ->
     digit exp x = digit exp y -> R x y -> R' x y) ->
  (forall x y, x ∈ l -> y ∈ l -> digit exp x < digit exp y -> R' x y) ->
  forall n a, StronglySorted R' (concat (bucket exp l <$> seq a n)).
Proof.
  intros Hs Hsame Hless. induction n as [|n IH]; intros a; simpl;
    [constructor|].
  apply StronglySorted_app_2.
  - intros x1 x2 H1 H2.
    apply list_elem_of_filter in H1 as [Hd1 Hx1].
    apply elem_of_buckets in H2 as [Hx2 Hd2].
    apply Hless; auto. lia.
  - apply (filter_sorted R R'); [exact Hs|].
    intros x y Hx Hy Hdx Hdy. apply Hsame; auto. congruence.
  - apply IH.
Qed.

(** The pass on the digit of weight [10^k] turns the order of the [k] low
    digits into the order of the [k + 1] low digits. *)
Lemma pass_sorted k l :
  0 <= k ->
  Forall (Z.le 0) l ->
  StronglySorted (mod_le (10 ^ k)) l ->
  StronglySorted (mod_le (10 ^ (k + 1))) (bucket_sort (10 ^ k) l).
Proof.
  intros Hk Hl Hs.
  assert (Hpow : 0 < 10 ^ k) by (apply Z.pow_pos_nonneg; lia).
  assert (Hmod : forall x, x ∈ l ->
            x mod 10 ^ (k + 1) =
            x mod 10 ^ k + 10 ^ k * digit (10 ^ k) x /\
            0 <= x mod 10 ^ k < 10 ^ k /\ 0 <= digit (10 ^ k) x).
  { intros x Hx. rewrite Forall_forall in Hl. specialize (Hl x Hx).
    rewrite digit_div by lia.
    rewrite Z.pow_add_r, Z.pow_1_r by lia.
    rewrite Z.rem_mul_r by lia.
    pose proof (Z.mod_pos_bound x (10 ^ k) Hpow).
    pose proof (Z.mod_pos_bound (x / 10 ^ k) 10). lia. }
  apply (buckets_sorted (10 ^ k) (mod_le (10 ^ k))); [exact Hs | |].
  - intros x y Hx Hy Hd Hr. unfold mod_le in *.
    destruct (Hmod x Hx) as (-> & _). destruct (Hmod y Hy) as (-> & _).
    rewrite Hd. lia.
  - intros x y Hx Hy Hd. unfold mod_le.
    destruct (Hmod x Hx) as (-> & Hx1 & Hx2).
    destruct (Hmod y Hy) as (-> & Hy1 & Hy2). nia.
Qed.

(** A pass on a digit that grows with the number keeps a sorted list
    sorted. *)
Lemma pass_keeps_sorted exp l :
  Forall (Z.le 0) l -> 0 < exp ->
  (forall x y, x ∈ l -> y ∈ l -> x <= y -> digit exp x <= digit exp y) ->
  StronglySorted Z.le l ->
  StronglySorted Z.le (bucket_sort exp l).
Proof.
  intros Hl He Hmono Hs.
  apply (buckets_sorted exp Z.le); [exact Hs | auto |].
  intros x y Hx Hy Hd.
  destruct (Z.le_gt_cases x y) as [|Hgt]; [assumption|].
  specialize (Hmono y x Hy Hx). lia.
Qed.

(** *** The loop over the digits *)

Lemma sorted_impl (R R' : relation Z) l :
  StronglySorted R l ->
  (forall x y, x ∈ l -> y ∈ l -> R x y -> R' x y) ->
  StronglySorted R' l.
Proof.
  induction 1 as [|x l Hs IH Hx]; intros Himp; constructor.
  - apply IH. intros a b Ha Hb. apply Himp; now apply list_elem_of_further.
  - rewrite Forall_forall in *. intros y Hy.
    apply Himp; auto; [apply list_elem_of_here | now apply list_elem_of_further].
Qed.

Lemma sorted_mod_small m l :
  Forall (fun x => 0 <= x < m) l ->
  StronglySorted (mod_le m) l -> StronglySorted Z.le l.
Proof.
  intros Hl Hs. apply (sorted_impl (mod_le m)); [exact Hs|].
  rewrite Forall_forall in Hl. unfold mod_le.
  intros x y Hx Hy. rewrite !Z.mod_small by auto. auto.
Qed.

Lemma sorted_mod_1 l : StronglySorted (mod_le 1) l.
Proof.
  induction l; constructor; auto.
  apply Forall_forall. intros y _. unfold mod_le. now rewrite !Z.mod_1_r.
Qed.

Lemma radix_loop_stop fuel data size max exp :
  exp <> 0 -> exp <> -1 -> Z.quot max exp <= 0 ->
  radix_loop (S fuel) data size max exp = Ret data.
Proof.
  intros H0 H1 Hq. cbn [radix_loop]. unfold int_div.
  destruct (Z.eqb_spec exp 0); [contradiction|].
  destruct (Z.eqb_spec exp (-1)); [contradiction|].
  rewrite andb_false_r. cbn [bind].
  destruct (Z.gtb_spec (Z.quot max exp) 0); [lia | reflexivity].
Qed.

(** The quotient [max / exp] is positive when [max] reaches the weight. *)
Lemma quot_positive max exp :
  0 < exp -> (Z.quot max exp >? 0) = (exp <=? max).
Proof.
  intros He.
  destruct (Z.leb_spec exp max) as [H|H];
    destruct (Z.gtb_spec (Z.quot max exp) 0) as [Hq|Hq];
    try reflexivity; exfalso.
  - rewrite Z.quot_div_nonneg in Hq by lia.
    assert (0 < max / exp) by (apply Z.div_str_pos; lia). lia.
  - destruct (Z.le_gt_cases 0 max) as [Hm|Hm].
    + rewrite Z.quot_small in Hq by lia. lia.
    + replace max with (- (- max)) in Hq by lia.
      rewrite Z.quot_opp_l in Hq by lia.
      assert (0 <= Z.quot (- max) exp) by (apply Z.quot_pos; lia). lia.
Qed.

Lemma radix_loop_pass fuel l rest max exp :
  0 < exp -> exp * 10 <= INT_MAX -> 0 < Z.quot max exp ->
  Forall (Z.le 0) l -> Z.of_nat (length l) <= MAX_DATA_SIZE ->
  radix_loop (S fuel) (l ++ rest) (Z.of_nat (length l)) max exp =
  radix_loop fuel (bucket_sort exp l ++ rest)
    (Z.of_nat (length (bucket_sort exp l))) max (exp * 10).
Proof.
  intros He Hfit Hq Hl Hmax. cbn [radix_loop]. unfold int_div.
  destruct (Z.eqb_spec exp 0); [lia|].
  destruct (Z.eqb_spec exp (-1)); [lia|].
  rewrite andb_false_r. cbn [bind].
  destruct (Z.gtb_spec (Z.quot max exp) 0); [|lia].
  rewrite counting_sort_for_radix_spec by assumption. cbn [bind].
  unfold int_mul.
  destruct (Z.leb_spec INT_MIN (exp * 10)); [|unfold INT_MIN in *; lia].
  destruct (Z.leb_spec (exp * 10) INT_MAX); [|lia].
  cbn [andb bind]. now rewrite length_bucket_sort.
Qed.

(** After a pass whose weight is more than a tenth of [INT_MAX] the
    product [exp *= 10] does not fit. *)
Lemma radix_loop_overflow fuel l rest max exp :
  0 < exp -> INT_MAX < exp * 10 -> 0 < Z.quot max exp ->
  Forall (Z.le 0) l -> Z.of_nat (length l) <= MAX_DATA_SIZE ->
  radix_loop (S fuel) (l ++ rest) (Z.of_nat (length l)) max exp =
  Stop SignedOverflow.
Proof.
  intros He Hfit Hq Hl Hmax. cbn [radix_loop]. unfold int_div.
  destruct (Z.eqb_spec exp 0); [lia|].
  destruct (Z.eqb_spec exp (-1)); [lia|].
  rewrite andb_false_r. cbn [bind].
  destruct (Z.gtb_spec (Z.quot max exp) 0); [|lia].
  rewrite counting_sort_for_radix_spec by assumption. cbn [bind].
  unfold int_mul.
  destruct (Z.leb_spec (exp * 10) INT_MAX); [lia|].
  now rewrite andb_false_r.
Qed.

Lemma range_nonneg l : Forall in_int_range l -> Forall (Z.le 0) l.
Proof.
  intros H. apply (Forall_impl _ _ _ H). unfold in_int_range. intros; lia.
Qed.

Lemma pass_range exp l :
  0 < exp -> Forall in_int_range l -> Forall in_int_range (bucket_sort exp l).
Proof.
  intros He Hl. rewrite bucket_sort_perm; auto using range_nonneg.
Qed.

Lemma power_step k : 10 ^ Z.of_nat k * 10 = 10 ^ Z.of_nat (S k).
Proof. rewrite Nat2Z.inj_succ, Z.pow_succ_r; lia. Qed.

Lemma power_fits k : (k <= 9)%nat -> 10 ^ Z.of_nat k <= 1000000000.
Proof.
  intros Hk. change 1000000000 with (10 ^ 9). apply Z.pow_le_mono_r; lia.
Qed.

Section Loop.

Variables (rest : list Z) (max : Z).

(** The passes on the weights [10^k], from [k] upwards, for a maximum
    below [10^9]: the loop ends before the weight [10^9] is used. *)
Lemma radix_loop_powers : forall n k l fuel,
  0 < max < 1000000000 ->
  (k + n = 9)%nat ->
  Forall in_int_range l -> Forall (fun x => x <= max) l ->
  Z.of_nat (length l) <= MAX_DATA_SIZE ->
  StronglySorted (mod_le (10 ^ Z.of_nat k)) l ->
  (n + 1 <= fuel)%nat ->
  exists s,
    radix_loop fuel (l ++ rest) (Z.of_nat (length l)) max (10 ^ Z.of_nat k) =
      Ret (s ++ rest) /\
    s ≡ₚ l /\ StronglySorted Z.le s.
Proof.
  induction n as [|n IH]; intros k l fuel Hmx Hk Hl Hle Hmax Hs Hfuel;
    (destruct fuel as [|fuel]; [lia|]);
    assert (Hpow : 0 < 10 ^ Z.of_nat k) by (apply Z.pow_pos_nonneg; lia);
    (destruct (Z.le_gt_cases (Z.quot max (10 ^ Z.of_nat k)) 0) as [Hq|Hq];
     [ exists l; rewrite radix_loop_stop by lia;
       split; [reflexivity|]; split; [reflexivity|];
       apply (sorted_mod_small (10 ^ Z.of_nat k)); [|exact Hs];
       rewrite Z.quot_div_nonneg in Hq by lia;
       assert (max < 10 ^ Z.of_nat k)
         by (destruct (Z.lt_ge_cases max (10 ^ Z.of_nat k)); [assumption|];
             pose proof (Z.div_le_lower_bound max (10 ^ Z.of_nat k) 1 Hpow);
             lia);
       rewrite Forall_forall in *; intros x Hx;
       specialize (Hl x Hx); specialize (Hle x Hx);
       unfold in_int_range in Hl; lia
     | ]).
  - (* the weight [10^9] is above the maximum *)
    exfalso. assert (k = 9)%nat as -> by lia.
    change (10 ^ Z.of_nat 9) with 1000000000 in Hq.
    rewrite Z.quot_small in Hq by lia. lia.
  - pose proof (power_fits (S k) ltac:(lia)) as Hfit.
    rewrite <- power_step in Hfit.
    rewrite radix_loop_pass
      by (auto using range_nonneg; unfold INT_MAX; lia).
    set (l1 := bucket_sort (10 ^ Z.of_nat k) l).
    assert (Hp1 : l1 ≡ₚ l)
      by (apply bucket_sort_perm; auto using range_nonneg).
    assert (Hl1 : Forall in_int_range l1) by (apply pass_range; auto).
    assert (Hle1 : Forall (fun x => x <= max) l1) by (now rewrite Hp1).
    assert (Hm1 : Z.of_nat (length l1) <= MAX_DATA_SIZE) by (now rewrite Hp1).
    assert (Hs1 : StronglySorted (mod_le (10 ^ (Z.of_nat k + 1))) l1)
      by (apply pass_sorted; auto using range_nonneg; lia).
    rewrite power_step.
    replace (Z.of_nat k + 1) with (Z.of_nat (S k)) in * by lia.
    destruct (IH (S k) l1 fuel) as (s & E & Hp & Hss); auto; try lia.
    exists s. split; [exact E|]. split; [now rewrite Hp | exact Hss].
Qed.

(** For a maximum of [10^9] or more every weight up to [10^9] makes its
    pass, and the product that follows the last one does not fit. *)
Lemma radix_loop_overflows : forall n k l fuel,
  1000000000 <= max ->
  (k + n = 9)%nat ->
  Forall in_int_range l ->
  Z.of_nat (length l) <= MAX_DATA_SIZE ->
  (n + 1 <= fuel)%nat ->
  radix_loop fuel (l ++ rest) (Z.of_nat (length l)) max (10 ^ Z.of_nat k) =
  Stop SignedOverflow.
Proof.
  induction n as [|n IH]; intros k l fuel Hmx Hk Hl Hmax Hfuel;
    (destruct fuel as [|fuel]; [lia|]);
    assert (Hpow : 0 < 10 ^ Z.of_nat k) by (apply Z.pow_pos_nonneg; lia);
    pose proof (power_fits k ltac:(lia)) as Hfit;
    assert (Hq : 0 < Z.quot max (10 ^ Z.of_nat k))
      by (pose proof (quot_positive max (10 ^ Z.of_nat k) Hpow) as Hq;
          destruct (Z.leb_spec (10 ^ Z.of_nat k) max); [|lia];
          destruct (Z.gtb_spec (Z.quot max (10 ^ Z.of_nat k)) 0);
            [lia | discriminate]).
  - assert (k = 9)%nat as -> by lia.
    apply radix_loop_overflow; auto using range_nonneg;
      change (10 ^ Z.of_nat 9) with 1000000000; unfold INT_MAX; lia.
  - pose proof (power_fits (S k) ltac:(lia)) as Hfit'.
    rewrite <- power_step in Hfit'.
    rewrite radix_loop_pass
      by (auto using range_nonneg; unfold INT_MAX; lia).
    rewrite power_step.
    apply IH; auto; try lia.
    + now apply pass_range.
    + rewrite bucket_sort_perm; auto using range_nonneg.
Qed.

End Loop.

(** The first loop of [radix_sort] returns a bound of the first [size]
    cells. *)
Lemma max_loop l rest c0 :
  array_get (l ++ rest) 0 = Ret c0 ->
  exists max,
    for_up 1 (Z.of_nat (length l)) (max_body (l ++ rest)) c0 = Ret max /\
    Forall (fun x => x <= max) l.
Proof.
  intros Hc0. destruct l as [|x0 l'].
  - exists c0. split; [reflexivity | constructor].
  - assert (c0 = x0) as ->.
    { pose proof (array_get_middle [] x0 (l' ++ rest) 0 eq_refl) as H.
      cbn [app] in H, Hc0. congruence. }
    set (l := x0 :: l') in *.
    set (I := fun (i : Z) (m : Z) =>
                Forall (fun x => x <= m) (take (Z.to_nat i) l)).
    destruct (for_up_inv I 1 (Z.of_nat (length l)) (max_body (l ++ rest)) x0)
      as (m & E & Hm).
    + unfold l. simpl. lia.
    + unfold I, l. simpl. repeat constructor. lia.
    + intros k m Hk Hm.
      destruct (lookup_lt_is_Some_2 l (Z.to_nat k)) as [x Hx]; [lia|].
      unfold max_body.
      rewrite (array_get_lookup (l ++ rest) k x)
        by first [lia | rewrite lookup_app_l; [exact Hx | lia]].
      cbn [bind]. unfold I in *.
      replace (Z.to_nat (k + 1)) with (S (Z.to_nat k)) by lia.
      rewrite (take_S_r _ _ _ Hx).
      destruct (Z.gtb_spec x m); eexists; (split; [reflexivity|]);
        apply Forall_app; split;
        try (apply (Forall_impl _ _ _ Hm); intros; lia);
        repeat constructor; lia.
    + exists m. split; [exact E|]. unfold I in Hm.
      now rewrite Nat2Z.id, take_ge in Hm by lia.
Qed.

(** The maximum stays below a bound on the cell the search starts from and
    on the cells of the array. *)
Lemma max_loop_below l rest c0 max bound :
  c0 < bound -> Forall (fun x => x < bound) l ->
  for_up 1 (Z.of_nat (length l)) (max_body (l ++ rest)) c0 = Ret max ->
  max < bound.
Proof.
  intros Hc Hl E. destruct l as [|x0 l'].
  - injection E as <-. exact Hc.
  - set (l := x0 :: l') in *.
    destruct (for_up_inv (fun (_ : Z) (m : Z) => m < bound) 1
                (Z.of_nat (length l)) (max_body (l ++ rest)) c0)
      as (m & E' & Hm).
    + unfold l. simpl. lia.
    + exact Hc.
    + intros k m Hk Hm.
      destruct (lookup_lt_is_Some_2 l (Z.to_nat k)) as [x Hx]; [lia|].
      unfold max_body.
      rewrite (array_get_lookup (l ++ rest) k x)
        by first [lia | rewrite lookup_app_l; [exact Hx | lia]].
      cbn [bind].
      assert (x < bound).
      { rewrite Forall_forall in Hl. apply Hl.
        now apply list_elem_of_lookup_2 in Hx. }
      destruct (x >? m); eexists; (split; [reflexivity | lia]).
    + rewrite E in E'. now injection E' as <-.
Qed.

(** Below [10^9] [radix_sort] sorts. *)
Lemma radix_sort_spec l rest :
  Forall in_int_range l ->
  Forall (fun x => x < 1000000000) l ->
  (0 < length l)%nat ->
  Z.of_nat (length l) <= MAX_DATA_SIZE ->
  exists s,
    radix_sort (l ++ rest) (Z.of_nat (length l)) = Ret (s ++ rest) /\
    s ≡ₚ l /\ StronglySorted Z.le s.
Proof.
  intros Hl Hsmall Hne Hmax.
  destruct (lookup_lt_is_Some_2 l 0 Hne) as [c0 Hc0].
  assert (H0 : array_get (l ++ rest) 0 = Ret c0).
  { apply array_get_lookup; [lia|]. now rewrite lookup_app_l. }
  assert (Hc : c0 < 1000000000).
  { rewrite Forall_forall in Hsmall. apply Hsmall.
    now apply list_elem_of_lookup_2 in Hc0. }
  destruct (max_loop l rest c0 H0) as (max & E & Hle).
  pose proof (max_loop_below l rest c0 max 1000000000 Hc Hsmall E) as Hbelow.
  unfold radix_sort. rewrite H0. cbn [bind].
  change (for_up 1 (Z.of_nat (length l)) _ c0)
    with (for_up 1 (Z.of_nat (length l)) (max_body (l ++ rest)) c0).
  rewrite E. cbn [bind].
  destruct (Z.le_gt_cases max 0) as [Hneg|Hpos].
  - exists l. rewrite radix_loop_stop by (rewrite ?Z.quot_1_r; lia).
    split; [reflexivity|]. split; [reflexivity|].
    apply (sorted_impl (mod_le 1)); [apply sorted_mod_1|].
    rewrite Forall_forall in Hl, Hle. intros x y Hx Hy _.
    pose proof (Hl x Hx). pose proof (Hle x Hx).
    pose proof (Hl y Hy). unfold in_int_range in *. lia.
  - destruct (radix_loop_powers rest max 9 0 l 64) as (s & Es & H);
      auto; try lia; [apply sorted_mod_1|].
    exists s. change (10 ^ Z.of_nat 0) with 1 in Es. auto.
Qed.

(** From [10^9] on [radix_sort] stops at the product [exp *= 10] that
    follows the pass of weight [10^9]. *)
Lemma radix_sort_overflow l rest :
  Forall in_int_range l ->
  Exists (fun x => 1000000000 <= x) l ->
  Z.of_nat (length l) <= MAX_DATA_SIZE ->
  radix_sort (l ++ rest) (Z.of_nat (length l)) = Stop SignedOverflow.
Proof.
  intros Hl Hbig Hmax.
  apply Exists_exists in Hbig as (x & Hx & Hbig).
  assert (Hne : (0 < length l)%nat).
  { apply list_elem_of_lookup in Hx as (j & Hj).
    apply lookup_lt_Some in Hj. lia. }
  destruct (lookup_lt_is_Some_2 l 0 Hne) as [c0 Hc0].
  assert (H0 : array_get (l ++ rest) 0 = Ret c0).
  { apply array_get_lookup; [lia|]. now rewrite lookup_app_l. }
  destruct (max_loop l rest c0 H0) as (max & E & Hle).
  unfold radix_sort. rewrite H0. cbn [bind].
  change (for_up 1 (Z.of_nat (length l)) _ c0)
    with (for_up 1 (Z.of_nat (length l)) (max_body (l ++ rest)) c0).
  rewrite E. cbn [bind].
  rewrite Forall_forall in Hle. specialize (Hle x Hx).
  change 1 with (10 ^ Z.of_nat 0) at 1.
  apply (radix_loop_overflows rest max 9 0 l 64); auto; lia.
Qed.

Lemma check_results_same data size :
  0 <= size <= Z.of_nat (length data) ->
  check_results data data size = Ret true.
Proof.
  intros Hsize. unfold check_results.
  destruct (for_up_inv (fun _ ok => ok = true) 0 size
              (fun i (ok : bool) =>
                 if ok then
                   let* a := array_get data i in
                   let* b := array_get data i in
                   Ret (a =? b)
                 else Ret false) true) as (ok & E & ->); auto; [lia|].
  intros k ok Hk ->.
  destruct (lookup_lt_is_Some_2 data (Z.to_nat k)) as [x Hx]; [lia|].
  rewrite (array_get_lookup data k x) by first [lia | exact Hx].
  cbn [bind]. rewrite Z.eqb_refl. eauto.
Qed.

(** ** The three routines agree below [10^9] *)

(** On an array of at least one and at most [MAX_DATA_SIZE] [int] values
    from 0 to [10^9 - 1] -- the first [size] cells of the memory [data]
    points to -- the three routines return the same memory: the cells of the
    array in ascending order, a permutation of what they were, and the cells
    after the array untouched.  [check_results] therefore accepts the result
    of each routine against the result of [quick_sort]. *)
Lemma sorts_agree (data : list Z) (size : Z) :
  0 < size <= MAX_DATA_SIZE ->
  size <= Z.of_nat (length data) ->
  Forall in_int_range (take (Z.to_nat size) data) ->
  Forall (fun x => x < 1000000000) (take (Z.to_nat size) data) ->
  exists sorted expected_data,
    sorted ≡ₚ take (Z.to_nat size) data /\
    StronglySorted Z.le sorted /\
    expected_data = sorted ++ drop (Z.to_nat size) data /\
    quick_sort data size = Ret expected_data /\
    bubble_sort data size = Ret expected_data /\
    radix_sort data size = Ret expected_data /\
    check_results expected_data expected_data size = Ret true.
Proof.
  intros Hsize Hlen Hrange Hsmall.
  set (l := take (Z.to_nat size) data) in *.
  set (rest := drop (Z.to_nat size) data).
  assert (Hdata : data = l ++ rest) by (symmetry; apply take_drop).
  assert (Hl : Z.of_nat (length l) = size)
    by (unfold l; rewrite length_take; lia).
  destruct (quick_sort_spec l rest) as (sq & Eq & Hpq & Hsq).
  destruct (bubble_sort_spec l rest) as (sb & Eb & Hpb & Hsb).
  destruct (radix_sort_spec l rest) as (sr & Er & Hpr & Hsr);
    [exact Hrange | exact Hsmall | lia | lia |].
  assert (sb = sq) as ->.
  { apply (StronglySorted_unique Z.le); auto. now rewrite Hpb, Hpq. }
  assert (sr = sq) as ->.
  { apply (StronglySorted_unique Z.le); auto. now rewrite Hpr, Hpq. }
  rewrite Hl, <- Hdata in Eq, Eb, Er.
  exists sq, (sq ++ rest). repeat split; auto.
  apply check_results_same. rewrite length_app.
  assert (length sq = length l) by now rewrite Hpq. lia.
Qed.

(** ** The three routines from [10^9] on *)

(** C10. On an array of at most [MAX_DATA_SIZE] non-negative [int]
    values one of which is [10^9] or more, [bubble_sort] and [quick_sort]
    return the cells of the array in ascending order, but [radix_sort] does
    not return: every weight up to [10^9] makes its pass, and the product
    [exp *= 10] that follows the pass of weight [10^9] leaves the range of
    [int].  The three routines do not produce the same output there. *)
Theorem radix_sort_overflows_on_large_values (data : list Z) (size : Z) :
  0 <= size <= MAX_DATA_SIZE ->
  size <= Z.of_nat (length data) ->
  Forall in_int_range (take (Z.to_nat size) data) ->
  Exists (fun x => 1000000000 <= x) (take (Z.to_nat size) data) ->
  exists sorted,
    sorted ≡ₚ take (Z.to_nat size) data /\
    StronglySorted Z.le sorted /\
    quick_sort data size = Ret (sorted ++ drop (Z.to_nat size) data) /\
    bubble_sort data size = Ret (sorted ++ drop (Z.to_nat size) data) /\
    radix_sort data size = Stop SignedOverflow.
Proof.
  intros Hsize Hlen Hrange Hbig.
  set (l := take (Z.to_nat size) data) in *.
  set (rest := drop (Z.to_nat size) data).
  assert (Hdata : data = l ++ rest) by (symmetry; apply take_drop).
  assert (Hl : Z.of_nat (length l) = size)
    by (unfold l; rewrite length_take; lia).
  destruct (quick_sort_spec l rest) as (sq & Eq & Hpq & Hsq).
  destruct (bubble_sort_spec l rest) as (sb & Eb & Hpb & Hsb).
  pose proof (radix_sort_overflow l rest Hrange Hbig ltac:(lia)) as Er.
  assert (sb = sq) as ->.
  { apply (StronglySorted_unique Z.le); auto. now rewrite Hpb, Hpq. }
  rewrite Hl, <- Hdata in Eq, Eb, Er.
  exists sq. repeat split; auto.
Qed.

Lemma radix_sort_overflows_on_large_values_witness :
  exists sorted,
    sorted ≡ₚ take (Z.to_nat 5) [170; 45; 2000000000; 45; 0; 9; 8] /\
    StronglySorted Z.le sorted /\
    quick_sort [170; 45; 2000000000; 45; 0; 9; 8] 5 =
      Ret (sorted ++ drop (Z.to_nat 5) [170; 45; 2000000000; 45; 0; 9; 8]) /\
    bubble_sort [170; 45; 2000000000; 45; 0; 9; 8] 5 =
      Ret (sorted ++ drop (Z.to_nat 5) [170; 45; 2000000000; 45; 0; 9; 8]) /\
    radix_sort [170; 45; 2000000000; 45; 0; 9; 8] 5 = Stop SignedOverflow.
Proof.
  apply (radix_sort_overflows_on_large_values
           [170; 45; 2000000000; 45; 0; 9; 8] 5).
  - unfold MAX_DATA_SIZE. lia.
  - simpl. lia.
  - unfold in_int_range, INT_MAX. simpl. repeat constructor; lia.
  - simpl. do 2 apply Exists_cons_tl. apply Exists_cons_hd. lia.
Defined.

(** ** Copying and checking *)

Lemma for_range_app {T : Type} (body : Z -> T -> run T) : forall n m i (s : T),
  for_range (n + m) i body s =
  let* s' := for_range n i body s in for_range m (i + Z.of_nat n) body s'.
Proof.
  induction n as [|n IH]; intros m i s.
  - simpl. now rewrite Z.add_0_r.
  - simpl. destruct (body i s) as [s1|f]; simpl; [|reflexivity].
    rewrite IH.
    now replace (i + 1 + Z.of_nat n) with (i + Z.pos (Pos.of_succ_nat n)) by lia.
Qed.

Lemma copy_array_loop dest src : forall n,
  (n <= length dest)%nat -> (n <= length src)%nat ->
  for_range n 0 (copy_array_body src) dest = Ret (take n src ++ drop n dest).
Proof.
  intros n Hd Hs.
  destruct (for_range_inv
              (fun k d => d = take (Z.to_nat k) src ++ drop (Z.to_nat k) dest)
              (copy_array_body src) n 0 dest) as (d & E & ->).
  - reflexivity.
  - intros k d Hk ->.
    destruct (lookup_lt_is_Some_2 src (Z.to_nat k)) as [x Hx]; [lia|].
    destruct (lookup_lt_is_Some_2 dest (Z.to_nat k)) as [y Hy]; [lia|].
    unfold copy_array_body.
    rewrite (array_get_lookup src k x) by first [lia | exact Hx]. cbn [bind].
    rewrite (drop_S _ _ _ Hy).
    rewrite array_set_middle by (rewrite length_take; lia).
    eexists. split; [reflexivity|].
    replace (Z.to_nat (k + 1)) with (S (Z.to_nat k)) by lia.
    rewrite (take_S_r _ _ _ Hx), <- app_assoc. reflexivity.
  - rewrite E. f_equal. f_equal; f_equal; lia.
Qed.

(** X13. [copy_array] writes the first [size] cells of [src] over the
    first [size] cells of [dest] and leaves the other cells of [dest] as they
    were; a [size] that is zero or negative copies nothing.  When [size]
    exceeds the number of cells of either array, the loop runs up to the end
    of the shorter one and then accesses a cell outside it. *)
Theorem copy_array_spec dest src size :
  copy_array dest src size =
  if size <=? Z.of_nat (Nat.min (length dest) (length src))
  then Ret (take (Z.to_nat size) src ++ drop (Z.to_nat size) dest)
  else Stop OutOfBounds.
Proof.
  unfold copy_array, for_up. rewrite Z.sub_0_r.
  destruct (Z.leb_spec size (Z.of_nat (Nat.min (length dest) (length src))))
    as [Hle|Hgt].
  - apply copy_array_loop; lia.
  - set (m := Nat.min (length dest) (length src)) in *.
    replace (Z.to_nat size) with (m + S (Z.to_nat size - m - 1))%nat by lia.
    rewrite for_range_app, copy_array_loop by lia. cbn [bind for_range].
    replace (copy_array_body src (0 + Z.of_nat m) (take m src ++ drop m dest))
      with (@Stop (list Z) OutOfBounds); [reflexivity|].
    unfold copy_array_body, array_get.
    destruct (Z.ltb_spec (0 + Z.of_nat m) 0); [lia|].
    replace (Z.to_nat (0 + Z.of_nat m)) with m by lia.
    destruct (src !! m) as [x|] eqn:Hx; cbn [bind]; [|reflexivity].
    apply lookup_lt_Some in Hx.
    unfold array_set. rewrite length_app, length_take, length_drop.
    destruct (Z.ltb_spec (0 + Z.of_nat m)
                (Z.of_nat (m `min` length src + (length dest - m)))); [lia|].
    now rewrite andb_false_r.
Qed.

(** X14. On arrays that hold at least [size] cells each,
    [check_results] answers [1] exactly when the first [size] cells of the
    two arrays are the same, and [0] otherwise; the cells after them play no
    part. *)
Theorem check_results_spec data expected_data size :
  size <= Z.of_nat (length data) ->
  size <= Z.of_nat (length expected_data) ->
  check_results data expected_data size =
  Ret (bool_decide (take (Z.to_nat size) data =
                    take (Z.to_nat size) expected_data)).
Proof.
  intros Hd He. unfold check_results, for_up. rewrite Z.sub_0_r.
  destruct (for_range_inv
              (fun k (ok : bool) =>
                 ok = bool_decide (take (Z.to_nat k) data =
                                   take (Z.to_nat k) expected_data))
              (fun i (ok : bool) =>
                 if ok then
                   let* a := array_get data i in
                   let* b := array_get expected_data i in
                   Ret (a =? b)
                 else Ret false)
              (Z.to_nat size) 0 true) as (ok & E & ->).
  - reflexivity.
  - intros k ok Hk ->.
    destruct (lookup_lt_is_Some_2 data (Z.to_nat k)) as [x Hx]; [lia|].
    destruct (lookup_lt_is_Some_2 expected_data (Z.to_nat k)) as [y Hy]; [lia|].
    replace (Z.to_nat (k + 1)) with (S (Z.to_nat k)) by lia.
    rewrite (take_S_r _ _ _ Hx), (take_S_r _ _ _ Hy).
    case_bool_decide as Hp.
    + rewrite (array_get_lookup data k x) by first [lia | exact Hx].
      rewrite (array_get_lookup expected_data k y) by first [lia | exact Hy].
      cbn [bind]. eexists. split; [reflexivity|]. rewrite Hp.
      destruct (Z.eqb_spec x y) as [->|Hne].
      * now rewrite bool_decide_eq_true_2.
      * rewrite bool_decide_eq_false_2; [reflexivity|].
        intros H. apply app_inv_head in H. congruence.
    + eexists. split; [reflexivity|].
      rewrite bool_decide_eq_false_2; [reflexivity|].
      intros H. apply Hp.
      apply (f_equal (take (Z.to_nat k))) in H.
      rewrite (take_app_length' (take (Z.to_nat k) data)) in H
        by (rewrite length_take; lia).
      rewrite (take_app_length' (take (Z.to_nat k) expected_data)) in H
        by (rewrite length_take; lia).
      exact H.
  - rewrite E.
    now replace (Z.to_nat (0 + Z.of_nat (Z.to_nat size))) with (Z.to_nat size)
      by lia.
Qed.

Lemma check_results_spec_witness :
  check_results [1; 2; 3; 9] [1; 2; 3; 4; 5] 3 = Ret true /\
  check_results [1; 2; 3; 9] [1; 2; 3; 4; 5] 4 = Ret false.
Proof.
  split.
  - apply (check_results_spec [1; 2; 3; 9] [1; 2; 3; 4; 5] 3); simpl; lia.
  - apply (check_results_spec [1; 2; 3; 9] [1; 2; 3; 4; 5] 4); simpl; lia.
Defined.

(** ** The routines outside the arrays of non-negative values *)

(** X15. [bubble_sort] and [quick_sort] need no bound on the values:
    on every array of [int], negative values included, both return the
    cells of the array in ascending order, a permutation of what they were,
    and leave the memory after the array untouched. *)
Theorem comparison_sorts_on_every_int data size :
  0 <= size <= Z.of_nat (length data) ->
  exists sorted,
    sorted ≡ₚ take (Z.to_nat size) data /\
    StronglySorted Z.le sorted /\
    bubble_sort data size = Ret (sorted ++ drop (Z.to_nat size) data) /\
    quick_sort data size = Ret (sorted ++ drop (Z.to_nat size) data).
Proof.
  intros Hsize.
  set (l := take (Z.to_nat size) data) in *.
  set (rest := drop (Z.to_nat size) data).
  assert (Hdata : data = l ++ rest) by (symmetry; apply take_drop).
  assert (Hl : Z.of_nat (length l) = size)
    by (unfold l; rewrite length_take; lia).
  destruct (quick_sort_spec l rest) as (sq & Eq & Hpq & Hsq).
  destruct (bubble_sort_spec l rest) as (sb & Eb & Hpb & Hsb).
  assert (sb = sq) as ->.
  { apply (StronglySorted_unique Z.le); auto. now rewrite Hpb, Hpq. }
  rewrite Hl, <- Hdata in Eq, Eb.
  exists sq. auto.
Qed.

Lemma comparison_sorts_on_every_int_witness :
  exists sorted,
    sorted ≡ₚ take (Z.to_nat 4) [3; -7; 0; -2147483648; 5] /\
    StronglySorted Z.le sorted /\
    bubble_sort [3; -7; 0; -2147483648; 5] 4 =
      Ret (sorted ++ drop (Z.to_nat 4) [3; -7; 0; -2147483648; 5]) /\
    quick_sort [3; -7; 0; -2147483648; 5] 4 =
      Ret (sorted ++ drop (Z.to_nat 4) [3; -7; 0; -2147483648; 5]).
Proof.
  apply (comparison_sorts_on_every_int [3; -7; 0; -2147483648; 5] 4).
  simpl. lia.
Defined.

(** X16. [partition] on the cells [low .. high], the last of
    which holds the pivot: the cells before [low] and after [high] are
    untouched, the pivot ends at the returned index, the cells before it hold
    the values that are at most the pivot, the cells after it those that are
    larger, and together they are the values that were there. *)
Theorem partition_splits_around_pivot pre mid p post low high :
  low = Z.of_nat (length pre) ->
  high = low + Z.of_nat (length mid) ->
  exists small large,
    partition (pre ++ mid ++ p :: post) low high =
      Ret (pre ++ small ++ p :: large ++ post,
           low + Z.of_nat (length small)) /\
    small ++ large ≡ₚ mid /\
    Forall (fun x => x <= p) small /\
    Forall (fun x => p < x) large.
Proof. apply partition_spec. Qed.

Lemma partition_splits_around_pivot_witness :
  exists small large,
    partition ([9] ++ [7; 1; 8; 2] ++ 5 :: [0]) 1 5 =
      Ret ([9] ++ small ++ 5 :: large ++ [0], 1 + Z.of_nat (length small)) /\
    small ++ large ≡ₚ [7; 1; 8; 2] /\
    Forall (fun x => x <= 5) small /\
    Forall (fun x => 5 < x) large.
Proof.
  apply (partition_splits_around_pivot [9] [7; 1; 8; 2] 5 [0] 1 5);
    reflexivity.
Defined.

Lemma sorted_True (l : list Z) : StronglySorted (fun _ _ => True) l.
Proof.
  induction l; constructor; auto. apply Forall_forall. auto.
Qed.

Lemma filter_bucket exp l d d' :
  filter (fun x => digit exp x = d) (bucket exp l d') =
  if decide (d = Z.of_nat d') then bucket exp l d' else [].
Proof.
  unfold bucket. destruct (decide (d = Z.of_nat d')) as [->|Hd];
    induction l as [|x l IH]; try reflexivity;
    rewrite (filter_cons (fun x => digit exp x = Z.of_nat d'));
    (destruct (decide (digit exp x = Z.of_nat d')) as [Hx|Hx]; [|exact IH]);
    rewrite filter_cons; destruct (decide _); try congruence.
Qed.

Lemma filter_buckets exp l d : forall n a,
  filter (fun x => digit exp x = d) (concat (bucket exp l <$> seq a n)) =
  if decide (Z.of_nat a <= d < Z.of_nat (a + n))
  then filter (fun x => digit exp x = d) l else [].
Proof.
  induction n as [|n IH]; intros a.
  - simpl. destruct (decide _); [lia | reflexivity].
  - cbn [seq fmap list_fmap concat]. rewrite filter_app, filter_bucket, IH.
    destruct (decide (d = Z.of_nat a)) as [->|Hne].
    + destruct (decide (Z.of_nat (S a) <= Z.of_nat a < _)); [lia|].
      destruct (decide (Z.of_nat a <= Z.of_nat a < _)); [|lia].
      now rewrite app_nil_r.
    + cbn [app].
      destruct (decide (Z.of_nat (S a) <= d < Z.of_nat (S a + n)));
        destruct (decide (Z.of_nat a <= d < Z.of_nat (a + S n)));
        try lia; reflexivity.
Qed.

(** X17. One pass of [counting_sort_for_radix] with a positive
    weight [exp] over at most [MAX_DATA_SIZE] non-negative cells is a stable
    sort on the decimal digit of that weight: the cells come out as a
    permutation in ascending order of the digit, those of equal digit in the
    order they had, and the memory after the array is untouched. *)
Theorem counting_sort_for_radix_stable arr size exp :
  0 <= size <= MAX_DATA_SIZE -> size <= Z.of_nat (length arr) ->
  0 < exp ->
  Forall (Z.le 0) (take (Z.to_nat size) arr) ->
  exists out,
    counting_sort_for_radix arr size exp =
      Ret (out ++ drop (Z.to_nat size) arr) /\
    out ≡ₚ take (Z.to_nat size) arr /\
    StronglySorted (fun x y => digit exp x <= digit exp y) out /\
    forall d, filter (fun x => digit exp x = d) out =
              filter (fun x => digit exp x = d) (take (Z.to_nat size) arr).
Proof.
  intros Hsize Hlen Hexp Hl.
  set (l := take (Z.to_nat size) arr) in *.
  set (rest := drop (Z.to_nat size) arr).
  assert (Harr : arr = l ++ rest) by (symmetry; apply take_drop).
  assert (Hlen' : Z.of_nat (length l) = size)
    by (unfold l; rewrite length_take; lia).
  exists (bucket_sort exp l). split; [|split; [|split]].
  - rewrite Harr at 1. rewrite <- Hlen'.
    apply counting_sort_for_radix_spec; auto. lia.
  - now apply bucket_sort_perm.
  - apply (buckets_sorted exp (fun _ _ => True)).
    + apply sorted_True.
    + intros; lia.
    + intros; lia.
  - intros d. unfold bucket_sort, below. rewrite filter_buckets.
    destruct (decide (Z.of_nat 0 <= d < Z.of_nat (0 + 10))) as [|Hd];
      [reflexivity|].
    symmetry. clear Harr Hlen'.
    induction Hl as [|x l' Hx _ IH]; [reflexivity|].
    rewrite filter_cons.
    destruct (decide (digit exp x = d)) as [E|_]; [|exact IH].
    pose proof (digit_range exp x Hx Hexp). simpl in Hd. lia.
Qed.

Lemma counting_sort_for_radix_stable_witness :
  exists out,
    counting_sort_for_radix [21; 13; 11; 30; 23; 99] 5 1 =
      Ret (out ++ drop (Z.to_nat 5) [21; 13; 11; 30; 23; 99]) /\
    out ≡ₚ take (Z.to_nat 5) [21; 13; 11; 30; 23; 99] /\
    StronglySorted (fun x y => digit 1 x <= digit 1 y) out /\
    forall d, filter (fun x => digit 1 x = d) out =
              filter (fun x => digit 1 x = d)
                (take (Z.to_nat 5) [21; 13; 11; 30; 23; 99]).
Proof.
  apply (counting_sort_for_radix_stable [21; 13; 11; 30; 23; 99] 5 1).
  - unfold MAX_DATA_SIZE. lia.
  - simpl. lia.
  - lia.
  - simpl. repeat constructor; lia.
Defined.

(** *** An array of no cell *)

Lemma prefix_loop_zero :
  for_up 1 10 prefix_body (replicate 10 0) = Ret (replicate 10 0).
Proof. reflexivity. Qed.

Lemma counting_sort_idle data size exp :
  size <= 0 -> counting_sort_for_radix data size exp = Ret data.
Proof.
  intros Hs. unfold counting_sort_for_radix.
  assert (Hup : forall T (body : Z -> T -> run T) (s : T),
            for_up 0 size body s = Ret s).
  { intros. unfold for_up. now replace (Z.to_nat (size - 0)) with 0%nat by lia. }
  rewrite Hup. cbn [bind]. rewrite prefix_loop_zero. cbn [bind].
  unfold for_down. replace (Z.to_nat (size - 1 + 1)) with 0%nat by lia.
  cbn [for_down_range bind]. apply Hup.
Qed.

Lemma radix_loop_idle_step fuel data size max exp :
  size <= 0 -> 0 < exp ->
  radix_loop (S fuel) data size max exp =
  if exp <=? max then
    let* exp := int_mul exp 10 in radix_loop fuel data size max exp
  else Ret data.
Proof.
  intros Hs He. cbn [radix_loop]. unfold int_div.
  destruct (Z.eqb_spec exp 0); [lia|].
  destruct (Z.eqb_spec exp (-1)); [lia|].
  rewrite andb_false_r. cbn [bind]. rewrite quot_positive by exact He.
  destruct (exp <=? max); [|reflexivity].
  now rewrite counting_sort_idle.
Qed.

(** The passes over no cell change nothing: the loop runs through the
    weights up to the first one above [max], and stops at the product that
    follows the weight [10^9] when [max] is that large. *)
Lemma radix_loop_idle data size max :
  size <= 0 ->
  radix_loop 64 data size max 1 =
  if max <? 1000000000 then Ret data else Stop SignedOverflow.
Proof.
  intros Hs.
  do 10 (rewrite radix_loop_idle_step by lia;
         match goal with
         | |- (if ?e <=? max then _ else _) = _ =>
             destruct (Z.leb_spec e max);
             [| destruct (Z.ltb_spec max 1000000000); [reflexivity | lia]]
         end;
         match goal with
         | |- context [int_mul ?a 10] =>
             let v := eval vm_compute in (int_mul a 10) in
             change (int_mul a 10) with v
         end;
         cbn [bind]).
  destruct (Z.ltb_spec max 1000000000); [lia | reflexivity].
Qed.

(** X18. With a [size] that is zero or negative [bubble_sort] and
    [quick_sort] change nothing.  [radix_sort] makes no pass that moves a
    cell either, but it still reads [data[0]] to start its search of the
    maximum: an access outside the memory when [data] points to no cell at
    all; and with that cell as maximum it still runs through the weights, so
    that it stops at the product [exp *= 10] after the weight [10^9] when
    the cell holds [10^9] or more. *)
Theorem sorts_on_no_cell data size :
  INT_MIN < size <= 0 ->
  bubble_sort data size = Ret data /\
  quick_sort data size = Ret data /\
  radix_sort data size =
    match data with
    | [] => Stop OutOfBounds
    | first :: _ =>
        if first <? 1000000000 then Ret data else Stop SignedOverflow
    end.
Proof.
  intros Hs. split; [|split].
  - unfold bubble_sort, for_up.
    now replace (Z.to_nat (size - 0)) with 0%nat by lia.
  - unfold quick_sort.
    destruct (Z.to_nat size); cbn [quick_sort_recursive];
      destruct (Z.ltb_spec 0 (size - 1)); try lia; reflexivity.
  - destruct data as [|x data]; [reflexivity|].
    unfold radix_sort. change (array_get (x :: data) 0) with (Ret x).
    cbn [bind]. unfold for_up.
    replace (Z.to_nat (size - 1)) with 0%nat by lia. cbn [for_range bind].
    apply radix_loop_idle. lia.
Qed.

Lemma sorts_on_no_cell_witness :
  bubble_sort [2000000000; 1; 2] 0 = Ret [2000000000; 1; 2] /\
  quick_sort [2000000000; 1; 2] 0 = Ret [2000000000; 1; 2] /\
  radix_sort [2000000000; 1; 2] 0 = Stop SignedOverflow.
Proof.
  apply (sorts_on_no_cell [2000000000; 1; 2] 0). unfold INT_MIN. lia.
Defined.

(** *** Negative values in [radix_sort] *)

(** X19. When no cell of the array is positive the maximum is not
    positive either, the loop over the digits makes no pass, and
    [radix_sort] returns the array as it was, sorted or not. *)
Theorem radix_sort_without_positive data size :
  0 < size <= Z.of_nat (length data) ->
  Forall (fun x => x <= 0) (take (Z.to_nat size) data) ->
  radix_sort data size = Ret data.
Proof.
  intros Hsize Hall.
  destruct data as [|x0 data']; [simpl in Hsize; lia|].
  set (data := x0 :: data') in *.
  unfold radix_sort. change (array_get data 0) with (Ret x0). cbn [bind].
  destruct (for_up_inv (fun (_ : Z) (m : Z) => m <= 0) 1 size
              (max_body data) x0) as (m & E & Hm).
  - lia.
  - unfold data in Hall.
    replace (Z.to_nat size) with (S (Z.to_nat size - 1)) in Hall by lia.
    cbn [take] in Hall. now inversion Hall.
  - intros k m Hk Hm.
    destruct (lookup_lt_is_Some_2 data (Z.to_nat k)) as [x Hx]; [lia|].
    unfold max_body.
    rewrite (array_get_lookup data k x) by first [lia | exact Hx].
    cbn [bind].
    assert (x <= 0).
    { rewrite Forall_forall in Hall. apply Hall.
      apply list_elem_of_lookup. exists (Z.to_nat k).
      rewrite lookup_take_lt by lia. exact Hx. }
    destruct (x >? m); eexists; (split; [reflexivity | lia]).
  - change (for_up 1 size _ x0) with (for_up 1 size (max_body data) x0).
    rewrite E. cbn [bind].
    apply radix_loop_stop; try lia. now rewrite Z.quot_1_r.
Qed.

Lemma radix_sort_without_positive_witness :
  radix_sort [-1; -5; -3; 7] 3 = Ret [-1; -5; -3; 7].
Proof.
  apply (radix_sort_without_positive [-1; -5; -3; 7] 3).
  - simpl. lia.
  - simpl. repeat constructor; lia.
Defined.

(** The first loop of a pass of weight 1 over cells one of which has a
    negative last digit. *)
Lemma count_loop_negative arr : forall n i count,
  0 <= i -> i + Z.of_nat n <= Z.of_nat (length arr) ->
  length count = 10%nat ->
  (exists k x, i <= k < i + Z.of_nat n /\ arr !! Z.to_nat k = Some x /\
               Z.rem x 10 < 0) ->
  for_range n i (count_body arr 1) count = Stop OutOfBounds.
Proof.
  induction n as [|n IH]; intros i count Hi Hn Hc (k & x & Hk & Hx & Hneg);
    [lia|].
  cbn [for_range].
  destruct (lookup_lt_is_Some_2 arr (Z.to_nat i)) as [y Hy]; [lia|].
  unfold count_body at 1.
  rewrite (array_get_lookup arr i y) by first [lia | exact Hy]. cbn [bind].
  unfold digit_of, int_div.
  change (1 =? 0) with false. change (1 =? -1) with false.
  rewrite andb_false_r. cbn [bind]. rewrite Z.quot_1_r.
  destruct (Z.ltb_spec (Z.rem y 10) 0) as [Hlt|Hge].
  - unfold array_get at 1.
    destruct (Z.ltb_spec (Z.rem y 10) 0); [reflexivity | lia].
  - assert (Z.rem y 10 < 10).
    { pose proof (Z.rem_bound_abs y 10). lia. }
    destruct (lookup_lt_is_Some_2 count (Z.to_nat (Z.rem y 10))) as [c Hcd];
      [lia|].
    rewrite (array_get_lookup count _ c) by first [lia | exact Hcd].
    cbn [bind]. unfold array_set.
    destruct (Z.leb_spec 0 (Z.rem y 10)); [|lia].
    destruct (Z.ltb_spec (Z.rem y 10) (Z.of_nat (length count))); [|lia].
    cbn [andb bind].
    apply IH; try lia.
    + now rewrite length_insert.
    + exists k, x. split; [|auto].
      destruct (Z.eq_dec k i) as [->|]; [|lia].
      rewrite Hy in Hx. injection Hx as ->. lia.
Qed.

(** X20. When the array holds a positive value, so that a first
    pass is made, and a negative value that is not a multiple of ten, the
    digit [(arr[i] / exp) % 10] of that value is negative and the first pass
    indexes [count] below its first cell. *)
Theorem radix_sort_negative_digit data size x y :
  0 <= size <= Z.of_nat (length data) ->
  x ∈ take (Z.to_nat size) data -> Z.rem x 10 < 0 ->
  y ∈ take (Z.to_nat size) data -> 0 < y ->
  radix_sort data size = Stop OutOfBounds.
Proof.
  intros Hsize Hx Hneg Hy Hpos.
  set (l := take (Z.to_nat size) data) in *.
  set (rest := drop (Z.to_nat size) data).
  assert (Hdata : data = l ++ rest) by (symmetry; apply take_drop).
  assert (Hl : Z.of_nat (length l) = size)
    by (unfold l; rewrite length_take; lia).
  assert (Hbuf : (0 < length data)%nat).
  { apply list_elem_of_lookup in Hx as (j & Hj).
    apply lookup_lt_Some in Hj. lia. }
  destruct (lookup_lt_is_Some_2 data 0 Hbuf) as [c0 Hc0].
  assert (H0 : array_get data 0 = Ret c0)
    by (apply array_get_lookup; [lia | exact Hc0]).
  destruct (max_loop l rest c0) as (max & E & Hle);
    [now rewrite <- Hdata|].
  rewrite <- Hdata, Hl in E.
  unfold radix_sort. rewrite H0. cbn [bind].
  change (for_up 1 size _ c0) with (for_up 1 size (max_body data) c0).
  rewrite E. cbn [bind radix_loop]. unfold int_div.
  change (1 =? 0) with false. change (1 =? -1) with false.
  rewrite andb_false_r. cbn [bind]. rewrite Z.quot_1_r.
  rewrite Forall_forall in Hle. specialize (Hle y Hy).
  destruct (Z.gtb_spec max 0); [|lia].
  unfold counting_sort_for_radix, for_up at 1.
  rewrite (count_loop_negative data); [reflexivity | lia | lia | reflexivity |].
  apply list_elem_of_lookup in Hx as (j & Hj).
  pose proof (lookup_lt_Some _ _ _ Hj) as Hlt.
  unfold l in Hj, Hlt. rewrite length_take in Hlt.
  rewrite lookup_take_lt in Hj by lia.
  exists (Z.of_nat j), x. rewrite Nat2Z.id. split; [lia | auto].
Qed.

Lemma radix_sort_negative_digit_witness :
  radix_sort [12; -3; 5] 3 = Stop OutOfBounds.
Proof.
  apply (radix_sort_negative_digit [12; -3; 5] 3 (-3) 12).
  - simpl. lia.
  - simpl. apply list_elem_of_further, list_elem_of_here.
  - reflexivity.
  - simpl. apply list_elem_of_here.
  - lia.
Defined.

End SortFacts.

(** * Properties of the text buffer *)

Module JsonFacts.
Import Sort Json.
Local Open Scope Z_scope.

Lemma wrap_small z : - 2 ^ 31 <= z < 2 ^ 31 -> wrap z = z.
Proof.
  intros H. unfold wrap. rewrite Z.mod_small; lia.
Qed.

Lemma grow_reaches needed : forall fuel capacity,
  0 < capacity -> needed < 2 ^ 30 ->
  needed < capacity * 2 ^ Z.of_nat fuel ->
  exists capacity',
    grow fuel needed capacity = Ret capacity' /\
    needed < capacity' /\ capacity <= capacity' /\
    (capacity' = capacity \/ capacity' <= 2 * needed).
Proof.
  induction fuel as [|fuel IH]; intros capacity Hpos Hn Hfuel.
  - simpl in *. destruct (Z.geb_spec needed capacity); [lia|].
    exists capacity. split; [reflexivity|]. lia.
  - cbn [grow]. destruct (Z.geb_spec needed capacity) as [Hge|Hlt].
    + rewrite wrap_small by lia.
      destruct (IH (capacity * 2)) as (c' & E & H1 & H2 & H3); try lia.
      { rewrite Nat2Z.inj_succ, Z.pow_succ_r in Hfuel by lia. lia. }
      exists c'. split; [exact E|]. split; [lia|]. split; [lia|]. right. lia.
    + exists capacity. split; [reflexivity|]. lia.
Qed.

(** X21. As long as the text stays below [2^30] characters,
    [json_append] never writes outside its block: on a buffer whose text and
    terminating zero lie within the block it returns such a buffer again,
    holding the old text followed by [str].  The block never shrinks: it is
    kept, or set to 4096 bytes, or doubled until the text fits, which ends at
    no more than twice the length of the text. *)
Theorem json_append_fits str b :
  json_fits b ->
  json_length b + Z.of_nat (String.length str) < 2 ^ 30 ->
  exists b',
    json_append str b = Ret b' /\
    json_fits b' /\
    json_result b' = (json_result b ++ str)%string /\
    json_length b' = json_length b + Z.of_nat (String.length str) /\
    json_capacity b <= json_capacity b' /\
    (json_capacity b' = json_capacity b \/
     json_capacity b' = 4096 \/
     json_capacity b' <=
       2 * (json_length b + Z.of_nat (String.length str))).
Proof.
  intros (Hlen & Hcap) Hsmall. unfold json_append.
  set (len := Z.of_nat (String.length str)) in *.
  assert (Hfit : forall c, json_length b + len < c ->
            json_fits (mkJsonBuffer (json_result b ++ str) c
                         (json_length b + len))).
  { intros c Hc. unfold json_fits. cbn [json_result json_capacity json_length].
    split; [|right; exact Hc].
    rewrite Hlen. unfold len.
    assert (forall x y : string,
              String.length (x ++ y) = (String.length x + String.length y)%nat)
      as -> by (induction x; simpl; auto).
    lia. }
  destruct (Z.geb_spec (json_length b + len) (json_capacity b)) as [Hge|Hlt].
  - destruct (grow_reaches (json_length b + len) 64
                (if json_capacity b =? 0 then 4096
                 else wrap (json_capacity b * 2)))
      as (c & E & H1 & H2 & H3).
    + destruct (Z.eqb_spec (json_capacity b) 0); [lia|].
      rewrite wrap_small by lia. lia.
    + exact Hsmall.
    + assert (2 ^ 30 < 2 ^ Z.of_nat 64) by (vm_compute; reflexivity).
      destruct (Z.eqb_spec (json_capacity b) 0); [lia|].
      rewrite wrap_small by lia. nia.
    + rewrite E. cbn [bind].
      destruct (Z.leb_spec (json_length b + len + 1) c); [|lia].
      eexists. split; [reflexivity|].
      cbn [json_result json_capacity json_length].
      split; [now apply Hfit|]. split; [reflexivity|]. split; [reflexivity|].
      destruct (Z.eqb_spec (json_capacity b) 0) as [E0|Hne].
      * split; [lia|]. destruct H3 as [->|H3]; auto.
      * rewrite wrap_small in * by lia. split; [lia|].
        right. right. lia.
  - cbn [bind].
    destruct (Z.leb_spec (json_length b + len + 1) (json_capacity b)); [|lia].
    eexists. split; [reflexivity|].
    cbn [json_result json_capacity json_length].
    split; [now apply Hfit|]. repeat split; auto; lia.
Qed.

Lemma json_append_fits_witness :
  exists b',
    json_append "null" json_reset = Ret b' /\
    json_fits b' /\
    json_result b' = "null"%string /\
    json_length b' = 4 /\
    0 <= json_capacity b' /\
    (json_capacity b' = 0 \/ json_capacity b' = 4096 \/
     json_capacity b' <= 2 * 4).
Proof.
  apply (json_append_fits "null" json_reset).
  - unfold json_fits. simpl. lia.
  - simpl. lia.
Defined.

End JsonFacts.

(** * Properties of the benchmark driver *)

Module BenchFacts.
Import Sort Bench SortFacts.
Local Open Scope Z_scope.

(** ** The data file *)

(** *** The loops over a line and over the lines *)

Lemma string_length_app (a b : string) :
  String.length (a ++ b) = (String.length a + String.length b)%nat.
Proof. induction a; simpl; auto. Qed.

Lemma char_at_head pre c s :
  Ast.char_at (pre ++ String c s) (String.length pre) = c.
Proof.
  rewrite <- (Nat.add_0_r (String.length pre)) at 1.
  now rewrite AstFacts.char_at_app.
Qed.

Lemma char_at_end pre : Ast.char_at pre (String.length pre) = zero.
Proof. unfold Ast.char_at. induction pre; simpl; auto. Qed.

Lemma snoc_app pre c s :
  (pre ++ String c s = (pre ++ String c "") ++ s)%string.
Proof. now rewrite AstFacts.append_assoc. Qed.

Lemma length_snoc pre c :
  String.length (pre ++ String c "") = S (String.length pre).
Proof. rewrite string_length_app. simpl. lia. Qed.

Lemma zero_not_digit : is_digit_char zero = false.
Proof. reflexivity. Qed.

(** The text that [digits] leaves is the end of the text it was given. *)
Lemma digits_split s : forall num,
  exists ds, s = (ds ++ snd (digits s num))%string /\
             (s <> ""%string -> is_digit_char (Ast.char_at s 0) = true ->
              ds <> ""%string).
Proof.
  induction s as [|c r IH]; intros num; simpl.
  - exists ""%string. split; [reflexivity | congruence].
  - unfold Ast.char_at; simpl. destruct (is_digit_char c) eqn:E.
    + destruct (IH (wrap (num * 10 + digit_value c))) as (ds & Hds & _).
      exists (String c ds). simpl. split; [congruence | discriminate].
    + exists ""%string. split; [reflexivity | congruence].
Qed.

Lemma digits_length s num :
  (String.length (snd (digits s num)) <= String.length s)%nat.
Proof.
  destruct (digits_split s num) as (ds & E & _).
  rewrite E at 2. rewrite string_length_app. lia.
Qed.

Lemma digits_length_lt c r num :
  is_digit_char c = true ->
  (String.length (snd (digits (String c r) num)) <= String.length r)%nat.
Proof.
  intros E. simpl. rewrite E. apply digits_length.
Qed.

(** The number loop on the end [s] of a line. *)
Lemma number_loop_spec s : forall pre num fuel,
  (String.length s <= fuel)%nat ->
  number_loop fuel (pre ++ s) (String.length pre) num =
  Ret (fst (digits s num),
       (String.length pre + (String.length s
                             - String.length (snd (digits s num))))%nat).
Proof.
  induction s as [|c r IH]; intros pre num fuel Hf.
  - destruct fuel; simpl; rewrite AstFacts.append_nil_r, char_at_end;
      simpl; do 2 f_equal; lia.
  - destruct fuel as [|fuel]; [simpl in Hf; lia|].
    cbn [number_loop digits]. rewrite char_at_head.
    destruct (is_digit_char c) eqn:E.
    + rewrite snoc_app, <- length_snoc with (c := c).
      rewrite IH by (simpl in Hf; lia).
      pose proof (digits_length r (wrap (num * 10 + digit_value c))).
      rewrite length_snoc. cbn [String.length]. do 2 f_equal. lia.
    + cbn [fst snd String.length]. do 2 f_equal. lia.
Qed.

(** The line loop on the end [s] of a line does not depend on what comes
    before, nor on the fuel once there is enough. *)
Lemma line_loop_suffix n : forall s,
  (String.length s <= n)%nat ->
  forall pre fuel in_array g,
    (String.length s <= fuel)%nat ->
    line_loop fuel (pre ++ s) (String.length pre) in_array g =
    scan_line s in_array g.
Proof.
  induction n as [|n IH]; intros s Hn pre fuel in_array g Hf.
  - destruct s; [|simpl in Hn; lia]. unfold scan_line.
    destruct fuel; simpl; rewrite AstFacts.append_nil_r, char_at_end; reflexivity.
  - destruct s as [|c r].
    { unfold scan_line.
      destruct fuel; simpl; rewrite AstFacts.append_nil_r, char_at_end; reflexivity. }
    destruct fuel as [|fuel]; [simpl in Hf; lia|].
    simpl in Hn, Hf.
    assert (Hrec : forall in_array g,
              line_loop fuel (pre ++ String c r) (S (String.length pre))
                in_array g = scan_line r in_array g).
    { intros. rewrite snoc_app, <- length_snoc with (c := c).
      apply IH; lia. }
    assert (Hrec0 : forall in_array g,
              line_loop (String.length r) (String c r) 1 in_array g =
              scan_line r in_array g).
    { intros. apply (IH r ltac:(lia) (String c "") (String.length r)). lia. }
    unfold scan_line at 1. cbn [String.length line_loop].
    rewrite char_at_head. change (Ast.char_at (String c r) 0) with c.
    destruct (Ascii.eqb c zero); [reflexivity|].
    destruct (Ascii.eqb c "["); [now rewrite Hrec, Hrec0|].
    destruct (Ascii.eqb c "]"); [reflexivity|].
    destruct (in_array && is_digit_char c) eqn:E; [|now rewrite Hrec, Hrec0].
    apply andb_prop in E as [_ E].
    rewrite (number_loop_spec (String c r) pre 0)
      by (rewrite string_length_app; lia).
    pose proof (number_loop_spec (String c r) "" 0 (S (String.length r))
                  ltac:(simpl; lia)) as H0.
    cbn [append String.length] in H0. rewrite H0. clear H0.
    cbn [bind]. 
    destruct (array_set (original_data g) (data_size g) _) as [data|f];
      [|reflexivity].
    cbn [bind].
    pose proof (digits_length_lt c r 0 E) as Hlen.
    destruct (digits_split (String c r) 0) as (ds & Hds & _).
    set (rest := snd (digits (String c r) 0)) in *.
    assert (Hl : (String.length ds + String.length rest
                  = S (String.length r))%nat).
    { rewrite <- string_length_app, <- Hds. reflexivity. }
    cbn [String.length].
    replace (S (String.length pre + (S (String.length r) - String.length rest) - 1))
      with (String.length (pre ++ ds)) by (rewrite string_length_app; lia).
    replace (S (0 + (S (String.length r) - String.length rest) - 1))
      with (String.length ds) by lia.
    rewrite Hds. rewrite <- AstFacts.append_assoc.
    rewrite (IH rest ltac:(lia) (pre ++ ds)%string) by lia.
    now rewrite (IH rest ltac:(lia) ds) by lia.
Qed.

Lemma scan_line_nil in_array g : scan_line "" in_array g = Ret (in_array, g).
Proof. reflexivity. Qed.

(** One turn of the line loop, on the text that is left of the line. *)
Lemma scan_line_cons c r in_array g :
  scan_line (String c r) in_array g =
  if Ascii.eqb c zero then Ret (in_array, g)
  else if Ascii.eqb c "[" then scan_line r true g
  else if Ascii.eqb c "]" then Ret (in_array, g)
  else if in_array && is_digit_char c then
    let* g' := store (fst (digits (String c r) 0)) g in
    scan_line (snd (digits (String c r) 0)) in_array g'
  else scan_line r in_array g.
Proof.
  assert (Hrec : forall in_array g,
            line_loop (String.length r) (String c r) 1 in_array g =
            scan_line r in_array g).
  { intros. apply (line_loop_suffix _ r (le_n _) (String c "")). lia. }
  unfold scan_line at 1. cbn [String.length line_loop].
  change (Ast.char_at (String c r) 0) with c.
  destruct (Ascii.eqb c zero); [reflexivity|].
  destruct (Ascii.eqb c "["); [now rewrite Hrec|].
  destruct (Ascii.eqb c "]"); [reflexivity|].
  destruct (in_array && is_digit_char c) eqn:E; [|now rewrite Hrec].
  apply andb_prop in E as [_ E].
  pose proof (number_loop_spec (String c r) "" 0 (S (String.length r))
                ltac:(simpl; lia)) as H0.
  cbn [append String.length] in H0. rewrite H0. clear H0.
  cbn [bind]. unfold store.
  destruct (array_set (original_data g) (data_size g) _) as [data|f];
    [|reflexivity].
  cbn [bind].
  pose proof (digits_length_lt c r 0 E) as Hlen.
  destruct (digits_split (String c r) 0) as (ds & Hds & _).
  set (rest := snd (digits (String c r) 0)) in *.
  assert (Hl : (String.length ds + String.length rest
                = S (String.length r))%nat).
  { rewrite <- string_length_app, <- Hds. reflexivity. }
  replace (S (0 + (S (String.length r) - String.length rest) - 1))
    with (String.length ds) by lia.
  rewrite Hds.
  now rewrite (line_loop_suffix _ rest (le_n _) ds) by lia.
Qed.

(** [fgets] cuts the file in two. *)
Lemma read_line_split count : forall file,
  file = (fst (read_line count file) ++ snd (read_line count file))%string.
Proof.
  induction count as [|count IH]; intros file; [reflexivity|].
  destruct file as [|c rest]; [reflexivity|]. cbn [read_line].
  destruct (Ascii.eqb c Ast.newline); [reflexivity|].
  specialize (IH rest). destruct (read_line count rest) as [line rest'].
  simpl in *. congruence.
Qed.

Lemma read_line_progress count c rest :
  (String.length (snd (read_line (S count) (String c rest)))
   <= String.length rest)%nat.
Proof.
  cbn [read_line]. destruct (Ascii.eqb c Ast.newline); [simpl; lia|].
  pose proof (read_line_split count rest) as H.
  destruct (read_line count rest) as [line rest']. simpl in *.
  apply (f_equal String.length) in H. rewrite string_length_app in H. lia.
Qed.

Lemma fgets_nil size : fgets size "" = None.
Proof. reflexivity. Qed.

Lemma fgets_cons c rest :
  exists line rest',
    fgets MAX_LINE_SIZE (String c rest) = Some (line, rest') /\
    String c rest = (line ++ rest')%string /\
    (String.length rest' <= String.length rest)%nat.
Proof.
  unfold fgets.
  pose proof (read_line_progress (MAX_LINE_SIZE - 2) c rest) as Hp.
  pose proof (read_line_split (MAX_LINE_SIZE - 1) (String c rest)) as Hs.
  change (S (MAX_LINE_SIZE - 2)) with (MAX_LINE_SIZE - 1)%nat in Hp.
  destruct (read_line (MAX_LINE_SIZE - 1) (String c rest)) as [line rest'].
  exists line, rest'. auto.
Qed.

Lemma data_loop_fuel n : forall file,
  (String.length file <= n)%nat ->
  forall fuel in_array g,
    (String.length file <= fuel)%nat ->
    data_loop fuel file in_array g = read_data file in_array g.
Proof.
  induction n as [|n IH]; intros file Hn fuel in_array g Hf.
  - destruct file; [|simpl in Hn; lia]. destruct fuel; reflexivity.
  - destruct file as [|c rest]; [destruct fuel; reflexivity|].
    destruct fuel as [|fuel]; [simpl in Hf; lia|].
    unfold read_data. cbn [String.length data_loop].
    destruct (fgets_cons c rest) as (line & rest' & -> & _ & Hp).
    simpl in Hn, Hf.
    destruct (line_loop _ line 0 in_array g) as [[ia g']|f]; [|reflexivity].
    cbn [bind]. rewrite !IH by lia. reflexivity.
Qed.

(** One turn of the loop over the lines. *)
Lemma read_data_eq file in_array g :
  read_data file in_array g =
  match fgets MAX_LINE_SIZE file with
  | None => Ret (in_array, g)
  | Some (line, rest) =>
      let* '(in_array, g) := scan_line line in_array g in
      read_data rest in_array g
  end.
Proof.
  destruct file as [|c rest]; [reflexivity|].
  unfold read_data at 1. cbn [String.length data_loop].
  destruct (fgets_cons c rest) as (line & rest' & -> & _ & Hp).
  fold (scan_line line in_array g).
  destruct (scan_line line in_array g) as [[ia g']|f]; [|reflexivity].
  cbn [bind]. now apply (data_loop_fuel _ rest' (le_n _)).
Qed.

(** *** Lines and chunks *)

Lemma read_line_whole count : forall pre rest,
  pre <> ""%string -> whole_lines pre = true ->
  read_line count (pre ++ rest) =
    (fst (read_line count pre), (snd (read_line count pre) ++ rest)%string) /\
  whole_lines (snd (read_line count pre)) = true.
Proof.
  induction count as [|count IH]; intros pre rest Hne Hw.
  - simpl. destruct (pre ++ rest)%string; auto.
  - destruct pre as [|c p]; [congruence|]. cbn [append read_line].
    destruct (Ascii.eqb c Ast.newline) eqn:Ec.
    + cbn [fst snd]. split; [reflexivity|].
      destruct p; [reflexivity | exact Hw].
    + destruct p as [|c' p]; [simpl in Hw; congruence|].
      destruct (IH (String c' p) rest) as [E Hw']; [discriminate | exact Hw |].
      rewrite E. destruct (read_line count (String c' p)) as [l r].
      cbn [fst snd] in *. auto.
Qed.

Lemma fgets_unfold size c r :
  fgets size (String c r) = Some (read_line (size - 1) (String c r)).
Proof. reflexivity. Qed.

Lemma fgets_some size c r line rest :
  fgets size (String c r) = Some (line, rest) ->
  read_line (size - 1) (String c r) = (line, rest).
Proof. unfold fgets. congruence. Qed.

Lemma read_data_nil in_array g : read_data "" in_array g = Ret (in_array, g).
Proof. reflexivity. Qed.

(** Reading whole lines and then the rest of the file. *)
Lemma read_data_app n : forall pre,
  (String.length pre <= n)%nat -> whole_lines pre = true ->
  forall rest in_array g,
    read_data (pre ++ rest) in_array g =
    let* '(in_array, g) := read_data pre in_array g in
    read_data rest in_array g.
Proof.
  induction n as [|n IH]; intros pre Hn Hw rest in_array g.
  - destruct pre; [|simpl in Hn; lia]. reflexivity.
  - destruct pre as [|c p]; [reflexivity|].
    rewrite (read_data_eq (String c p ++ rest)). rewrite (read_data_eq (String c p)).
    destruct (fgets_cons c p) as (line & p' & E & _ & Hp).
    rewrite E. cbn [append]. rewrite fgets_unfold.
    apply fgets_some in E.
    destruct (read_line_whole (MAX_LINE_SIZE - 1) (String c p) rest
                ltac:(discriminate) Hw) as [E' Hw'].
    cbn [append] in E'. rewrite E in E', Hw'. rewrite E'. cbn [fst snd] in *.
    destruct (scan_line line in_array g) as [[ia g']|f]; [|reflexivity].
    cbn [bind]. apply IH; [simpl in Hn; lia | exact Hw'].
Qed.

Lemma read_line_short count : forall a rest,
  no_newline a = true -> (String.length a < count)%nat ->
  read_line count (a ++ String Ast.newline rest) =
    ((a ++ String Ast.newline "")%string, rest).
Proof.
  induction count as [|count IH]; intros a rest Hn Hl; [lia|].
  destruct a as [|c a]; [reflexivity|].
  cbn [append read_line]. unfold no_newline in Hn. simpl in Hn.
  apply andb_prop in Hn as [Hc Hn]. apply negb_true_iff in Hc. rewrite Hc.
  rewrite IH by (auto; simpl in Hl; lia). reflexivity.
Qed.

Lemma read_line_full count : forall a rest,
  no_newline a = true -> String.length a = count ->
  read_line count (a ++ rest) = (a, rest).
Proof.
  induction count as [|count IH]; intros a rest Hn Hl.
  - destruct a; [|discriminate]. simpl. now destruct rest.
  - destruct a as [|c a]; [discriminate|].
    cbn [append read_line]. unfold no_newline in Hn. simpl in Hn.
    apply andb_prop in Hn as [Hc Hn]. apply negb_true_iff in Hc. rewrite Hc.
    rewrite IH by (auto; simpl in Hl; lia). reflexivity.
Qed.

Lemma fgets_short a rest :
  no_newline a = true -> (String.length a < MAX_LINE_SIZE - 1)%nat ->
  fgets MAX_LINE_SIZE (a ++ String Ast.newline rest) =
    Some ((a ++ String Ast.newline "")%string, rest).
Proof.
  intros Hn Hl. unfold fgets. rewrite read_line_short by assumption.
  now destruct a.
Qed.

Lemma fgets_full a rest :
  no_newline a = true -> String.length a = (MAX_LINE_SIZE - 1)%nat ->
  fgets MAX_LINE_SIZE (a ++ rest) = Some (a, rest).
Proof.
  intros Hn Hl. unfold fgets. rewrite read_line_full by assumption.
  destruct a; [discriminate | reflexivity].
Qed.

(** *** The digits at the head of a text *)

Lemma digits_app_stop x t : forall p num,
  is_digit_char x = false ->
  digits (p ++ String x t) num =
    (fst (digits p num), (snd (digits p num) ++ String x t)%string).
Proof.
  induction p as [|c p IH]; intros num Hx; simpl.
  - now rewrite Hx.
  - destruct (is_digit_char c); [now apply IH | reflexivity].
Qed.

(** A character at which the line loop stops hides the rest of the
    line. *)
Lemma scan_line_stop x t :
  is_digit_char x = false ->
  (forall in_array g, scan_line (String x t) in_array g = Ret (in_array, g)) ->
  forall n p, (String.length p <= n)%nat ->
  forall in_array g,
    scan_line (p ++ String x t) in_array g = scan_line p in_array g.
Proof.
  intros Hx Hstop. induction n as [|n IH]; intros p Hn in_array g.
  - destruct p; [|simpl in Hn; lia]. now rewrite Hstop.
  - destruct p as [|c p]; [now rewrite Hstop|].
    cbn [append]. rewrite !scan_line_cons. simpl in Hn.
    destruct (Ascii.eqb c zero); [reflexivity|].
    destruct (Ascii.eqb c "["); [apply IH; lia|].
    destruct (Ascii.eqb c "]"); [reflexivity|].
    destruct (in_array && is_digit_char c) eqn:E; [|apply IH; lia].
    apply andb_prop in E as [_ E].
    change (String c (p ++ String x t)) with (String c p ++ String x t)%string.
    rewrite digits_app_stop by assumption. cbn [fst snd].
    destruct (store _ g) as [g'|f]; [|reflexivity]. cbn [bind].
    apply IH. pose proof (digits_length_lt c p 0 E). lia.
Qed.

Lemma scan_line_close p t in_array g :
  scan_line (p ++ String "]" t) in_array g = scan_line p in_array g.
Proof.
  apply (scan_line_stop "]" t) with (n := String.length p); auto.
Qed.

Lemma scan_line_newline p in_array g :
  scan_line (p ++ String Ast.newline "") in_array g = scan_line p in_array g.
Proof.
  apply (scan_line_stop Ast.newline "") with (n := String.length p);
    auto; intros [] ?; reflexivity.
Qed.

Lemma parse_data_json_eq text g :
  parse_data_json (Some text) g =
  let* '(_, g') := read_data text false
                     (mkGlobals (original_data g) (work_data g)
                        (expected_data g) 0 (iterations g)) in
  Ret (g', data_size g').
Proof. reflexivity. Qed.

(** X22. [fgets] hands over at most 1023 characters at a time, so a line
    that is longer is read as if it were broken after its 1023rd character:
    a number that lies across that place is read as two. *)
Theorem long_line_is_cut pre s1 s2 g :
  whole_lines pre = true -> no_newline s1 = true ->
  String.length s1 = (MAX_LINE_SIZE - 1)%nat ->
  parse_data_json (Some (pre ++ s1 ++ s2)%string) g =
  parse_data_json (Some (pre ++ s1 ++ String Ast.newline s2)%string) g.
Proof.
  intros Hw Hn Hl. rewrite !parse_data_json_eq. f_equal.
  rewrite !(read_data_app _ pre (le_n _) Hw).
  destruct (read_data pre false _) as [[ia g']|f]; [|reflexivity].
  cbn [bind].
  rewrite (read_data_eq (s1 ++ s2)), (read_data_eq (s1 ++ String _ s2)).
  rewrite !fgets_full by assumption.
  destruct (scan_line s1 ia g') as [[ia' g'']|f]; [|reflexivity].
  cbn [bind]. rewrite (read_data_eq (String _ s2)).
  replace (fgets MAX_LINE_SIZE (String Ast.newline s2))
    with (Some (String Ast.newline "", s2)) by reflexivity.
  destruct ia'; reflexivity.
Qed.

Lemma long_line_is_cut_witness :
  parse_data_json
    (Some (String "[" (String Ast.newline "") ++ sample_long_line ++ "2]")%string)
    sample_globals =
  parse_data_json
    (Some (String "[" (String Ast.newline "") ++ sample_long_line
           ++ String Ast.newline "2]")%string)
    sample_globals /\
  parse_data_json
    (Some (String "[" (String Ast.newline "") ++ sample_long_line ++ "2]")%string)
    sample_globals =
  Ret (mkGlobals [1; 2; 7; 7; 7] [8; 8; 8; 8; 8] [9; 9; 9; 9; 9] 2 10, 2).
Proof.
  split.
  - apply (long_line_is_cut (String "[" (String Ast.newline ""))
             sample_long_line "2]" sample_globals);
      vm_compute; reflexivity.
  - vm_compute. reflexivity.
Defined.

(** X23. A closing bracket ends the line, not the array: what follows it
    on the same line is skipped, and the lines after it are read as if the
    line had ended at the bracket. *)
Theorem closing_bracket_ends_the_line pre p b post g :
  whole_lines pre = true -> no_newline p = true -> no_newline b = true ->
  (String.length p + String.length b + 2 <= MAX_LINE_SIZE - 1)%nat ->
  parse_data_json
    (Some (pre ++ p ++ String "]" (b ++ String Ast.newline post))%string) g =
  parse_data_json (Some (pre ++ p ++ String Ast.newline post)%string) g.
Proof.
  intros Hw Hp Hb Hl. rewrite !parse_data_json_eq. f_equal.
  rewrite !(read_data_app _ pre (le_n _) Hw).
  destruct (read_data pre false _) as [[ia g']|f]; [|reflexivity].
  cbn [bind].
  replace (p ++ String "]" (b ++ String Ast.newline post))%string
    with ((p ++ String "]" b) ++ String Ast.newline post)%string
    by (rewrite AstFacts.append_assoc; reflexivity).
  rewrite (read_data_eq (_ ++ String _ post)),
          (read_data_eq (p ++ String _ post)).
  assert (Hn1 : no_newline (p ++ String "]" b) = true).
  { unfold no_newline in *. rewrite AstFacts.all_chars_app, Hp. exact Hb. }
  assert (Hl1 : (String.length (p ++ String "]" b) < MAX_LINE_SIZE - 1)%nat).
  { rewrite string_length_app. simpl String.length. lia. }
  rewrite (fgets_short _ post Hn1 Hl1), (fgets_short p post Hp) by lia.
  rewrite AstFacts.append_assoc. cbn [append].
  now rewrite scan_line_close, scan_line_newline.
Qed.

Lemma closing_bracket_ends_the_line_witness :
  parse_data_json
    (Some ("[1,2" ++ String "]" (", 3" ++ String Ast.newline
                                  ("4" ++ String Ast.newline "")))%string)
    sample_globals =
  parse_data_json
    (Some ("[1,2" ++ String Ast.newline ("4" ++ String Ast.newline ""))%string)
    sample_globals /\
  parse_data_json
    (Some ("[1,2" ++ String "]" (", 3" ++ String Ast.newline
                                  ("4" ++ String Ast.newline "")))%string)
    sample_globals =
  Ret (mkGlobals [1; 2; 4; 7; 7] [8; 8; 8; 8; 8] [9; 9; 9; 9; 9] 3 10, 3).
Proof.
  split.
  - apply (closing_bracket_ends_the_line "" "[1,2" ", 3"
             ("4" ++ String Ast.newline "") sample_globals);
      try reflexivity.
    unfold MAX_LINE_SIZE. simpl. lia.
  - vm_compute. reflexivity.
Defined.

(** *** Characters without meaning *)

Lemma inert_facts c :
  inert c = true ->
  is_digit_char c = false /\ Ascii.eqb c "[" = false /\
  Ascii.eqb c "]" = false /\ Ascii.eqb c Ast.newline = false /\
  Ascii.eqb c zero = false.
Proof.
  unfold inert. rewrite !andb_true_iff, !negb_true_iff. tauto.
Qed.

Lemma blank_out_length s : String.length (blank_out s) = String.length s.
Proof. induction s; simpl; congruence. Qed.

Lemma digits_blank_out s : forall num,
  digits (blank_out s) num =
  (fst (digits s num), blank_out (snd (digits s num))).
Proof.
  induction s as [|c r IH]; intros num; [reflexivity|].
  cbn [blank_out digits]. destruct (inert c) eqn:Ei.
  - pose proof (inert_facts _ Ei) as (-> & _).
    change (is_digit_char " ") with false. cbn [fst snd blank_out].
    now rewrite Ei.
  - destruct (is_digit_char c); [apply IH|].
    cbn [fst snd blank_out]. now rewrite Ei.
Qed.

Lemma scan_line_blank_out n : forall line,
  (String.length line <= n)%nat ->
  forall in_array g,
    scan_line (blank_out line) in_array g = scan_line line in_array g.
Proof.
  induction n as [|n IH]; intros line Hn in_array g.
  - destruct line; [reflexivity | simpl in Hn; lia].
  - destruct line as [|c r]; [reflexivity|]. simpl in Hn.
    cbn [blank_out]. rewrite !scan_line_cons.
    destruct (inert c) eqn:Ei.
    + pose proof (inert_facts _ Ei) as (Ed & -> & -> & _ & ->).
      rewrite Ed. change (is_digit_char " ") with false.
      rewrite !andb_false_r.
      change (Ascii.eqb " " zero) with false.
      change (Ascii.eqb " " "[") with false.
      change (Ascii.eqb " " "]") with false.
      cbv iota. apply IH; lia.
    + destruct (Ascii.eqb c zero); [reflexivity|].
      destruct (Ascii.eqb c "["); [apply IH; lia|].
      destruct (Ascii.eqb c "]"); [reflexivity|].
      destruct (in_array && is_digit_char c) eqn:E; [|apply IH; lia].
      apply andb_prop in E as [_ E].
      pose proof (digits_blank_out (String c r) 0) as Hd.
      cbn [blank_out] in Hd. rewrite Ei in Hd. rewrite Hd. cbn [fst snd].
      destruct (store _ g) as [g'|f]; [|reflexivity]. cbn [bind].
      apply IH. pose proof (digits_length_lt c r 0 E). lia.
Qed.

Lemma read_line_blank_out count : forall file,
  read_line count (blank_out file) =
  (blank_out (fst (read_line count file)),
   blank_out (snd (read_line count file))).
Proof.
  induction count as [|count IH]; intros file.
  - destruct file; reflexivity.
  - destruct file as [|c r]; [reflexivity|]. cbn [blank_out read_line].
    destruct (inert c) eqn:Ei.
    + pose proof (inert_facts _ Ei) as (_ & _ & _ & -> & _).
      cbn [Ascii.eqb Bool.eqb Ast.newline]. rewrite IH.
      destruct (read_line count r). cbn [fst snd blank_out].
      now rewrite Ei.
    + destruct (Ascii.eqb c Ast.newline).
      * cbn [fst snd blank_out]. now rewrite Ei.
      * rewrite IH. destruct (read_line count r). cbn [fst snd blank_out].
        now rewrite Ei.
Qed.

Lemma read_data_blank_out n : forall file,
  (String.length file <= n)%nat ->
  forall in_array g,
    read_data (blank_out file) in_array g = read_data file in_array g.
Proof.
  induction n as [|n IH]; intros file Hn in_array g.
  - destruct file; [reflexivity | simpl in Hn; lia].
  - destruct file as [|c r]; [reflexivity|]. simpl in Hn.
    rewrite (read_data_eq (blank_out _)), (read_data_eq (String c r)).
    destruct (fgets_cons c r) as (line & rest & E & _ & Hl).
    rewrite E. apply fgets_some in E.
    cbn [blank_out]. rewrite fgets_unfold.
    change (String (if inert c then " "%char else c) (blank_out r))
      with (blank_out (String c r)).
    rewrite read_line_blank_out, E. cbn [fst snd].
    rewrite (scan_line_blank_out _ line (le_n _)).
    destruct (scan_line line in_array g) as [[ia g']|f]; [|reflexivity].
    cbn [bind]. apply IH. lia.
Qed.

(** X24. The reader takes notice of digits, brackets, line feeds and
    the zero character only: every other character, a minus sign or a
    decimal point among them, can be replaced by a blank without any change
    to what is read. *)
Theorem other_characters_are_blanks text g :
  parse_data_json (Some (blank_out text)) g = parse_data_json (Some text) g.
Proof.
  rewrite !parse_data_json_eq.
  now rewrite (read_data_blank_out _ text (le_n _)).
Qed.

(** *** Decimal numerals *)

Lemma digits_clear s num : starts_clear s = true -> digits s num = (num, s).
Proof.
  destruct s as [|c r]; [reflexivity|]. simpl.
  intros H. apply negb_true_iff in H. now rewrite H.
Qed.

Lemma of_uint_acc_le d : forall acc, (acc <= Pos.of_uint_acc d acc)%positive.
Proof.
  induction d; intros acc; simpl; try (etransitivity; [|apply IHd]); lia.
Qed.

Lemma wrap_id z : 0 <= z <= INT_MAX -> wrap z = z.
Proof.
  unfold INT_MAX, wrap. intros H. rewrite Z.mod_small; lia.
Qed.

Ltac numeral_step IHd acc H :=
  cbn [NilEmpty.string_of_uint append digits];
  change (is_digit_char _) with true; cbv iota;
  match goal with
  | |- context [digit_value ?c] =>
      let v := eval vm_compute in (digit_value c) in
      change (digit_value c) with v
  end.

Lemma digits_numeral_acc rest d : forall acc,
  starts_clear rest = true ->
  Z.pos (Pos.of_uint_acc d acc) <= INT_MAX ->
  digits (NilEmpty.string_of_uint d ++ rest) (Z.pos acc) =
    (Z.pos (Pos.of_uint_acc d acc), rest).
Proof.
  induction d; intros acc Hr H;
    [now apply digits_clear| ..];
    numeral_step IHd acc H;
    cbn [Pos.of_uint_acc] in H |- *;
    pose proof (of_uint_acc_le d) as Hle;
    (rewrite wrap_id;
     [ match goal with
       | |- digits _ ?z = (Z.pos (Pos.of_uint_acc d ?a), _) =>
           replace z with (Z.pos a) by lia
       end; apply IHd; assumption
     | match goal with
       | H : Z.pos (Pos.of_uint_acc d ?a) <= _ |- _ =>
           specialize (Hle a); lia
       end ]).
Qed.

Lemma digits_numeral rest d :
  starts_clear rest = true ->
  Z.of_N (Pos.of_uint d) <= INT_MAX ->
  digits (NilEmpty.string_of_uint d ++ rest) 0 =
    (Z.of_N (Pos.of_uint d), rest).
Proof.
  intros Hr. induction d; intros H;
    [now apply digits_clear| ..];
    numeral_step IHd 1%positive H;
    cbn [Pos.of_uint] in H |- *;
    cbn [Z.mul Z.add];
    rewrite wrap_id by (unfold INT_MAX; lia);
    [now apply IHd | ..];
    now apply digits_numeral_acc.
Qed.

Lemma numeral_digits d :
  Ast.all_chars is_digit_char (NilEmpty.string_of_uint d) = true.
Proof. induction d; simpl; auto. Qed.

Lemma print_int_digits x :
  0 <= x -> Ast.all_chars is_digit_char (Ast.print_int x) = true.
Proof.
  intros H. unfold Ast.print_int. destruct x as [|p|p]; [reflexivity| |lia].
  cbn [Z.to_int NilZero.string_of_int]. unfold NilZero.string_of_uint.
  destruct (Pos.to_uint p); try reflexivity; apply numeral_digits.
Qed.

Lemma print_int_head x :
  0 <= x ->
  exists c r, Ast.print_int x = String c r /\ is_digit_char c = true.
Proof.
  intros H. pose proof (print_int_digits x H) as Hd.
  unfold Ast.print_int in *. destruct x as [|p|p]; [now eexists _, _| |lia].
  cbn [Z.to_int NilZero.string_of_int] in *.
  unfold NilZero.string_of_uint in *.
  destruct (Pos.to_uint p); try (now eexists _, _).
Qed.

(** Reading a numeral gives its value. *)
Lemma digits_print_int x rest :
  0 <= x <= INT_MAX -> starts_clear rest = true ->
  digits (Ast.print_int x ++ rest) 0 = (x, rest).
Proof.
  intros Hx Hr. unfold Ast.print_int.
  pose proof (DecimalZ.of_to x) as Hof.
  destruct x as [|p|p]; [|  |lia].
  { change (digits (String "0" rest) 0 = (0, rest)). cbn [digits].
    change (is_digit_char "0") with true. cbv iota.
    change (wrap (0 * 10 + digit_value "0")) with 0.
    now apply digits_clear. }
  cbn [Z.to_int NilZero.string_of_int Z.of_int] in *.
  unfold Z.of_uint in Hof.
  unfold NilZero.string_of_uint.
  destruct (Pos.to_uint p) eqn:E;
    [simpl in Hof; discriminate| ..];
    rewrite <- Hof; apply digits_numeral; try assumption; rewrite Hof; lia.
Qed.

(** *** The line loop on the parts of a data file *)

Lemma digit_char_facts c :
  is_digit_char c = true ->
  Ascii.eqb c zero = false /\ Ascii.eqb c "[" = false /\
  Ascii.eqb c "]" = false /\ Ascii.eqb c Ast.newline = false.
Proof.
  intros H. repeat split;
    match goal with
    | |- Ascii.eqb c ?x = false =>
        destruct (Ascii.eqb_spec c x) as [->|]; [discriminate | reflexivity]
    end.
Qed.

Lemma scan_line_prelude rest g : forall lead,
  Ast.all_chars is_prelude lead = true ->
  scan_line (lead ++ rest) false g = scan_line rest false g.
Proof.
  induction lead as [|c lead IH]; intros H; [reflexivity|].
  simpl in H. apply andb_prop in H as [Hc H].
  unfold is_prelude in Hc. rewrite !andb_true_iff, !negb_true_iff in Hc.
  destruct Hc as [[Ho Hc] Hz].
  cbn [append]. rewrite scan_line_cons, Hz, Ho, Hc. cbn [andb]. auto.
Qed.

Lemma scan_line_open rest in_array g :
  scan_line (String "[" rest) in_array g = scan_line rest true g.
Proof. now rewrite scan_line_cons. Qed.

Lemma scan_line_blanks rest in_array g : forall pad,
  Ast.all_chars is_blank pad = true ->
  scan_line (pad ++ rest) in_array g = scan_line rest in_array g.
Proof.
  induction pad as [|c pad IH]; intros H; [reflexivity|].
  simpl in H. apply andb_prop in H as [Hc H].
  unfold is_blank in Hc. rewrite !andb_true_iff, !negb_true_iff in Hc.
  destruct Hc as [[[Hd Ho] Hc] Hz].
  cbn [append]. rewrite scan_line_cons, Hz, Ho, Hc, Hd, andb_false_r. auto.
Qed.

Lemma scan_line_number x rest g :
  0 <= x <= INT_MAX -> starts_clear rest = true ->
  scan_line (Ast.print_int x ++ rest) true g =
  let* g' := store x g in scan_line rest true g'.
Proof.
  intros Hx Hr.
  pose proof (digits_print_int x rest Hx Hr) as Hd.
  destruct (print_int_head x ltac:(lia)) as (c & r & E & Hc).
  rewrite E in *. cbn [append] in *.
  destruct (digit_char_facts c Hc) as (Hz & Ho & Hcl & _).
  rewrite scan_line_cons, Hz, Ho, Hcl, Hc, Hd. reflexivity.
Qed.

Lemma store_next x done free g :
  original_data g = (done ++ free)%list ->
  data_size g = Z.of_nat (length done) ->
  store x g =
  match free with
  | [] => Stop OutOfBounds
  | _ :: free' =>
      Ret (mkGlobals ((done ++ [x]) ++ free') (work_data g) (expected_data g)
             (Z.of_nat (length (done ++ [x]))) (iterations g))
  end.
Proof.
  intros Hd Hs. unfold store, array_set. rewrite Hd, Hs, length_app.
  destruct free as [|y free'].
  - replace (_ && _) with false; [reflexivity|].
    symmetry. apply andb_false_iff. right. apply Z.ltb_ge. simpl. lia.
  - replace (_ && _) with true.
    2:{ symmetry. apply andb_true_iff. split; [apply Z.leb_le | apply Z.ltb_lt];
        simpl length; lia. }
    cbn [bind]. rewrite Nat2Z.id.
    rewrite insert_app_r_alt by lia. rewrite Nat.sub_diag. cbn [insert list_insert].
    rewrite <- app_assoc. cbn [app]. do 2 f_equal.
    rewrite length_app. simpl. lia.
Qed.

Lemma join_cons sep x y rest :
  join sep (x :: y :: rest) = (x ++ sep ++ join sep (y :: rest))%string.
Proof. reflexivity. Qed.

Lemma starts_clear_blanks pad rest :
  Ast.all_chars is_blank pad = true ->
  pad <> ""%string \/ starts_clear rest = true ->
  starts_clear (pad ++ rest) = true.
Proof.
  destruct pad as [|c pad]; [intros _ [?|?]; [congruence | assumption]|].
  simpl. intros H _.
  apply andb_prop in H as [Hc _]. unfold is_blank in Hc.
  rewrite !andb_true_iff in Hc. tauto.
Qed.

(** The numbers of the array, one after the other. *)
Lemma scan_line_items sep rest :
  Ast.all_chars is_blank sep = true -> sep <> ""%string ->
  starts_clear rest = true ->
  forall values done free g,
    Forall (fun x => 0 <= x <= INT_MAX) values ->
    original_data g = (done ++ free)%list ->
    data_size g = Z.of_nat (length done) ->
    scan_line (join sep (map Ast.print_int values) ++ rest) true g =
    if (length values <=? length free)%nat
    then scan_line rest true
           (mkGlobals (done ++ values ++ drop (length values) free)
              (work_data g) (expected_data g)
              (Z.of_nat (length done + length values)) (iterations g))
    else Stop OutOfBounds.
Proof.
  intros Hsep Hne Hr values.
  induction values as [|x vs IH]; intros done free g Hv Hd Hs.
  - cbn [map join append length app]. simpl Nat.leb. cbv iota.
    rewrite drop_0, Nat.add_0_r, <- Hd, <- Hs. now destruct g.
  - apply Forall_cons in Hv as [Hx Hv].
    assert (Hstep : forall R, starts_clear R = true ->
              scan_line (Ast.print_int x ++ R) true g =
              match free with
              | [] => Stop OutOfBounds
              | _ :: free' =>
                  scan_line R true
                    (mkGlobals ((done ++ [x]) ++ free') (work_data g)
                       (expected_data g)
                       (Z.of_nat (length (done ++ [x]))) (iterations g))
              end).
    { intros R HR. rewrite scan_line_number by assumption.
      rewrite (store_next x done free g Hd Hs). now destruct free. }
    destruct vs as [|y vs].
    + cbn [map join]. rewrite Hstep by assumption.
      destruct free as [|z free']; [reflexivity|].
      cbn [length drop]. simpl Nat.leb. cbv iota.
      rewrite drop_0, length_app, <- app_assoc. reflexivity.
    + cbn [map]. rewrite join_cons, !AstFacts.append_assoc.
      rewrite Hstep by (apply starts_clear_blanks; auto).
      destruct free as [|z free']; [reflexivity|].
      rewrite scan_line_blanks by assumption.
      change (Ast.print_int y :: map Ast.print_int vs)
        with (map Ast.print_int (y :: vs)).
      rewrite (IH (done ++ [x])%list free') by (auto; reflexivity).
      cbn [work_data expected_data iterations].
      change (length (x :: y :: vs)) with (S (length (y :: vs))).
      change (length (z :: free')) with (S (length free')).
      change (S (length (y :: vs)) <=? S (length free'))%nat
        with (length (y :: vs) <=? length free')%nat.
      destruct (length (y :: vs) <=? length free')%nat; [|reflexivity].
      rewrite <- !app_assoc, length_app. cbn [app drop length].
      do 3 f_equal. lia.
Qed.

(** *** Lines that fit *)

(** A line without closing bracket and zero is read to its end, and the
    next line goes on from there. *)
Lemma scan_line_split r n : forall a,
  (String.length a <= n)%nat ->
  Ast.all_chars is_clean a = true ->
  forall in_array g,
    scan_line (a ++ String Ast.newline r) in_array g =
    let* '(in_array, g) := scan_line a in_array g in
    scan_line r in_array g.
Proof.
  induction n as [|n IH]; intros a Hn Ha in_array g.
  - destruct a; [|simpl in Hn; lia]. cbn [append].
    rewrite scan_line_cons. now destruct in_array.
  - destruct a as [|c a].
    { cbn [append]. rewrite scan_line_cons. now destruct in_array. }
    simpl in Hn, Ha. apply andb_prop in Ha as [Hc Ha].
    unfold is_clean in Hc. rewrite andb_true_iff, !negb_true_iff in Hc.
    destruct Hc as [Hcl Hz].
    cbn [append]. rewrite !scan_line_cons, Hz, Hcl.
    destruct (Ascii.eqb c "["); [apply IH; auto; lia|].
    destruct (in_array && is_digit_char c) eqn:E; [|apply IH; auto; lia].
    apply andb_prop in E as [_ E].
    change (String c (a ++ String Ast.newline r))
      with (String c a ++ String Ast.newline r)%string.
    rewrite digits_app_stop by reflexivity. cbn [fst snd].
    destruct (store _ g) as [g'|f]; [|reflexivity]. cbn [bind].
    pose proof (digits_length_lt c a 0 E) as Hl.
    destruct (digits_split (String c a) 0) as (ds & Hds & _).
    apply IH; [lia|].
    assert (Hall : Ast.all_chars is_clean (String c a) = true).
    { simpl. unfold is_clean at 1. now rewrite Hcl, Hz. }
    rewrite Hds, AstFacts.all_chars_app in Hall.
    now apply andb_prop in Hall as [_ Hall].
Qed.

(** The first chunk of a file whose lines fit, up to the bracket that
    closes the array. *)
Lemma read_line_front tail : forall front count,
  lines_fit count (front ++ String "]" "") = true ->
  (exists a front',
     front = (a ++ String Ast.newline front')%string /\
     read_line count (front ++ String "]" tail) =
       ((a ++ String Ast.newline "")%string,
        (front' ++ String "]" tail)%string) /\
     lines_fit (MAX_LINE_SIZE - 1) (front' ++ String "]" "") = true) \/
  (exists t1 t2,
     tail = (t1 ++ t2)%string /\
     read_line count (front ++ String "]" tail) =
       ((front ++ String "]" t1)%string, t2)).
Proof.
  induction front as [|c front IH]; intros count H.
  - right. destruct count as [|count]; [discriminate|].
    cbn [append read_line]. change (Ascii.eqb "]" Ast.newline) with false.
    cbv iota. exists (fst (read_line count tail)), (snd (read_line count tail)).
    split; [apply read_line_split|].
    now destruct (read_line count tail).
  - destruct count as [|count]; [discriminate|].
    cbn [append lines_fit read_line] in *.
    destruct (Ascii.eqb c Ast.newline) eqn:Ec.
    + left. exists ""%string, front. apply Ascii.eqb_eq in Ec. subst c.
      auto.
    + destruct (IH count H) as [(a & front' & E1 & E2 & E3)|(t1 & t2 & E1 & E2)].
      * left. exists (String c a), front'. subst front. rewrite E2.
        cbn [append]. auto.
      * right. exists t1, t2. rewrite E2. auto.
Qed.

Lemma scan_line_no_digit g : forall line in_array,
  Ast.all_chars no_digit line = true ->
  exists in_array', scan_line line in_array g = Ret (in_array', g).
Proof.
  induction line as [|c line IH]; intros in_array H; [now eexists|].
  simpl in H. apply andb_prop in H as [Hc H].
  unfold no_digit in Hc. apply negb_true_iff in Hc.
  rewrite scan_line_cons, Hc, andb_false_r.
  destruct (Ascii.eqb c zero); [now eexists|].
  destruct (Ascii.eqb c "["); [now apply IH|].
  destruct (Ascii.eqb c "]"); [now eexists|]. now apply IH.
Qed.

Lemma read_data_no_digit g n : forall file,
  (String.length file <= n)%nat ->
  Ast.all_chars no_digit file = true ->
  forall in_array,
  exists in_array', read_data file in_array g = Ret (in_array', g).
Proof.
  induction n as [|n IH]; intros file Hn H in_array.
  - destruct file; [now eexists | simpl in Hn; lia].
  - destruct file as [|c r]; [now eexists|].
    rewrite read_data_eq.
    destruct (fgets_cons c r) as (line & rest & -> & E & Hl).
    rewrite E, AstFacts.all_chars_app in H.
    apply andb_prop in H as [H1 H2].
    destruct (scan_line_no_digit g line in_array H1) as (ia & ->).
    cbn [bind]. apply IH; [simpl in Hn; lia | assumption].
Qed.

Lemma fgets_front front tail :
  fgets MAX_LINE_SIZE (front ++ String "]" tail) =
  Some (read_line (MAX_LINE_SIZE - 1) (front ++ String "]" tail)).
Proof. destruct front; reflexivity. Qed.

(** A file whose lines fit is read like one long line, up to the bracket
    that closes the array; after it no digit is left. *)
Lemma read_data_front tail n : forall front,
  (String.length front <= n)%nat ->
  Ast.all_chars is_clean front = true ->
  lines_fit (MAX_LINE_SIZE - 1) (front ++ String "]" "") = true ->
  Ast.all_chars no_digit tail = true ->
  forall in_array g,
    globals_of (read_data (front ++ String "]" tail) in_array g) =
    globals_of (scan_line front in_array g).
Proof.
  induction n as [|n IH]; intros front Hn Hc Hf Ht in_array g;
    rewrite read_data_eq, fgets_front;
    destruct (read_line_front tail front _ Hf)
      as [(a & front' & E1 & E2 & E3)|(t1 & t2 & E1 & E2)];
    rewrite E2.
  - subst front. rewrite string_length_app in Hn. simpl in Hn. lia.
  - rewrite scan_line_close.
    destruct (scan_line front in_array g) as [[ia g']|f]; [|reflexivity].
    cbn [bind]. rewrite E1, AstFacts.all_chars_app in Ht.
    apply andb_prop in Ht as [_ Ht].
    destruct (read_data_no_digit g' _ t2 (le_n _) Ht ia) as (ia' & ->).
    reflexivity.
  - subst front. rewrite AstFacts.all_chars_app in Hc.
    apply andb_prop in Hc as [Ha Hc]. simpl in Hc.
    rewrite string_length_app in Hn. simpl in Hn.
    rewrite scan_line_newline.
    rewrite (scan_line_split front' _ a (le_n _) Ha).
    destruct (scan_line a in_array g) as [[ia g']|f]; [|reflexivity].
    cbn [bind]. apply IH; auto; lia.
  - rewrite scan_line_close.
    destruct (scan_line front in_array g) as [[ia g']|f]; [|reflexivity].
    cbn [bind]. rewrite E1, AstFacts.all_chars_app in Ht.
    apply andb_prop in Ht as [_ Ht].
    destruct (read_data_no_digit g' _ t2 (le_n _) Ht ia) as (ia' & ->).
    reflexivity.
Qed.

Lemma all_chars_impl (p q : ascii -> bool) s :
  (forall c, p c = true -> q c = true) ->
  Ast.all_chars p s = true -> Ast.all_chars q s = true.
Proof.
  intros Hpq. induction s as [|c s IH]; simpl; [auto|].
  intros H. apply andb_prop in H as [Hc H]. rewrite (Hpq c Hc). auto.
Qed.

Lemma blank_clean c : is_blank c = true -> is_clean c = true.
Proof.
  unfold is_blank, is_clean. rewrite !andb_true_iff. tauto.
Qed.

Lemma prelude_clean c : is_prelude c = true -> is_clean c = true.
Proof.
  unfold is_prelude, is_clean. rewrite !andb_true_iff. tauto.
Qed.

Lemma digit_clean c : is_digit_char c = true -> is_clean c = true.
Proof.
  intros H. destruct (digit_char_facts c H) as (Hz & _ & Hc & _).
  unfold is_clean. now rewrite Hz, Hc.
Qed.

Lemma join_clean sep values :
  Ast.all_chars is_blank sep = true ->
  Forall (fun x => 0 <= x <= INT_MAX) values ->
  Ast.all_chars is_clean (join sep (map Ast.print_int values)) = true.
Proof.
  intros Hsep Hv. induction Hv as [|x vs Hx Hv IH]; [reflexivity|].
  assert (Hp : Ast.all_chars is_clean (Ast.print_int x) = true).
  { apply (all_chars_impl is_digit_char); [apply digit_clean|].
    apply print_int_digits. lia. }
  destruct vs as [|y vs]; [exact Hp|].
  cbn [map]. rewrite join_cons, !AstFacts.all_chars_app, Hp.
  rewrite (all_chars_impl _ _ sep blank_clean Hsep). exact IH.
Qed.

Lemma parse_data_json_globals text g :
  parse_data_json (Some text) g =
  let* g' := globals_of
               (read_data text false
                  (mkGlobals (original_data g) (work_data g)
                     (expected_data g) 0 (iterations g))) in
  Ret (g', data_size g').
Proof.
  rewrite parse_data_json_eq. unfold globals_of.
  now destruct (read_data text false _) as [[ia g']|f].
Qed.

(** X25. A data file is read back.  Before the array stands any text
    without bracket; the array is an opening bracket, the values in decimal
    with a separator between them that holds no digit, and a closing
    bracket; after the array comes any text without digit; and no line has
    more than 1023 characters.  Then [parse_data_json] stores the values in
    their order at the head of [original_data] and returns their number, or
    writes past the end of the array if there are more values than cells.
    The values are those an [int] holds without sign. *)
Theorem data_file_is_read_back lead pad1 sep pad2 tail values g :
  Forall (fun x => 0 <= x <= INT_MAX) values ->
  Ast.all_chars is_prelude lead = true ->
  Ast.all_chars is_blank pad1 = true ->
  Ast.all_chars is_blank sep = true -> sep <> ""%string ->
  Ast.all_chars is_blank pad2 = true ->
  Ast.all_chars no_digit tail = true ->
  lines_fit (MAX_LINE_SIZE - 1)
    (array_text lead pad1 sep pad2 values ++ String "]" "") = true ->
  parse_data_json
    (Some (array_text lead pad1 sep pad2 values ++ String "]" tail)%string) g =
  if (length values <=? length (original_data g))%nat
  then Ret (mkGlobals (values ++ drop (length values) (original_data g))
              (work_data g) (expected_data g)
              (Z.of_nat (length values)) (iterations g),
            Z.of_nat (length values))
  else Stop OutOfBounds.
Proof.
  intros Hv Hlead Hp1 Hsep Hne Hp2 Htail Hfit.
  rewrite parse_data_json_globals.
  set (g0 := mkGlobals _ _ _ 0 _).
  assert (Hclean : Ast.all_chars is_clean
                     (array_text lead pad1 sep pad2 values) = true).
  { unfold array_text.
    rewrite AstFacts.all_chars_app. cbn [Ast.all_chars].
    rewrite !AstFacts.all_chars_app.
    rewrite (all_chars_impl _ _ lead prelude_clean Hlead).
    rewrite (all_chars_impl _ _ pad1 blank_clean Hp1).
    rewrite (all_chars_impl _ _ pad2 blank_clean Hp2).
    now rewrite join_clean. }
  rewrite (read_data_front tail _ _ (le_n _) Hclean Hfit Htail).
  unfold array_text.
  rewrite scan_line_prelude, scan_line_open, scan_line_blanks by assumption.
  assert (Hc2 : starts_clear pad2 = true).
  { rewrite <- (AstFacts.append_nil_r pad2). apply starts_clear_blanks; auto. }
  rewrite (scan_line_items sep pad2 Hsep Hne Hc2
             values [] (original_data g) g0 Hv eq_refl eq_refl).
  destruct (length values <=? length (original_data g))%nat; [|reflexivity].
  rewrite <- (AstFacts.append_nil_r pad2), scan_line_blanks by assumption.
  reflexivity.
Qed.

Lemma data_file_is_read_back_witness :
  parse_data_json
    (Some (array_text "data = " (String Ast.newline "  ")
             ("," ++ String Ast.newline "  ") (String Ast.newline "")
             [3; 0; 2147483647]
           ++ String "]" (";" ++ String Ast.newline ""))%string)
    sample_globals =
  Ret (mkGlobals [3; 0; 2147483647; 7; 7] [8; 8; 8; 8; 8] [9; 9; 9; 9; 9]
         3 10, 3).
Proof.
  apply (data_file_is_read_back "data = " (String Ast.newline "  ")
           ("," ++ String Ast.newline "  ") (String Ast.newline "")
           (";" ++ String Ast.newline "") [3; 0; 2147483647] sample_globals);
    try reflexivity.
  - repeat apply List.Forall_cons; try apply List.Forall_nil;
      unfold INT_MAX; lia.
  - discriminate.
Defined.

(** ** The configuration *)

(** *** The loop over the lines of the configuration *)

Lemma config_loop_fuel n : forall file,
  (String.length file <= n)%nat ->
  forall fuel g,
    (String.length file <= fuel)%nat ->
    config_loop fuel file g = read_config file g.
Proof.
  induction n as [|n IH]; intros file Hn fuel g Hf.
  - destruct file; [|simpl in Hn; lia]. destruct fuel; reflexivity.
  - destruct file as [|c rest]; [destruct fuel; reflexivity|].
    destruct fuel as [|fuel]; [simpl in Hf; lia|].
    unfold read_config. cbn [String.length config_loop].
    destruct (fgets_cons c rest) as (line & rest' & -> & _ & Hp).
    simpl in Hn, Hf.
    destruct (strstr (c_string line) iterations_key) as [ptr|];
      [destruct (strchr ptr ":"); [reflexivity|]|];
      rewrite !IH by lia; reflexivity.
Qed.

Lemma read_config_eq file g :
  read_config file g =
  match fgets MAX_LINE_SIZE file with
  | None => Ret g
  | Some (line, rest) =>
      match strstr (c_string line) iterations_key with
      | Some ptr =>
          match strchr ptr ":" with
          | Some ptr =>
              Ret (set_iterations g (atoi (skip_blanks (next_char ptr))))
          | None => read_config rest g
          end
      | None => read_config rest g
      end
  end.
Proof.
  destruct file as [|c rest]; [reflexivity|].
  unfold read_config at 1. cbn [String.length config_loop].
  destruct (fgets_cons c rest) as (line & rest' & -> & _ & Hp).
  destruct (strstr (c_string line) iterations_key) as [ptr|];
    [destruct (strchr ptr ":"); [reflexivity|]|];
    now apply (config_loop_fuel _ rest' (le_n _)).
Qed.

(** *** Where the key stands *)

Lemma prefix_app k : forall x y,
  String.prefix k x = true -> String.prefix k (x ++ y) = true.
Proof.
  induction k as [|c k IH]; intros x y H;
    [now destruct (x ++ y)%string|].
  destruct x as [|d x]; [discriminate|]. simpl in *.
  destruct (ascii_dec c d); [now apply IH | discriminate].
Qed.

Lemma strstr_none_app k : forall a b,
  strstr (a ++ b) k = None -> strstr a k = None /\ strstr b k = None.
Proof.
  induction a as [|c a IH]; intros b H.
  - cbn [append] in H. split; [|exact H].
    destruct k; [destruct b; discriminate | reflexivity].
  - cbn [append strstr] in H |- *.
    destruct (String.prefix k (String c (a ++ b))) eqn:E; [discriminate|].
    destruct (String.prefix k (String c a)) eqn:E'.
    + apply (prefix_app k _ b) in E'. cbn [append] in E'. congruence.
    + now apply IH.
Qed.

Lemma c_string_split s : exists rest, s = (c_string s ++ rest)%string.
Proof.
  induction s as [|c s (rest & IH)]; [now exists ""%string|].
  cbn [c_string]. destruct (Ascii.eqb c zero).
  - now exists (String c s).
  - exists rest. cbn [append]. congruence.
Qed.

Lemma c_string_clean a b :
  Ast.all_chars (fun c => negb (Ascii.eqb c zero)) a = true ->
  c_string (a ++ b) = (a ++ c_string b)%string.
Proof.
  induction a as [|c a IH]; [reflexivity|]. simpl. intros H.
  apply andb_prop in H as [Hc H]. apply negb_true_iff in Hc.
  rewrite Hc, IH by assumption. reflexivity.
Qed.

(** Lines without the key are passed over. *)
Lemma read_config_skip rest n : forall pre,
  (String.length pre <= n)%nat -> whole_lines pre = true ->
  strstr pre iterations_key = None ->
  forall g, read_config (pre ++ rest) g = read_config rest g.
Proof.
  induction n as [|n IH]; intros pre Hn Hw Hk g.
  - destruct pre; [reflexivity | simpl in Hn; lia].
  - destruct pre as [|c p]; [reflexivity|].
    rewrite (read_config_eq (String c p ++ rest)).
    cbn [append]. rewrite fgets_unfold.
    destruct (read_line_whole (MAX_LINE_SIZE - 1) (String c p) rest
                ltac:(discriminate) Hw) as [E Hw'].
    cbn [append] in E. rewrite E.
    destruct (fgets_cons c p) as (line & p' & Ef & Es & Hl).
    apply fgets_some in Ef. rewrite Ef in *. cbn [fst snd] in *.
    rewrite Es in Hk. apply strstr_none_app in Hk as [Hk1 Hk2].
    destruct (c_string_split line) as (r & Er).
    rewrite Er in Hk1. apply strstr_none_app in Hk1 as [Hk1 _].
    rewrite Hk1. apply IH; auto. simpl in Hn. lia.
Qed.

(** X26. A configuration in which the key does not stand leaves
    [iterations] as it is, at 10 when nothing else has set it; the function
    still returns 1. *)
Theorem config_without_key text g :
  strstr text iterations_key = None ->
  parse_config_json (Some text) g = Ret (g, 1).
Proof.
  intros Hk. unfold parse_config_json. fold (read_config text g).
  enough (H : forall n text, (String.length text <= n)%nat ->
                strstr text iterations_key = None ->
                read_config text g = Ret g)
    by (now rewrite (H _ text (le_n _) Hk)).
  clear. induction n as [|n IH]; intros text Hn Hk.
  - destruct text; [reflexivity | simpl in Hn; lia].
  - destruct text as [|c r]; [reflexivity|].
    rewrite read_config_eq.
    destruct (fgets_cons c r) as (line & rest & -> & Es & Hl).
    rewrite Es in Hk. apply strstr_none_app in Hk as [Hk1 Hk2].
    destruct (c_string_split line) as (r' & Er).
    rewrite Er in Hk1. apply strstr_none_app in Hk1 as [Hk1 _].
    rewrite Hk1. apply IH; auto. simpl in Hn. lia.
Qed.

Lemma config_without_key_witness :
  parse_config_json (Some ("{" ++ Ast.quoted "runs" ++ ": 3}")%string)
    sample_globals =
  Ret (sample_globals, 1).
Proof.
  apply (config_without_key ("{" ++ Ast.quoted "runs" ++ ": 3}")
           sample_globals).
  reflexivity.
Defined.

Lemma strstr_eq s k :
  strstr s k =
  if String.prefix k s then Some s
  else match s with
       | EmptyString => None
       | String _ rest => strstr rest k
       end.
Proof. destruct s; reflexivity. Qed.

Lemma prefix_refl k : String.prefix k k = true.
Proof.
  induction k as [|c k IH]; [reflexivity|]. simpl.
  destruct (ascii_dec c c); [exact IH | congruence].
Qed.

Lemma prefix_long k : forall x y,
  (String.length k <= String.length x)%nat ->
  String.prefix k (x ++ y) = String.prefix k x.
Proof.
  induction k as [|c k IH]; intros x y H.
  - destruct x; [destruct y|]; reflexivity.
  - destruct x as [|d x]; [simpl in H; lia|]. simpl in *.
    destruct (ascii_dec c d); [apply IH; lia | reflexivity].
Qed.

(** The first place where the key stands does not change when text is
    added after the key. *)
Lemma strstr_found k rest : forall p,
  strstr (p ++ k) k = Some k ->
  strstr (p ++ k ++ rest) k = Some (k ++ rest)%string.
Proof.
  induction p as [|c p IH]; intros H.
  - cbn [append]. rewrite strstr_eq.
    now rewrite (prefix_app k k rest (prefix_refl k)).
  - cbn [append] in *. rewrite strstr_eq in H. rewrite strstr_eq.
    assert (Hp : String.prefix k (String c (p ++ k ++ rest)) =
                 String.prefix k (String c (p ++ k))).
    { change (String c (p ++ k ++ rest))
        with (String c p ++ k ++ rest)%string.
      rewrite <- AstFacts.append_assoc.
      apply prefix_long. cbn [append String.length].
      rewrite string_length_app. lia. }
    rewrite Hp.
    destruct (String.prefix k (String c (p ++ k))).
    + injection H as H. apply (f_equal String.length) in H.
      simpl in H. rewrite string_length_app in H. lia.
    + now apply IH.
Qed.

Lemma strchr_skip rest : forall a,
  Ast.all_chars no_colon a = true ->
  strchr (a ++ String ":" rest) ":" = Some (String ":" rest).
Proof.
  induction a as [|c a IH]; [reflexivity|]. simpl. intros H.
  apply andb_prop in H as [Hc H]. unfold no_colon in Hc.
  apply negb_true_iff in Hc. rewrite Hc. auto.
Qed.

Lemma skip_blanks_pad rest : forall pad,
  Ast.all_chars blank_or_tab pad = true ->
  skip_blanks (pad ++ rest) = skip_blanks rest.
Proof.
  induction pad as [|c pad IH]; [reflexivity|]. simpl. intros H.
  apply andb_prop in H as [Hc H]. unfold blank_or_tab in Hc.
  rewrite Hc. auto.
Qed.

Lemma read_line_within post : forall count a,
  no_newline a = true -> (String.length a <= count)%nat ->
  exists t1 t2,
    post = (t1 ++ t2)%string /\
    read_line count (a ++ post) = ((a ++ t1)%string, t2).
Proof.
  induction count as [|count IH]; intros a Hn Hl.
  - destruct a; [|simpl in Hl; lia]. exists ""%string, post.
    split; [reflexivity|]. now destruct post.
  - destruct a as [|c a].
    + cbn [append].
      exists (fst (read_line (S count) post)), (snd (read_line (S count) post)).
      split; [apply read_line_split|].
      now destruct (read_line (S count) post).
    + unfold no_newline in Hn. simpl in Hn, Hl.
      apply andb_prop in Hn as [Hc Hn]. apply negb_true_iff in Hc.
      destruct (IH a Hn ltac:(lia)) as (t1 & t2 & E1 & E2).
      exists t1, t2. split; [exact E1|].
      cbn [append read_line]. now rewrite Hc, E2.
Qed.

(** *** Numerals as [atoi] reads them *)

Ltac decimal_step :=
  cbn [NilEmpty.string_of_uint append decimal];
  change (is_digit_char _) with true; cbv iota;
  match goal with
  | |- context [digit_value ?c] =>
      let v := eval vm_compute in (digit_value c) in
      change (digit_value c) with v
  end.

Lemma decimal_clear rest acc :
  starts_clear rest = true -> decimal rest acc = acc.
Proof.
  destruct rest as [|c r]; [reflexivity|]. simpl.
  intros H. apply negb_true_iff in H. now rewrite H.
Qed.

Lemma decimal_numeral_acc rest d : forall acc,
  starts_clear rest = true ->
  decimal (NilEmpty.string_of_uint d ++ rest) (Z.pos acc) =
    Z.pos (Pos.of_uint_acc d acc).
Proof.
  induction d; intros acc Hr;
    [now apply decimal_clear| ..];
    decimal_step; cbn [Pos.of_uint_acc];
    match goal with
    | |- decimal _ ?z = Z.pos (Pos.of_uint_acc d ?a) =>
        replace z with (Z.pos a) by lia
    end; now apply IHd.
Qed.

Lemma decimal_numeral rest d :
  starts_clear rest = true ->
  decimal (NilEmpty.string_of_uint d ++ rest) 0 = Z.of_N (Pos.of_uint d).
Proof.
  intros Hr. induction d;
    [now apply decimal_clear| ..];
    decimal_step; cbn [Pos.of_uint Z.mul Z.add];
    [exact IHd | ..]; now apply decimal_numeral_acc.
Qed.

Lemma decimal_positive p rest :
  starts_clear rest = true ->
  decimal (NilZero.string_of_uint (Pos.to_uint p) ++ rest) 0 = Z.pos p.
Proof.
  intros Hr. pose proof (DecimalPos.Unsigned.of_to p) as Hof.
  unfold NilZero.string_of_uint.
  destruct (Pos.to_uint p) eqn:E; [discriminate| ..];
    rewrite decimal_numeral, Hof by assumption; reflexivity.
Qed.

Lemma numeral_head p :
  exists c r, NilZero.string_of_uint (Pos.to_uint p) = String c r /\
              is_digit_char c = true.
Proof.
  pose proof (DecimalPos.Unsigned.of_to p) as Hof.
  unfold NilZero.string_of_uint.
  destruct (Pos.to_uint p); [discriminate| ..]; now eexists _, _.
Qed.

Lemma digit_not_space c :
  is_digit_char c = true ->
  is_space c = false /\ blank_or_tab c = false /\
  Ascii.eqb c "-" = false /\ Ascii.eqb c "+" = false.
Proof.
  destruct c as [[] [] [] [] [] [] [] []]; try discriminate;
    intros _; repeat split; reflexivity.
Qed.

(** [atoi] reads back what ["%d"] prints. *)
Lemma atoi_print_int n rest :
  INT_MIN <= n <= INT_MAX -> starts_clear rest = true ->
  atoi (Ast.print_int n ++ rest) = n /\
  skip_blanks (Ast.print_int n ++ rest) = (Ast.print_int n ++ rest)%string.
Proof.
  intros Hn Hr. unfold Ast.print_int, atoi, strtol.
  assert (Hw : wrap n = n).
  { unfold wrap, INT_MIN, INT_MAX in *. rewrite Z.mod_small; lia. }
  destruct n as [|p|p].
  - cbn [Z.to_int NilZero.string_of_int NilZero.string_of_uint
           NilEmpty.string_of_uint append].
    split; [|reflexivity]. cbn [skip_spaces].
    change (is_space "0") with false. cbv iota.
    change (Ascii.eqb "0" "-") with false.
    change (Ascii.eqb "0" "+") with false. cbv iota.
    cbn [decimal]. change (is_digit_char "0") with true. cbv iota.
    change (0 * 10 + digit_value "0") with 0.
    now rewrite decimal_clear.
  - cbn [Z.to_int NilZero.string_of_int].
    pose proof (decimal_positive p rest Hr) as Hd.
    destruct (numeral_head p) as (c & r & E & Hc).
    rewrite E in *. cbn [append] in *.
    destruct (digit_not_space c Hc) as (Hs & Hb & Hm & Hp).
    cbn [skip_spaces skip_blanks]. unfold blank_or_tab in Hb.
    rewrite Hs, Hb, Hm, Hp, Hd. split; [|reflexivity].
    unfold LONG_MAX, INT_MAX in *. rewrite Z.min_r by lia. exact Hw.
  - cbn [Z.to_int NilZero.string_of_int append].
    pose proof (decimal_positive p rest Hr) as Hd.
    cbn [skip_spaces skip_blanks].
    change (is_space "-") with false.
    change (Ascii.eqb "-" " " || Ascii.eqb "-" Ast.tab) with false.
    cbv iota. change (Ascii.eqb "-" "-") with true. cbv iota.
    rewrite Hd. split; [|reflexivity].
    unfold LONG_MIN, INT_MIN in *. rewrite Z.max_r by lia. exact Hw.
Qed.

Lemma fgets_nonempty size s :
  s <> ""%string -> fgets size s = Some (read_line (size - 1) s).
Proof. destruct s; [congruence | reflexivity]. Qed.

Lemma starts_clear_c_string t1 t2 :
  starts_clear (t1 ++ t2) = true -> starts_clear (c_string t1) = true.
Proof.
  destruct t1 as [|c t1]; [reflexivity|]. simpl.
  destruct (Ascii.eqb c zero); auto.
Qed.

(** X27. The number of iterations is read back from a configuration:
    the key with its quotes, met for the first time, then a colon, blanks
    or tabs and a number as ["%d"] prints it, all on one line of at most
    1023 characters, set [iterations] to that number. *)
Theorem config_is_read_back pre p mid pad post n g :
  whole_lines pre = true ->
  strstr pre iterations_key = None ->
  strstr (p ++ iterations_key) iterations_key = Some iterations_key ->
  Ast.all_chars no_colon mid = true ->
  Ast.all_chars blank_or_tab pad = true ->
  INT_MIN <= n <= INT_MAX ->
  starts_clear post = true ->
  one_line (p ++ config_entry mid pad n) = true ->
  parse_config_json (Some (pre ++ p ++ config_entry mid pad n ++ post)%string) g =
  Ret (set_iterations g n, 1).
Proof.
  intros Hw Hpre Hp Hmid Hpad Hn Hpost Hline.
  unfold parse_config_json.
  fold (read_config (pre ++ p ++ config_entry mid pad n ++ post) g).
  rewrite (read_config_skip _ _ pre (le_n _) Hw Hpre).
  unfold one_line in Hline. rewrite !andb_true_iff in Hline.
  destruct Hline as [[Hnl Hz] Hlen]. apply Nat.leb_le in Hlen.
  rewrite read_config_eq, fgets_nonempty.
  2:{ unfold config_entry, iterations_key, Ast.quoted.
      destruct p; discriminate. }
  rewrite <- AstFacts.append_assoc.
  destruct (read_line_within post _ _ Hnl Hlen) as (t1 & t2 & E1 & E2).
  rewrite E2.
  rewrite (c_string_clean _ t1 Hz).
  unfold config_entry. rewrite !AstFacts.append_assoc.
  rewrite (strstr_found _ _ p Hp).
  rewrite <- (AstFacts.append_assoc iterations_key mid).
  change (String ":" (pad ++ Ast.print_int n) ++ c_string t1)%string
    with (String ":" ((pad ++ Ast.print_int n) ++ c_string t1)).
  rewrite strchr_skip
    by (rewrite AstFacts.all_chars_app, Hmid; reflexivity).
  cbn [next_char]. rewrite AstFacts.append_assoc.
  rewrite skip_blanks_pad by assumption.
  assert (Hc : starts_clear (c_string t1) = true).
  { apply (starts_clear_c_string t1 t2). now rewrite <- E1. }
  destruct (atoi_print_int n (c_string t1) Hn Hc) as [Ea Es].
  rewrite Es, Ea. reflexivity.
Qed.

Lemma config_is_read_back_witness :
  parse_config_json
    (Some (("{" ++ String Ast.newline "") ++ "  "
           ++ config_entry "" " " 250 ++ String Ast.newline "}")%string)
    sample_globals =
  Ret (set_iterations sample_globals 250, 1).
Proof.
  apply (config_is_read_back ("{" ++ String Ast.newline "") "  " "" " "
           (String Ast.newline "}") 250 sample_globals);
    try reflexivity.
  unfold INT_MIN, INT_MAX. lia.
Defined.

(** ** The benchmarks *)

Section BenchmarkLoop.

Variable time : Type.
Variable clock : nat -> time.
Variable minus : time -> time -> time.
Variable later : time -> time -> bool.

Lemma check_results_report_same s r1 r2 :
  check_results_report time (s ++ r1) (s ++ r2) (Z.of_nat (length s)) =
  Ret None.
Proof.
  unfold check_results_report.
  destruct (for_up_inv (fun _ (found : option (message time)) => found = None)
              0 (Z.of_nat (length s))
              (fun i (found : option (message time)) =>
                 match found with
                 | Some _ => Ret found
                 | None =>
                     let* a := array_get (s ++ r1) i in
                     let* b := array_get (s ++ r2) i in
                     if a =? b then Ret None else Ret (Some (Mismatch i b a))
                 end) None) as (found & E & ->); auto; [lia|].
  intros k found Hk ->.
  destruct (lookup_lt_is_Some_2 s (Z.to_nat k)) as [x Hx]; [lia|].
  rewrite (array_get_lookup (s ++ r1) k x)
    by first [lia | now apply lookup_app_l_Some].
  rewrite (array_get_lookup (s ++ r2) k x)
    by first [lia | now apply lookup_app_l_Some].
  cbn [bind]. rewrite Z.eqb_refl. eauto.
Qed.

Lemma copy_array_front values rest_o work rest_w :
  length work = length values ->
  copy_array (work ++ rest_w) (values ++ rest_o) (Z.of_nat (length values)) =
  Ret (values ++ rest_w).
Proof.
  intros Hl. unfold copy_array, for_up.
  rewrite Z.sub_0_r, Nat2Z.id.
  rewrite copy_array_loop by (rewrite length_app; lia).
  rewrite take_app_length. rewrite <- Hl, drop_app_length. reflexivity.
Qed.

Lemma durations_succ start m :
  durations time clock minus start (S m) =
  durations time clock minus start m ++ [nth_duration time clock minus start m].
Proof. unfold durations. now rewrite seq_S, map_app. Qed.

Lemma completed_succ name start m :
  completed time clock minus name start (S m) =
  completed time clock minus name start m ++
  [Completed name (Z.of_nat m + 1) (nth_duration time clock minus start m)].
Proof. unfold completed. now rewrite seq_S, map_app. Qed.

Lemma length_durations start m :
  length (durations time clock minus start m) = m.
Proof. unfold durations. now rewrite length_map, length_seq. Qed.

(** The first [m] iterations of the benchmark loop. *)
Lemma benchmark_loop name sort_func values sorted rest_o rest_w rest_e k :
  sorts_to sort_func values sorted ->
  length sorted = length values ->
  forall m work start out,
    (m <= 1000)%nat -> length work = length values ->
    for_range m 0 (benchmark_body time clock minus name sort_func)
      (mkWorld
         (mkGlobals (values ++ rest_o) (work ++ rest_w) (sorted ++ rest_e)
            (Z.of_nat (length values)) k) start out,
       replicate 1000 None, false) =
    Ret (mkWorld
           (mkGlobals (values ++ rest_o)
              ((if m is O then work else sorted) ++ rest_w)
              (sorted ++ rest_e) (Z.of_nat (length values)) k)
           (start + 2 * m) (out ++ completed time clock minus name start m),
         (Some <$> durations time clock minus start m)
           ++ replicate (1000 - m) None,
         false).
Proof.
  intros Hsort Hls. induction m as [|m IH]; intros work start out Hm Hw.
  - cbn [for_range]. rewrite Nat.add_0_r, app_nil_r. reflexivity.
  - replace (S m) with (m + 1)%nat at 1 by lia.
    rewrite for_range_app, IH by (auto; lia). cbn [bind for_range].
    unfold benchmark_body at 1.
    cbn [globals calls output original_data work_data expected_data
           data_size iterations].
    rewrite copy_array_front by (destruct m; congruence).
    cbn [bind]. rewrite Hsort. cbn [bind].
    replace (check_results_report time (sorted ++ rest_w) (sorted ++ rest_e)
               (Z.of_nat (length values)))
      with (Ret None : run (option (message time)))
      by (rewrite <- Hls; symmetry; apply check_results_report_same).
    cbn [bind].
    replace (1000 - m)%nat with (S (1000 - S m)) by lia.
    cbn [replicate].
    rewrite array_set_middle
      by (rewrite length_fmap, length_durations; lia).
    cbn [bind].
    rewrite completed_succ, durations_succ, fmap_app, <- !app_assoc.
    unfold nth_duration. cbn [fmap list_fmap app].
    replace (start + 2 * S m)%nat with (S (S (start + 2 * m))) by lia.
    replace (0 + Z.of_nat m + 1) with (Z.of_nat m + 1) by lia.
    reflexivity.
Qed.

End BenchmarkLoop.

Lemma sorts_to_cases sort_func values sorted :
  sort_func = bubble_sort \/ sort_func = radix_sort \/ sort_func = quick_sort ->
  Forall in_int_range values ->
  (sort_func = radix_sort -> Forall (fun x => x < 1000000000) values) ->
  (0 < length values)%nat -> Z.of_nat (length values) <= MAX_DATA_SIZE ->
  sorted ≡ₚ values -> StronglySorted Z.le sorted ->
  sorts_to sort_func values sorted.
Proof.
  intros Hf Hv Hsmall Hne Hmax Hp Hs rest.
  assert (Hu : forall s, s ≡ₚ values -> StronglySorted Z.le s -> s = sorted).
  { intros s Hps Hss. apply (StronglySorted_unique Z.le); auto.
    now rewrite Hps, Hp. }
  destruct Hf as [->|[->| ->]].
  - destruct (bubble_sort_spec values rest) as (s & -> & Hps & Hss).
    now rewrite (Hu s).
  - destruct (radix_sort_spec values rest) as (s & -> & Hps & Hss); auto.
    now rewrite (Hu s).
  - destruct (quick_sort_spec values rest) as (s & -> & Hps & Hss).
    now rewrite (Hu s).
Qed.

Lemma split_pair {A : Type} (l : list A) j :
  (S j < length l)%nat ->
  exists l1 a b l2, l = l1 ++ a :: b :: l2 /\ length l1 = j.
Proof.
  intros H. exists (take j l).
  destruct (drop j l) as [|a [|b l2]] eqn:E;
    pose proof (f_equal length E) as El; rewrite length_drop in El;
    simpl in El; try lia.
  exists a, b, l2. split; [|rewrite length_take; lia].
  now rewrite <- E, take_drop.
Qed.

Section MedianLoops.

Variable time : Type.
Variable clock : nat -> time.
Variable minus : time -> time -> time.
Variable later : time -> time -> bool.

Lemma read_time_middle (l1 : list (option time)) t l2 i :
  i = Z.of_nat (length l1) ->
  read_time time (l1 ++ Some t :: l2) i = Ret t.
Proof.
  intros Hi. unfold read_time. now rewrite array_get_middle.
Qed.

(** One turn of the inner loop of the median computation keeps the
    measured durations, in some order. *)
Lemma median_inner perm pad j :
  (S j < length perm)%nat ->
  exists perm',
    median_inner_body time later (Z.of_nat j) ((Some <$> perm) ++ pad) =
      Ret ((Some <$> perm') ++ pad) /\
    perm' ≡ₚ perm.
Proof.
  intros Hj. destruct (split_pair perm j Hj) as (l1 & a & b & l2 & -> & Hl).
  unfold median_inner_body.
  rewrite fmap_app, <- app_assoc. cbn [fmap list_fmap app].
  change (list_fmap time (option time) Some) with (fmap (M:=list) (@Some time)).
  rewrite read_time_middle by (rewrite length_fmap; lia). cbn [bind].
  replace ((Some <$> l1) ++ Some a :: Some b :: (Some <$> l2) ++ pad)
    with (((Some <$> l1) ++ [Some a]) ++ Some b :: (Some <$> l2) ++ pad)
    by now rewrite <- app_assoc.
  rewrite read_time_middle
    by (rewrite length_app, length_fmap; simpl; lia).
  cbn [bind]. destruct (later a b).
  - rewrite <- app_assoc. cbn [app].
    rewrite array_set_middle by (rewrite length_fmap; lia). cbn [bind].
    replace ((Some <$> l1) ++ Some b :: Some b :: (Some <$> l2) ++ pad)
      with (((Some <$> l1) ++ [Some b]) ++ Some b :: (Some <$> l2) ++ pad)
      by now rewrite <- app_assoc.
    rewrite array_set_middle
      by (rewrite length_app, length_fmap; simpl; lia).
    exists (l1 ++ b :: a :: l2). split.
    + rewrite fmap_app, <- !app_assoc. reflexivity.
    + apply Permutation_app_head, perm_swap.
  - exists (l1 ++ a :: b :: l2). split; [|reflexivity].
    rewrite fmap_app, <- !app_assoc. reflexivity.
Qed.

(** The two loops of the median computation. *)
Lemma median_sort perm pad k :
  Z.of_nat (length perm) = k -> 0 < k <= 1000 ->
  exists perm',
    for_up 0 (wrap (k - 1))
      (fun i times =>
         for_up 0 (wrap (wrap (k - i) - 1))
           (median_inner_body time later) times)
      ((Some <$> perm) ++ pad) =
      Ret ((Some <$> perm') ++ pad) /\
    perm' ≡ₚ perm.
Proof.
  intros Hk Hr.
  rewrite wrap_id by (unfold INT_MAX; lia).
  destruct (for_up_inv
              (fun _ times =>
                 exists perm', times = (Some <$> perm') ++ pad /\ perm' ≡ₚ perm)
              0 (k - 1)
              (fun i times =>
                 for_up 0 (wrap (wrap (k - i) - 1))
                   (median_inner_body time later) times)
              ((Some <$> perm) ++ pad))
    as (times & E & perm' & -> & Hp); [lia | now exists perm | | eauto].
  intros i times Hi (p1 & -> & Hp1).
  rewrite (wrap_id (k - i)), (wrap_id (k - i - 1)) by (unfold INT_MAX; lia).
  apply (for_up_inv
           (fun _ times =>
              exists perm', times = (Some <$> perm') ++ pad /\ perm' ≡ₚ perm));
    [lia | now exists p1 |].
  intros j times Hj (p2 & -> & Hp2).
  destruct (median_inner p2 pad (Z.to_nat j)) as (p3 & E3 & Hp3).
  { rewrite Hp2. lia. }
  rewrite Z2Nat.id in E3 by lia.
  exists ((Some <$> p3) ++ pad). split; [exact E3|].
  exists p3. split; [reflexivity | now rewrite Hp3].
Qed.

End MedianLoops.

Lemma wrap_int z : INT_MIN <= z <= INT_MAX -> wrap z = z.
Proof.
  unfold INT_MIN, INT_MAX, wrap. intros H. rewrite Z.mod_small; lia.
Qed.

Section Benchmarks.

Variable time : Type.
Variable clock : nat -> time.
Variable minus : time -> time -> time.
Variable later : time -> time -> bool.

(** A benchmark of a routine that sorts the data. *)
Lemma run_benchmark_runs name sort_func values sorted rest_o rest_w rest_e
    work k start out :
  sorts_to sort_func values sorted ->
  length sorted = length values -> length work = length values ->
  0 < k <= 1000 ->
  exists median,
    run_benchmark time clock minus later name sort_func
      (mkWorld
         (mkGlobals (values ++ rest_o) (work ++ rest_w) (sorted ++ rest_e)
            (Z.of_nat (length values)) k) start out) =
    Ret (mkWorld
           (mkGlobals (values ++ rest_o) (sorted ++ rest_w) (sorted ++ rest_e)
              (Z.of_nat (length values)) k)
           (start + 2 * Z.to_nat k)
           (out ++ completed time clock minus name start (Z.to_nat k)
                ++ [Median name median])) /\
    In median (durations time clock minus start (Z.to_nat k)).
Proof.
  intros Hsort Hls Hlw Hk. unfold run_benchmark.
  cbn [globals iterations]. unfold for_up at 1. rewrite Z.sub_0_r.
  rewrite (benchmark_loop time clock minus name sort_func values sorted
             rest_o rest_w rest_e k Hsort Hls) by (auto; lia).
  cbn [bind].
  destruct (median_sort time later
              (durations time clock minus start (Z.to_nat k))
              (replicate (1000 - Z.to_nat k) None) k)
    as (perm & E & Hp); [rewrite length_durations; lia | exact Hk |].
  rewrite E. cbn [bind].
  assert (Hq : 0 <= Z.quot k 2 < k).
  { split; [apply Z.quot_pos; lia | apply Z.quot_lt; lia]. }
  assert (Hlen : length perm = Z.to_nat k).
  { rewrite Hp. apply length_durations. }
  destruct (lookup_lt_is_Some_2 perm (Z.to_nat (Z.quot k 2))) as [median Hm];
    [lia|].
  exists median. split.
  - unfold read_time.
    rewrite (array_get_lookup _ _ (Some median)); [| lia |].
    2:{ apply lookup_app_l_Some. now rewrite list_lookup_fmap, Hm. }
    cbn [bind globals calls output].
    destruct (Z.to_nat k) eqn:Ek; [lia|].
    rewrite <- app_assoc. reflexivity.
  - apply list_elem_of_In. rewrite <- Hp.
    now apply list_elem_of_lookup_2 in Hm.
Qed.

(** X28. On data without negative value, all below [10^9] when the
    routine is [radix_sort], with the sorted data in [expected_data] and
    between 1 and 1000 iterations, a benchmark of any of the three routines
    runs every iteration, never reports a failed validation, leaves the
    sorted data in [work_data] and prints as median one of the durations it
    measured. *)
Theorem benchmark_validates name sort_func values sorted rest_o rest_w rest_e
    work k start out :
  sort_func = bubble_sort \/ sort_func = radix_sort \/ sort_func = quick_sort ->
  Forall in_int_range values ->
  (sort_func = radix_sort -> Forall (fun x => x < 1000000000) values) ->
  (0 < length values)%nat -> Z.of_nat (length values) <= MAX_DATA_SIZE ->
  sorted ≡ₚ values -> StronglySorted Z.le sorted ->
  length work = length values ->
  0 < k <= 1000 ->
  exists median,
    run_benchmark time clock minus later name sort_func
      (mkWorld
         (mkGlobals (values ++ rest_o) (work ++ rest_w) (sorted ++ rest_e)
            (Z.of_nat (length values)) k) start out) =
    Ret (mkWorld
           (mkGlobals (values ++ rest_o) (sorted ++ rest_w) (sorted ++ rest_e)
              (Z.of_nat (length values)) k)
           (start + 2 * Z.to_nat k)
           (out ++ completed time clock minus name start (Z.to_nat k)
                ++ [Median name median])) /\
    In median (durations time clock minus start (Z.to_nat k)).
Proof.
  intros Hf Hv Hsmall Hne Hmax Hp Hs Hw Hk.
  apply run_benchmark_runs; auto.
  - now apply sorts_to_cases.
  - now rewrite Hp.
Qed.

(** X29. The number of iterations is not checked against the 1000
    cells of [iterations_times].  With more than 1000 iterations the 1001st
    duration is written past the end of the array; with none the median is
    read from a cell that was never written, or, from -2 downwards, from
    before the array.  The one run that does not get that far is a benchmark
    of [radix_sort] on a value of [10^9] or more with more than 1000
    iterations, which stops in its first iteration, at the product
    [exp *= 10] of the routine. *)
Theorem iterations_out_of_range name sort_func values sorted rest_o rest_w
    rest_e work k start out :
  sort_func = bubble_sort \/ sort_func = radix_sort \/ sort_func = quick_sort ->
  Forall in_int_range values ->
  (0 < length values)%nat -> Z.of_nat (length values) <= MAX_DATA_SIZE ->
  sorted ≡ₚ values -> StronglySorted Z.le sorted ->
  length work = length values ->
  INT_MIN < k -> k <= 0 \/ 1000 < k ->
  (k <= 0 \/
   (sort_func = radix_sort -> Forall (fun x => x < 1000000000) values) ->
   run_benchmark time clock minus later name sort_func
     (mkWorld
        (mkGlobals (values ++ rest_o) (work ++ rest_w) (sorted ++ rest_e)
           (Z.of_nat (length values)) k) start out) =
   Stop (if (k =? 0) || (k =? -1) then Uninitialised else OutOfBounds)) /\
  (1000 < k -> sort_func = radix_sort ->
   Exists (fun x => 1000000000 <= x) values ->
   run_benchmark time clock minus later name sort_func
     (mkWorld
        (mkGlobals (values ++ rest_o) (work ++ rest_w) (sorted ++ rest_e)
           (Z.of_nat (length values)) k) start out) =
   Stop SignedOverflow).
Proof.
  intros Hf Hv Hne Hmax Hp Hs Hw Hmin Hrange. split.
  2:{ intros Hk -> Hbig. unfold run_benchmark.
      cbn [globals iterations]. unfold for_up at 1. rewrite Z.sub_0_r.
      replace (Z.to_nat k) with (S (Z.to_nat k - 1)) by lia.
      cbn [for_range]. unfold benchmark_body at 1.
      cbn [globals calls output original_data work_data expected_data
             data_size iterations].
      rewrite copy_array_front by exact Hw. cbn [bind].
      now rewrite radix_sort_overflow. }
  intros Hsmall.
  assert (Hcases : k <= 0 \/
            (1000 < k /\
             (sort_func = radix_sort ->
              Forall (fun x => x < 1000000000) values))).
  { destruct Hrange as [Hk|Hk]; [now left|].
    destruct Hsmall as [Hk'|Hsmall]; [lia | now right]. }
  clear Hrange Hsmall.
  destruct Hcases as [Hk|[Hk Hsmall]]; unfold run_benchmark;
    cbn [globals iterations]; unfold for_up at 1; rewrite Z.sub_0_r.
  - replace (Z.to_nat k) with 0%nat by lia. cbn [for_range bind].
    rewrite wrap_int by (unfold INT_MIN, INT_MAX in *; lia).
    unfold for_up at 1. replace (Z.to_nat (k - 1 - 0)) with 0%nat by lia.
    cbn [for_range bind]. unfold read_time, array_get.
    destruct (Z.eqb_spec k 0) as [->|H0]; [reflexivity|].
    destruct (Z.eqb_spec k (-1)) as [->|H1]; [reflexivity|].
    cbn [orb].
    assert (Z.quot k 2 < 0).
    { assert (Hq : Z.quot k 2 <= Z.quot (-2) 2)
        by (apply Z.quot_le_mono; lia).
      change (Z.quot (-2) 2) with (-1) in Hq. lia. }
    destruct (Z.ltb_spec (Z.quot k 2) 0); [reflexivity | lia].
  - assert (Hsort : sorts_to sort_func values sorted)
      by now apply sorts_to_cases.
    assert (Hls : length sorted = length values) by now rewrite Hp.
    replace (Z.to_nat k) with (1000 + S (Z.to_nat k - 1001))%nat by lia.
    rewrite for_range_app.
    rewrite (benchmark_loop time clock minus name sort_func values sorted
               rest_o rest_w rest_e k Hsort Hls) by (auto; lia).
    cbn [bind for_range]. unfold benchmark_body at 1.
    cbn [globals calls output original_data work_data expected_data
           data_size iterations].
    rewrite copy_array_front by exact Hls.
    cbn [bind]. rewrite Hsort. cbn [bind].
    replace (check_results_report time (sorted ++ rest_w) (sorted ++ rest_e)
               (Z.of_nat (length values)))
      with (Ret None : run (option (message time)))
      by (rewrite <- Hls; symmetry; apply check_results_report_same).
    cbn [bind]. unfold array_set.
    rewrite length_app, length_fmap, length_durations, length_replicate.
    replace (Z.of_nat (1000 + (1000 - 1000)%nat)) with 1000 by lia.
    replace (0 + Z.of_nat 1000) with 1000 by lia.
    cbn [Z.leb Z.ltb Z.compare Pos.compare Pos.compare_cont andb bind].
    destruct (Z.eqb_spec k 0); [lia|]. destruct (Z.eqb_spec k (-1)); [lia|].
    reflexivity.
Qed.

End Benchmarks.

Lemma benchmark_validates_witness :
  exists median,
    run_benchmark Z (fun n => 5 * Z.of_nat n) Z.sub Z.gtb "Radix sort"
      radix_sort
      (mkWorld
         (mkGlobals ([2; 1; 3] ++ [7; 7]) ([8; 8; 8] ++ [8; 8])
            ([1; 2; 3] ++ [9; 9]) (Z.of_nat (length [2; 1; 3])) 2) 0 []) =
    Ret (mkWorld
           (mkGlobals ([2; 1; 3] ++ [7; 7]) ([1; 2; 3] ++ [8; 8])
              ([1; 2; 3] ++ [9; 9]) (Z.of_nat (length [2; 1; 3])) 2)
           (0 + 2 * Z.to_nat 2)
           ([] ++ completed Z (fun n => 5 * Z.of_nat n) Z.sub "Radix sort"
                    0 (Z.to_nat 2)
               ++ [Median "Radix sort" median])) /\
    In median (durations Z (fun n => 5 * Z.of_nat n) Z.sub 0 (Z.to_nat 2)).
Proof.
  apply (benchmark_validates Z (fun n => 5 * Z.of_nat n) Z.sub Z.gtb
           "Radix sort" radix_sort [2; 1; 3] [1; 2; 3] [7; 7] [8; 8] [9; 9]
           [8; 8; 8] 2 0 []).
  - right. left. reflexivity.
  - repeat apply List.Forall_cons; try apply List.Forall_nil;
      unfold in_int_range, INT_MAX; lia.
  - intros _. repeat apply List.Forall_cons; try apply List.Forall_nil; lia.
  - simpl. lia.
  - unfold MAX_DATA_SIZE. simpl. lia.
  - apply perm_swap.
  - repeat (apply SSorted_cons || apply SSorted_nil
            || apply List.Forall_cons || apply List.Forall_nil); lia.
  - reflexivity.
  - lia.
Defined.

Lemma iterations_out_of_range_witness :
  run_benchmark Z (fun n => 5 * Z.of_nat n) Z.sub Z.gtb "Radix sort"
    radix_sort
    (mkWorld
       (mkGlobals ([2; 1; 3] ++ [7; 7]) ([8; 8; 8] ++ [8; 8])
          ([1; 2; 3] ++ [9; 9]) (Z.of_nat (length [2; 1; 3])) 0) 0 []) =
  Stop Uninitialised.
Proof.
  apply (iterations_out_of_range Z (fun n => 5 * Z.of_nat n) Z.sub Z.gtb
           "Radix sort" radix_sort [2; 1; 3] [1; 2; 3] [7; 7] [8; 8] [9; 9]
           [8; 8; 8] 0 0 []).
  - right. left. reflexivity.
  - repeat apply List.Forall_cons; try apply List.Forall_nil;
      unfold in_int_range, INT_MAX; lia.
  - simpl. lia.
  - unfold MAX_DATA_SIZE. simpl. lia.
  - apply perm_swap.
  - repeat (apply SSorted_cons || apply SSorted_nil
            || apply List.Forall_cons || apply List.Forall_nil); lia.
  - reflexivity.
  - unfold INT_MIN. lia.
  - left. lia.
  - left. lia.
Defined.

Section Program.

Variable time : Type.
Variable clock : nat -> time.
Variable minus : time -> time -> time.
Variable later : time -> time -> bool.

(** X30. The whole program.  When both files are read, the data hold no
    negative value and no value of [10^9] or more, and the configuration
    asks for 1 to 1000 iterations,
    [main] sorts the data into [expected_data], runs the three benchmarks
    in turn, each through all its iterations and without any failed
    validation, and exits with status 0.  What it prints is the line about
    the data, then for each routine one line for each iteration and the
    line of the median. *)
Theorem main_validates data_json config_json g0 g1 values rest_o work rest_w
    old rest_e k :
  parse_data_json data_json g0 = Ret (g1, Z.of_nat (length values)) ->
  parse_config_json config_json g1 =
    Ret (mkGlobals (values ++ rest_o) (work ++ rest_w) (old ++ rest_e)
           (Z.of_nat (length values)) k, 1) ->
  Forall in_int_range values ->
  Forall (fun x => x < 1000000000) values ->
  (0 < length values)%nat -> Z.of_nat (length values) <= MAX_DATA_SIZE ->
  length work = length values -> length old = length values ->
  0 < k <= 1000 ->
  exists sorted m1 m2 m3,
    sorted ≡ₚ values /\ StronglySorted Z.le sorted /\
    main time clock minus later data_json config_json g0 =
    Ret (mkWorld
           (mkGlobals (values ++ rest_o) (sorted ++ rest_w) (sorted ++ rest_e)
              (Z.of_nat (length values)) k)
           (6 * Z.to_nat k)
           ([Loaded (Z.of_nat (length values)) k]
            ++ completed time clock minus "Bubble sort" 0 (Z.to_nat k)
            ++ [Median "Bubble sort" m1]
            ++ completed time clock minus "Radix sort"
                 (2 * Z.to_nat k) (Z.to_nat k)
            ++ [Median "Radix sort" m2]
            ++ completed time clock minus "Quick sort"
                 (4 * Z.to_nat k) (Z.to_nat k)
            ++ [Median "Quick sort" m3]),
         0).
Proof.
  intros Hd Hc Hv Hsmall Hne Hmax Hw Ho Hk.
  destruct (quick_sort_spec values rest_e) as (sorted & Eq & Hp & Hs).
  assert (Hls : length sorted = length values) by now rewrite Hp.
  assert (Hsorts : forall f,
            f = bubble_sort \/ f = radix_sort \/ f = quick_sort ->
            sorts_to f values sorted)
    by (intros f Hf; now apply sorts_to_cases).
  destruct (run_benchmark_runs time clock minus later "Bubble sort"
              bubble_sort values sorted rest_o rest_w rest_e work k 0
              [Loaded (Z.of_nat (length values)) k])
    as (m1 & E1 & _); auto.
  destruct (run_benchmark_runs time clock minus later "Radix sort"
              radix_sort values sorted rest_o rest_w rest_e sorted k
              (0 + 2 * Z.to_nat k)
              ([Loaded (Z.of_nat (length values)) k]
               ++ completed time clock minus "Bubble sort" 0 (Z.to_nat k)
               ++ [Median "Bubble sort" m1]))
    as (m2 & E2 & _); auto.
  destruct (run_benchmark_runs time clock minus later "Quick sort"
              quick_sort values sorted rest_o rest_w rest_e sorted k
              (0 + 2 * Z.to_nat k + 2 * Z.to_nat k)
              (([Loaded (Z.of_nat (length values)) k]
                ++ completed time clock minus "Bubble sort" 0 (Z.to_nat k)
                ++ [Median "Bubble sort" m1])
               ++ completed time clock minus "Radix sort"
                    (0 + 2 * Z.to_nat k) (Z.to_nat k)
               ++ [Median "Radix sort" m2]))
    as (m3 & E3 & _); auto.
  exists sorted, m1, m2, m3. split; [exact Hp|]. split; [exact Hs|].
  unfold main. rewrite Hd. cbn [bind].
  destruct (Z.eqb_spec (Z.of_nat (length values)) 0) as [E0|_]; [lia|].
  rewrite Hc. cbn [bind]. change (1 =? 0) with false. cbv iota.
  cbn [original_data work_data expected_data data_size iterations].
  rewrite copy_array_front by exact Ho. cbn [bind].
  rewrite Eq. cbn [bind].
  destruct data_json as [data|];
    [|cbn in Hd; injection Hd as _ Hd; lia].
  destruct config_json as [config|]; [|cbn in Hc; congruence].
  cbn [app] in *. rewrite E1. cbn [bind]. rewrite E2. cbn [bind].
  rewrite E3. cbn [bind]. do 2 f_equal.
  f_equal; [lia|].
  rewrite <- !app_assoc. cbn [app]. do 3 f_equal.
  replace (0 + 2 * Z.to_nat k)%nat with (2 * Z.to_nat k)%nat by lia.
  do 3 f_equal.
  replace (2 * Z.to_nat k + 2 * Z.to_nat k)%nat
    with (4 * Z.to_nat k)%nat by lia.
  reflexivity.
Qed.

End Program.

Lemma main_validates_witness :
  exists sorted m1 m2 m3,
    sorted ≡ₚ [2; 1; 3] /\ StronglySorted Z.le sorted /\
    main Z (fun n => 5 * Z.of_nat n) Z.sub Z.gtb
      (Some "[2,1,3]"%string) (Some (config_entry "" " " 2)) sample_globals =
    Ret (mkWorld
           (mkGlobals ([2; 1; 3] ++ [7; 7]) (sorted ++ [8; 8])
              (sorted ++ [9; 9]) (Z.of_nat (length [2; 1; 3])) 2)
           (6 * Z.to_nat 2)
           ([Loaded (Z.of_nat (length [2; 1; 3])) 2]
            ++ completed Z (fun n => 5 * Z.of_nat n) Z.sub "Bubble sort" 0
                 (Z.to_nat 2)
            ++ [Median "Bubble sort" m1]
            ++ completed Z (fun n => 5 * Z.of_nat n) Z.sub "Radix sort"
                 (2 * Z.to_nat 2) (Z.to_nat 2)
            ++ [Median "Radix sort" m2]
            ++ completed Z (fun n => 5 * Z.of_nat n) Z.sub "Quick sort"
                 (4 * Z.to_nat 2) (Z.to_nat 2)
            ++ [Median "Quick sort" m3]),
         0).
Proof.
  apply (main_validates Z (fun n => 5 * Z.of_nat n) Z.sub Z.gtb
           (Some "[2,1,3]"%string) (Some (config_entry "" " " 2))
           sample_globals
           (mkGlobals [2; 1; 3; 7; 7] [8; 8; 8; 8; 8] [9; 9; 9; 9; 9] 3 10)
           [2; 1; 3] [7; 7] [8; 8; 8] [8; 8] [9; 9; 9] [9; 9] 2).
  - vm_compute. reflexivity.
  - vm_compute. reflexivity.
  - repeat apply List.Forall_cons; try apply List.Forall_nil;
      unfold in_int_range, INT_MAX; lia.
  - repeat apply List.Forall_cons; try apply List.Forall_nil; lia.
  - simpl. lia.
  - unfold MAX_DATA_SIZE. simpl. lia.
  - reflexivity.
  - reflexivity.
  - lia.
Defined.

End BenchFacts.
